(** * mu_json / mu_jems: a shallow embedding of the tokenizer, the token
      navigator and the emitter, and the properties proved about them.

    Sources embedded: [src/mu_json.c], [src/mu_json.h], [src/mu_jems.c],
    [src/mu_jems.h].

    Conventions.
    - A C [char] is an [ascii]; [code c] is its value as an unsigned byte.
      Every comparison the sources make gives the same answer for a signed
      and for an unsigned [char] (the only ordered test on a possibly
      high-bit byte, [ch < 0x20] in [parse_string], is reached after
      [ch & 0x80] has been tested), so the unsigned reading is used.
    - A C [int] that the code never lets overflow is a [Z]: [str_pos] is
      only advanced below [str_len], [token_count] below [max_tokens], and
      [level] at most once per consumed byte.
    - Bit fields and [size_t] wrap, and the wrap is written out.
    - A pointer into the input is an offset ([None] is [NULL]); a pointer
      to a token is an index into the token store.
    - The log macros ([MU_LOG_DEBUG], [MU_LOG_TRACE]) have no effect on the
      results and are left out. *)

From Stdlib Require Import ZArith Ascii String DecimalString Lia.
From Stdlib Require DecimalPos DecimalFacts.
From Stdlib Require Import Floats.PrimFloat Floats.SpecFloat Floats.FloatOps.
From stdpp Require Import base list relations.

Open Scope Z_scope.

(* ===================================================================== *)
(** * Characters *)

Definition code (c : ascii) : Z := Z.of_N (N_of_ascii c).

Definition NUL : ascii := "000"%char.
Definition ch_quote : ascii := "034"%char.
Definition ch_backslash : ascii := "092"%char.

(** [text s] is the byte sequence of [s] with every apostrophe replaced by
    a double quote, for writing JSON inputs legibly. *)
Definition text (s : string) : list ascii :=
  map (fun c => if Ascii.eqb c "'" then ch_quote else c)
      (list_ascii_of_string s).

(** [ch & 0x80] *)
Definition high_bit (ch : ascii) : bool := negb (Z.land (code ch) 128 =? 0).

Definition is_digit (ch : ascii) : bool :=
  (code "0" <=? code ch) && (code ch <=? code "9").

Definition is_hex (ch : ascii) : bool :=
  ((code "0" <=? code ch) && (code ch <=? code "9"))
  || ((code "A" <=? code ch) && (code ch <=? code "F"))
  || ((code "a" <=? code ch) && (code ch <=? code "f")).

Definition is_number_prefix (ch : ascii) : bool :=
  Ascii.eqb ch "-" || ((code "0" <=? code ch) && (code ch <=? code "9")).

(** The four bytes [skip_whitespace] steps over. *)
Definition is_space (ch : ascii) : bool :=
  Ascii.eqb ch " " || Ascii.eqb ch "009" || Ascii.eqb ch "010"
  || Ascii.eqb ch "013".

(* ===================================================================== *)
(** * [mu_json.h]: error codes, token types, tokens *)

Inductive mu_json_err_t : Type :=
  | MU_JSON_ERR_NONE
  | MU_JSON_ERR_BAD_FORMAT
  | MU_JSON_ERR_INCOMPLETE
  | MU_JSON_ERR_NO_ENTITIES
  | MU_JSON_ERR_STRAY_INPUT
  | MU_JSON_ERR_NOT_ENOUGH_TOKENS
  | MU_JSON_ERR_BAD_ARGUMENT
  | MU_JSON_ERR_TOO_DEEP
  | MU_JSON_ERR_NO_MULTIBYTE
  | MU_JSON_ERR_INTERNAL.

(** The value of each enumerator ([DEFINE_MU_JSON_ERRORS]). *)
Definition err_value (e : mu_json_err_t) : Z :=
  match e with
  | MU_JSON_ERR_NONE => 0
  | MU_JSON_ERR_BAD_FORMAT => -1
  | MU_JSON_ERR_INCOMPLETE => -2
  | MU_JSON_ERR_NO_ENTITIES => -3
  | MU_JSON_ERR_STRAY_INPUT => -4
  | MU_JSON_ERR_NOT_ENOUGH_TOKENS => -5
  | MU_JSON_ERR_BAD_ARGUMENT => -6
  | MU_JSON_ERR_TOO_DEEP => -7
  | MU_JSON_ERR_NO_MULTIBYTE => -8
  | MU_JSON_ERR_INTERNAL => -9
  end.

Definition is_none (e : mu_json_err_t) : bool :=
  match e with MU_JSON_ERR_NONE => true | _ => false end.

Inductive mu_json_token_type_t : Type :=
  | MU_JSON_TOKEN_TYPE_UNKNOWN
  | MU_JSON_TOKEN_TYPE_ARRAY
  | MU_JSON_TOKEN_TYPE_OBJECT
  | MU_JSON_TOKEN_TYPE_STRING
  | MU_JSON_TOKEN_TYPE_NUMBER
  | MU_JSON_TOKEN_TYPE_INTEGER
  | MU_JSON_TOKEN_TYPE_TRUE
  | MU_JSON_TOKEN_TYPE_FALSE
  | MU_JSON_TOKEN_TYPE_NULL.

(** [mu_json_token_t]: [str] points into the input; the other four fields
    are bit fields of 16, 4, 11 and 1 bits. *)
Record mu_json_token_t : Type := mk_token {
  str : option Z;
  str_len : Z;
  type : mu_json_token_type_t;
  level : Z;
  is_last : bool
}.

(** A token after [memset(..., 0, ...)]. *)
Definition zero_token : mu_json_token_t :=
  mk_token None 0 MU_JSON_TOKEN_TYPE_UNKNOWN 0 false.

Definition set_token_string (t : mu_json_token_t) (s : Z) :=
  mk_token (Some s) (str_len t) (type t) (level t) (is_last t).

(** [str_len] has 16 bits. *)
Definition set_token_string_length (t : mu_json_token_t) (n : Z) :=
  mk_token (str t) (n mod 2 ^ 16) (type t) (level t) (is_last t).

Definition set_token_type (t : mu_json_token_t) (ty : mu_json_token_type_t) :=
  mk_token (str t) (str_len t) ty (level t) (is_last t).

(** [level] has 11 bits. *)
Definition set_token_level (t : mu_json_token_t) (l : Z) :=
  mk_token (str t) (str_len t) (type t) (l mod 2 ^ 11) (is_last t).

Definition set_token_is_last (t : mu_json_token_t) (b : bool) :=
  mk_token (str t) (str_len t) (type t) (level t) b.

(* ===================================================================== *)
(** * [mu_json.c]: the parser state *)

(** [parser_t].  The field [current_token] is written once by
    [parser_reset] and never read, and is left out. *)
Record parser : Type := mk_parser {
  p_str : list ascii;
  p_str_len : Z;
  p_str_pos : Z;
  p_token_store : list mu_json_token_t;
  p_max_tokens : Z;
  p_token_count : Z;
  p_level : Z
}.

Definition set_pos (p : parser) (pos : Z) : parser :=
  mk_parser (p_str p) (p_str_len p) pos (p_token_store p) (p_max_tokens p)
            (p_token_count p) (p_level p).

Definition set_store (p : parser) (st : list mu_json_token_t) : parser :=
  mk_parser (p_str p) (p_str_len p) (p_str_pos p) st (p_max_tokens p)
            (p_token_count p) (p_level p).

Definition set_count (p : parser) (n : Z) : parser :=
  mk_parser (p_str p) (p_str_len p) (p_str_pos p) (p_token_store p)
            (p_max_tokens p) n (p_level p).

Definition set_level (p : parser) (l : Z) : parser :=
  mk_parser (p_str p) (p_str_len p) (p_str_pos p) (p_token_store p)
            (p_max_tokens p) (p_token_count p) l.

Definition at_eos (p : parser) : bool := p_str_len p <=? p_str_pos p.

(** [p->str[p->str_pos]].  The sources read only below [str_len]; a read
    outside the buffer, which C leaves undefined, yields [NUL] here. *)
Definition peek_char (p : parser) : ascii :=
  default NUL (p_str p !! Z.to_nat (p_str_pos p)).

(** The state after [get_char(p)]; the byte fetched is [peek_char p]. *)
Definition get_char (p : parser) : parser := set_pos p (p_str_pos p + 1).

(** [ref_char(p)], as an offset from [p->str]. *)
Definition ref_char (p : parser) : Z := p_str_pos p.

(** Number of bytes between the read position and the end of the input. *)
Definition remaining (p : parser) : nat :=
  Z.to_nat (p_str_len p - p_str_pos p).

(** Assignment through a token pointer. *)
Definition update_token (p : parser) (tok : nat)
    (f : mu_json_token_t -> mu_json_token_t) : parser :=
  set_store p (alter f tok (p_token_store p)).

Definition token_at (st : list mu_json_token_t) (tok : nat) : mu_json_token_t :=
  default zero_token (st !! tok).

(** The loop of [skip_whitespace].  [n] bounds the number of iterations;
    each one consumes a byte, so [remaining p] iterations reach the end of
    the input. *)
Fixpoint skip_whitespace_loop (n : nat) (p : parser) : parser :=
  match n with
  | O => p
  | S n' =>
      if at_eos p then p
      else if is_space (peek_char p) then skip_whitespace_loop n' (get_char p)
      else p
  end.

Definition skip_whitespace (p : parser) : parser :=
  skip_whitespace_loop (remaining p) p.

Definition alloc_token (p : parser) : option (nat * parser) :=
  if p_max_tokens p <=? p_token_count p then None
  else Some (Z.to_nat (p_token_count p), set_count p (p_token_count p + 1)).

Definition init_token (p : parser) (ty : mu_json_token_type_t)
    : option (nat * parser) :=
  match alloc_token p with
  | None => None
  | Some (tok, p1) =>
      let p2 := update_token p1 tok (fun t => set_token_string t (ref_char p1)) in
      let p3 := update_token p2 tok (fun t => set_token_type t ty) in
      let p4 := update_token p3 tok (fun t => set_token_level t (p_level p3)) in
      Some (tok, p4)
  end.

(** [set_token_string_length(tok, ref_char(p) - get_token_string(tok))].
    The subtraction of a [NULL] start cannot arise: [tok] always comes from
    [init_token]. *)
Definition finalize_token (p : parser) (tok : nat) : parser :=
  update_token p tok (fun t =>
    set_token_string_length t (ref_char p - default 0 (str t))).

(* ===================================================================== *)
(** * [mu_json.c]: strings, numbers, literals *)

Definition is_simple_escape (ch : ascii) : bool :=
  Ascii.eqb ch ch_quote || Ascii.eqb ch ch_backslash || Ascii.eqb ch "/"
  || Ascii.eqb ch "b" || Ascii.eqb ch "f" || Ascii.eqb ch "n"
  || Ascii.eqb ch "r" || Ascii.eqb ch "t".

(** The [for (i = 0; i < 4; i++)] loop after a [\u]: [None] stands for its
    [return MU_JSON_ERR_BAD_FORMAT]. *)
Fixpoint hex_digits (k : nat) (p : parser) : option parser :=
  match k with
  | O => Some p
  | S k' =>
      if at_eos p || negb (is_hex (peek_char p)) then None
      else hex_digits k' (get_char p)
  end.

(** The [while (!at_eos(p))] loop of [parse_string].  The result is
    [MU_JSON_ERR_NONE] when the loop is left by [break] or by its
    condition, and the error code when the body returns.  Every iteration
    that continues consumes at least one byte. *)
Fixpoint parse_string_loop (n : nat) (p : parser) : mu_json_err_t * parser :=
  match n with
  | O => (MU_JSON_ERR_NONE, p)
  | S n' =>
      if at_eos p then (MU_JSON_ERR_NONE, p)
      else
        let ch := peek_char p in
        if Ascii.eqb ch ch_backslash then
          let p1 := get_char p in
          if at_eos p1 then (MU_JSON_ERR_INCOMPLETE, p1)
          else
            let escape_char := peek_char p1 in
            if is_simple_escape escape_char then
              parse_string_loop n' (get_char p1)
            else if Ascii.eqb escape_char "u" then
              match hex_digits 4 (get_char p1) with
              | None => (MU_JSON_ERR_BAD_FORMAT, get_char p1)
              | Some p2 => parse_string_loop n' p2
              end
            else (MU_JSON_ERR_BAD_FORMAT, p1)
        else if high_bit ch then (MU_JSON_ERR_NO_MULTIBYTE, p)
        else if code ch <? 32 then (MU_JSON_ERR_BAD_FORMAT, p)
        else if Ascii.eqb ch ch_quote then (MU_JSON_ERR_NONE, p)
        else parse_string_loop n' (get_char p)
  end.

Definition parse_string (p : parser) : mu_json_err_t * parser :=
  if at_eos p || negb (Ascii.eqb (peek_char p) ch_quote) then
    (MU_JSON_ERR_INTERNAL, p)
  else
    match init_token p MU_JSON_TOKEN_TYPE_STRING with
    | None => (MU_JSON_ERR_NOT_ENOUGH_TOKENS, p)
    | Some (tok, p1) =>
        let p2 := get_char p1 in
        let '(err, p3) := parse_string_loop (remaining p2) p2 in
        if negb (is_none err) then (err, p3)
        else if at_eos p3 then (MU_JSON_ERR_INCOMPLETE, p3)
        else if negb (Ascii.eqb (peek_char p3) ch_quote) then
          (MU_JSON_ERR_INTERNAL, p3)
        else
          let p4 := get_char p3 in
          (MU_JSON_ERR_NONE, finalize_token p4 tok)
    end.

(** The three digit loops of [parse_number]: the flag tells whether a
    digit was consumed. *)
Fixpoint digits_loop (n : nat) (seen : bool) (p : parser) : bool * parser :=
  match n with
  | O => (seen, p)
  | S n' =>
      if at_eos p then (seen, p)
      else
        let ch := peek_char p in
        if (code "0" <=? code ch) && (code ch <=? code "9") then
          digits_loop n' true (get_char p)
        else (seen, p)
  end.

Definition digits (p : parser) : bool * parser :=
  digits_loop (remaining p) false p.

Definition parse_number (p : parser) : mu_json_err_t * parser :=
  if at_eos p || negb (is_number_prefix (peek_char p)) then
    (MU_JSON_ERR_INTERNAL, p)
  else
    match init_token p MU_JSON_TOKEN_TYPE_INTEGER with
    | None => (MU_JSON_ERR_NOT_ENOUGH_TOKENS, p)
    | Some (tok, p0) =>
        (* the sign *)
        let p1 := if Ascii.eqb (peek_char p0) "-" then get_char p0 else p0 in
        if at_eos p1 then (MU_JSON_ERR_INCOMPLETE, p1)
        else
          (* a leading zero *)
          let has_leading_zero :=
            negb (at_eos p1) && Ascii.eqb (peek_char p1) "0" in
          let p2 := if has_leading_zero then get_char p1 else p1 in
          if has_leading_zero && negb (at_eos p2)
             && Ascii.eqb (peek_char p2) "0"
          then (MU_JSON_ERR_BAD_FORMAT, p2)
          else
            (* the integer part *)
            let '(has_integer_part, p3) := digits p2 in
            if has_leading_zero && has_integer_part then
              (MU_JSON_ERR_BAD_FORMAT, p3)
            else if negb has_leading_zero && negb has_integer_part then
              (MU_JSON_ERR_BAD_FORMAT, p3)
            else
              (* the fractional part *)
              let fraction :=
                if negb (at_eos p3) && Ascii.eqb (peek_char p3) "." then
                  let p4 :=
                    update_token p3 tok
                      (fun t => set_token_type t MU_JSON_TOKEN_TYPE_NUMBER) in
                  let '(has_fractional_part, p5) := digits (get_char p4) in
                  if negb has_fractional_part then
                    (MU_JSON_ERR_BAD_FORMAT, p5)
                  else (MU_JSON_ERR_NONE, p5)
                else (MU_JSON_ERR_NONE, p3) in
              let '(err, p6) := fraction in
              if negb (is_none err) then (err, p6)
              else
                (* the exponent *)
                if negb (at_eos p6)
                   && (Ascii.eqb (peek_char p6) "e"
                       || Ascii.eqb (peek_char p6) "E")
                then
                  let p7 :=
                    update_token p6 tok
                      (fun t => set_token_type t MU_JSON_TOKEN_TYPE_NUMBER) in
                  let p8 := get_char p7 in
                  let p9 :=
                    if negb (at_eos p8)
                       && (Ascii.eqb (peek_char p8) "+"
                           || Ascii.eqb (peek_char p8) "-")
                    then get_char p8 else p8 in
                  let '(has_exponent_digits, p10) := digits p9 in
                  if negb has_exponent_digits then
                    (MU_JSON_ERR_BAD_FORMAT, p10)
                  else (MU_JSON_ERR_NONE, finalize_token p10 tok)
                else (MU_JSON_ERR_NONE, finalize_token p6 tok)
    end.

(** The [for] loop of [parse_literal] over the bytes of [literal]. *)
Fixpoint match_literal (literal : list ascii) (p : parser)
    : mu_json_err_t * parser :=
  match literal with
  | [] => (MU_JSON_ERR_NONE, p)
  | c :: rest =>
      if at_eos p then (MU_JSON_ERR_INCOMPLETE, p)
      else if negb (Ascii.eqb (peek_char p) c) then
        (MU_JSON_ERR_BAD_FORMAT, get_char p)
      else match_literal rest (get_char p)
  end.

Definition parse_literal (p : parser) (literal : list ascii)
    (ty : mu_json_token_type_t) : mu_json_err_t * parser :=
  if at_eos p then (MU_JSON_ERR_INTERNAL, p)
  else
    match init_token p ty with
    | None => (MU_JSON_ERR_NOT_ENOUGH_TOKENS, p)
    | Some (tok, p1) =>
        let '(err, p2) := match_literal literal p1 in
        if negb (is_none err) then (err, p2)
        else (MU_JSON_ERR_NONE, finalize_token p2 tok)
    end.

Definition find_and_skip (p : parser) (delimiter : ascii)
    : mu_json_err_t * parser :=
  let p1 := skip_whitespace p in
  if at_eos p1 then (MU_JSON_ERR_BAD_FORMAT, p1)
  else if negb (Ascii.eqb (peek_char p1) delimiter) then
    (MU_JSON_ERR_BAD_FORMAT, p1)
  else
    let p2 := skip_whitespace (get_char p1) in
    if at_eos p2 then (MU_JSON_ERR_BAD_FORMAT, p2)
    else (MU_JSON_ERR_NONE, p2).

(* ===================================================================== *)
(** * [mu_json.c]: elements, objects, arrays *)

(** [parse_element], [parse_object] and [parse_array] call one another; the
    two [while (true)] loops are functions of their own.  [fuel] bounds the
    depth of the calls; [None] means that it ran out, which
    [parse_fuel] below is shown to exclude.  A loop returns
    [MU_JSON_ERR_NONE] when it is left by [break], and the error code when
    its body returns. *)
Fixpoint parse_element (fuel : nat) (p : parser)
    : option (mu_json_err_t * parser) :=
  match fuel with
  | O => None
  | S fuel' =>
      let p := skip_whitespace p in
      if at_eos p then Some (MU_JSON_ERR_NONE, p)
      else
        let ch := peek_char p in
        if Ascii.eqb ch ch_quote then Some (parse_string p)
        else if is_digit ch || Ascii.eqb ch "-" then Some (parse_number p)
        else if Ascii.eqb ch "t" then
          Some (parse_literal p (list_ascii_of_string "true")
                              MU_JSON_TOKEN_TYPE_TRUE)
        else if Ascii.eqb ch "f" then
          Some (parse_literal p (list_ascii_of_string "false")
                              MU_JSON_TOKEN_TYPE_FALSE)
        else if Ascii.eqb ch "n" then
          Some (parse_literal p (list_ascii_of_string "null")
                              MU_JSON_TOKEN_TYPE_NULL)
        else if Ascii.eqb ch "{" then parse_object fuel' p
        else if Ascii.eqb ch "[" then parse_array fuel' p
        else if high_bit ch then Some (MU_JSON_ERR_NO_MULTIBYTE, p)
        else Some (MU_JSON_ERR_BAD_FORMAT, p)
  end

with parse_object (fuel : nat) (p : parser)
    : option (mu_json_err_t * parser) :=
  match fuel with
  | O => None
  | S fuel' =>
      if at_eos p || negb (Ascii.eqb (peek_char p) "{") then
        Some (MU_JSON_ERR_INTERNAL, p)
      else
        match init_token p MU_JSON_TOKEN_TYPE_OBJECT with
        | None => Some (MU_JSON_ERR_NOT_ENOUGH_TOKENS, p)
        | Some (tok, p1) =>
            let p2 := set_level p1 (p_level p1 + 1) in
            let p3 := get_char p2 in
            match parse_object_loop fuel' true p3 with
            | None => None
            | Some (err, p4) =>
                if negb (is_none err) then Some (err, p4)
                else if at_eos p4 then Some (MU_JSON_ERR_INCOMPLETE, p4)
                else if negb (Ascii.eqb (peek_char p4) "}") then
                  Some (MU_JSON_ERR_INTERNAL, p4)
                else
                  let p5 := get_char p4 in
                  let p6 := set_level p5 (p_level p5 - 1) in
                  Some (MU_JSON_ERR_NONE, finalize_token p6 tok)
            end
        end
  end

with parse_object_loop (fuel : nat) (first_pair : bool) (p : parser)
    : option (mu_json_err_t * parser) :=
  match fuel with
  | O => None
  | S fuel' =>
      let p1 := skip_whitespace p in
      if at_eos p1 then Some (MU_JSON_ERR_NONE, p1)
      else if Ascii.eqb (peek_char p1) "}" then Some (MU_JSON_ERR_NONE, p1)
      else
        let '(err, p2) :=
          if negb first_pair then find_and_skip p1 ","
          else (MU_JSON_ERR_NONE, p1) in
        if negb (is_none err) then Some (err, p2)
        else
          let '(err, p3) := parse_string p2 in
          if negb (is_none err) then Some (err, p3)
          else
            let '(err, p4) := find_and_skip p3 ":" in
            if negb (is_none err) then Some (err, p4)
            else
              match parse_element fuel' p4 with
              | None => None
              | Some (err, p5) =>
                  if negb (is_none err) then Some (err, p5)
                  else parse_object_loop fuel' false p5
              end
  end

with parse_array (fuel : nat) (p : parser)
    : option (mu_json_err_t * parser) :=
  match fuel with
  | O => None
  | S fuel' =>
      if at_eos p || negb (Ascii.eqb (peek_char p) "[") then
        Some (MU_JSON_ERR_INTERNAL, p)
      else
        match init_token p MU_JSON_TOKEN_TYPE_ARRAY with
        | None => Some (MU_JSON_ERR_NOT_ENOUGH_TOKENS, p)
        | Some (tok, p1) =>
            let p2 := set_level p1 (p_level p1 + 1) in
            let p3 := get_char p2 in
            match parse_array_loop fuel' true p3 with
            | None => None
            | Some (err, p4) =>
                if negb (is_none err) then Some (err, p4)
                else if at_eos p4 then Some (MU_JSON_ERR_INCOMPLETE, p4)
                else if negb (Ascii.eqb (peek_char p4) "]") then
                  Some (MU_JSON_ERR_INTERNAL, p4)
                else
                  let p5 := get_char p4 in
                  let p6 := set_level p5 (p_level p5 - 1) in
                  Some (MU_JSON_ERR_NONE, finalize_token p6 tok)
            end
        end
  end

with parse_array_loop (fuel : nat) (first_element : bool) (p : parser)
    : option (mu_json_err_t * parser) :=
  match fuel with
  | O => None
  | S fuel' =>
      let p1 := skip_whitespace p in
      if at_eos p1 then Some (MU_JSON_ERR_NONE, p1)
      else if Ascii.eqb (peek_char p1) "]" then Some (MU_JSON_ERR_NONE, p1)
      else
        let '(err, p2) :=
          if negb first_element then find_and_skip p1 ","
          else (MU_JSON_ERR_NONE, p1) in
        if negb (is_none err) then Some (err, p2)
        else
          match parse_element fuel' p2 with
          | None => None
          | Some (err, p3) =>
              if negb (is_none err) then Some (err, p3)
              else parse_array_loop fuel' false p3
          end
  end.

(** Calls nest at most three deep per byte of input. *)
Definition parse_fuel (str_len : Z) : nat := 3 * Z.to_nat str_len + 2.

(* ===================================================================== *)
(** * [mu_json.c]: the entry points *)

(** What a call of the parser does: it returns an [int] and leaves the
    token store in some state, or it runs out of the model's fuel, or its
    behaviour is undefined in C. *)
Inductive outcome : Type :=
  | Returned (ret : Z) (tokens : list mu_json_token_t)
  | OutOfFuel
  | Undefined.

(** [memset(tokens, 0, sizeof(mu_json_token_t) * p->max_tokens)].
    [tokens] is the caller's array.  A negative [max_tokens] becomes a huge
    [size_t] and a [max_tokens] beyond the array writes past its end: both
    are undefined behaviour, [None] here. *)
Definition memset_tokens (tokens : list mu_json_token_t) (max_tokens : Z)
    : option (list mu_json_token_t) :=
  if (0 <=? max_tokens) && (max_tokens <=? Z.of_nat (length tokens)) then
    Some (replicate (Z.to_nat max_tokens) zero_token
          ++ drop (Z.to_nat max_tokens) tokens)
  else None.

Definition parser_reset (p : parser) : option parser :=
  match memset_tokens (p_token_store p) (p_max_tokens p) with
  | None => None
  | Some tokens =>
      Some (mk_parser (p_str p) (p_str_len p) 0 tokens (p_max_tokens p) 0 0)
  end.

(** [parse_json].  [str] and [token_store] are [None] for [NULL], and
    otherwise the memory the pointer refers to. *)
Definition parse_json (str : option (list ascii)) (str_len : Z)
    (token_store : option (list mu_json_token_t)) (max_tokens : Z) : outcome :=
  match str, token_store with
  | None, _ =>
      Returned (err_value MU_JSON_ERR_BAD_ARGUMENT) (default [] token_store)
  | Some _, None => Returned (err_value MU_JSON_ERR_BAD_ARGUMENT) []
  | Some s, Some tokens =>
      if str_len =? 0 then
        Returned (err_value MU_JSON_ERR_BAD_ARGUMENT) tokens
      else if max_tokens =? 0 then
        Returned (err_value MU_JSON_ERR_BAD_ARGUMENT) tokens
      else
        match parser_reset (mk_parser s str_len 0 tokens max_tokens 0 0) with
        | None => Undefined
        | Some p =>
            match parse_element (parse_fuel str_len) p with
            | None => OutOfFuel
            | Some (err, p1) =>
                if negb (is_none err) then
                  Returned (err_value err) (p_token_store p1)
                else if p_token_count p1 =? 0 then
                  Returned (err_value MU_JSON_ERR_NO_ENTITIES)
                           (p_token_store p1)
                else
                  let p2 := skip_whitespace p1 in
                  if negb (at_eos p2) then
                    Returned (err_value MU_JSON_ERR_STRAY_INPUT)
                             (p_token_store p2)
                  else
                    let p3 :=
                      update_token p2 (Z.to_nat (p_token_count p2 - 1))
                        (fun t => set_token_is_last t true) in
                    Returned (p_token_count p3) (p_token_store p3)
            end
        end
  end.

(** [strlen]: the bytes before the first [NUL]; the list is the memory from
    the pointer on, and ends where the terminator stands. *)
Fixpoint strlen (s : list ascii) : Z :=
  match s with
  | [] => 0
  | c :: rest => if Ascii.eqb c NUL then 0 else 1 + strlen rest
  end.

(** Conversion of the [size_t] that [strlen] returns to the [int]
    parameter of [parse_json] (32 bits, two's complement). *)
Definition int_of_size (n : Z) : Z := (n + 2 ^ 31) mod 2 ^ 32 - 2 ^ 31.

(** [mu_json_parse_str].  [strlen(str)] is evaluated before [parse_json]
    is entered, so a [NULL] string is dereferenced. *)
Definition mu_json_parse_str (str : option (list ascii))
    (token_store : option (list mu_json_token_t)) (max_tokens : Z) : outcome :=
  match str with
  | None => Undefined
  | Some s => parse_json str (int_of_size (strlen s)) token_store max_tokens
  end.

Definition mu_json_parse_buffer (input : option (list ascii)) (input_len : Z)
    (token_store : option (list mu_json_token_t)) (max_tokens : Z) : outcome :=
  parse_json input input_len token_store max_tokens.

(** The return value alone. *)
Definition returns (o : outcome) (v : Z) : Prop :=
  exists tokens, o = Returned v tokens.

(** A fresh token store of [n] tokens; its contents do not matter, the
    parser clears them. *)
Definition fresh_store (n : nat) : option (list mu_json_token_t) :=
  Some (replicate n zero_token).

(* ===================================================================== *)
(** * [mu_json.c]: navigating the token store *)

(** A pointer to a token is its index in the store [tokens]; [None] is
    [NULL].  Reading outside the store, which C leaves undefined, yields a
    zero token. *)
Definition deref (tokens : list mu_json_token_t) (token : Z)
    : mu_json_token_t :=
  if token <? 0 then zero_token else token_at tokens (Z.to_nat token).

Definition token_is_first (tokens : list mu_json_token_t) (token : Z) : bool :=
  level (deref tokens token) =? 0.

Definition token_is_last (tokens : list mu_json_token_t) (token : Z) : bool :=
  is_last (deref tokens token).

Definition mu_json_token_level (tokens : list mu_json_token_t)
    (token : option Z) : Z :=
  match token with
  | None => -1
  | Some t => level (deref tokens t)
  end.

Definition mu_json_find_next_token (tokens : list mu_json_token_t)
    (token : option Z) : option Z :=
  match token with
  | None => None
  | Some t => if token_is_last tokens t then None else Some (t + 1)
  end.

Definition mu_json_find_prev_token (tokens : list mu_json_token_t)
    (token : option Z) : option Z :=
  match token with
  | None => None
  | Some t => if token_is_first tokens t then None else Some (t - 1)
  end.

(** The [while (current->level > target_level)] loop of
    [mu_json_find_parent_token].  Each iteration steps one token back, so
    [n] iterations starting at index [n - 1] stay inside the store; with
    [n = 0] the walk has left the store at its front. *)
Fixpoint find_parent_loop (n : nat) (tokens : list mu_json_token_t)
    (target_level : Z) (current : Z) : option Z :=
  match n with
  | O => None
  | S n' =>
      if target_level <? level (deref tokens current) then
        match mu_json_find_prev_token tokens (Some current) with
        | None => None
        | Some c => find_parent_loop n' tokens target_level c
        end
      else Some current
  end.

Definition mu_json_find_parent_token (tokens : list mu_json_token_t)
    (token : option Z) : option Z :=
  match token with
  | None => None
  | Some t =>
      if token_is_first tokens t then None
      else
        find_parent_loop (Z.to_nat (t + 1)) tokens
                         (level (deref tokens t) - 1) t
  end.

Definition mu_json_find_child_token (tokens : list mu_json_token_t)
    (token : option Z) : option Z :=
  match token with
  | None => None
  | Some t =>
      if token_is_last tokens t then None
      else
        match mu_json_find_next_token tokens token with
        | None => None
        | Some next =>
            if level (deref tokens next) <=? level (deref tokens t) then None
            else Some next
        end
  end.

(* ===================================================================== *)
(** * [mu_jems.h]: frames and emitter state *)

(** [size_t], taken as 64 bits wide. *)
Definition SIZE_BITS : Z := 64.
Definition size_t_wrap (n : Z) : Z := n mod 2 ^ SIZE_BITS.

Record mu_jems_level_t : Type := mk_level {
  item_count : Z;
  is_object : bool
}.

(** [mu_jems_t].  [levels] is the caller's array of frames.  The writer
    and its argument are a callback that the emitter only calls;
    [written] is the sequence of bytes it has been called with, in order. *)
Record mu_jems_t : Type := mk_jems {
  levels : list mu_jems_level_t;
  max_level : Z;
  curr_level : Z;
  written : list ascii
}.

Definition zero_level : mu_jems_level_t := mk_level 0 false.

(** [level_ref(jems)]: the frame at [curr_level].  A frame outside the
    array, which C leaves undefined, reads as a zero frame and is not
    written. *)
Definition level_ref (jems : mu_jems_t) : mu_jems_level_t :=
  default zero_level (levels jems !! Z.to_nat (curr_level jems)).

Definition set_level_ref (jems : mu_jems_t)
    (f : mu_jems_level_t -> mu_jems_level_t) : mu_jems_t :=
  mk_jems (alter f (Z.to_nat (curr_level jems)) (levels jems))
          (max_level jems) (curr_level jems) (written jems).

Definition set_curr_level (jems : mu_jems_t) (l : Z) : mu_jems_t :=
  mk_jems (levels jems) (max_level jems) l (written jems).

(* ===================================================================== *)
(** * [mu_jems.c]: private functions *)

(** [jems->writer(ch, jems->arg)] *)
Definition emit_char (jems : mu_jems_t) (ch : ascii) : mu_jems_t :=
  mk_jems (levels jems) (max_level jems) (curr_level jems)
          (written jems ++ [ch]).

(** The loop of [emit_string]: one [emit_char] for each byte before the
    first [NUL]. *)
Fixpoint emit_string (jems : mu_jems_t) (s : list ascii) : mu_jems_t :=
  match s with
  | [] => jems
  | c :: rest =>
      if Ascii.eqb c NUL then jems else emit_string (emit_char jems c) rest
  end.

Definition push_level (jems : mu_jems_t) (is_obj : bool) : mu_jems_t :=
  if curr_level jems <? size_t_wrap (max_level jems - 1) then
    let jems1 := set_curr_level jems (curr_level jems + 1) in
    let jems2 := set_level_ref jems1 (fun l => mk_level 0 (is_object l)) in
    set_level_ref jems2 (fun l => mk_level (item_count l) is_obj)
  else jems.

Definition pop_level (jems : mu_jems_t) : mu_jems_t :=
  if 0 <? curr_level jems then set_curr_level jems (curr_level jems - 1)
  else jems.

Definition commify (jems : mu_jems_t) : mu_jems_t :=
  let level := level_ref jems in
  let count := item_count level in
  let jems1 :=
    if is_object level then
      if 0 <? count then
        emit_char jems
          (if negb (Z.land count 1 =? 0) then ":"%char else ","%char)
      else jems
    else
      if 0 <? count then emit_char jems ","%char else jems in
  set_level_ref jems1
    (fun l => mk_level (size_t_wrap (item_count l + 1)) (is_object l)).

Definition hex_digit (n : Z) : ascii :=
  default "0"%char (list_ascii_of_string "0123456789abcdef" !! Z.to_nat n).

(** [sprintf(buf, "\\u%04x", byte)] *)
Definition format_u04x (byte : Z) : list ascii :=
  [ch_backslash; "u"; "0"; "0"; hex_digit (byte / 16); hex_digit (byte mod 16)]%char.

Definition emit_quoted_byte (jems : mu_jems_t) (byte : ascii) : mu_jems_t :=
  if (code byte <? 32) || (127 <=? code byte) then
    emit_string jems (format_u04x (code byte))
  else
    let jems1 :=
      if Ascii.eqb byte ch_backslash || Ascii.eqb byte ch_quote then
        emit_char jems ch_backslash
      else jems in
    emit_char jems1 byte.

Fixpoint emit_quoted_string (jems : mu_jems_t) (s : list ascii) : mu_jems_t :=
  match s with
  | [] => jems
  | c :: rest =>
      if Ascii.eqb c NUL then jems
      else emit_quoted_string (emit_quoted_byte jems c) rest
  end.

(** The first [len] bytes of [bytes]. *)
Definition emit_quoted_bytes (jems : mu_jems_t) (bytes : list ascii)
    (len : nat) : mu_jems_t :=
  fold_left emit_quoted_byte (take len bytes) jems.

(* ===================================================================== *)
(** * [printf] conversions used by the emitter *)

Definition INT64_MIN : Z := - 2 ^ 63.

(** Conversion to [int64_t]. *)
Definition to_int64 (n : Z) : Z := (n + 2 ^ 63) mod 2 ^ 64 - 2 ^ 63.

(** ["%" PRId64] *)
Definition format_d (i : Z) : list ascii :=
  list_ascii_of_string (DecimalString.NilZero.string_of_int (Z.to_int i)).

(** [int64_t i = value]: truncation toward zero.  For a NaN, an infinity or
    a value outside the range of [int64_t] the conversion is undefined in
    C; the result of the x86-64 conversion instruction is used. *)
Definition int64_of_double (value : float) : Z :=
  match Prim2SF value with
  | S754_zero _ => 0
  | S754_finite s m e =>
      let magnitude :=
        if 0 <=? e then Z.pos m * 2 ^ e else Z.pos m / 2 ^ (- e) in
      let t := if s then - magnitude else magnitude in
      if (INT64_MIN <=? t) && (t <? 2 ^ 63) then t else INT64_MIN
  | _ => INT64_MIN
  end.

(** [(double)i], rounding to nearest. *)
Definition double_of_int64 (i : Z) : float :=
  SF2Prim (binary_normalize 53 1024 i 0 false).

(** Division rounding to nearest, ties to even. *)
Definition div_round (n d : Z) : Z :=
  let q := n / d in
  let r := n mod d in
  if 2 * r <? d then q
  else if d <? 2 * r then q + 1
  else if Z.even q then q else q + 1.

(** ["%lf"]: fixed notation with six digits after the point, the value
    rounded to nearest. *)
Definition format_lf (value : float) : list ascii :=
  let sign (s : bool) := if s then ["-"%char] else [] in
  match Prim2SF value with
  | S754_zero s => sign s ++ list_ascii_of_string "0.000000"
  | S754_infinity s => sign s ++ list_ascii_of_string "inf"
  | S754_nan => list_ascii_of_string "nan"
  | S754_finite s m e =>
      let millionths :=
        if 0 <=? e then Z.pos m * 10 ^ 6 * 2 ^ e
        else div_round (Z.pos m * 10 ^ 6) (2 ^ (- e)) in
      sign s ++ format_d (millionths / 10 ^ 6) ++ ["."%char]
             ++ drop 1 (format_d (10 ^ 6 + millionths mod 10 ^ 6))
  end.

(** [snprintf(buf, sizeof(buf), ...)] with [char buf[22]]: at most 21
    bytes are stored. *)
Definition snprintf22 (s : list ascii) : list ascii := take 21 s.

(* ===================================================================== *)
(** * [mu_jems.c]: the public functions *)

Definition mu_jems_reset (jems : mu_jems_t) : mu_jems_t :=
  let jems1 := set_curr_level jems 0 in
  let jems2 := set_level_ref jems1 (fun l => mk_level 0 (is_object l)) in
  set_level_ref jems2 (fun l => mk_level (item_count l) false).

(** [mu_jems_init]: no byte has been passed to the writer yet. *)
Definition mu_jems_init (levels : list mu_jems_level_t) (max_level : Z)
    : mu_jems_t :=
  mu_jems_reset (mk_jems levels max_level 0 []).

Definition mu_jems_object_open (jems : mu_jems_t) : mu_jems_t :=
  push_level (emit_char (commify jems) "{") true.

Definition mu_jems_object_close (jems : mu_jems_t) : mu_jems_t :=
  pop_level (emit_char jems "}").

Definition mu_jems_array_open (jems : mu_jems_t) : mu_jems_t :=
  push_level (emit_char (commify jems) "[") false.

Definition mu_jems_array_close (jems : mu_jems_t) : mu_jems_t :=
  pop_level (emit_char jems "]").

Definition mu_jems_number (jems : mu_jems_t) (value : float) : mu_jems_t :=
  let i := int64_of_double value in
  let buf :=
    if PrimFloat.eqb (double_of_int64 i) value then snprintf22 (format_d i)
    else snprintf22 (format_lf value) in
  emit_string (commify jems) buf.

Definition mu_jems_integer (jems : mu_jems_t) (value : Z) : mu_jems_t :=
  let buf := snprintf22 (format_d (to_int64 value)) in
  emit_string (commify jems) buf.

Definition mu_jems_string (jems : mu_jems_t) (string : list ascii)
    : mu_jems_t :=
  let jems1 := emit_char (commify jems) ch_quote in
  emit_char (emit_quoted_string jems1 string) ch_quote.

Definition mu_jems_bytes (jems : mu_jems_t) (bytes : list ascii)
    (length : nat) : mu_jems_t :=
  let jems1 := emit_char (commify jems) ch_quote in
  emit_char (emit_quoted_bytes jems1 bytes length) ch_quote.

Definition mu_jems_bool (jems : mu_jems_t) (boolean : bool) : mu_jems_t :=
  emit_string (commify jems)
    (list_ascii_of_string (if boolean then "true" else "false")).

Definition mu_jems_true (jems : mu_jems_t) : mu_jems_t :=
  emit_string (commify jems) (list_ascii_of_string "true").

Definition mu_jems_false (jems : mu_jems_t) : mu_jems_t :=
  emit_string (commify jems) (list_ascii_of_string "false").

Definition mu_jems_null (jems : mu_jems_t) : mu_jems_t :=
  emit_string (commify jems) (list_ascii_of_string "null").

Definition mu_jems_literal (jems : mu_jems_t) (literal : list ascii)
    (n_bytes : nat) : mu_jems_t :=
  fold_left emit_char (take n_bytes literal) (commify jems).

Definition mu_jems_key_object_open (jems : mu_jems_t) (key : list ascii) :=
  mu_jems_object_open (mu_jems_string jems key).

Definition mu_jems_key_array_open (jems : mu_jems_t) (key : list ascii) :=
  mu_jems_array_open (mu_jems_string jems key).

Definition mu_jems_key_number (jems : mu_jems_t) (key : list ascii)
    (value : float) :=
  mu_jems_number (mu_jems_string jems key) value.

Definition mu_jems_key_integer (jems : mu_jems_t) (key : list ascii)
    (value : Z) :=
  mu_jems_integer (mu_jems_string jems key) value.

Definition mu_jems_key_string (jems : mu_jems_t) (key string : list ascii) :=
  mu_jems_string (mu_jems_string jems key) string.

Definition mu_jems_curr_level (jems : mu_jems_t) : Z := curr_level jems.

Definition mu_jems_item_count (jems : mu_jems_t) : Z :=
  item_count (level_ref jems).

(* ===================================================================== *)
(** * Specification vocabulary *)

(** The punctuation that [commify] owes for a frame: nothing for its
    first item, [:] after an odd number of items of an object, [,]
    otherwise. *)
Definition punctuation (frame : mu_jems_level_t) : list ascii :=
  if item_count frame <=? 0 then []
  else if is_object frame then
    if Z.odd (item_count frame) then [":"%char] else [","%char]
  else [","%char].


(** The bytes of a C string: those before the first [NUL]. *)
Fixpoint c_string (s : list ascii) : list ascii :=
  match s with
  | [] => []
  | c :: rest => if Ascii.eqb c NUL then [] else c :: c_string rest
  end.

(** The bytes by which the emitter renders one byte of a string. *)
Definition quoted_byte (byte : ascii) : list ascii :=
  if (code byte <? 32) || (127 <=? code byte) then format_u04x (code byte)
  else if Ascii.eqb byte ch_backslash || Ascii.eqb byte ch_quote then
    [ch_backslash; byte]
  else [byte].

Definition quoted_string (s : list ascii) : list ascii :=
  concat (map quoted_byte (c_string s)).

(** Scenario 5 of the specification: [object_open; key_integer("x", 1);
    key_array_open("y"); integer(2); number(3.5); array_close;
    object_close]. *)
Definition scenario_5 (jems : mu_jems_t) : mu_jems_t :=
  let jems1 := mu_jems_object_open jems in
  let jems2 := mu_jems_key_integer jems1 (text "x") 1 in
  let jems3 := mu_jems_key_array_open jems2 (text "y") in
  let jems4 := mu_jems_integer jems3 2 in
  let jems5 := mu_jems_number jems4 3.5%float in
  let jems6 := mu_jems_array_close jems5 in
  mu_jems_object_close jems6.

(** The elementary changes the parser makes to its state: it consumes a
    byte that is there, it draws a token, it writes the type or the length
    of a token, and it changes the nesting depth once a token is drawn. *)
Inductive pstep : parser -> parser -> Prop :=
  | pstep_get_char (p : parser) :
      at_eos p = false -> pstep p (get_char p)
  | pstep_init_token (p : parser) ty tok p' :
      init_token p ty = Some (tok, p') -> pstep p p'
  | pstep_update_token (p : parser) tok f :
      (forall t, str (f t) = str t /\ level (f t) = level t
                 /\ is_last (f t) = is_last t) ->
      pstep p (update_token p tok f)
  | pstep_set_level (p : parser) l :
      0 < p_token_count p -> pstep p (set_level p l).

Definition psteps : parser -> parser -> Prop := rtc pstep.

(** What a step leaves alone, and which way it moves the rest. *)
Record pframe (p p' : parser) : Prop := mk_pframe {
  frame_str : p_str p' = p_str p;
  frame_len : p_str_len p' = p_str_len p;
  frame_max : p_max_tokens p' = p_max_tokens p;
  frame_pos : p_str_pos p <= p_str_pos p';
  frame_pos_len : p_str_pos p <= p_str_len p -> p_str_pos p' <= p_str_len p;
  frame_count : p_token_count p <= p_token_count p';
  frame_length : length (p_token_store p') = length (p_token_store p)
}.

(** What holds of the parser state between [parser_reset] and the end of
    the parse, for the [max_tokens] tokens that [parser_reset] cleared: the
    tokens drawn so far fit the store, the root token is at depth 0, no
    token is marked last, and every depth fits its 11 bits. *)
Record parser_inv (p : parser) : Prop := mk_parser_inv {
  inv_count : 0 <= p_token_count p <= p_max_tokens p;
  inv_capacity : p_max_tokens p <= Z.of_nat (length (p_token_store p));
  inv_level_before : p_token_count p = 0 -> p_level p = 0;
  inv_root : 0 < p_token_count p -> level (token_at (p_token_store p) 0) = 0;
  inv_not_last : forall i t,
    Z.of_nat i < p_max_tokens p -> p_token_store p !! i = Some t ->
    is_last t = false;
  inv_levels : forall i t,
    Z.of_nat i < p_max_tokens p -> p_token_store p !! i = Some t ->
    0 <= level t < 2 ^ 11
}.

(** What C1 says of the [n] tokens of a successful parse. *)
Definition root_and_last (n : Z) (tokens : list mu_json_token_t) : Prop :=
  (exists root, tokens !! 0%nat = Some root /\ level root = 0)
  /\ (exists last, tokens !! Z.to_nat (n - 1) = Some last
                   /\ is_last last = true)
  /\ (forall i t, Z.of_nat i < n -> Z.of_nat i <> n - 1 ->
                  tokens !! i = Some t -> is_last t = false).

(** The token store after parsing [[1, 2]] into four tokens. *)
Definition tokens_of_1_2 : list mu_json_token_t :=
  Eval vm_compute in
    match mu_json_parse_str (Some (text "[1, 2]")) (fresh_store 4) 4 with
    | Returned _ tokens => tokens
    | _ => []
    end.

(** The caller's side of the input: the read position is in the buffer
    and the buffer holds [str_len] bytes. *)
Definition input_ok (p : parser) : Prop :=
  0 <= p_str_pos p /\ p_str_len p <= Z.of_nat (length (p_str p)).

(** The bytes of the input between the read positions of two states. *)
Definition span (p p' : parser) : list ascii :=
  take (Z.to_nat (p_str_pos p' - p_str_pos p))
       (drop (Z.to_nat (p_str_pos p)) (p_str p)).

(** Does a numeric literal contain [.], [e] or [E]? *)
Definition has_fraction_or_exponent (literal : list ascii) : bool :=
  existsb (fun c => Ascii.eqb c "." || Ascii.eqb c "e" || Ascii.eqb c "E")
          literal.

(** A byte that [parse_string] steps over as an ordinary character: not a
    backslash, no high bit, not a control byte, not a double quote. *)
Definition is_ordinary (ch : ascii) : bool :=
  negb (Ascii.eqb ch ch_backslash) && negb (high_bit ch)
  && negb (code ch <? 32) && negb (Ascii.eqb ch ch_quote).

(** The parser state after [parser_reset], for a store of at least
    [max_tokens] tokens. *)
Definition initial_parser (s : list ascii) (str_len : Z)
    (tokens : list mu_json_token_t) (max_tokens : Z) : parser :=
  mk_parser s str_len 0
            (replicate (Z.to_nat max_tokens) zero_token
             ++ drop (Z.to_nat max_tokens) tokens)
            max_tokens 0 0.

Definition is_closer (ch : ascii) : bool :=
  Ascii.eqb ch "]" || Ascii.eqb ch "}".

(** The sign and the integer part of a number: an optional minus sign;
    a single [0] or digits that do not start with [0]. *)
Definition sign_ok (sign : list ascii) : bool :=
  match sign with
  | [] => true
  | c :: rest => Ascii.eqb c "-" && match rest with [] => true | _ => false end
  end.

Definition int_part_ok (int_part : list ascii) : bool :=
  match int_part with
  | [] => false
  | d :: ds =>
      is_digit d && forallb is_digit ds
      && (negb (Ascii.eqb d "0") || match ds with [] => true | _ => false end)
  end.

Definition no_digit_first (rest : list ascii) : bool :=
  match rest with
  | [] => true
  | c :: _ => negb (is_digit c)
  end.

(** The read position stands between [before] and [after], which together
    are the whole input. *)
Definition cursor (p : parser) (before after : list ascii) : Prop :=
  p_str p = before ++ after
  /\ p_str_pos p = Z.of_nat (length before)
  /\ p_str_len p = Z.of_nat (length (before ++ after)).

(* ===================================================================== *)
(** * [mu_jems.c]: the other key:value functions *)

Definition mu_jems_key_bytes (jems : mu_jems_t) (key bytes : list ascii)
    (length : nat) :=
  mu_jems_bytes (mu_jems_string jems key) bytes length.

Definition mu_jems_key_bool (jems : mu_jems_t) (key : list ascii)
    (boolean : bool) :=
  mu_jems_bool (mu_jems_string jems key) boolean.

Definition mu_jems_key_true (jems : mu_jems_t) (key : list ascii) :=
  mu_jems_true (mu_jems_string jems key).

Definition mu_jems_key_false (jems : mu_jems_t) (key : list ascii) :=
  mu_jems_false (mu_jems_string jems key).

Definition mu_jems_key_null (jems : mu_jems_t) (key : list ascii) :=
  mu_jems_null (mu_jems_string jems key).

Definition mu_jems_key_literal (jems : mu_jems_t) (key literal : list ascii)
    (n_bytes : nat) :=
  mu_jems_literal (mu_jems_string jems key) literal n_bytes.

(** One call of the emitter's public interface, with its arguments. *)
Inductive jems_call : Type :=
  | call_reset
  | call_object_open
  | call_object_close
  | call_array_open
  | call_array_close
  | call_number (value : float)
  | call_integer (value : Z)
  | call_string (string : list ascii)
  | call_bytes (bytes : list ascii) (length : nat)
  | call_bool (boolean : bool)
  | call_true
  | call_false
  | call_null
  | call_literal (literal : list ascii) (n_bytes : nat)
  | call_key_object_open (key : list ascii)
  | call_key_array_open (key : list ascii)
  | call_key_number (key : list ascii) (value : float)
  | call_key_integer (key : list ascii) (value : Z)
  | call_key_string (key string : list ascii)
  | call_key_bytes (key bytes : list ascii) (length : nat)
  | call_key_bool (key : list ascii) (boolean : bool)
  | call_key_true (key : list ascii)
  | call_key_false (key : list ascii)
  | call_key_null (key : list ascii)
  | call_key_literal (key literal : list ascii) (n_bytes : nat).

Definition run_call (jems : mu_jems_t) (c : jems_call) : mu_jems_t :=
  match c with
  | call_reset => mu_jems_reset jems
  | call_object_open => mu_jems_object_open jems
  | call_object_close => mu_jems_object_close jems
  | call_array_open => mu_jems_array_open jems
  | call_array_close => mu_jems_array_close jems
  | call_number value => mu_jems_number jems value
  | call_integer value => mu_jems_integer jems value
  | call_string string => mu_jems_string jems string
  | call_bytes bytes length => mu_jems_bytes jems bytes length
  | call_bool boolean => mu_jems_bool jems boolean
  | call_true => mu_jems_true jems
  | call_false => mu_jems_false jems
  | call_null => mu_jems_null jems
  | call_literal literal n_bytes => mu_jems_literal jems literal n_bytes
  | call_key_object_open key => mu_jems_key_object_open jems key
  | call_key_array_open key => mu_jems_key_array_open jems key
  | call_key_number key value => mu_jems_key_number jems key value
  | call_key_integer key value => mu_jems_key_integer jems key value
  | call_key_string key string => mu_jems_key_string jems key string
  | call_key_bytes key bytes length => mu_jems_key_bytes jems key bytes length
  | call_key_bool key boolean => mu_jems_key_bool jems key boolean
  | call_key_true key => mu_jems_key_true jems key
  | call_key_false key => mu_jems_key_false jems key
  | call_key_null key => mu_jems_key_null jems key
  | call_key_literal key literal n_bytes =>
      mu_jems_key_literal jems key literal n_bytes
  end.

(** The calls that emit one value: the two opening calls and the nine
    calls that write a scalar. *)
Definition emits_value (c : jems_call) : bool :=
  match c with
  | call_object_open | call_array_open | call_number _ | call_integer _
  | call_string _ | call_bytes _ _ | call_bool _ | call_true | call_false
  | call_null | call_literal _ _ => true
  | _ => false
  end.

(** The calls that emit a key and a value: the key, and the call that
    emits the value. *)
Definition key_and_value (c : jems_call) : option (list ascii * jems_call) :=
  match c with
  | call_key_object_open key => Some (key, call_object_open)
  | call_key_array_open key => Some (key, call_array_open)
  | call_key_number key value => Some (key, call_number value)
  | call_key_integer key value => Some (key, call_integer value)
  | call_key_string key string => Some (key, call_string string)
  | call_key_bytes key bytes length => Some (key, call_bytes bytes length)
  | call_key_bool key boolean => Some (key, call_bool boolean)
  | call_key_true key => Some (key, call_true)
  | call_key_false key => Some (key, call_false)
  | call_key_null key => Some (key, call_null)
  | call_key_literal key literal n_bytes =>
      Some (key, call_literal literal n_bytes)
  | _ => None
  end.

(** A sequence of calls, one after the other. *)
Definition run_calls (jems : mu_jems_t) (calls : list jems_call) : mu_jems_t :=
  fold_left run_call calls jems.

(** The emitter holds an array of [max_level] frames, [max_level] being a
    positive [size_t], and its current frame is one of them. *)
Definition level_in_bounds (jems : mu_jems_t) : Prop :=
  0 < max_level jems < 2 ^ SIZE_BITS
  /\ max_level jems <= Z.of_nat (length (levels jems))
  /\ 0 <= curr_level jems < max_level jems.


(** What a call of the emitter keeps: the capacity and the frame array
    stay as they are, what has been written stays written, and a current
    frame inside the array stays inside it. *)
Definition jems_extends (jems jems' : mu_jems_t) : Prop :=
  max_level jems' = max_level jems
  /\ length (levels jems') = length (levels jems)
  /\ (exists out, written jems' = written jems ++ out)
  /\ (level_in_bounds jems -> level_in_bounds jems').

(** The codes that the parsing functions below [parse_json] return. *)
Definition element_code (e : mu_json_err_t) : bool :=
  match e with
  | MU_JSON_ERR_NONE | MU_JSON_ERR_BAD_FORMAT | MU_JSON_ERR_INCOMPLETE
  | MU_JSON_ERR_NOT_ENOUGH_TOKENS | MU_JSON_ERR_NO_MULTIBYTE
  | MU_JSON_ERR_INTERNAL => true
  | _ => false
  end.

(* ===================================================================== *)
(** * The shape of the token store *)

(** What a scalar does once its token [tok] is drawn: it consumes bytes,
    and writes the type and the length of that token. *)
Inductive cstep (tok : nat) : parser -> parser -> Prop :=
  | cstep_get_char (p : parser) :
      at_eos p = false -> cstep tok p (get_char p)
  | cstep_set_type (p : parser) ty :
      ty <> MU_JSON_TOKEN_TYPE_UNKNOWN ->
      cstep tok p (update_token p tok (fun t => set_token_type t ty))
  | cstep_finalize (p : parser) :
      cstep tok p (finalize_token p tok).

Definition csteps (tok : nat) : parser -> parser -> Prop := rtc (cstep tok).

(** The offset of the first byte of token [i]. *)
Definition start (st : list mu_json_token_t) (i : nat) : Z :=
  default 0 (str (token_at st i)).

(** A finished token: it starts at an offset from [lo] on and before [hi],
    it ends at [hi] at the latest, its type is known, its depth is at
    least [depth], and it is not marked last. *)
Definition token_within (lo hi depth : Z) (t : mu_json_token_t) : Prop :=
  exists o, str t = Some o /\ lo <= o < hi /\ 0 <= str_len t
            /\ o + str_len t <= hi
            /\ type t <> MU_JSON_TOKEN_TYPE_UNKNOWN
            /\ depth <= level t < 2 ^ 11 /\ is_last t = false.

(** What a successful call of a parsing function has built when it
    returns in state [p'], having started in state [p]: the depth is the
    one it started with; the tokens drawn before and the tokens not yet
    drawn are as they were; every token drawn by the call lies in the input
    that the call consumed, at the depth of the call or deeper; the first
    one is at the depth of the call; and from one token to the next the
    depth goes up by one at most, and the start moves forward. *)
Record built (p p' : parser) : Prop := mk_built {
  built_level : p_level p' = p_level p;
  built_max : p_max_tokens p' = p_max_tokens p;
  built_pos : p_str_pos p <= p_str_pos p';
  built_count : p_token_count p <= p_token_count p';
  built_frame : forall i : nat,
    Z.of_nat i < p_token_count p \/ p_token_count p' <= Z.of_nat i ->
    p_token_store p' !! i = p_token_store p !! i;
  built_tokens : forall i : nat,
    p_token_count p <= Z.of_nat i < p_token_count p' ->
    exists t, p_token_store p' !! i = Some t
              /\ token_within (p_str_pos p) (p_str_pos p') (p_level p) t;
  built_first : p_token_count p < p_token_count p' ->
    level (token_at (p_token_store p') (Z.to_nat (p_token_count p)))
    = p_level p;
  built_adjacent : forall i : nat,
    p_token_count p <= Z.of_nat i -> Z.of_nat i + 1 < p_token_count p' ->
    level (token_at (p_token_store p') (S i))
    <= level (token_at (p_token_store p') i) + 1
    /\ start (p_token_store p') i < start (p_token_store p') (S i)
}.

(** Of the tokens drawn by a call that parses one element, only the first
    is at the depth of the call. *)
Definition one_root (p p' : parser) : Prop :=
  forall i : nat, p_token_count p < Z.of_nat i < p_token_count p' ->
    p_level p < level (token_at (p_token_store p') i).

(** The tokens not yet drawn are as [parser_reset] left them. *)
Definition fresh (p : parser) : Prop :=
  forall i : nat, p_token_count p <= Z.of_nat i < p_max_tokens p ->
    p_token_store p !! i = Some zero_token.

(** The depth fits the 11 bits of a token's [level]. *)
Definition level_fits (p : parser) : Prop := 0 <= p_level p < 2 ^ 11.

(** No token drawn so far is at the greatest depth that 11 bits hold. *)
Definition shallow (p : parser) : Prop :=
  forall i : nat, Z.of_nat i < p_token_count p ->
    level (token_at (p_token_store p) i) < 2 ^ 11 - 1.

(** What steps on token [tok] leave alone, and what they keep of that
    token: its start, its depth and its mark; a known type stays known; and
    a length that ends before the read position still does. *)
Record touched (tok : nat) (p q : parser) : Prop := mk_touched {
  touched_str : p_str q = p_str p;
  touched_len : p_str_len q = p_str_len p;
  touched_max : p_max_tokens q = p_max_tokens p;
  touched_count : p_token_count q = p_token_count p;
  touched_level : p_level q = p_level p;
  touched_pos : p_str_pos p <= p_str_pos q;
  touched_others : forall i : nat, i <> tok ->
    p_token_store q !! i = p_token_store p !! i;
  touched_token : forall t, p_token_store p !! tok = Some t ->
    exists t', p_token_store q !! tok = Some t'
      /\ str t' = str t /\ level t' = level t /\ is_last t' = is_last t
      /\ (type t <> MU_JSON_TOKEN_TYPE_UNKNOWN ->
          type t' <> MU_JSON_TOKEN_TYPE_UNKNOWN)
      /\ (forall o, str t = Some o -> 0 <= str_len t ->
            o + str_len t <= p_str_pos p ->
            0 <= str_len t' /\ o + str_len t' <= p_str_pos q)
}.

(** A state in which a parsing function may be called. *)
Definition ready (p : parser) : Prop :=
  0 <= p_token_count p /\ fresh p /\ level_fits p.

(** None of the first [n] tokens is at depth 2047, the greatest that the
    11 bits of [level] hold: the nesting has stayed below the limit. *)
Definition below_depth_limit (n : Z) (toks : list mu_json_token_t) : Prop :=
  forall i : nat, Z.of_nat i < n -> level (token_at toks i) < 2 ^ 11 - 1.

(* ===================================================================== *)
(** * [mu_json.c]: the other public functions on tokens *)

(** [s_error_names[]], from [DEFINE_MU_JSON_ERRORS]. *)
Definition s_error_names : list string :=
  ["MU_JSON_ERR_NONE"; "MU_JSON_ERR_BAD_FORMAT"; "MU_JSON_ERR_INCOMPLETE";
   "MU_JSON_ERR_NO_ENTITIES"; "MU_JSON_ERR_STRAY_INPUT";
   "MU_JSON_ERR_NOT_ENOUGH_TOKENS"; "MU_JSON_ERR_BAD_ARGUMENT";
   "MU_JSON_ERR_TOO_DEEP"; "MU_JSON_ERR_NO_MULTIBYTE";
   "MU_JSON_ERR_INTERNAL"]%string.

(** The least [int]. *)
Definition INT_MIN : Z := - 2 ^ 31.

(** [mu_json_error_name].  [errnum] is an [int]; for the least [int] the
    negation [-errnum] overflows, which C leaves undefined: [None]. *)
Definition mu_json_error_name (errnum : Z) : option string :=
  if errnum =? INT_MIN then None
  else
    let errnum := - errnum in
    if errnum <? 0 then s_error_names !! 0%nat
    else if Z.of_nat (length s_error_names) <=? errnum then
      Some "MU_JSON_ERR_UNKNOWN"%string
    else s_error_names !! Z.to_nat errnum.

Definition mu_json_token_string (tokens : list mu_json_token_t)
    (token : option Z) : option Z :=
  match token with
  | None => None
  | Some t => str (deref tokens t)
  end.

Definition mu_json_token_string_length (tokens : list mu_json_token_t)
    (token : option Z) : Z :=
  match token with
  | None => -1
  | Some t => str_len (deref tokens t)
  end.

Definition mu_json_token_type (tokens : list mu_json_token_t)
    (token : option Z) : mu_json_token_type_t :=
  match token with
  | None => MU_JSON_TOKEN_TYPE_UNKNOWN
  | Some t => type (deref tokens t)
  end.

Definition mu_json_token_is_first (tokens : list mu_json_token_t)
    (token : option Z) : bool :=
  match token with
  | None => false
  | Some t => token_is_first tokens t
  end.

Definition mu_json_token_is_last (tokens : list mu_json_token_t)
    (token : option Z) : bool :=
  match token with
  | None => false
  | Some t => token_is_last tokens t
  end.

(** The [while (!token_is_first(token))] loop of
    [mu_json_find_root_token].  Each iteration steps one token back, so [n]
    iterations starting at index [n - 1] stay inside the store; with
    [n = 0] the walk has left the store at its front. *)
Fixpoint find_root_loop (n : nat) (tokens : list mu_json_token_t)
    (token : Z) : option Z :=
  match n with
  | O => None
  | S n' =>
      if token_is_first tokens token then Some token
      else find_root_loop n' tokens (token - 1)
  end.

Definition mu_json_find_root_token (tokens : list mu_json_token_t)
    (token : option Z) : option Z :=
  match token with
  | None => None
  | Some t => find_root_loop (Z.to_nat (t + 1)) tokens t
  end.

(** The [while (true)] loop of [find_sibling]; [m] is the function that
    moves to the next or to the previous token.  Each iteration moves by
    one token, so [n] bounds the walk by the size of the store. *)
Fixpoint find_sibling_loop (n : nat) (tokens : list mu_json_token_t)
    (m : list mu_json_token_t -> option Z -> option Z)
    (target_level : Z) (current : Z) : option Z :=
  match n with
  | O => None
  | S n' =>
      match m tokens (Some current) with
      | None => None
      | Some c =>
          if level (deref tokens c) =? target_level then Some c
          else if level (deref tokens c) <? target_level then None
          else find_sibling_loop n' tokens m target_level c
      end
  end.

Definition find_sibling (tokens : list mu_json_token_t) (token : option Z)
    (m : list mu_json_token_t -> option Z -> option Z) : option Z :=
  match token with
  | None => None
  | Some t =>
      if token_is_first tokens t then None
      else find_sibling_loop (S (length tokens)) tokens m
                             (level (deref tokens t)) t
  end.

Definition mu_json_find_next_sibling_token (tokens : list mu_json_token_t)
    (token : option Z) : option Z :=
  find_sibling tokens token mu_json_find_next_token.

Definition mu_json_find_prev_sibling_token (tokens : list mu_json_token_t)
    (token : option Z) : option Z :=
  find_sibling tokens token mu_json_find_prev_token.

(** The depths of the first [n] tokens are those of a tree laid out depth
    first: the root alone at depth 0, and no step down by more than one. *)
Definition depth_first (n : Z) (toks : list mu_json_token_t) : Prop :=
  level (token_at toks 0) = 0
  /\ (forall i : nat, 0 < Z.of_nat i < n -> 0 < level (token_at toks i))
  /\ (forall i : nat, Z.of_nat i + 1 < n ->
        level (token_at toks (S i)) <= level (token_at toks i) + 1).

(** A decimal numeral that starts with a digit other than 0. *)
Definition head_nonzero (d : Decimal.uint) : bool :=
  match d with
  | Decimal.Nil | Decimal.D0 _ => false
  | _ => true
  end.

(** What a parsing function called in state [p] keeps of the balance
    between tokens and bytes when it returns [e] in state [p']: after a
    success no more tokens are drawn than bytes are consumed, and the store
    is reported full only if it is smaller than the input. *)
Definition within_budget (p : parser) (e : mu_json_err_t) (p' : parser)
    : Prop :=
  (e = MU_JSON_ERR_NONE -> p_token_count p' <= p_str_pos p')
  /\ (e = MU_JSON_ERR_NOT_ENOUGH_TOKENS -> p_max_tokens p < p_str_len p).

(** The byte at which the parser starts a token of each type: the
    dispatch of [parse_element], and the tests at the head of
    [parse_string], [parse_number], [parse_object] and [parse_array]. *)
Definition opens (ch : ascii) (ty : mu_json_token_type_t) : bool :=
  match ty with
  | MU_JSON_TOKEN_TYPE_UNKNOWN => false
  | MU_JSON_TOKEN_TYPE_ARRAY => Ascii.eqb ch "["
  | MU_JSON_TOKEN_TYPE_OBJECT => Ascii.eqb ch "{"
  | MU_JSON_TOKEN_TYPE_STRING => Ascii.eqb ch ch_quote
  | MU_JSON_TOKEN_TYPE_NUMBER | MU_JSON_TOKEN_TYPE_INTEGER =>
      is_number_prefix ch
  | MU_JSON_TOKEN_TYPE_TRUE => Ascii.eqb ch "t"
  | MU_JSON_TOKEN_TYPE_FALSE => Ascii.eqb ch "f"
  | MU_JSON_TOKEN_TYPE_NULL => Ascii.eqb ch "n"
  end.

(** The type of token [t] agrees with the byte of the input [s] at which
    the token starts. *)
Definition token_opens (s : list ascii) (t : mu_json_token_t) : Prop :=
  exists o, str t = Some o
            /\ opens (default NUL (s !! Z.to_nat o)) (type t) = true.

(** Every token drawn between the states [p] and [p'] has the type that
    its first byte announces. *)
Definition typed (p p' : parser) : Prop :=
  forall i : nat, p_token_count p <= Z.of_nat i < p_token_count p' ->
    token_opens (p_str p') (token_at (p_token_store p') i).

(* ===================================================================== *)
(** * Two inputs that agree up to an offset *)

(** The parser reads its input from left to right, so what it does with
    an input can be read off what it does with another input that has the
    same first [c] bytes.  The first input, of [len] bytes, is one that
    parses; from offset [c] on it holds one byte and then closing brackets
    only.  The second input, of [len'] bytes, ends at offset [c] or holds
    another byte there.  Four cases are used:
    - [in_container]: the first input goes on with closing brackets, the
      second ends;
    - [in_exponent]: the first [c] bytes end with the exponent marker of a
      number, or with the marker and a sign; the first input goes on with a
      digit, the second ends or goes on with a byte that is no digit (and,
      right after the marker, no sign);
    - [at_element]: the first input goes on with an opening bracket (of an
      empty array), the second with a byte that has its high bit set;
    - [in_string]: the first input goes on with the double quote that ends
      a string, the second with a byte that has its high bit set. *)
Inductive cut_kind : Type :=
  | in_container
  | in_exponent
  | at_element
  | in_string.

(** [s[i]] *)
Definition byte_of (s : list ascii) (i : Z) : ascii :=
  default NUL (s !! Z.to_nat i).

Definition is_exponent_marker (ch : ascii) : bool :=
  Ascii.eqb ch "e" || Ascii.eqb ch "E".

Definition is_sign (ch : ascii) : bool :=
  Ascii.eqb ch "+" || Ascii.eqb ch "-".

(** The byte of the first input at the offset. *)
Definition tail_head (k : cut_kind) (ch : ascii) : bool :=
  match k with
  | in_container => is_closer ch
  | in_exponent => is_digit ch
  | at_element => Ascii.eqb ch "["
  | in_string => Ascii.eqb ch ch_quote
  end.

(** The bytes before the offset end with an exponent marker, or with an
    exponent marker and a sign. *)
Definition after_marker (s : list ascii) (c : Z) : Prop :=
  (1 <= c /\ is_exponent_marker (byte_of s (c - 1)) = true)
  \/ (2 <= c /\ is_exponent_marker (byte_of s (c - 2)) = true
      /\ is_sign (byte_of s (c - 1)) = true).

(** A byte [ch] that is no digit of the exponent: no digit, and a sign
    only when the byte [before] it is the sign of the exponent. *)
Definition no_exponent_digit (before ch : ascii) : bool :=
  negb (is_digit ch) && (negb (is_sign ch) || is_sign before).

(** The second input at the offset. *)
Definition other_at_cut (k : cut_kind) (s' : list ascii) (len' c : Z)
    : Prop :=
  match k with
  | in_container => len' = c
  | in_exponent =>
      len' = c
      \/ (c < len'
          /\ no_exponent_digit (byte_of s' (c - 1)) (byte_of s' c) = true)
  | at_element | in_string => c < len' /\ high_bit (byte_of s' c) = true
  end.

(** The code that the parse of the second input returns. *)
Definition cut_code (k : cut_kind) : mu_json_err_t :=
  match k with
  | in_container => MU_JSON_ERR_INCOMPLETE
  | in_exponent => MU_JSON_ERR_BAD_FORMAT
  | at_element | in_string => MU_JSON_ERR_NO_MULTIBYTE
  end.

Record varied (k : cut_kind) (c : Z) (s : list ascii) (len : Z)
    (s' : list ascii) (len' : Z) : Prop := mk_varied {
  varied_cut : 0 <= c < len;
  varied_head : tail_head k (byte_of s c) = true;
  varied_closers : forall i, c < i < len -> is_closer (byte_of s i) = true;
  varied_same : forall i, 0 <= i < c -> byte_of s' i = byte_of s i;
  varied_other : other_at_cut k s' len' c;
  varied_marker : k = in_exponent -> after_marker s c
}.

(** The same call on the input [s'] of [len'] bytes. *)
Definition on_input (s' : list ascii) (len' : Z) (p : parser) : parser :=
  mk_parser s' len' (p_str_pos p) (p_token_store p) (p_max_tokens p)
            (p_token_count p) (p_level p).

(** A state of the parse of the first input in which nothing has been read
    from the offset on. *)
Definition before_cut (c : Z) (s : list ascii) (len : Z) (p : parser)
    : Prop :=
  p_str p = s /\ p_str_len p = len /\ 0 <= p_str_pos p <= c
  /\ 0 <= p_token_count p.

(** The bytes after which [parse_element] is called: whitespace, an
    opening bracket, a comma, a colon. *)
Definition is_separator (ch : ascii) : bool :=
  is_space ch || Ascii.eqb ch "[" || Ascii.eqb ch "{" || Ascii.eqb ch ","
  || Ascii.eqb ch ":".

(** The read position is at the start of the input or after a
    separator. *)
Definition element_start (p : parser) : Prop :=
  p_str_pos p = 0
  \/ is_separator (byte_of (p_str p) (p_str_pos p - 1)) = true.

(** What a successful call on the first input says of the same call on
    the second: it stopped at the offset or before it and the call on the
    second input succeeds in the same way, or it went beyond the offset and
    the call on the second input returns the code of the case. *)
Definition cut_outcome (k : cut_kind) (c : Z) (s' : list ascii) (len' : Z)
    (long other : option (mu_json_err_t * parser)) : Prop :=
  forall p', long = Some (MU_JSON_ERR_NONE, p') ->
    (p_str_pos p' <= c
     /\ other = Some (MU_JSON_ERR_NONE, on_input s' len' p'))
    \/ (c < p_str_pos p' /\ exists q, other = Some (cut_code k, q)).

(** The bytes [a] end with the exponent marker of a number, or with the
    marker and a sign. *)
Definition ends_in_exponent (a : list ascii) : bool :=
  match reverse a with
  | [] => false
  | x :: before =>
      is_exponent_marker x
      || is_sign x && match before with
                      | [] => false
                      | y :: _ => is_exponent_marker y
                      end
  end.

(** After [a], the bytes [rest] hold no digit of the exponent: there are
    none, or the first is no digit and, right after the marker, no
    sign. *)
Definition no_exponent_digits (a rest : list ascii) : bool :=
  match rest with
  | [] => true
  | x :: _ => no_exponent_digit (default NUL (last a)) x
  end.

(** How the second input goes on after the bytes [a] it shares with the
    first. *)
Definition goes_on (k : cut_kind) (a rest : list ascii) : bool :=
  match k with
  | in_container => match rest with [] => true | _ => false end
  | in_exponent => ends_in_exponent a && no_exponent_digits a rest
  | at_element | in_string =>
      match rest with [] => false | x :: _ => high_bit x end
  end.
(* ===================================================================== *)
(** * The emitter: punctuation and frames *)

Lemma land_1_odd (n : Z) : negb (Z.land n 1 =? 0) = Z.odd n.
Proof.
  replace 1 with (Z.ones 1) by reflexivity.
  rewrite Z.land_ones by lia.
  change (2 ^ 1) with 2.
  rewrite Zmod_odd.
  destruct (Z.odd n); reflexivity.
Qed.

Lemma written_commify (jems : mu_jems_t) :
  written (commify jems) = written jems ++ punctuation (level_ref jems).
Proof.
  unfold commify, punctuation.
  destruct (is_object (level_ref jems)).
  - rewrite land_1_odd.
    destruct (Z.ltb_spec 0 (item_count (level_ref jems)));
      destruct (Z.leb_spec (item_count (level_ref jems)) 0); try lia;
      cbn; [ destruct (Z.odd _); reflexivity | symmetry; apply app_nil_r ].
  - destruct (Z.ltb_spec 0 (item_count (level_ref jems)));
      destruct (Z.leb_spec (item_count (level_ref jems)) 0); try lia;
      cbn; [ reflexivity | symmetry; apply app_nil_r ].
Qed.

Lemma levels_commify (jems : mu_jems_t) :
  levels (commify jems)
  = alter (fun l => mk_level (size_t_wrap (item_count l + 1)) (is_object l))
          (Z.to_nat (curr_level jems)) (levels jems).
Proof.
  unfold commify.
  destruct (is_object (level_ref jems));
    destruct (0 <? item_count (level_ref jems)); reflexivity.
Qed.

Lemma curr_level_commify (jems : mu_jems_t) :
  curr_level (commify jems) = curr_level jems.
Proof.
  unfold commify.
  destruct (is_object (level_ref jems));
    destruct (0 <? item_count (level_ref jems)); reflexivity.
Qed.

Lemma max_level_commify (jems : mu_jems_t) :
  max_level (commify jems) = max_level jems.
Proof.
  unfold commify.
  destruct (is_object (level_ref jems));
    destruct (0 <? item_count (level_ref jems)); reflexivity.
Qed.

(** C10.  [mu_jems_object_close] and [mu_jems_array_close] pass exactly one
    byte to the writer, [}] and []] respectively, with nothing before it;
    they leave every frame as it is; and they take one from [curr_level]
    when it is positive and leave it (at 0) otherwise. *)
Theorem close_emits_one_byte_and_pops (jems : mu_jems_t) :
  mu_jems_object_close jems
  = mk_jems (levels jems) (max_level jems)
            (if 0 <? curr_level jems then curr_level jems - 1
             else curr_level jems)
            (written jems ++ ["}"%char])
  /\ mu_jems_array_close jems
     = mk_jems (levels jems) (max_level jems)
               (if 0 <? curr_level jems then curr_level jems - 1
                else curr_level jems)
               (written jems ++ ["]"%char]).
Proof.
  unfold mu_jems_object_close, mu_jems_array_close, pop_level, emit_char,
    set_curr_level.
  cbn. destruct (0 <? curr_level jems); split; reflexivity.
Qed.

(** ** The emitter on an explicit state *)

Lemma emit_char_state ls m c w ch :
  emit_char (mk_jems ls m c w) ch = mk_jems ls m c (w ++ [ch]).
Proof. reflexivity. Qed.

Lemma emit_string_state s : forall ls m c w,
  emit_string (mk_jems ls m c w) s = mk_jems ls m c (w ++ c_string s).
Proof.
  induction s as [|a s IH]; intros ls m c w; cbn.
  - rewrite app_nil_r. reflexivity.
  - destruct (Ascii.eqb a NUL).
    + rewrite app_nil_r. reflexivity.
    + rewrite emit_char_state, IH, <- app_assoc. reflexivity.
Qed.

Lemma format_u04x_c_string (n : Z) :
  0 <= n < 256 -> c_string (format_u04x n) = format_u04x n.
Proof.
  intros Hn.
  assert (Hd : forall d, 0 <= d < 16 -> Ascii.eqb (hex_digit d) NUL = false).
  { intros d Hd.
    assert (Hcases : d = 0 \/ d = 1 \/ d = 2 \/ d = 3 \/ d = 4 \/ d = 5
                     \/ d = 6 \/ d = 7 \/ d = 8 \/ d = 9 \/ d = 10 \/ d = 11
                     \/ d = 12 \/ d = 13 \/ d = 14 \/ d = 15) by lia.
    repeat (destruct Hcases as [-> | Hcases]; [reflexivity |]).
    subst d. reflexivity. }
  unfold format_u04x. cbn [c_string].
  change (Ascii.eqb ch_backslash NUL) with false.
  change (Ascii.eqb "u" NUL) with false.
  change (Ascii.eqb "0" NUL) with false. cbn iota.
  rewrite !Hd; [reflexivity | |].
  - apply Z.mod_pos_bound. lia.
  - split; [apply Z.div_pos; lia | apply Z.div_lt_upper_bound; lia].
Qed.

Lemma code_range (ch : ascii) : 0 <= code ch < 256.
Proof.
  unfold code. pose proof (N_ascii_bounded ch). lia.
Qed.

Lemma emit_quoted_byte_state ls m c w byte :
  emit_quoted_byte (mk_jems ls m c w) byte
  = mk_jems ls m c (w ++ quoted_byte byte).
Proof.
  unfold emit_quoted_byte, quoted_byte.
  destruct ((code byte <? 32) || (127 <=? code byte)).
  - rewrite emit_string_state, format_u04x_c_string by apply code_range.
    reflexivity.
  - destruct (Ascii.eqb byte ch_backslash || Ascii.eqb byte ch_quote);
      rewrite !emit_char_state; [rewrite <- app_assoc |]; reflexivity.
Qed.

Lemma emit_quoted_string_state s : forall ls m c w,
  emit_quoted_string (mk_jems ls m c w) s
  = mk_jems ls m c (w ++ quoted_string s).
Proof.
  unfold quoted_string.
  induction s as [|a s IH]; intros ls m c w; cbn.
  - rewrite app_nil_r. reflexivity.
  - destruct (Ascii.eqb a NUL); cbn.
    + rewrite app_nil_r. reflexivity.
    + rewrite emit_quoted_byte_state, IH, <- app_assoc. reflexivity.
Qed.

Lemma commify_state ls m c w :
  commify (mk_jems ls m c w)
  = mk_jems
      (alter (fun l => mk_level (size_t_wrap (item_count l + 1)) (is_object l))
             (Z.to_nat c) ls)
      m c (w ++ punctuation (default zero_level (ls !! Z.to_nat c))).
Proof.
  pose proof (written_commify (mk_jems ls m c w)) as Hw.
  pose proof (levels_commify (mk_jems ls m c w)) as Hl.
  pose proof (curr_level_commify (mk_jems ls m c w)) as Hc.
  pose proof (max_level_commify (mk_jems ls m c w)) as Hm.
  destruct (commify (mk_jems ls m c w)) as [ls' m' c' w'].
  unfold level_ref in Hw. cbn in *. congruence.
Qed.

(** A push that finds room: the frame above the current one is cleared
    and becomes the current frame. *)
Lemma push_level_room ls m c w (b : bool) :
  0 <= c -> c + 1 < m -> m <= 2 ^ SIZE_BITS ->
  push_level (mk_jems ls m c w) b
  = mk_jems (alter (fun _ => mk_level 0 b) (Z.to_nat (c + 1)) ls) m (c + 1) w.
Proof.
  intros Hc Hm Hmax. unfold push_level. cbn [curr_level max_level].
  unfold size_t_wrap. rewrite Z.mod_small by lia.
  destruct (Z.ltb_spec c (m - 1)); [| lia].
  unfold set_level_ref, set_curr_level.
  cbn [curr_level max_level levels written].
  f_equal. rewrite list_alter_alter_eq.
  apply list_alter_ext; [| reflexivity].
  intros [] _; reflexivity.
Qed.

(** A push at the top of the stack is suppressed. *)
Lemma push_level_full ls m c w (b : bool) :
  0 < m <= 2 ^ SIZE_BITS -> m - 1 <= c ->
  push_level (mk_jems ls m c w) b = mk_jems ls m c w.
Proof.
  intros Hm Hc. unfold push_level. cbn [curr_level max_level].
  unfold size_t_wrap. rewrite Z.mod_small by lia.
  destruct (Z.ltb_spec c (m - 1)); [lia | reflexivity].
Qed.

Lemma pop_level_state ls m c w :
  pop_level (mk_jems ls m c w)
  = mk_jems ls m (if 0 <? c then c - 1 else c) w.
Proof.
  unfold pop_level, set_curr_level. cbn. destruct (0 <? c); reflexivity.
Qed.

Lemma mu_jems_number_3_5 (jems : mu_jems_t) :
  mu_jems_number jems 3.5%float
  = emit_string (commify jems) (list_ascii_of_string "3.500000").
Proof. reflexivity. Qed.

Lemma mu_jems_init_state (l0 : mu_jems_level_t) ls m :
  mu_jems_init (l0 :: ls) m = mk_jems (mk_level 0 false :: ls) m 0 [].
Proof. reflexivity. Qed.

(** C9, as the code has it.  From a freshly initialised emitter with room
    for three frames, the calls of scenario 5 pass to the writer the bytes
    [{"x":1,"y":[2,3.500000]}] and nothing else: [mu_jems_number] prints a
    value that is not an integer with the conversion [%lf], which writes six
    digits after the point. *)
Theorem scenario_5_written (ls : list mu_jems_level_t) (m : Z) :
  3 <= m <= Z.of_nat (length ls) -> m <= 2 ^ SIZE_BITS ->
  written (scenario_5 (mu_jems_init ls m)) = text "{'x':1,'y':[2,3.500000]}".
Proof.
  intros Hm Hmax.
  destruct ls as [|l0 [|l1 [|l2 rest]]]; cbn [length] in Hm; try lia.
  rewrite mu_jems_init_state.
  unfold scenario_5, mu_jems_key_integer, mu_jems_key_array_open.
  rewrite mu_jems_number_3_5.
  unfold mu_jems_object_close, mu_jems_array_close, mu_jems_integer,
    mu_jems_array_open, mu_jems_object_open, mu_jems_string.
  change (snprintf22 (format_d (to_int64 1))) with ["1"%char].
  change (snprintf22 (format_d (to_int64 2))) with ["2"%char].
  rewrite commify_state, emit_char_state, push_level_room by lia.
  rewrite commify_state, emit_char_state, emit_quoted_string_state,
    emit_char_state, commify_state, emit_string_state.
  rewrite commify_state, emit_char_state, emit_quoted_string_state,
    emit_char_state, commify_state, emit_char_state.
  rewrite push_level_room by lia.
  rewrite commify_state, emit_string_state, commify_state, emit_string_state.
  rewrite emit_char_state, pop_level_state, emit_char_state, pop_level_state.
  cbn [written]. vm_compute. reflexivity.
Qed.

Lemma scenario_5_written_witness :
  written (scenario_5 (mu_jems_init (replicate 3 zero_level) 3))
  = text "{'x':1,'y':[2,3.500000]}".
Proof.
  apply (scenario_5_written (replicate 3 zero_level) 3).
  - cbn. lia.
  - unfold SIZE_BITS. lia.
Defined.

(** C9, as the claim words it, fails: the bytes written are not
    [{"x":1,"y":[2,3.5]}]. *)
Lemma scenario_5_not_3_5 :
  written (scenario_5 (mu_jems_init (replicate 3 zero_level) 3))
  <> text "{'x':1,'y':[2,3.5]}".
Proof. vm_compute. discriminate. Qed.

(* ===================================================================== *)
(** * The parser: elementary facts *)

Lemma at_eos_false (p : parser) :
  at_eos p = false <-> p_str_pos p < p_str_len p.
Proof. unfold at_eos. rewrite Z.leb_gt. reflexivity. Qed.

Lemma at_eos_true (p : parser) :
  at_eos p = true <-> p_str_len p <= p_str_pos p.
Proof. unfold at_eos. rewrite Z.leb_le. reflexivity. Qed.

Lemma remaining_zero_at_eos (p : parser) :
  remaining p = 0%nat <-> at_eos p = true.
Proof. rewrite at_eos_true. unfold remaining. lia. Qed.

Lemma remaining_get_char (p : parser) :
  at_eos p = false -> remaining p = S (remaining (get_char p)).
Proof. rewrite at_eos_false. unfold remaining, get_char. cbn. lia. Qed.

Lemma is_none_true (e : mu_json_err_t) :
  is_none e = true <-> e = MU_JSON_ERR_NONE.
Proof. destruct e; cbn; split; congruence. Qed.

Lemma is_none_false (e : mu_json_err_t) :
  is_none e = false <-> e <> MU_JSON_ERR_NONE.
Proof. destruct e; cbn; split; congruence. Qed.

(** ** Reachability by elementary steps *)

Lemma psteps_refl (p : parser) : psteps p p.
Proof. apply rtc_refl. Qed.

Lemma psteps_trans (p q r : parser) : psteps p q -> psteps q r -> psteps p r.
Proof. apply rtc_trans. Qed.

Lemma psteps_get_char (p : parser) : at_eos p = false -> psteps p (get_char p).
Proof. intros H. apply rtc_once. constructor. exact H. Qed.

Lemma psteps_init_token (p : parser) ty tok p' :
  init_token p ty = Some (tok, p') -> psteps p p'.
Proof. intros H. apply rtc_once. econstructor. exact H. Qed.

Lemma psteps_set_type (p : parser) tok ty :
  psteps p (update_token p tok (fun t => set_token_type t ty)).
Proof. apply rtc_once. constructor. intros t. cbn. auto. Qed.

Lemma psteps_finalize (p : parser) tok : psteps p (finalize_token p tok).
Proof. apply rtc_once. constructor. intros t. cbn. auto. Qed.

Lemma psteps_set_level (p : parser) l :
  0 < p_token_count p -> psteps p (set_level p l).
Proof. intros H. apply rtc_once. constructor. exact H. Qed.

Lemma init_token_count (p : parser) ty tok p' :
  init_token p ty = Some (tok, p') ->
  p_token_count p < p_max_tokens p
  /\ tok = Z.to_nat (p_token_count p)
  /\ p_token_count p' = p_token_count p + 1
  /\ p_str_pos p' = p_str_pos p /\ p_str_len p' = p_str_len p
  /\ p_str p' = p_str p /\ p_level p' = p_level p
  /\ p_max_tokens p' = p_max_tokens p.
Proof.
  unfold init_token, alloc_token.
  destruct (Z.leb_spec (p_max_tokens p) (p_token_count p)); [discriminate |].
  intros [= <- <-]. cbn. repeat split; try reflexivity. lia.
Qed.

Lemma pframe_refl (p : parser) : pframe p p.
Proof. constructor; auto with lia. Qed.

Lemma pframe_trans (p q r : parser) : pframe p q -> pframe q r -> pframe p r.
Proof.
  intros [] []. constructor; try congruence; lia.
Qed.

Lemma pstep_pframe (p p' : parser) : pstep p p' -> pframe p p'.
Proof.
  intros [q H | q ty tok q' H | q tok f H | q l H].
  - apply at_eos_false in H. constructor; cbn; auto with lia.
  - pose proof (init_token_count _ _ _ _ H) as (? & ? & ? & ? & ? & ? & ? & ?).
    constructor; try congruence; try lia.
    unfold init_token, alloc_token in H.
    destruct (p_max_tokens q <=? p_token_count q); [discriminate |].
    injection H as <- <-. cbn. rewrite !length_alter. reflexivity.
  - constructor; cbn; auto with lia. apply length_alter.
  - constructor; cbn; auto with lia.
Qed.

Lemma psteps_pframe (p p' : parser) : psteps p p' -> pframe p p'.
Proof.
  induction 1 as [| p q r Hpq _ IH].
  - apply pframe_refl.
  - eapply pframe_trans; [apply pstep_pframe; exact Hpq | exact IH].
Qed.

(** ** Every parsing function moves by elementary steps *)

Ltac psteps_back :=
  repeat first
    [ apply psteps_refl
    | eassumption
    | match goal with
      | |- psteps ?p (finalize_token ?q _) =>
          apply (psteps_trans p q); [| apply psteps_finalize]
      | |- psteps ?p (update_token ?q _ (fun t => set_token_type t _)) =>
          apply (psteps_trans p q); [| apply psteps_set_type]
      | |- psteps ?p (get_char ?q) =>
          apply (psteps_trans p q);
          [| apply psteps_get_char; first [assumption | reflexivity]]
      end ].

Lemma skip_whitespace_loop_psteps (n : nat) : forall p,
  psteps p (skip_whitespace_loop n p).
Proof.
  induction n as [|n IH]; intros p; cbn; [apply psteps_refl |].
  destruct (at_eos p) eqn:Heos; [apply psteps_refl |].
  destruct (is_space (peek_char p)); [| apply psteps_refl].
  eapply psteps_trans; [apply psteps_get_char; exact Heos | apply IH].
Qed.

Lemma skip_whitespace_psteps (p : parser) : psteps p (skip_whitespace p).
Proof. apply skip_whitespace_loop_psteps. Qed.

Lemma hex_digits_psteps (k : nat) : forall p p',
  hex_digits k p = Some p' -> psteps p p'.
Proof.
  induction k as [|k IH]; intros p p'; cbn.
  - intros [= <-]. apply psteps_refl.
  - destruct (at_eos p) eqn:Heos; cbn; [discriminate |].
    destruct (is_hex (peek_char p)); cbn; [| discriminate].
    intros H. eapply psteps_trans; [apply psteps_get_char; exact Heos |].
    apply IH. exact H.
Qed.

Lemma parse_string_loop_psteps (n : nat) : forall p e p',
  parse_string_loop n p = (e, p') -> psteps p p'.
Proof.
  induction n as [|n IH]; intros p e p'; cbn [parse_string_loop].
  - intros [= <- <-]. apply psteps_refl.
  - destruct (at_eos p) eqn:Heos; [intros [= <- <-]; apply psteps_refl |].
    destruct (Ascii.eqb (peek_char p) ch_backslash).
    + destruct (at_eos (get_char p)) eqn:Heos1;
        [intros [= <- <-]; psteps_back |].
      destruct (is_simple_escape (peek_char (get_char p))).
      * intros H. apply IH in H.
        eapply psteps_trans; [| exact H]. psteps_back.
      * destruct (Ascii.eqb (peek_char (get_char p)) "u");
          [| intros [= <- <-]; psteps_back].
        destruct (hex_digits 4 (get_char (get_char p))) as [p2|] eqn:Hhex;
          [| intros [= <- <-]; psteps_back].
        intros H. apply IH in H. apply hex_digits_psteps in Hhex.
        eapply psteps_trans; [| exact H].
        eapply psteps_trans; [| exact Hhex]. psteps_back.
    + destruct (high_bit (peek_char p)); [intros [= <- <-]; psteps_back |].
      destruct (code (peek_char p) <? 32); [intros [= <- <-]; psteps_back |].
      destruct (Ascii.eqb (peek_char p) ch_quote);
        [intros [= <- <-]; psteps_back |].
      intros H. apply IH in H.
      eapply psteps_trans; [| exact H]. psteps_back.
Qed.

Lemma init_token_at_eos (p : parser) ty tok p' :
  init_token p ty = Some (tok, p') ->
  at_eos p' = at_eos p /\ peek_char p' = peek_char p.
Proof.
  intros H. pose proof (init_token_count _ _ _ _ H)
    as (_ & _ & _ & Hpos & Hlen & Hstr & _).
  unfold at_eos, peek_char. rewrite Hpos, Hlen, Hstr. auto.
Qed.

Lemma parse_string_psteps (p : parser) e p' :
  parse_string p = (e, p') -> psteps p p'.
Proof.
  unfold parse_string.
  destruct (at_eos p) eqn:Heos; cbn; [intros [= <- <-]; psteps_back |].
  destruct (Ascii.eqb (peek_char p) ch_quote); cbn;
    [| intros [= <- <-]; psteps_back].
  destruct (init_token p MU_JSON_TOKEN_TYPE_STRING) as [[tok p1]|] eqn:Hinit;
    [| intros [= <- <-]; psteps_back].
  pose proof (init_token_at_eos _ _ _ _ Hinit) as [Heos1 _].
  rewrite Heos in Heos1.
  destruct (parse_string_loop (remaining (get_char p1)) (get_char p1))
    as [err p3] eqn:Hloop.
  apply parse_string_loop_psteps in Hloop.
  assert (Hp3 : psteps p p3).
  { eapply psteps_trans; [| exact Hloop].
    eapply psteps_trans; [eapply psteps_init_token; exact Hinit |].
    psteps_back. }
  destruct (is_none err); cbn; [| intros [= <- <-]; exact Hp3].
  destruct (at_eos p3) eqn:Heos3; [intros [= <- <-]; exact Hp3 |].
  destruct (Ascii.eqb (peek_char p3) ch_quote); cbn;
    [| intros [= <- <-]; exact Hp3].
  intros [= <- <-]. psteps_back.
Qed.

Lemma digits_loop_psteps (n : nat) : forall seen p seen' p',
  digits_loop n seen p = (seen', p') -> psteps p p'.
Proof.
  induction n as [|n IH]; intros seen p seen' p'; cbn.
  - intros [= <- <-]. apply psteps_refl.
  - destruct (at_eos p) eqn:Heos; [intros [= <- <-]; apply psteps_refl |].
    destruct ((code "0" <=? code (peek_char p))
              && (code (peek_char p) <=? code "9"));
      [| intros [= <- <-]; apply psteps_refl].
    intros H. apply IH in H.
    eapply psteps_trans; [| exact H]. psteps_back.
Qed.

Lemma digits_psteps (p : parser) seen p' :
  digits p = (seen, p') -> psteps p p'.
Proof. apply digits_loop_psteps. Qed.

Lemma update_token_at_eos (p : parser) tok f :
  at_eos (update_token p tok f) = at_eos p
  /\ peek_char (update_token p tok f) = peek_char p.
Proof. split; reflexivity. Qed.

Lemma parse_number_psteps (p : parser) e p' :
  parse_number p = (e, p') -> psteps p p'.
Proof.
  unfold parse_number.
  destruct (at_eos p) eqn:Heos; cbn; [intros [= <- <-]; psteps_back |].
  destruct (is_number_prefix (peek_char p)); cbn;
    [| intros [= <- <-]; psteps_back].
  destruct (init_token p MU_JSON_TOKEN_TYPE_INTEGER) as [[tok p0]|] eqn:Hinit;
    [| intros [= <- <-]; psteps_back].
  pose proof (init_token_at_eos _ _ _ _ Hinit) as [Heos0 _].
  rewrite Heos in Heos0.
  apply psteps_init_token in Hinit.
  set (p1 := if Ascii.eqb (peek_char p0) "-" then get_char p0 else p0).
  assert (Hp1 : psteps p p1).
  { subst p1. destruct (Ascii.eqb (peek_char p0) "-"); psteps_back. }
  destruct (at_eos p1) eqn:Heos1; [intros [= <- <-]; exact Hp1 |].
  cbn [negb andb].
  set (zero := Ascii.eqb (peek_char p1) "0").
  set (p2 := if zero then get_char p1 else p1).
  assert (Hp2 : psteps p p2).
  { subst p2. destruct zero; psteps_back. }
  destruct (zero && negb (at_eos p2) && Ascii.eqb (peek_char p2) "0");
    [intros [= <- <-]; exact Hp2 |].
  destruct (digits p2) as [has_integer_part p3] eqn:Hint.
  apply digits_psteps in Hint.
  assert (Hp3 : psteps p p3) by (eapply psteps_trans; eassumption).
  destruct (zero && has_integer_part); [intros [= <- <-]; exact Hp3 |].
  destruct (negb zero && negb has_integer_part);
    [intros [= <- <-]; exact Hp3 |].
  set (fraction := if negb (at_eos p3) && Ascii.eqb (peek_char p3) "." then _
                   else _).
  assert (Hfr : psteps p (snd fraction)).
  { subst fraction.
    destruct (at_eos p3) eqn:Heos3; cbn [negb andb]; [exact Hp3 |].
    destruct (Ascii.eqb (peek_char p3) "."); [| exact Hp3].
    destruct (digits _) as [has_fractional_part p5] eqn:Hfrac.
    apply digits_psteps in Hfrac.
    assert (psteps p p5).
    { eapply psteps_trans; [| exact Hfrac]. psteps_back. }
    destruct (negb has_fractional_part); assumption. }
  destruct fraction as [err p6]. cbn [snd] in Hfr.
  destruct (is_none err); cbn [negb]; [| intros [= <- <-]; exact Hfr].
  destruct (at_eos p6) eqn:Heos6; cbn [negb andb];
    [intros [= <- <-]; psteps_back |].
  destruct (Ascii.eqb (peek_char p6) "e" || Ascii.eqb (peek_char p6) "E");
    [| intros [= <- <-]; psteps_back].
  set (p7 := update_token p6 tok _).
  set (p9 := if negb (at_eos (get_char p7)) && _ then _ else _).
  assert (Hp9 : psteps p p9).
  { subst p9. destruct (at_eos (get_char p7)) eqn:Heos8; cbn [negb andb].
    - subst p7. psteps_back.
    - destruct (_ || _); subst p7; psteps_back. }
  destruct (digits p9) as [has_exponent_digits p10] eqn:Hexp.
  apply digits_psteps in Hexp.
  assert (Hp10 : psteps p p10) by (eapply psteps_trans; eassumption).
  destruct (negb has_exponent_digits); intros [= <- <-]; psteps_back.
Qed.

Lemma match_literal_psteps (literal : list ascii) : forall p e p',
  match_literal literal p = (e, p') -> psteps p p'.
Proof.
  induction literal as [|c rest IH]; intros p e p'; cbn.
  - intros [= <- <-]. apply psteps_refl.
  - destruct (at_eos p) eqn:Heos; [intros [= <- <-]; apply psteps_refl |].
    destruct (Ascii.eqb (peek_char p) c); cbn;
      [| intros [= <- <-]; psteps_back].
    intros H. apply IH in H.
    eapply psteps_trans; [| exact H]. psteps_back.
Qed.

Lemma parse_literal_psteps (p : parser) literal ty e p' :
  parse_literal p literal ty = (e, p') -> psteps p p'.
Proof.
  unfold parse_literal.
  destruct (at_eos p); [intros [= <- <-]; psteps_back |].
  destruct (init_token p ty) as [[tok p1]|] eqn:Hinit;
    [| intros [= <- <-]; psteps_back].
  apply psteps_init_token in Hinit.
  destruct (match_literal literal p1) as [err p2] eqn:Hlit.
  apply match_literal_psteps in Hlit.
  assert (psteps p p2) by (eapply psteps_trans; eassumption).
  destruct (is_none err); intros [= <- <-]; psteps_back.
Qed.

Lemma find_and_skip_psteps (p : parser) delimiter e p' :
  find_and_skip p delimiter = (e, p') -> psteps p p'.
Proof.
  unfold find_and_skip.
  pose proof (skip_whitespace_psteps p) as H1.
  destruct (at_eos (skip_whitespace p)) eqn:Heos;
    [intros [= <- <-]; exact H1 |].
  destruct (Ascii.eqb (peek_char (skip_whitespace p)) delimiter); cbn [negb];
    [| intros [= <- <-]; exact H1].
  assert (psteps p (skip_whitespace (get_char (skip_whitespace p)))).
  { eapply psteps_trans; [| apply skip_whitespace_psteps]. psteps_back. }
  destruct (at_eos (skip_whitespace (get_char (skip_whitespace p))));
    intros [= <- <-]; assumption.
Qed.

Lemma psteps_count (p p' : parser) :
  psteps p p' -> 0 <= p_token_count p -> 0 <= p_token_count p'.
Proof. intros H Hc. apply psteps_pframe in H. destruct H. lia. Qed.

(** The head of a container: the token is drawn, the depth goes up, the
    opening bracket is consumed. *)
Lemma container_open_psteps (p : parser) ty tok p1 :
  0 <= p_token_count p -> at_eos p = false ->
  init_token p ty = Some (tok, p1) ->
  psteps p (get_char (set_level p1 (p_level p1 + 1))).
Proof.
  intros Hc Heos Hinit.
  pose proof (init_token_count _ _ _ _ Hinit) as (_ & _ & Hcount & _).
  pose proof (init_token_at_eos _ _ _ _ Hinit) as [Heos1 _].
  eapply psteps_trans; [eapply psteps_init_token; exact Hinit |].
  eapply psteps_trans; [apply (psteps_set_level p1 (p_level p1 + 1)); lia |].
  apply psteps_get_char. unfold at_eos in *. cbn. congruence.
Qed.

(** The tail of a container: the closing bracket is consumed, the depth
    goes down, the length of the token is set. *)
Lemma container_close_psteps (p p4 : parser) tok :
  0 < p_token_count p4 -> at_eos p4 = false -> psteps p p4 ->
  psteps p (finalize_token
              (set_level (get_char p4) (p_level (get_char p4) - 1)) tok).
Proof.
  intros Hc Heos H.
  eapply psteps_trans; [exact H |].
  eapply psteps_trans; [apply psteps_get_char; exact Heos |].
  eapply psteps_trans; [apply psteps_set_level; exact Hc |].
  apply psteps_finalize.
Qed.

Lemma parse_mutual_psteps (fuel : nat) :
  (forall p e p', 0 <= p_token_count p ->
     parse_element fuel p = Some (e, p') -> psteps p p')
  /\ (forall p e p', 0 <= p_token_count p ->
        parse_object fuel p = Some (e, p') -> psteps p p')
  /\ (forall first p e p', 0 <= p_token_count p ->
        parse_object_loop fuel first p = Some (e, p') -> psteps p p')
  /\ (forall p e p', 0 <= p_token_count p ->
        parse_array fuel p = Some (e, p') -> psteps p p')
  /\ (forall first p e p', 0 <= p_token_count p ->
        parse_array_loop fuel first p = Some (e, p') -> psteps p p').
Proof.
  induction fuel as [|fuel (IHe & IHo & IHol & IHa & IHal)];
    [repeat split; intros; discriminate |].
  repeat split.
  - (* parse_element *)
    intros p e p' Hc. cbn [parse_element].
    pose proof (skip_whitespace_psteps p) as Hws.
    pose proof (psteps_count _ _ Hws Hc) as Hc1.
    set (p1 := skip_whitespace p) in *.
    destruct (at_eos p1); [intros [= <- <-]; exact Hws |].
    destruct (Ascii.eqb (peek_char p1) ch_quote).
    { intros [= H]. apply parse_string_psteps in H.
      eapply psteps_trans; eassumption. }
    destruct (is_digit (peek_char p1) || Ascii.eqb (peek_char p1) "-").
    { intros [= H]. apply parse_number_psteps in H.
      eapply psteps_trans; eassumption. }
    destruct (Ascii.eqb (peek_char p1) "t").
    { intros [= H]. apply parse_literal_psteps in H.
      eapply psteps_trans; eassumption. }
    destruct (Ascii.eqb (peek_char p1) "f").
    { intros [= H]. apply parse_literal_psteps in H.
      eapply psteps_trans; eassumption. }
    destruct (Ascii.eqb (peek_char p1) "n").
    { intros [= H]. apply parse_literal_psteps in H.
      eapply psteps_trans; eassumption. }
    destruct (Ascii.eqb (peek_char p1) "{").
    { intros H. apply IHo in H; [| exact Hc1].
      eapply psteps_trans; eassumption. }
    destruct (Ascii.eqb (peek_char p1) "[").
    { intros H. apply IHa in H; [| exact Hc1].
      eapply psteps_trans; eassumption. }
    destruct (high_bit (peek_char p1)); intros [= <- <-]; exact Hws.
  - (* parse_object *)
    intros p e p' Hc. cbn [parse_object].
    destruct (at_eos p) eqn:Heos; cbn [orb];
      [intros [= <- <-]; apply psteps_refl |].
    destruct (Ascii.eqb (peek_char p) "{"); cbn [negb];
      [| intros [= <- <-]; apply psteps_refl].
    destruct (init_token p MU_JSON_TOKEN_TYPE_OBJECT) as [[tok p1]|] eqn:Hinit;
      [| intros [= <- <-]; apply psteps_refl].
    pose proof (container_open_psteps _ _ _ _ Hc Heos Hinit) as Hopen.
    pose proof (init_token_count _ _ _ _ Hinit) as (_ & _ & Hcount & _).
    set (p3 := get_char (set_level p1 (p_level p1 + 1))) in *.
    destruct (parse_object_loop fuel true p3) as [[err p4]|] eqn:Hloop;
      [| discriminate].
    apply IHol in Hloop; [| apply (psteps_count _ _ Hopen Hc)].
    assert (Hp4 : psteps p p4) by (eapply psteps_trans; eassumption).
    destruct (is_none err); cbn [negb]; [| intros [= <- <-]; exact Hp4].
    destruct (at_eos p4) eqn:Heos4; [intros [= <- <-]; exact Hp4 |].
    destruct (Ascii.eqb (peek_char p4) "}"); cbn [negb];
      [| intros [= <- <-]; exact Hp4].
    intros [= <- <-]. apply container_close_psteps; try assumption.
    apply psteps_pframe in Hloop. destruct Hloop.
    subst p3. cbn in frame_count0. lia.
  - (* parse_object_loop *)
    intros first p e p' Hc. cbn [parse_object_loop].
    pose proof (skip_whitespace_psteps p) as Hws.
    set (p1 := skip_whitespace p) in *.
    destruct (at_eos p1); [intros [= <- <-]; exact Hws |].
    destruct (Ascii.eqb (peek_char p1) "}"); [intros [= <- <-]; exact Hws |].
    set (comma := if negb first then find_and_skip p1 "," else _).
    assert (Hcomma : psteps p (snd comma)).
    { subst comma. destruct first; cbn [negb snd]; [exact Hws |].
      destruct (find_and_skip p1 ",") as [e2 p2] eqn:Hfs.
      apply find_and_skip_psteps in Hfs.
      eapply psteps_trans; eassumption. }
    destruct comma as [err2 p2]. cbn [snd] in Hcomma.
    destruct (is_none err2); cbn [negb]; [| intros [= <- <-]; exact Hcomma].
    destruct (parse_string p2) as [err3 p3] eqn:Hkey.
    apply parse_string_psteps in Hkey.
    assert (Hp3 : psteps p p3) by (eapply psteps_trans; eassumption).
    destruct (is_none err3); cbn [negb]; [| intros [= <- <-]; exact Hp3].
    destruct (find_and_skip p3 ":") as [err4 p4] eqn:Hcolon.
    apply find_and_skip_psteps in Hcolon.
    assert (Hp4 : psteps p p4) by (eapply psteps_trans; eassumption).
    destruct (is_none err4); cbn [negb]; [| intros [= <- <-]; exact Hp4].
    destruct (parse_element fuel p4) as [[err5 p5]|] eqn:Hval;
      [| discriminate].
    apply IHe in Hval; [| apply (psteps_count _ _ Hp4 Hc)].
    assert (Hp5 : psteps p p5) by (eapply psteps_trans; eassumption).
    destruct (is_none err5); cbn [negb]; [| intros [= <- <-]; exact Hp5].
    intros H. apply IHol in H; [| apply (psteps_count _ _ Hp5 Hc)].
    eapply psteps_trans; eassumption.
  - (* parse_array *)
    intros p e p' Hc. cbn [parse_array].
    destruct (at_eos p) eqn:Heos; cbn [orb];
      [intros [= <- <-]; apply psteps_refl |].
    destruct (Ascii.eqb (peek_char p) "["); cbn [negb];
      [| intros [= <- <-]; apply psteps_refl].
    destruct (init_token p MU_JSON_TOKEN_TYPE_ARRAY) as [[tok p1]|] eqn:Hinit;
      [| intros [= <- <-]; apply psteps_refl].
    pose proof (container_open_psteps _ _ _ _ Hc Heos Hinit) as Hopen.
    pose proof (init_token_count _ _ _ _ Hinit) as (_ & _ & Hcount & _).
    set (p3 := get_char (set_level p1 (p_level p1 + 1))) in *.
    destruct (parse_array_loop fuel true p3) as [[err p4]|] eqn:Hloop;
      [| discriminate].
    apply IHal in Hloop; [| apply (psteps_count _ _ Hopen Hc)].
    assert (Hp4 : psteps p p4) by (eapply psteps_trans; eassumption).
    destruct (is_none err); cbn [negb]; [| intros [= <- <-]; exact Hp4].
    destruct (at_eos p4) eqn:Heos4; [intros [= <- <-]; exact Hp4 |].
    destruct (Ascii.eqb (peek_char p4) "]"); cbn [negb];
      [| intros [= <- <-]; exact Hp4].
    intros [= <- <-]. apply container_close_psteps; try assumption.
    apply psteps_pframe in Hloop. destruct Hloop.
    subst p3. cbn in frame_count0. lia.
  - (* parse_array_loop *)
    intros first p e p' Hc. cbn [parse_array_loop].
    pose proof (skip_whitespace_psteps p) as Hws.
    set (p1 := skip_whitespace p) in *.
    destruct (at_eos p1); [intros [= <- <-]; exact Hws |].
    destruct (Ascii.eqb (peek_char p1) "]"); [intros [= <- <-]; exact Hws |].
    set (comma := if negb first then find_and_skip p1 "," else _).
    assert (Hcomma : psteps p (snd comma)).
    { subst comma. destruct first; cbn [negb snd]; [exact Hws |].
      destruct (find_and_skip p1 ",") as [e2 p2] eqn:Hfs.
      apply find_and_skip_psteps in Hfs.
      eapply psteps_trans; eassumption. }
    destruct comma as [err2 p2]. cbn [snd] in Hcomma.
    destruct (is_none err2); cbn [negb]; [| intros [= <- <-]; exact Hcomma].
    destruct (parse_element fuel p2) as [[err3 p3]|] eqn:Hval;
      [| discriminate].
    apply IHe in Hval; [| apply (psteps_count _ _ Hcomma Hc)].
    assert (Hp3 : psteps p p3) by (eapply psteps_trans; eassumption).
    destruct (is_none err3); cbn [negb]; [| intros [= <- <-]; exact Hp3].
    intros H. apply IHal in H; [| apply (psteps_count _ _ Hp3 Hc)].
    eapply psteps_trans; eassumption.
Qed.

(** ** The invariant of the parser state *)

Lemma init_token_store (p : parser) ty tok p' :
  init_token p ty = Some (tok, p') ->
  p_token_store p'
  = alter (fun t => mk_token (Some (p_str_pos p)) (str_len t) ty
                             (p_level p mod 2 ^ 11) (is_last t))
          tok (p_token_store p).
Proof.
  unfold init_token, alloc_token.
  destruct (p_max_tokens p <=? p_token_count p); [discriminate |].
  intros [= <- <-]. cbn. rewrite !list_alter_alter_eq. reflexivity.
Qed.

Lemma token_at_alter f i j (st : list mu_json_token_t) :
  token_at (alter f i st) j
  = if decide (i = j) then
      match st !! j with Some t => f t | None => zero_token end
    else token_at st j.
Proof.
  unfold token_at. rewrite list_lookup_alter.
  destruct (decide (i = j)) as [<- |]; [| reflexivity].
  destruct (st !! i); reflexivity.
Qed.

Lemma pstep_inv (p p' : parser) : pstep p p' -> parser_inv p -> parser_inv p'.
Proof.
  intros [q H | q ty tok q' H | q tok f H | q l H] [Hc Hcap Hlb Hroot Hnl Hlv].
  - constructor; cbn; assumption.
  - pose proof (init_token_count _ _ _ _ H)
      as (Hlt & -> & Hcount & _ & _ & _ & Hlevel & Hmax).
    pose proof (init_token_store _ _ _ _ H) as Hstore.
    constructor; rewrite ?Hstore, ?Hcount, ?Hmax, ?length_alter; try lia.
    + intros _. rewrite token_at_alter.
      destruct (decide (Z.to_nat (p_token_count q) = 0%nat)) as [Hz | Hnz].
      * destruct (p_token_store q !! 0%nat); [| reflexivity]. cbn.
        rewrite Hlb by lia. reflexivity.
      * apply Hroot. lia.
    + intros i t Hi. rewrite list_lookup_alter.
      destruct (decide (Z.to_nat (p_token_count q) = i)) as [<- |];
        [| apply Hnl; exact Hi].
      destruct (p_token_store q !! _) as [t0|] eqn:Ht0; [| discriminate].
      intros [= <-]. cbn. eapply Hnl; eassumption.
    + intros i t Hi. rewrite list_lookup_alter.
      destruct (decide (Z.to_nat (p_token_count q) = i)) as [<- |];
        [| apply Hlv; exact Hi].
      destruct (p_token_store q !! _) as [t0|] eqn:Ht0; [| discriminate].
      intros [= <-]. cbn. apply Z.mod_pos_bound. lia.
  - constructor; cbn; rewrite ?length_alter; try assumption.
    + intros Hpos. rewrite token_at_alter.
      destruct (decide (tok = 0%nat)); [| apply Hroot; exact Hpos].
      specialize (Hroot Hpos). unfold token_at in Hroot.
      destruct (p_token_store q !! 0%nat) as [t0|]; [| reflexivity].
      cbn in Hroot. destruct (H t0) as (_ & -> & _). exact Hroot.
    + intros i t Hi. rewrite list_lookup_alter.
      destruct (decide (tok = i)) as [<- |]; [| apply Hnl; exact Hi].
      destruct (p_token_store q !! tok) as [t0|] eqn:Ht0; [| discriminate].
      intros [= <-]. destruct (H t0) as (_ & _ & ->). eapply Hnl; eassumption.
    + intros i t Hi. rewrite list_lookup_alter.
      destruct (decide (tok = i)) as [<- |]; [| apply Hlv; exact Hi].
      destruct (p_token_store q !! tok) as [t0|] eqn:Ht0; [| discriminate].
      intros [= <-]. destruct (H t0) as (_ & -> & _). eapply Hlv; eassumption.
  - constructor; cbn; try assumption. lia.
Qed.

Lemma psteps_inv (p p' : parser) : psteps p p' -> parser_inv p -> parser_inv p'.
Proof.
  induction 1 as [| p q r Hpq _ IH]; [auto |].
  intros Hp. apply IH. eapply pstep_inv; eassumption.
Qed.

Lemma parser_reset_inv (p p0 : parser) :
  parser_reset p = Some p0 ->
  parser_inv p0 /\ p_str p0 = p_str p /\ p_str_len p0 = p_str_len p
  /\ p_str_pos p0 = 0 /\ p_max_tokens p0 = p_max_tokens p
  /\ p_token_count p0 = 0.
Proof.
  unfold parser_reset, memset_tokens.
  destruct (Z.leb_spec 0 (p_max_tokens p)); cbn [andb]; [| discriminate].
  destruct (Z.leb_spec (p_max_tokens p) (Z.of_nat (length (p_token_store p))));
    [| discriminate].
  intros [= <-]. split; [| cbn; auto].
  constructor; cbn; try lia.
  - rewrite length_app, length_replicate, length_drop. lia.
  - intros i t Hi Ht.
    rewrite lookup_app_l in Ht by (rewrite length_replicate; lia).
    apply lookup_replicate in Ht. destruct Ht as [-> _]. reflexivity.
  - intros i t Hi Ht.
    rewrite lookup_app_l in Ht by (rewrite length_replicate; lia).
    apply lookup_replicate in Ht. destruct Ht as [-> _]. cbn. lia.
Qed.

(** ** A successful parse *)

Lemma err_value_negative (e : mu_json_err_t) :
  e <> MU_JSON_ERR_NONE -> err_value e < 0.
Proof. destruct e; cbn; intros H; try lia. congruence. Qed.

Lemma err_value_inj (e1 e2 : mu_json_err_t) :
  err_value e1 = err_value e2 -> e1 = e2.
Proof. destruct e1, e2; cbn; intros H; try reflexivity; discriminate. Qed.

Lemma set_pos_set_pos (p : parser) a b : set_pos (set_pos p a) b = set_pos p b.
Proof. reflexivity. Qed.

Lemma set_pos_same (p : parser) : set_pos p (p_str_pos p) = p.
Proof. destruct p; reflexivity. Qed.

(** [skip_whitespace] only moves the read position. *)
Lemma skip_whitespace_loop_set_pos (n : nat) : forall p,
  skip_whitespace_loop n p = set_pos p (p_str_pos (skip_whitespace_loop n p)).
Proof.
  induction n as [|n IH]; intros p; cbn; [symmetry; apply set_pos_same |].
  destruct (at_eos p); [symmetry; apply set_pos_same |].
  destruct (is_space (peek_char p)); [| symmetry; apply set_pos_same].
  rewrite IH at 1. apply set_pos_set_pos.
Qed.

Lemma skip_whitespace_set_pos (p : parser) :
  skip_whitespace p = set_pos p (p_str_pos (skip_whitespace p)).
Proof. apply skip_whitespace_loop_set_pos. Qed.

Lemma skip_whitespace_store (p : parser) :
  p_token_store (skip_whitespace p) = p_token_store p.
Proof. rewrite skip_whitespace_set_pos. reflexivity. Qed.

Lemma skip_whitespace_count (p : parser) :
  p_token_count (skip_whitespace p) = p_token_count p.
Proof. rewrite skip_whitespace_set_pos. reflexivity. Qed.

(** A positive return value comes from the last line of [parse_json]. *)
Lemma parse_json_success str len store cap n toks :
  parse_json str len store cap = Returned n toks -> 0 < n ->
  exists s tokens p0 p1,
    str = Some s /\ store = Some tokens
    /\ parser_reset (mk_parser s len 0 tokens cap 0 0) = Some p0
    /\ parse_element (parse_fuel len) p0 = Some (MU_JSON_ERR_NONE, p1)
    /\ at_eos (skip_whitespace p1) = true
    /\ n = p_token_count p1
    /\ toks = alter (fun t => set_token_is_last t true) (Z.to_nat (n - 1))
                    (p_token_store p1).
Proof.
  unfold parse_json. intros H Hn.
  destruct str as [s|];
    [| injection H as <- _; cbn in Hn; lia].
  destruct store as [tokens|];
    [| injection H as <- _; cbn in Hn; lia].
  destruct (len =? 0); [injection H as <- _; cbn in Hn; lia |].
  destruct (cap =? 0); [injection H as <- _; cbn in Hn; lia |].
  destruct (parser_reset _) as [p0|] eqn:Hreset; [| discriminate].
  destruct (parse_element _ p0) as [[err p1]|] eqn:Hparse; [| discriminate].
  destruct (is_none err) eqn:Herr; cbn [negb] in H.
  2:{ injection H as <- _. apply is_none_false in Herr.
      apply err_value_negative in Herr. lia. }
  apply is_none_true in Herr. subst err.
  destruct (p_token_count p1 =? 0); [injection H as <- _; cbn in Hn; lia |].
  destruct (at_eos (skip_whitespace p1)) eqn:Heos; cbn [negb] in H;
    [| injection H as <- _; cbn in Hn; lia].
  injection H as <- <-. cbn [p_token_count p_token_store update_token set_store].
  rewrite skip_whitespace_store, skip_whitespace_count.
  exists s, tokens, p0, p1. repeat split; assumption || reflexivity.
Qed.

Lemma parse_success_root_and_last str len store cap n toks :
  parse_json str len store cap = Returned n toks -> 0 < n ->
  root_and_last n toks.
Proof.
  intros H Hn.
  destruct (parse_json_success _ _ _ _ _ _ H Hn)
    as (s & tokens & p0 & p1 & -> & -> & Hreset & Hparse & _ & -> & ->).
  destruct (parser_reset_inv _ _ Hreset) as (Hinv0 & _ & _ & _ & _ & Hc0).
  assert (Hsteps : psteps p0 p1).
  { destruct (parse_mutual_psteps (parse_fuel len)) as (He & _).
    eapply He; [lia | exact Hparse]. }
  destruct (psteps_inv _ _ Hsteps Hinv0) as [Hc Hcap _ Hroot Hnl _].
  assert (Hlen : (Z.to_nat (p_token_count p1 - 1)
                  < length (p_token_store p1))%nat) by lia.
  destruct (lookup_lt_is_Some_2 _ _ Hlen) as [last Hlast].
  assert (Hlen0 : (0 < length (p_token_store p1))%nat) by lia.
  destruct (lookup_lt_is_Some_2 _ _ Hlen0) as [root Hroot0].
  specialize (Hroot Hn). unfold token_at in Hroot. rewrite Hroot0 in Hroot.
  cbn in Hroot.
  repeat split.
  - rewrite list_lookup_alter.
    destruct (decide (Z.to_nat (p_token_count p1 - 1) = 0%nat)) as [Heq |].
    + rewrite Heq in *. rewrite Hroot0. cbn. eexists. split; [reflexivity |].
      exact Hroot.
    + exists root. auto.
  - rewrite list_lookup_alter_eq, Hlast. cbn. eexists. split; reflexivity.
  - intros i t Hi Hne. rewrite list_lookup_alter_ne by lia.
    apply Hnl. lia.
Qed.

(** C1.  Whenever [mu_json_parse_buffer] or [mu_json_parse_str] returns a
    positive token count [n], the token at index 0 has level 0, the token
    at index [n - 1] has [is_last] set, and no other of the [n] tokens has
    it set. *)
Theorem successful_parse_root_and_last
    (input : option (list ascii)) (input_len : Z)
    (token_store : option (list mu_json_token_t)) (max_tokens : Z)
    (n : Z) (tokens : list mu_json_token_t) :
  mu_json_parse_buffer input input_len token_store max_tokens
    = Returned n tokens
  \/ mu_json_parse_str input token_store max_tokens = Returned n tokens ->
  0 < n ->
  root_and_last n tokens.
Proof.
  intros [H | H] Hn.
  - exact (parse_success_root_and_last _ _ _ _ _ _ H Hn).
  - unfold mu_json_parse_str in H. destruct input as [s|]; [| discriminate].
    exact (parse_success_root_and_last _ _ _ _ _ _ H Hn).
Qed.

Lemma successful_parse_root_and_last_witness :
  root_and_last 3 tokens_of_1_2.
Proof.
  apply (successful_parse_root_and_last
           (Some (text "[1, 2]")) 6 (fresh_store 4) 4).
  - left. vm_compute. reflexivity.
  - lia.
Defined.

(** ** What a successful leaf parse went through *)

Lemma psteps_pos (p p' : parser) : psteps p p' -> p_str_pos p <= p_str_pos p'.
Proof. intros H. apply psteps_pframe in H. destruct H. assumption. Qed.

Lemma parse_string_success (p p' : parser) :
  parse_string p = (MU_JSON_ERR_NONE, p') ->
  exists tok p1 p3,
    at_eos p = false /\ peek_char p = ch_quote
    /\ init_token p MU_JSON_TOKEN_TYPE_STRING = Some (tok, p1)
    /\ parse_string_loop (remaining (get_char p1)) (get_char p1)
       = (MU_JSON_ERR_NONE, p3)
    /\ at_eos p3 = false /\ peek_char p3 = ch_quote
    /\ p' = finalize_token (get_char p3) tok.
Proof.
  unfold parse_string.
  destruct (at_eos p) eqn:Heos; cbn [orb]; [discriminate |].
  destruct (Ascii.eqb_spec (peek_char p) ch_quote) as [Hq |]; cbn [negb];
    [| discriminate].
  destruct (init_token p MU_JSON_TOKEN_TYPE_STRING) as [[tok p1]|] eqn:Hinit;
    [| discriminate].
  destruct (parse_string_loop _ _) as [err p3] eqn:Hloop.
  destruct err; cbn [is_none negb]; try discriminate.
  destruct (at_eos p3) eqn:Heos3; [discriminate |].
  destruct (Ascii.eqb_spec (peek_char p3) ch_quote) as [Hq3 |]; cbn [negb];
    [| discriminate].
  intros [= <-]. exists tok, p1, p3. auto 10.
Qed.

Lemma parse_string_consumes (p p' : parser) :
  parse_string p = (MU_JSON_ERR_NONE, p') -> p_str_pos p < p_str_pos p'.
Proof.
  intros H. apply parse_string_success in H.
  destruct H as (tok & p1 & p3 & _ & _ & Hinit & Hloop & _ & _ & ->).
  apply init_token_count in Hinit. destruct Hinit as (_ & _ & _ & Hpos & _).
  apply parse_string_loop_psteps, psteps_pos in Hloop.
  cbn in *. lia.
Qed.

Lemma digits_loop_seen (n : nat) : forall seen p seen' p',
  digits_loop n seen p = (seen', p') ->
  seen' = seen \/ (seen' = true /\ p_str_pos p < p_str_pos p').
Proof.
  induction n as [|n IH]; intros seen p seen' p'; cbn.
  - intros [= <- <-]. auto.
  - destruct (at_eos p) eqn:Heos; [intros [= <- <-]; auto |].
    destruct ((code "0" <=? code (peek_char p))
              && (code (peek_char p) <=? code "9"));
      [| intros [= <- <-]; auto].
    intros H. pose proof (digits_loop_psteps _ _ _ _ _ H) as Hsteps.
    apply psteps_pos in Hsteps. cbn in Hsteps.
    apply IH in H. destruct H as [-> | [-> _]]; right; split; auto; lia.
Qed.

Lemma digits_seen (p : parser) p' :
  digits p = (true, p') -> p_str_pos p < p_str_pos p'.
Proof.
  intros H. apply digits_loop_seen in H.
  destruct H as [H | [_ H]]; [discriminate | exact H].
Qed.

(** The shape of a number that [parse_number] accepts, as the states it
    passes through: after the token is drawn ([p0]), after the integer part
    ([p3]), after the fraction ([p6]). *)
Lemma parse_number_success (p p' : parser) :
  parse_number p = (MU_JSON_ERR_NONE, p') ->
  exists tok p0 hi p3 p6,
    at_eos p = false /\ is_number_prefix (peek_char p) = true
    /\ init_token p MU_JSON_TOKEN_TYPE_INTEGER = Some (tok, p0)
    /\ let p1 := if Ascii.eqb (peek_char p0) "-" then get_char p0 else p0 in
       let zero := Ascii.eqb (peek_char p1) "0" in
       let p2 := if zero then get_char p1 else p1 in
       at_eos p1 = false
       /\ zero && negb (at_eos p2) && Ascii.eqb (peek_char p2) "0" = false
       /\ digits p2 = (hi, p3)
       /\ xorb zero hi = true
       /\ ((negb (at_eos p3) && Ascii.eqb (peek_char p3) "." = false
            /\ p6 = p3)
           \/ (at_eos p3 = false /\ peek_char p3 = "."%char
               /\ digits (get_char
                            (update_token p3 tok
                               (fun t => set_token_type t
                                           MU_JSON_TOKEN_TYPE_NUMBER)))
                  = (true, p6)))
       /\ ((negb (at_eos p6)
            && (Ascii.eqb (peek_char p6) "e" || Ascii.eqb (peek_char p6) "E")
            = false
            /\ p' = finalize_token p6 tok)
           \/ (at_eos p6 = false
               /\ Ascii.eqb (peek_char p6) "e" || Ascii.eqb (peek_char p6) "E"
                  = true
               /\ let p8 :=
                    get_char
                      (update_token p6 tok
                         (fun t => set_token_type t MU_JSON_TOKEN_TYPE_NUMBER))
                  in
                  let p9 :=
                    if negb (at_eos p8)
                       && (Ascii.eqb (peek_char p8) "+"
                           || Ascii.eqb (peek_char p8) "-")
                    then get_char p8 else p8 in
                  exists p10,
                    digits p9 = (true, p10)
                    /\ p' = finalize_token p10 tok)).
Proof.
  unfold parse_number.
  destruct (at_eos p) eqn:Heos; cbn [orb]; [discriminate |].
  destruct (is_number_prefix (peek_char p)) eqn:Hprefix; cbn [negb];
    [| discriminate].
  destruct (init_token p MU_JSON_TOKEN_TYPE_INTEGER) as [[tok p0]|] eqn:Hinit;
    [| discriminate].
  set (p1 := if Ascii.eqb (peek_char p0) "-" then get_char p0 else p0).
  destruct (at_eos p1) eqn:Heos1; [discriminate |]. cbn [negb andb].
  set (zero := Ascii.eqb (peek_char p1) "0").
  set (p2 := if zero then get_char p1 else p1).
  destruct (zero && negb (at_eos p2) && Ascii.eqb (peek_char p2) "0")
    eqn:Hzz; [discriminate |].
  destruct (digits p2) as [hi p3] eqn:Hint.
  destruct (zero && hi) eqn:Hboth; [discriminate |].
  destruct (negb zero && negb hi) eqn:Hneither; [discriminate |].
  assert (Hxor : xorb zero hi = true)
    by (destruct zero, hi; cbn in *; congruence).
  destruct (negb (at_eos p3) && Ascii.eqb (peek_char p3) ".") eqn:Hdot.
  - apply andb_true_iff in Hdot. destruct Hdot as [Hd1 Hd2].
    apply negb_true_iff in Hd1. apply Ascii.eqb_eq in Hd2.
    destruct (digits (get_char _)) as [hf p5] eqn:Hfrac.
    destruct hf; cbn [negb is_none]; [| discriminate].
    destruct (negb (at_eos p5)
              && (Ascii.eqb (peek_char p5) "e" || Ascii.eqb (peek_char p5) "E"))
      eqn:Hexp.
    + apply andb_true_iff in Hexp. destruct Hexp as [He1 He2].
      apply negb_true_iff in He1.
      match goal with
      | |- (let '(_, _) := digits ?x in _) = _ -> _ =>
          destruct (digits x) as [he p10] eqn:Hexpd
      end.
      destruct he; cbn [negb]; [| discriminate].
      intros [= <-]. exists tok, p0, hi, p3, p5.
      repeat split; try assumption.
      * right. auto.
      * right. repeat split; try assumption. exists p10. auto.
    + intros [= <-]. exists tok, p0, hi, p3, p5.
      repeat split; try assumption.
      * right. auto.
      * left. auto.
  - cbn [is_none negb].
    destruct (negb (at_eos p3)
              && (Ascii.eqb (peek_char p3) "e" || Ascii.eqb (peek_char p3) "E"))
      eqn:Hexp.
    + apply andb_true_iff in Hexp. destruct Hexp as [He1 He2].
      apply negb_true_iff in He1.
      match goal with
      | |- (let '(_, _) := digits ?x in _) = _ -> _ =>
          destruct (digits x) as [he p10] eqn:Hexpd
      end.
      destruct he; cbn [negb]; [| discriminate].
      intros [= <-]. exists tok, p0, hi, p3, p3.
      repeat split; try assumption.
      * left. auto.
      * right. repeat split; try assumption. exists p10. auto.
    + intros [= <-]. exists tok, p0, hi, p3, p3.
      repeat split; try assumption.
      * left. auto.
      * left. auto.
Qed.

Lemma parse_number_consumes (p p' : parser) :
  parse_number p = (MU_JSON_ERR_NONE, p') -> p_str_pos p < p_str_pos p'.
Proof.
  intros H. apply parse_number_success in H.
  destruct H as (tok & p0 & hi & p3 & p6 & _ & _ & Hinit & H).
  cbn zeta in H.
  destruct H as (_ & _ & Hint & Hxor & Hfrac & Hexp).
  apply init_token_count in Hinit. destruct Hinit as (_ & _ & _ & Hpos & _).
  assert (H3 : p_str_pos p0 < p_str_pos p3).
  { pose proof (digits_psteps _ _ _ Hint) as Hle. apply psteps_pos in Hle.
    destruct (Ascii.eqb (peek_char
                (if Ascii.eqb (peek_char p0) "-" then get_char p0 else p0))
                "0") eqn:Hzero.
    - destruct (Ascii.eqb (peek_char p0) "-"); cbn in Hle; lia.
    - destruct hi; [| discriminate]. apply digits_seen in Hint.
      destruct (Ascii.eqb (peek_char p0) "-"); cbn in Hint; lia. }
  assert (H6 : p_str_pos p3 <= p_str_pos p6).
  { destruct Hfrac as [[_ ->] | (_ & _ & Hfrac)]; [lia |].
    apply digits_psteps, psteps_pos in Hfrac. cbn in Hfrac. lia. }
  destruct Hexp as [[_ ->] | (_ & _ & p10 & Hexp & ->)]; [cbn; lia |].
  apply digits_psteps, psteps_pos in Hexp. cbn.
  destruct (negb _ && _) in Hexp; cbn in Hexp; lia.
Qed.

Lemma match_literal_success (literal : list ascii) : forall p p',
  match_literal literal p = (MU_JSON_ERR_NONE, p') ->
  p' = set_pos p (p_str_pos p + Z.of_nat (length literal)).
Proof.
  induction literal as [|c rest IH]; intros p p'; cbn [match_literal length].
  - intros [= <-]. rewrite Z.add_0_r, set_pos_same. reflexivity.
  - destruct (at_eos p); [discriminate |].
    destruct (Ascii.eqb (peek_char p) c); cbn [negb]; [| discriminate].
    intros H. apply IH in H. rewrite H. unfold get_char.
    rewrite set_pos_set_pos. f_equal. cbn. lia.
Qed.

Lemma parse_literal_consumes (p p' : parser) literal ty :
  literal <> [] ->
  parse_literal p literal ty = (MU_JSON_ERR_NONE, p') ->
  p_str_pos p < p_str_pos p'.
Proof.
  intros Hne. unfold parse_literal.
  destruct (at_eos p); [discriminate |].
  destruct (init_token p ty) as [[tok p1]|] eqn:Hinit; [| discriminate].
  apply init_token_count in Hinit. destruct Hinit as (_ & _ & _ & Hpos & _).
  destruct (match_literal literal p1) as [err p2] eqn:Hlit.
  destruct err; cbn [is_none negb]; try discriminate.
  apply match_literal_success in Hlit. intros [= <-]. subst p2. cbn.
  destruct literal; [congruence | cbn [length]; lia].
Qed.

Lemma parse_object_consumes (fuel : nat) (p p' : parser) :
  0 <= p_token_count p ->
  parse_object fuel p = Some (MU_JSON_ERR_NONE, p') ->
  p_str_pos p < p_str_pos p'.
Proof.
  intros Hc. destruct fuel as [|fuel]; [discriminate |]. cbn [parse_object].
  destruct (at_eos p) eqn:Heos; cbn [orb]; [discriminate |].
  destruct (Ascii.eqb (peek_char p) "{"); cbn [negb]; [| discriminate].
  destruct (init_token p MU_JSON_TOKEN_TYPE_OBJECT) as [[tok p1]|] eqn:Hinit;
    [| discriminate].
  pose proof (container_open_psteps _ _ _ _ Hc Heos Hinit) as Hopen.
  apply init_token_count in Hinit. destruct Hinit as (_ & _ & _ & Hpos & _).
  destruct (parse_object_loop fuel true _) as [[err p4]|] eqn:Hloop;
    [| discriminate].
  destruct (parse_mutual_psteps fuel) as (_ & _ & Hol & _).
  apply Hol in Hloop; [| apply (psteps_count _ _ Hopen Hc)].
  apply psteps_pos in Hloop. cbn in Hloop.
  destruct err; cbn [is_none negb]; try discriminate.
  destruct (at_eos p4); [discriminate |].
  destruct (Ascii.eqb (peek_char p4) "}"); cbn [negb]; [| discriminate].
  intros [= <-]. cbn. lia.
Qed.

Lemma parse_array_consumes (fuel : nat) (p p' : parser) :
  0 <= p_token_count p ->
  parse_array fuel p = Some (MU_JSON_ERR_NONE, p') ->
  p_str_pos p < p_str_pos p'.
Proof.
  intros Hc. destruct fuel as [|fuel]; [discriminate |]. cbn [parse_array].
  destruct (at_eos p) eqn:Heos; cbn [orb]; [discriminate |].
  destruct (Ascii.eqb (peek_char p) "["); cbn [negb]; [| discriminate].
  destruct (init_token p MU_JSON_TOKEN_TYPE_ARRAY) as [[tok p1]|] eqn:Hinit;
    [| discriminate].
  pose proof (container_open_psteps _ _ _ _ Hc Heos Hinit) as Hopen.
  apply init_token_count in Hinit. destruct Hinit as (_ & _ & _ & Hpos & _).
  destruct (parse_array_loop fuel true _) as [[err p4]|] eqn:Hloop;
    [| discriminate].
  destruct (parse_mutual_psteps fuel) as (_ & _ & _ & _ & Hal).
  apply Hal in Hloop; [| apply (psteps_count _ _ Hopen Hc)].
  apply psteps_pos in Hloop. cbn in Hloop.
  destruct err; cbn [is_none negb]; try discriminate.
  destruct (at_eos p4); [discriminate |].
  destruct (Ascii.eqb (peek_char p4) "]"); cbn [negb]; [| discriminate].
  intros [= <-]. cbn. lia.
Qed.

(** A successful [parse_element] consumed a byte of its element, unless it
    found the input at its end. *)
Lemma parse_element_progress (fuel : nat) (p p' : parser) :
  0 <= p_token_count p ->
  parse_element fuel p = Some (MU_JSON_ERR_NONE, p') ->
  p_str_pos (skip_whitespace p) < p_str_pos p'
  \/ (at_eos (skip_whitespace p) = true /\ p' = skip_whitespace p).
Proof.
  intros Hc. destruct fuel as [|fuel]; [discriminate |]. cbn [parse_element].
  assert (Hc1 : 0 <= p_token_count (skip_whitespace p))
    by (rewrite skip_whitespace_count; exact Hc).
  set (p1 := skip_whitespace p) in *.
  destruct (at_eos p1); [intros [= <-]; auto |].
  destruct (Ascii.eqb (peek_char p1) ch_quote).
  { intros [= H]. left. apply parse_string_consumes. exact H. }
  destruct (is_digit (peek_char p1) || Ascii.eqb (peek_char p1) "-").
  { intros [= H]. left. apply parse_number_consumes. exact H. }
  destruct (Ascii.eqb (peek_char p1) "t").
  { intros [= H]. left. eapply parse_literal_consumes; [| exact H].
    discriminate. }
  destruct (Ascii.eqb (peek_char p1) "f").
  { intros [= H]. left. eapply parse_literal_consumes; [| exact H].
    discriminate. }
  destruct (Ascii.eqb (peek_char p1) "n").
  { intros [= H]. left. eapply parse_literal_consumes; [| exact H].
    discriminate. }
  destruct (Ascii.eqb (peek_char p1) "{").
  { intros H. left. eapply parse_object_consumes; eassumption. }
  destruct (Ascii.eqb (peek_char p1) "[").
  { intros H. left. eapply parse_array_consumes; eassumption. }
  destruct (high_bit (peek_char p1)); discriminate.
Qed.

(** ** The fuel of [parse_json] is enough *)

Lemma psteps_remaining (p p' : parser) :
  psteps p p' -> (remaining p' <= remaining p)%nat.
Proof.
  intros H. apply psteps_pframe in H. destruct H.
  unfold remaining. lia.
Qed.

Lemma remaining_lt (p p' : parser) :
  p_str_len p' = p_str_len p -> at_eos p = false ->
  p_str_pos p < p_str_pos p' -> (remaining p' < remaining p)%nat.
Proof.
  intros Hlen Heos Hpos. apply at_eos_false in Heos.
  unfold remaining. lia.
Qed.

Lemma parse_mutual_fuel (fuel : nat) :
  (forall p, 0 <= p_token_count p ->
     (3 * remaining p + 1 <= fuel)%nat -> is_Some (parse_element fuel p))
  /\ (forall p, 0 <= p_token_count p ->
        (1 <= fuel)%nat -> (3 * remaining p <= fuel)%nat ->
        is_Some (parse_object fuel p))
  /\ (forall first p, 0 <= p_token_count p ->
        (3 * remaining p + 2 <= fuel)%nat ->
        is_Some (parse_object_loop fuel first p))
  /\ (forall p, 0 <= p_token_count p ->
        (1 <= fuel)%nat -> (3 * remaining p <= fuel)%nat ->
        is_Some (parse_array fuel p))
  /\ (forall first p, 0 <= p_token_count p ->
        (3 * remaining p + 2 <= fuel)%nat ->
        is_Some (parse_array_loop fuel first p)).
Proof.
  induction fuel as [|fuel (IHe & IHo & IHol & IHa & IHal)];
    [repeat split; intros; lia |].
  repeat split.
  - (* parse_element *)
    intros p Hc Hfuel. cbn [parse_element].
    pose proof (psteps_remaining _ _ (skip_whitespace_psteps p)) as Hrem.
    assert (Hc1 : 0 <= p_token_count (skip_whitespace p))
      by (rewrite skip_whitespace_count; exact Hc).
    set (p1 := skip_whitespace p) in *.
    destruct (at_eos p1) eqn:Heos; [eauto |].
    assert (remaining p1 <> 0%nat)
      by (rewrite remaining_zero_at_eos; congruence).
    repeat match goal with
           | |- is_Some (Some _) => eauto
           | |- is_Some (if ?c then _ else _) => destruct c
           end.
    + apply IHo; [assumption | lia | lia].
    + apply IHa; [assumption | lia | lia].
  - (* parse_object *)
    intros p Hc _ Hfuel. cbn [parse_object].
    destruct (at_eos p) eqn:Heos; cbn [orb]; [eauto |].
    destruct (Ascii.eqb (peek_char p) "{"); cbn [negb]; [| eauto].
    destruct (init_token p MU_JSON_TOKEN_TYPE_OBJECT) as [[tok p1]|] eqn:Hinit;
      [| eauto].
    pose proof (container_open_psteps _ _ _ _ Hc Heos Hinit) as Hopen.
    apply init_token_count in Hinit.
    destruct Hinit as (_ & _ & _ & Hpos & Hlen & _).
    set (p3 := get_char (set_level p1 (p_level p1 + 1))) in *.
    assert (Hrem : (remaining p3 < remaining p)%nat).
    { apply remaining_lt; [| exact Heos |]; subst p3; cbn; lia. }
    destruct (IHol true p3) as [[err p4] ->];
      [apply (psteps_count _ _ Hopen Hc) | lia |].
    repeat match goal with
           | |- is_Some (Some _) => eauto
           | |- is_Some (if ?c then _ else _) => destruct c
           end.
  - (* parse_object_loop *)
    intros first p Hc Hfuel. cbn [parse_object_loop].
    pose proof (skip_whitespace_psteps p) as Hws.
    set (p1 := skip_whitespace p) in *.
    destruct (at_eos p1) eqn:Heos; [eauto |].
    destruct (Ascii.eqb (peek_char p1) "}"); [eauto |].
    set (comma := if negb first then find_and_skip p1 "," else _).
    assert (Hcomma : psteps p1 (snd comma)).
    { subst comma. destruct first; cbn [negb snd]; [apply psteps_refl |].
      destruct (find_and_skip p1 ",") as [e2 p2] eqn:Hfs.
      apply find_and_skip_psteps in Hfs. exact Hfs. }
    destruct comma as [err2 p2]. cbn [snd] in Hcomma.
    destruct (is_none err2); cbn [negb]; [| eauto].
    destruct (parse_string p2) as [err3 p3] eqn:Hkey.
    pose proof (parse_string_psteps _ _ _ Hkey) as Hkeys.
    destruct (is_none err3) eqn:Herr3; cbn [negb]; [| eauto].
    apply is_none_true in Herr3. subst err3.
    destruct (find_and_skip p3 ":") as [err4 p4] eqn:Hcolon.
    apply find_and_skip_psteps in Hcolon.
    destruct (is_none err4); cbn [negb]; [| eauto].
    assert (Hp4 : psteps p1 p4).
    { eapply psteps_trans; [exact Hcomma |].
      eapply psteps_trans; eassumption. }
    assert (Hc4 : 0 <= p_token_count p4).
    { eapply psteps_count; [exact Hp4 |].
      subst p1. rewrite skip_whitespace_count. exact Hc. }
    pose proof (psteps_remaining _ _ Hws) as Hr1.
    pose proof (psteps_remaining _ _ Hp4) as Hr4.
    destruct (IHe p4 Hc4) as [[err5 p5] Hval]; [lia |].
    rewrite Hval.
    destruct (is_none err5) eqn:Herr5; cbn [negb]; [| eauto].
    apply is_none_true in Herr5. subst err5.
    destruct (parse_mutual_psteps fuel) as (Hsteps & _).
    pose proof (Hsteps _ _ _ Hc4 Hval) as Hp5.
    apply IHol; [apply (psteps_count _ _ Hp5 Hc4) |].
    assert (Hlt : (remaining p5 < remaining p1)%nat).
    { apply psteps_pframe in Hp5. apply psteps_pframe in Hp4.
      destruct Hp5, Hp4.
      apply remaining_lt; [congruence | exact Heos |].
      apply parse_string_consumes in Hkey.
      apply psteps_pos in Hcomma, Hcolon. lia. }
    lia.
  - (* parse_array *)
    intros p Hc _ Hfuel. cbn [parse_array].
    destruct (at_eos p) eqn:Heos; cbn [orb]; [eauto |].
    destruct (Ascii.eqb (peek_char p) "["); cbn [negb]; [| eauto].
    destruct (init_token p MU_JSON_TOKEN_TYPE_ARRAY) as [[tok p1]|] eqn:Hinit;
      [| eauto].
    pose proof (container_open_psteps _ _ _ _ Hc Heos Hinit) as Hopen.
    apply init_token_count in Hinit.
    destruct Hinit as (_ & _ & _ & Hpos & Hlen & _).
    set (p3 := get_char (set_level p1 (p_level p1 + 1))) in *.
    assert (Hrem : (remaining p3 < remaining p)%nat).
    { apply remaining_lt; [| exact Heos |]; subst p3; cbn; lia. }
    destruct (IHal true p3) as [[err p4] ->];
      [apply (psteps_count _ _ Hopen Hc) | lia |].
    repeat match goal with
           | |- is_Some (Some _) => eauto
           | |- is_Some (if ?c then _ else _) => destruct c
           end.
  - (* parse_array_loop *)
    intros first p Hc Hfuel. cbn [parse_array_loop].
    pose proof (skip_whitespace_psteps p) as Hws.
    set (p1 := skip_whitespace p) in *.
    destruct (at_eos p1) eqn:Heos; [eauto |].
    destruct (Ascii.eqb (peek_char p1) "]"); [eauto |].
    set (comma := if negb first then find_and_skip p1 "," else _).
    assert (Hcomma : psteps p1 (snd comma)).
    { subst comma. destruct first; cbn [negb snd]; [apply psteps_refl |].
      destruct (find_and_skip p1 ",") as [e2 p2] eqn:Hfs.
      apply find_and_skip_psteps in Hfs. exact Hfs. }
    destruct comma as [err2 p2]. cbn [snd] in Hcomma.
    destruct (is_none err2); cbn [negb]; [| eauto].
    assert (Hc2 : 0 <= p_token_count p2).
    { eapply psteps_count; [exact Hcomma |].
      subst p1. rewrite skip_whitespace_count. exact Hc. }
    pose proof (psteps_remaining _ _ Hws) as Hr1.
    pose proof (psteps_remaining _ _ Hcomma) as Hr2.
    destruct (IHe p2 Hc2) as [[err3 p3] Hval]; [lia |].
    rewrite Hval.
    destruct (is_none err3) eqn:Herr3; cbn [negb]; [| eauto].
    apply is_none_true in Herr3. subst err3.
    destruct (parse_mutual_psteps fuel) as (Hsteps & _).
    pose proof (Hsteps _ _ _ Hc2 Hval) as Hp3.
    apply IHal; [apply (psteps_count _ _ Hp3 Hc2) |].
    assert (remaining p1 <> 0%nat)
      by (rewrite remaining_zero_at_eos; congruence).
    destruct (parse_element_progress _ _ _ Hc2 Hval) as [Hlt | [Heos3 ->]].
    + assert ((remaining p3 < remaining p1)%nat); [| lia].
      apply psteps_pframe in Hp3. apply psteps_pframe in Hcomma.
      destruct Hp3, Hcomma.
      apply remaining_lt; [congruence | exact Heos |].
      pose proof (psteps_pos _ _ (skip_whitespace_psteps p2)). lia.
    + apply remaining_zero_at_eos in Heos3. lia.
Qed.

(** [parse_json] never runs out of fuel: the model gives a result for
    every call. *)
Theorem parse_json_total str len store cap :
  parse_json str len store cap <> OutOfFuel.
Proof.
  unfold parse_json.
  destruct str as [s|]; [| discriminate].
  destruct store as [tokens|]; [| discriminate].
  destruct (len =? 0); [discriminate |].
  destruct (cap =? 0); [discriminate |].
  destruct (parser_reset _) as [p0|] eqn:Hreset; [| discriminate].
  destruct (parser_reset_inv _ _ Hreset) as (_ & _ & Hlen & Hpos & _ & Hc0).
  destruct (parse_mutual_fuel (parse_fuel len)) as (He & _).
  destruct (He p0) as [[err p1] ->]; [lia | |].
  - unfold remaining, parse_fuel. rewrite Hlen, Hpos. cbn [p_str_len]. lia.
  - destruct (negb (is_none err)); [discriminate |].
    destruct (p_token_count p1 =? 0); [discriminate |].
    destruct (negb (at_eos (skip_whitespace p1))); discriminate.
Qed.

(* ===================================================================== *)
(** * The navigator *)

Lemma parse_success_inv str len store cap n toks :
  parse_json str len store cap = Returned n toks -> 0 < n ->
  exists p1,
    parser_inv p1 /\ n = p_token_count p1
    /\ toks = alter (fun t => set_token_is_last t true) (Z.to_nat (n - 1))
                    (p_token_store p1).
Proof.
  intros H Hn.
  destruct (parse_json_success _ _ _ _ _ _ H Hn)
    as (s & tokens & p0 & p1 & -> & -> & Hreset & Hparse & _ & -> & ->).
  destruct (parser_reset_inv _ _ Hreset) as (Hinv0 & _ & _ & _ & _ & Hc0).
  exists p1. split; [| split; reflexivity].
  apply (psteps_inv p0); [| exact Hinv0].
  destruct (parse_mutual_psteps (parse_fuel len)) as (He & _).
  eapply He; [lia | exact Hparse].
Qed.

Lemma parse_success_level_nonneg str len store cap n toks (t : Z) :
  parse_json str len store cap = Returned n toks -> 0 < n ->
  0 <= t < n -> 0 <= level (deref toks t).
Proof.
  intros H Hn Ht.
  destruct (parse_success_inv _ _ _ _ _ _ H Hn) as (p1 & Hinv & -> & ->).
  destruct Hinv as [Hc Hcap _ _ _ Hlv].
  unfold deref. destruct (Z.ltb_spec t 0); [lia |].
  assert (Hlen : (Z.to_nat t < length (p_token_store p1))%nat) by lia.
  destruct (lookup_lt_is_Some_2 _ _ Hlen) as [t0 Ht0].
  assert (0 <= level t0 < 2 ^ 11) by (eapply Hlv; [| exact Ht0]; lia).
  rewrite token_at_alter. unfold token_at. rewrite Ht0.
  destruct (decide _); cbn; lia.
Qed.

Lemma parent_of_child (tokens : list mu_json_token_t) (t k : Z) :
  0 <= t -> 0 <= level (deref tokens t) ->
  mu_json_find_child_token tokens (Some t) = Some k ->
  mu_json_find_parent_token tokens (Some k) = Some t.
Proof.
  intros Ht Hlevel. unfold mu_json_find_child_token, mu_json_find_next_token.
  destruct (token_is_last tokens t); [discriminate |].
  destruct (Z.leb_spec (level (deref tokens (t + 1))) (level (deref tokens t)))
    as [| Hdeeper]; [discriminate |].
  intros [= <-].
  unfold mu_json_find_parent_token, token_is_first.
  destruct (Z.eqb_spec (level (deref tokens (t + 1))) 0); [lia |].
  replace (Z.to_nat (t + 1 + 1)) with (S (S (Z.to_nat t))) by lia.
  cbn [find_parent_loop].
  destruct (Z.ltb_spec (level (deref tokens (t + 1)) - 1)
                       (level (deref tokens (t + 1)))); [| lia].
  unfold mu_json_find_prev_token, token_is_first.
  destruct (Z.eqb_spec (level (deref tokens (t + 1))) 0); [lia |].
  replace (t + 1 - 1) with t by lia.
  destruct (Z.ltb_spec (level (deref tokens (t + 1)) - 1)
                       (level (deref tokens t))); [lia | reflexivity].
Qed.

Lemma next_of_prev (tokens : list mu_json_token_t) (t u : Z) :
  mu_json_find_next_token tokens (mu_json_find_prev_token tokens (Some t))
  = Some u ->
  u = t.
Proof.
  unfold mu_json_find_prev_token, mu_json_find_next_token.
  destruct (token_is_first tokens t); [discriminate |].
  destruct (token_is_last tokens (t - 1)); [discriminate |].
  intros [= <-]. lia.
Qed.

(** C8.  In the token store of a successful parse of [n] tokens, for every
    token [t]: if [prev(t)] and [next(prev(t))] are not null then
    [next(prev(t))] is [t]; and if [child(t)] is not null (the token is a
    container with at least one child) then [parent(child(t))] is [t]. *)
Theorem navigation_round_trips
    (input : option (list ascii)) (input_len : Z)
    (token_store : option (list mu_json_token_t)) (max_tokens : Z)
    (n : Z) (tokens : list mu_json_token_t) (t : Z) :
  mu_json_parse_buffer input input_len token_store max_tokens
    = Returned n tokens
  \/ mu_json_parse_str input token_store max_tokens = Returned n tokens ->
  0 < n -> 0 <= t < n ->
  (forall u,
     mu_json_find_next_token tokens
       (mu_json_find_prev_token tokens (Some t)) = Some u ->
     u = t)
  /\ (forall child,
        mu_json_find_child_token tokens (Some t) = Some child ->
        mu_json_find_parent_token tokens (Some child) = Some t).
Proof.
  intros H Hn Ht.
  assert (Hjson : exists len,
             parse_json input len token_store max_tokens = Returned n tokens).
  { destruct H as [H | H]; [eexists; exact H |].
    unfold mu_json_parse_str in H. destruct input; [| discriminate].
    eexists; exact H. }
  destruct Hjson as [len Hjson].
  split.
  - intros u. apply next_of_prev.
  - intros child. apply parent_of_child; [lia |].
    eapply parse_success_level_nonneg; eassumption.
Qed.

Lemma navigation_round_trips_witness :
  mu_json_find_next_token tokens_of_1_2
    (mu_json_find_prev_token tokens_of_1_2 (Some 1)) = Some 1
  /\ mu_json_find_child_token tokens_of_1_2 (Some 0) = Some 1
  /\ mu_json_find_parent_token tokens_of_1_2 (Some 1) = Some 0.
Proof.
  destruct (navigation_round_trips
              (Some (text "[1, 2]")) 6 (fresh_store 4) 4 3 tokens_of_1_2 0)
    as [_ Hchild].
  - left. vm_compute. reflexivity.
  - lia.
  - lia.
  - split; [reflexivity |]. split; [reflexivity |].
    apply Hchild. reflexivity.
Defined.

(* ===================================================================== *)
(** * The error codes of the entry points *)

(** C2, at an input where the code departs from it.  An object whose key
    is not a string makes [parse_object] call [parse_string] on a byte that
    is not a double quote, and the parse returns [MU_JSON_ERR_INTERNAL]:
    so for [{1}], and so for an object with a trailing comma. *)
Theorem object_key_returns_internal :
  returns (mu_json_parse_str (Some (text "{1}")) (fresh_store 5) 5)
          (err_value MU_JSON_ERR_INTERNAL)
  /\ returns (mu_json_parse_buffer (Some (text "{1}")) 3 (fresh_store 5) 5)
             (err_value MU_JSON_ERR_INTERNAL)
  /\ returns (mu_json_parse_str (Some (text "{'a':1,}")) (fresh_store 5) 5)
             (err_value MU_JSON_ERR_INTERNAL).
Proof.
  repeat split; eexists; vm_compute; reflexivity.
Qed.

(** The arguments that [parse_json] does reject. *)
Lemma parse_json_bad_argument str len store cap :
  str = None \/ store = None \/ len = 0 \/ cap = 0 ->
  returns (parse_json str len store cap) (err_value MU_JSON_ERR_BAD_ARGUMENT).
Proof.
  unfold parse_json, returns.
  intros [-> | [-> | [-> | ->]]].
  - eauto.
  - destruct str; eauto.
  - destruct str, store; cbn; eauto.
  - destruct str, store; cbn; eauto.
    destruct (len =? 0); eauto.
Qed.

(** With a negative length the input is at its end from the start. *)
Lemma parse_json_negative_length s len tokens cap :
  len < 0 -> 0 < cap <= Z.of_nat (length tokens) ->
  returns (parse_json (Some s) len (Some tokens) cap)
          (err_value MU_JSON_ERR_NO_ENTITIES).
Proof.
  intros Hlen Hcap. unfold parse_json, returns.
  destruct (Z.eqb_spec len 0); [lia |].
  destruct (Z.eqb_spec cap 0); [lia |].
  unfold parser_reset, memset_tokens. cbn [p_token_store p_max_tokens].
  destruct (Z.leb_spec 0 cap); [| lia].
  destruct (Z.leb_spec cap (Z.of_nat (length tokens))); [| lia].
  cbn [andb p_str p_str_len].
  unfold parse_fuel. replace (Z.to_nat len) with 0%nat by lia.
  cbn [Nat.mul Nat.add parse_element].
  unfold skip_whitespace, remaining. cbn [p_str_len p_str_pos].
  replace (Z.to_nat (len - 0)) with 0%nat by lia.
  cbn [skip_whitespace_loop]. unfold at_eos. cbn [p_str_len p_str_pos].
  destruct (Z.leb_spec len 0); [| lia].
  cbn. eauto.
Qed.

(** C4, at an input where the code departs from it.  [parse_json] compares
    [str_len] and [max_tokens] with 0 only.  A negative [input_len] passes
    the test, and the parse returns [MU_JSON_ERR_NO_ENTITIES]; a negative
    [max_tokens] passes it too and reaches the [memset] of [parser_reset]
    with a size that has wrapped around; a [NULL] string given to
    [mu_json_parse_str] is handed to [strlen] first. *)
Theorem negative_arguments_not_rejected :
  returns (mu_json_parse_buffer (Some (text "1")) (-1) (fresh_store 5) 5)
          (err_value MU_JSON_ERR_NO_ENTITIES)
  /\ mu_json_parse_buffer (Some (text "1")) 1 (fresh_store 5) (-1) = Undefined
  /\ mu_json_parse_str None (fresh_store 5) 5 = Undefined.
Proof.
  split; [| split; reflexivity].
  apply parse_json_negative_length; cbn; lia.
Qed.

(* ===================================================================== *)
(** * Numbers *)

Lemma span_refl (p : parser) : span p p = [].
Proof. unfold span. rewrite Z.sub_diag. reflexivity. Qed.

Lemma span_app (p q r : parser) :
  0 <= p_str_pos p -> p_str_pos p <= p_str_pos q <= p_str_pos r ->
  p_str q = p_str p ->
  span p r = span p q ++ span q r.
Proof.
  intros Hp Hq Hstr. unfold span. rewrite Hstr.
  replace (Z.to_nat (p_str_pos r - p_str_pos p))
    with (Z.to_nat (p_str_pos q - p_str_pos p)
          + Z.to_nat (p_str_pos r - p_str_pos q))%nat by lia.
  rewrite <- take_take_drop, drop_drop.
  replace (Z.to_nat (p_str_pos p) + Z.to_nat (p_str_pos q - p_str_pos p))%nat
    with (Z.to_nat (p_str_pos q)) by lia.
  reflexivity.
Qed.

Lemma span_get_char (p : parser) :
  input_ok p -> at_eos p = false -> span p (get_char p) = [peek_char p].
Proof.
  intros [Hpos Hlen] Heos. apply at_eos_false in Heos.
  unfold span, peek_char, get_char. cbn [p_str_pos set_pos].
  replace (Z.to_nat (p_str_pos p + 1 - p_str_pos p)) with 1%nat by lia.
  assert (Hin : (Z.to_nat (p_str_pos p) < length (p_str p))%nat) by lia.
  destruct (lookup_lt_is_Some_2 _ _ Hin) as [c Hc].
  rewrite Hc. cbn [default].
  rewrite (drop_S _ _ _ Hc). reflexivity.
Qed.

Lemma input_ok_psteps (p p' : parser) :
  psteps p p' -> input_ok p -> input_ok p'.
Proof.
  intros H [Hpos Hlen]. apply psteps_pframe in H. destruct H.
  unfold input_ok. rewrite frame_str0, frame_len0. lia.
Qed.

(** The digit loops only move the read position, and only over digits. *)
Lemma digits_loop_set_pos (n : nat) : forall seen p seen' p',
  digits_loop n seen p = (seen', p') -> p' = set_pos p (p_str_pos p').
Proof.
  induction n as [|n IH]; intros seen p seen' p'; cbn.
  - intros [= <- <-]. symmetry. apply set_pos_same.
  - destruct (at_eos p); [intros [= <- <-]; symmetry; apply set_pos_same |].
    destruct (_ && _); [| intros [= <- <-]; symmetry; apply set_pos_same].
    intros H. apply IH in H. rewrite H at 1. apply set_pos_set_pos.
Qed.

Lemma digits_set_pos (p : parser) seen p' :
  digits p = (seen, p') -> p' = set_pos p (p_str_pos p').
Proof. apply digits_loop_set_pos. Qed.

Lemma digits_loop_span (n : nat) : forall seen p seen' p',
  input_ok p -> digits_loop n seen p = (seen', p') ->
  forallb is_digit (span p p') = true.
Proof.
  induction n as [|n IH]; intros seen p seen' p' Hok; cbn.
  - intros [= <- <-]. rewrite span_refl. reflexivity.
  - destruct (at_eos p) eqn:Heos;
      [intros [= <- <-]; rewrite span_refl; reflexivity |].
    destruct (_ && _) eqn:Hdigit;
      [| intros [= <- <-]; rewrite span_refl; reflexivity].
    intros H.
    assert (Hok1 : input_ok (get_char p))
      by (eapply input_ok_psteps; [apply psteps_get_char |]; assumption).
    pose proof (psteps_pos _ _ (digits_loop_psteps _ _ _ _ _ H)) as Hle.
    rewrite (span_app p (get_char p) p'); try reflexivity.
    + rewrite span_get_char by assumption. cbn [forallb app].
      unfold is_digit at 1. rewrite Hdigit. cbn [andb].
      eapply IH; eassumption.
    + apply Hok.
    + cbn in *. lia.
Qed.

Lemma digits_span (p : parser) seen p' :
  input_ok p -> digits p = (seen, p') -> forallb is_digit (span p p') = true.
Proof. apply digits_loop_span. Qed.

Lemma has_fraction_or_exponent_app (l1 l2 : list ascii) :
  has_fraction_or_exponent (l1 ++ l2)
  = has_fraction_or_exponent l1 || has_fraction_or_exponent l2.
Proof. apply existsb_app. Qed.

Lemma is_digit_plain (c : ascii) :
  is_digit c = true ->
  Ascii.eqb c "." || Ascii.eqb c "e" || Ascii.eqb c "E" = false.
Proof.
  unfold is_digit.
  destruct (Ascii.eqb_spec c "."); [subst; discriminate |].
  destruct (Ascii.eqb_spec c "e"); [subst; discriminate |].
  destruct (Ascii.eqb_spec c "E"); [subst; discriminate |].
  reflexivity.
Qed.

Lemma digits_no_fraction_or_exponent (l : list ascii) :
  forallb is_digit l = true -> has_fraction_or_exponent l = false.
Proof.
  induction l as [|c l IH]; cbn; [reflexivity |].
  intros H. apply andb_true_iff in H. destruct H as [Hc Hl].
  rewrite (is_digit_plain c Hc). cbn. apply IH. exact Hl.
Qed.

Lemma type_finalize_token (p : parser) (tok i : nat) :
  type (token_at (p_token_store (finalize_token p tok)) i)
  = type (token_at (p_token_store p) i).
Proof.
  cbn. rewrite token_at_alter. unfold token_at.
  destruct (decide (tok = i)); [| reflexivity].
  destruct (p_token_store p !! i); reflexivity.
Qed.

Lemma type_set_number (p : parser) (tok : nat) :
  (tok < length (p_token_store p))%nat ->
  type (token_at
          (p_token_store
             (update_token p tok
                (fun t => set_token_type t MU_JSON_TOKEN_TYPE_NUMBER))) tok)
  = MU_JSON_TOKEN_TYPE_NUMBER.
Proof.
  intros Hlt. cbn. rewrite token_at_alter.
  destruct (decide (tok = tok)); [| congruence].
  destruct (lookup_lt_is_Some_2 _ _ Hlt) as [t ->]. reflexivity.
Qed.

Lemma type_init_token (p : parser) ty tok p' :
  (tok < length (p_token_store p))%nat ->
  init_token p ty = Some (tok, p') ->
  type (token_at (p_token_store p') tok) = ty.
Proof.
  intros Hlt H. rewrite (init_token_store _ _ _ _ H), token_at_alter.
  destruct (decide (tok = tok)); [| congruence].
  destruct (lookup_lt_is_Some_2 _ _ Hlt) as [t ->]. reflexivity.
Qed.

Lemma has_fraction_or_exponent_span (p q r : parser) :
  input_ok p -> p_str_pos p <= p_str_pos q <= p_str_pos r ->
  p_str q = p_str p ->
  has_fraction_or_exponent (span p r)
  = has_fraction_or_exponent (span p q) || has_fraction_or_exponent (span q r).
Proof.
  intros [Hpos _] Hle Hstr.
  rewrite (span_app p q r), has_fraction_or_exponent_app by assumption.
  reflexivity.
Qed.

Lemma has_fraction_or_exponent_get_char (p : parser) :
  input_ok p -> at_eos p = false ->
  has_fraction_or_exponent (span p (get_char p))
  = Ascii.eqb (peek_char p) "." || Ascii.eqb (peek_char p) "e"
    || Ascii.eqb (peek_char p) "E".
Proof.
  intros Hok Heos. rewrite span_get_char by assumption.
  cbn. apply orb_false_r.
Qed.

(** The integer part of an accepted number: sign, leading zero, digits. *)
Lemma integer_part_span (p0 p3 : parser) (hi : bool) :
  input_ok p0 -> at_eos p0 = false ->
  let p1 := if Ascii.eqb (peek_char p0) "-" then get_char p0 else p0 in
  let zero := Ascii.eqb (peek_char p1) "0" in
  let p2 := if zero then get_char p1 else p1 in
  at_eos p1 = false ->
  digits p2 = (hi, p3) ->
  has_fraction_or_exponent (span p0 p3) = false
  /\ p3 = set_pos p0 (p_str_pos p3)
  /\ p_str_pos p0 <= p_str_pos p3.
Proof.
  intros Hok Heos p1 zero p2 Heos1 Hint.
  assert (H01 : psteps p0 p1).
  { subst p1. destruct (Ascii.eqb (peek_char p0) "-");
      [apply psteps_get_char; exact Heos | apply psteps_refl]. }
  assert (H12 : psteps p1 p2).
  { subst p2. destruct zero;
      [apply psteps_get_char; exact Heos1 | apply psteps_refl]. }
  pose proof (digits_psteps _ _ _ Hint) as H23.
  pose proof (input_ok_psteps _ _ H01 Hok) as Hok1.
  pose proof (input_ok_psteps _ _ H12 Hok1) as Hok2.
  pose proof (psteps_pos _ _ H01) as Hle01.
  pose proof (psteps_pos _ _ H12) as Hle12.
  pose proof (psteps_pos _ _ H23) as Hle23.
  assert (Hs1 : p_str p1 = p_str p0)
    by (apply psteps_pframe in H01; destruct H01; assumption).
  assert (Hs2 : p_str p2 = p_str p1)
    by (apply psteps_pframe in H12; destruct H12; assumption).
  split; [| split; [| lia]].
  - rewrite (has_fraction_or_exponent_span p0 p1 p3); [| assumption | lia |
      assumption].
    rewrite (has_fraction_or_exponent_span p1 p2 p3); [| assumption | lia |
      assumption].
    rewrite (digits_no_fraction_or_exponent (span p2 p3))
      by (eapply digits_span; eassumption).
    assert (Hsign : has_fraction_or_exponent (span p0 p1) = false).
    { subst p1. destruct (Ascii.eqb_spec (peek_char p0) "-") as [Hm |].
      - rewrite has_fraction_or_exponent_get_char by assumption.
        rewrite Hm. reflexivity.
      - rewrite span_refl. reflexivity. }
    assert (Hzero : has_fraction_or_exponent (span p1 p2) = false).
    { subst p2 zero. destruct (Ascii.eqb_spec (peek_char p1) "0") as [Hz |].
      - rewrite has_fraction_or_exponent_get_char by assumption.
        rewrite Hz. reflexivity.
      - rewrite span_refl. reflexivity. }
    rewrite Hsign, Hzero. reflexivity.
  - rewrite (digits_set_pos _ _ _ Hint). subst p2 p1.
    destruct zero, (Ascii.eqb (peek_char p0) "-"); reflexivity.
Qed.

(** Every number that [parse_number] accepts is classified by the bytes it
    consumed: its token has type [NUMBER] when they contain [.], [e] or [E],
    and type [INTEGER] otherwise. *)
Lemma parse_number_classifies (p p' : parser) :
  parser_inv p -> input_ok p ->
  parse_number p = (MU_JSON_ERR_NONE, p') ->
  type (token_at (p_token_store p') (Z.to_nat (p_token_count p)))
  = if has_fraction_or_exponent (span p p') then MU_JSON_TOKEN_TYPE_NUMBER
    else MU_JSON_TOKEN_TYPE_INTEGER.
Proof.
  intros Hinv Hok H. apply parse_number_success in H.
  destruct H as (tok & p0 & hi & p3 & p6 & Heos & _ & Hinit & H).
  cbn zeta in H.
  destruct H as (Heos1 & _ & Hint & _ & Hfrac & Hexp).
  pose proof (init_token_count _ _ _ _ Hinit)
    as (Hlt & Htok & _ & Hpos0 & Hlen0 & Hstr0 & _).
  pose proof (init_token_at_eos _ _ _ _ Hinit) as [Heos0 _].
  rewrite Heos in Heos0.
  destruct Hinv as [Hc Hcap _ _ _ _].
  assert (Hroom : (tok < length (p_token_store p))%nat) by lia.
  assert (Hroom0 : (tok < length (p_token_store p0))%nat).
  { rewrite (init_token_store _ _ _ _ Hinit), length_alter. exact Hroom. }
  pose proof (type_init_token _ _ _ _ Hroom Hinit) as Hty0.
  assert (Hok0 : input_ok p0).
  { unfold input_ok. rewrite Hpos0, Hlen0, Hstr0. exact Hok. }
  assert (Hspan0 : forall q, span p q = span p0 q).
  { intros q. unfold span. rewrite Hpos0, Hstr0. reflexivity. }
  rewrite Hspan0, <- Htok.
  destruct (integer_part_span p0 p3 hi Hok0 Heos0 Heos1 Hint)
    as (Hint_span & Hp3 & Hle3).
  assert (Hok3 : input_ok p3).
  { rewrite Hp3. unfold input_ok. cbn. destruct Hok0. split; [lia | assumption]. }
  assert (Hstr3 : p_str p3 = p_str p0) by (rewrite Hp3; reflexivity).
  assert (Hstore3 : p_token_store p3 = p_token_store p0)
    by (rewrite Hp3; reflexivity).
  (* the fraction *)
  assert (Hfrac' :
    p_str_pos p3 <= p_str_pos p6 /\ p_str p6 = p_str p0 /\ input_ok p6
    /\ length (p_token_store p6) = length (p_token_store p0)
    /\ ((has_fraction_or_exponent (span p3 p6) = false
         /\ p_token_store p6 = p_token_store p0)
        \/ (has_fraction_or_exponent (span p3 p6) = true
            /\ type (token_at (p_token_store p6) tok)
               = MU_JSON_TOKEN_TYPE_NUMBER))).
  { destruct Hfrac as [[_ ->] | (Heos3 & Hdot & Hfrac)].
    - split; [lia |]. split; [exact Hstr3 |]. split; [exact Hok3 |].
      split; [rewrite Hstore3; reflexivity |].
      left. rewrite span_refl. auto.
    - set (p4 := update_token p3 tok _) in Hfrac.
      assert (Hok4 : input_ok (get_char p4)).
      { eapply input_ok_psteps; [apply psteps_get_char | exact Hok3].
        exact Heos3. }
      pose proof (psteps_pos _ _ (digits_psteps _ _ _ Hfrac)) as Hle.
      pose proof (digits_set_pos _ _ _ Hfrac) as Hp6.
      cbn in Hle.
      split; [lia |].
      split; [rewrite Hp6; cbn; exact Hstr3 |].
      split; [rewrite Hp6; destruct Hok3; split; cbn; [lia | assumption] |].
      split; [rewrite Hp6; cbn; rewrite length_alter; congruence |].
      { right. split.
        * rewrite (has_fraction_or_exponent_span p3 (get_char p3) p6);
            [| assumption | cbn; lia | reflexivity].
          rewrite has_fraction_or_exponent_get_char by assumption.
          rewrite Hdot. reflexivity.
        * rewrite Hp6. cbn [p_token_store set_pos get_char].
          apply type_set_number. congruence. } }
  destruct Hfrac' as (Hle6 & Hstr6 & Hok6 & Hlen6 & Hfrac').
  rewrite (has_fraction_or_exponent_span p0 p3 p');
    [| assumption | | assumption].
  2:{ destruct Hexp as [[_ ->] | (_ & _ & p10 & Hexp & ->)]; [cbn; lia |].
      apply digits_psteps, psteps_pos in Hexp. cbn.
      match type of Hexp with
      | context [if ?c then _ else _] => destruct c
      end; cbn in Hexp; lia. }
  rewrite Hint_span. cbn [orb].
  (* the exponent *)
  destruct Hexp as [[_ ->] | (Heos6 & He & p10 & Hexp & ->)].
  - rewrite type_finalize_token.
    change (span p3 (finalize_token p6 tok)) with (span p3 p6).
    destruct Hfrac' as [[-> ->] | [-> ->]]; [exact Hty0 | reflexivity].
  - rewrite type_finalize_token.
    change (span p3 (finalize_token p10 tok)) with (span p3 p10).
    set (p7 := update_token p6 tok _) in Hexp.
    match type of Hexp with digits ?x = _ => set (p9 := x) in Hexp end.
    assert (H89 : psteps (get_char p7) p9).
    { subst p9. destruct (at_eos (get_char p7)) eqn:Heos8; cbn [negb andb];
        [apply psteps_refl |].
      match goal with
      | |- psteps _ (if ?c then _ else _) => destruct c
      end; [apply psteps_get_char; exact Heos8 | apply psteps_refl]. }
    assert (Hp9 : p9 = set_pos p7 (p_str_pos p9)).
    { subst p9.
      match goal with
      | |- (if ?c then _ else _) = _ => destruct c
      end; reflexivity. }
    pose proof (psteps_pos _ _ H89) as Hle9. cbn in Hle9.
    pose proof (psteps_pos _ _ (digits_psteps _ _ _ Hexp)) as Hle10.
    pose proof (digits_set_pos _ _ _ Hexp) as Hp10.
    assert (Hstore10 : p_token_store p10 = p_token_store p7).
    { rewrite Hp10, Hp9. reflexivity. }
    rewrite Hstore10. subst p7. rewrite type_set_number by congruence.
    rewrite (has_fraction_or_exponent_span p3 p6 p10);
      [| assumption | lia | congruence].
    rewrite (has_fraction_or_exponent_span p6 (get_char p6) p10);
      [| assumption | cbn; lia | reflexivity].
    rewrite has_fraction_or_exponent_get_char by assumption.
    replace (Ascii.eqb (peek_char p6) "." || Ascii.eqb (peek_char p6) "e"
             || Ascii.eqb (peek_char p6) "E") with true.
    + rewrite orb_true_r. reflexivity.
    + destruct (Ascii.eqb (peek_char p6) "."),
        (Ascii.eqb (peek_char p6) "e"), (Ascii.eqb (peek_char p6) "E");
        cbn in *; congruence.
Qed.

(** C5.  Whenever [parse_number] accepts a literal (at the top level or
    inside a container), its token has type [INTEGER] if the bytes of the
    literal contain no [.], [e] or [E], and type [NUMBER] otherwise.  In
    particular [0] and [-0] parse to one [INTEGER] token, [0.0] and [0e0] to
    one [NUMBER] token, and [01] is rejected with a negative code
    ([MU_JSON_ERR_BAD_FORMAT]). *)
Theorem number_classification :
  (forall p p',
     parser_inv p -> input_ok p ->
     parse_number p = (MU_JSON_ERR_NONE, p') ->
     type (token_at (p_token_store p') (Z.to_nat (p_token_count p)))
     = if has_fraction_or_exponent (span p p')
       then MU_JSON_TOKEN_TYPE_NUMBER else MU_JSON_TOKEN_TYPE_INTEGER)
  /\ mu_json_parse_str (Some (text "0")) (fresh_store 1) 1
     = Returned 1 [mk_token (Some 0) 1 MU_JSON_TOKEN_TYPE_INTEGER 0 true]
  /\ mu_json_parse_str (Some (text "0.0")) (fresh_store 1) 1
     = Returned 1 [mk_token (Some 0) 3 MU_JSON_TOKEN_TYPE_NUMBER 0 true]
  /\ mu_json_parse_str (Some (text "0e0")) (fresh_store 1) 1
     = Returned 1 [mk_token (Some 0) 3 MU_JSON_TOKEN_TYPE_NUMBER 0 true]
  /\ mu_json_parse_str (Some (text "-0")) (fresh_store 1) 1
     = Returned 1 [mk_token (Some 0) 2 MU_JSON_TOKEN_TYPE_INTEGER 0 true]
  /\ returns (mu_json_parse_str (Some (text "01")) (fresh_store 1) 1)
             (err_value MU_JSON_ERR_BAD_FORMAT)
  /\ err_value MU_JSON_ERR_BAD_FORMAT < 0.
Proof.
  split; [exact parse_number_classifies |].
  repeat split; try (vm_compute; reflexivity).
  eexists. vm_compute. reflexivity.
Qed.

Lemma number_classification_witness :
  let p := mk_parser (text "[1.5]") 5 1 [zero_token; zero_token] 2 1 1 in
  type (token_at (p_token_store (snd (parse_number p))) 1)
  = MU_JSON_TOKEN_TYPE_NUMBER.
Proof.
  intros p.
  destruct number_classification as [H _].
  apply (H p (snd (parse_number p))).
  - constructor; cbn; try lia.
    + intros [|[|i]] t _; cbn; intros [= <-]; reflexivity.
    + intros [|[|i]] t _; cbn; intros [= <-]; cbn; lia.
  - split; cbn; lia.
  - vm_compute. reflexivity.
Defined.

(* ===================================================================== *)
(** * Bytes with the high bit set *)

Lemma high_bit_code (c : ascii) : high_bit c = true <-> 128 <= code c.
Proof.
  destruct c as [[] [] [] [] [] [] [] []]; vm_compute; split;
    intros H; try reflexivity; try discriminate; exfalso; apply H; reflexivity.
Qed.

Lemma high_bit_eqb (c x : ascii) :
  high_bit c = true -> high_bit x = false -> Ascii.eqb c x = false.
Proof.
  intros Hc Hx. destruct (Ascii.eqb_spec c x); [| reflexivity].
  subst. congruence.
Qed.

Lemma high_bit_not_digit (c : ascii) : high_bit c = true -> is_digit c = false.
Proof.
  intros H. apply high_bit_code in H. unfold is_digit.
  change (code "9") with 57.
  destruct (Z.leb_spec (code c) 57); [lia |]. apply andb_false_r.
Qed.

(** Where [parse_element] expects the first byte of an element. *)
Lemma parse_element_high_bit (fuel : nat) (p : parser) :
  at_eos (skip_whitespace p) = false ->
  high_bit (peek_char (skip_whitespace p)) = true ->
  parse_element (S fuel) p
  = Some (MU_JSON_ERR_NO_MULTIBYTE, skip_whitespace p).
Proof.
  intros Heos Hhigh. cbn [parse_element]. rewrite Heos.
  rewrite (high_bit_eqb _ ch_quote Hhigh) by reflexivity.
  rewrite (high_bit_not_digit _ Hhigh).
  rewrite (high_bit_eqb _ "-" Hhigh) by reflexivity.
  rewrite (high_bit_eqb _ "t" Hhigh) by reflexivity.
  rewrite (high_bit_eqb _ "f" Hhigh) by reflexivity.
  rewrite (high_bit_eqb _ "n" Hhigh) by reflexivity.
  rewrite (high_bit_eqb _ "{" Hhigh) by reflexivity.
  rewrite (high_bit_eqb _ "[" Hhigh) by reflexivity.
  rewrite Hhigh. reflexivity.
Qed.


(** ** Reading a buffer given as a list *)

Lemma peek_char_app (p : parser) (pre rest : list ascii) (c : ascii) :
  p_str p = pre ++ c :: rest -> p_str_pos p = Z.of_nat (length pre) ->
  peek_char p = c.
Proof.
  intros Hstr Hpos. unfold peek_char. rewrite Hstr, Hpos, Nat2Z.id.
  rewrite lookup_app_r by lia. rewrite Nat.sub_diag. reflexivity.
Qed.


Lemma skip_whitespace_loop_enough (n : nat) : forall p,
  (remaining p <= n)%nat ->
  skip_whitespace_loop n p = skip_whitespace p.
Proof.
  unfold skip_whitespace.
  induction n as [|n IH]; intros p Hn.
  - replace (remaining p) with 0%nat by lia. reflexivity.
  - destruct (remaining p) as [|r] eqn:Hr.
    + cbn. apply remaining_zero_at_eos in Hr. rewrite Hr. reflexivity.
    + cbn. destruct (at_eos p) eqn:Heos; [reflexivity |].
      destruct (is_space (peek_char p)); [| reflexivity].
      pose proof (remaining_get_char _ Heos) as Hrem.
      rewrite IH by lia. f_equal. lia.
Qed.

Lemma skip_whitespace_step (p : parser) :
  at_eos p = false -> is_space (peek_char p) = true ->
  skip_whitespace p = skip_whitespace (get_char p).
Proof.
  intros Heos Hsp. unfold skip_whitespace at 1.
  rewrite (remaining_get_char _ Heos). cbn [skip_whitespace_loop].
  rewrite Heos, Hsp. reflexivity.
Qed.

Lemma skip_whitespace_stop (p : parser) :
  at_eos p = true \/ is_space (peek_char p) = false ->
  skip_whitespace p = p.
Proof.
  intros H. unfold skip_whitespace. destruct (remaining p); [reflexivity |].
  cbn. destruct (at_eos p); [reflexivity |].
  destruct H as [H | ->]; [discriminate | reflexivity].
Qed.



(** ** From [parse_element] to the entry points *)

Lemma parser_reset_initial s len tokens cap :
  0 < cap <= Z.of_nat (length tokens) ->
  parser_reset (mk_parser s len 0 tokens cap 0 0)
  = Some (initial_parser s len tokens cap).
Proof.
  intros Hcap. unfold parser_reset, memset_tokens. cbn.
  destruct (Z.leb_spec 0 cap); [| lia].
  destruct (Z.leb_spec cap (Z.of_nat (length tokens))); [| lia].
  reflexivity.
Qed.

(** An error of the top-level element is the return value of the parse. *)
Lemma parse_json_error s len tokens cap err p1 :
  len <> 0 -> 0 < cap <= Z.of_nat (length tokens) ->
  parse_element (parse_fuel len) (initial_parser s len tokens cap)
  = Some (err, p1) ->
  err <> MU_JSON_ERR_NONE ->
  returns (parse_json (Some s) len (Some tokens) cap) (err_value err).
Proof.
  intros Hlen Hcap Hparse Herr. unfold parse_json.
  destruct (Z.eqb_spec len 0); [contradiction |].
  destruct (Z.eqb_spec cap 0); [lia |].
  rewrite parser_reset_initial, Hparse by assumption.
  apply is_none_false in Herr. rewrite Herr. cbn [negb].
  eexists. reflexivity.
Qed.

Lemma high_bit_not_space (c : ascii) : high_bit c = true -> is_space c = false.
Proof.
  intros H. unfold is_space.
  rewrite !(high_bit_eqb c) by (assumption || reflexivity). reflexivity.
Qed.

Lemma parse_fuel_S (len : Z) : exists fuel, parse_fuel len = S fuel.
Proof. unfold parse_fuel. exists (3 * Z.to_nat len + 1)%nat. lia. Qed.


(* ===================================================================== *)
(** * An input cut before its closing bracket *)

(** ** More fuel gives the same result *)

Lemma digits_loop_enough (n : nat) : forall m seen p,
  (remaining p <= n)%nat -> (remaining p <= m)%nat ->
  digits_loop n seen p = digits_loop m seen p.
Proof.
  induction n as [|n IH]; intros m seen p Hn Hm.
  - destruct m as [|m]; [reflexivity |]. cbn.
    assert (Heos : at_eos p = true) by (apply remaining_zero_at_eos; lia).
    rewrite Heos. reflexivity.
  - destruct m as [|m]; cbn.
    + assert (Heos : at_eos p = true) by (apply remaining_zero_at_eos; lia).
      rewrite Heos. reflexivity.
    + destruct (at_eos p) eqn:Heos; [reflexivity |].
      destruct (_ && _); [| reflexivity].
      pose proof (remaining_get_char _ Heos). apply IH; lia.
Qed.

Lemma hex_digits_remaining (k : nat) : forall p p',
  hex_digits k p = Some p' -> (remaining p' <= remaining p)%nat.
Proof.
  intros p p' H. apply psteps_remaining. eapply hex_digits_psteps. exact H.
Qed.

Lemma parse_string_loop_enough (n : nat) : forall m p,
  (remaining p <= n)%nat -> (remaining p <= m)%nat ->
  parse_string_loop n p = parse_string_loop m p.
Proof.
  induction n as [|n IH]; intros m p Hn Hm.
  - destruct m as [|m]; [reflexivity |]. cbn [parse_string_loop].
    assert (Heos : at_eos p = true) by (apply remaining_zero_at_eos; lia).
    rewrite Heos. reflexivity.
  - destruct m as [|m]; cbn [parse_string_loop].
    + assert (Heos : at_eos p = true) by (apply remaining_zero_at_eos; lia).
      rewrite Heos. reflexivity.
    + destruct (at_eos p) eqn:Heos; [reflexivity |].
      pose proof (remaining_get_char _ Heos) as Hr.
      destruct (Ascii.eqb (peek_char p) ch_backslash).
      * destruct (at_eos (get_char p)) eqn:Heos1; [reflexivity |].
        pose proof (remaining_get_char _ Heos1) as Hr1.
        destruct (is_simple_escape _); [apply IH; lia |].
        destruct (Ascii.eqb _ "u"); [| reflexivity].
        destruct (hex_digits 4 _) as [p2|] eqn:Hhex; [| reflexivity].
        apply hex_digits_remaining in Hhex. apply IH; lia.
      * destruct (high_bit _); [reflexivity |].
        destruct (code _ <? 32); [reflexivity |].
        destruct (Ascii.eqb _ ch_quote); [reflexivity |].
        apply IH; lia.
Qed.

(** ** Closing brackets *)

Lemma is_closer_cases (c : ascii) :
  is_closer c = true -> c = "]"%char \/ c = "}"%char.
Proof.
  unfold is_closer. intros H. apply orb_true_iff in H.
  destruct H as [H | H]; apply Ascii.eqb_eq in H; auto.
Qed.

(** What a closing bracket is not. *)
Lemma closer_is_plain (c : ascii) :
  is_closer c = true ->
  is_space c = false /\ is_digit c = false /\ is_hex c = false
  /\ is_simple_escape c = false /\ high_bit c = false
  /\ (code c <? 32) = false /\ is_number_prefix c = false
  /\ forall x, In x (list_ascii_of_string "\u.eE+-0tfn{[,:truefalsenull")
               \/ x = ch_quote \/ x = ch_backslash ->
               Ascii.eqb c x = false.
Proof.
  intros H. apply is_closer_cases in H.
  destruct H as [-> | ->]; repeat split; try reflexivity;
    intros x Hx; cbn in Hx; intuition (subst; reflexivity).
Qed.

(** ** A result does not depend on the fuel that produced it *)

Lemma parse_mutual_fuel_S (fuel : nat) :
  (forall p r, parse_element fuel p = Some r ->
               parse_element (S fuel) p = Some r)
  /\ (forall p r, parse_object fuel p = Some r ->
                  parse_object (S fuel) p = Some r)
  /\ (forall first p r, parse_object_loop fuel first p = Some r ->
                        parse_object_loop (S fuel) first p = Some r)
  /\ (forall p r, parse_array fuel p = Some r ->
                  parse_array (S fuel) p = Some r)
  /\ (forall first p r, parse_array_loop fuel first p = Some r ->
                        parse_array_loop (S fuel) first p = Some r).
Proof.
  induction fuel as [|fuel (IHe & IHo & IHol & IHa & IHal)];
    [repeat split; intros; discriminate |].
  repeat split.
  - intros p r. cbn [parse_element].
    repeat match goal with
           | |- (if ?c then _ else _) = _ -> _ => destruct c
           end; auto.
  - intros p r. cbn [parse_object].
    destruct (_ || _); [auto |].
    destruct (init_token _ _) as [[tok p1]|]; [| auto].
    destruct (parse_object_loop fuel true _) as [[err p4]|] eqn:Hloop;
      [| discriminate].
    rewrite (IHol _ _ _ Hloop). auto.
  - intros first p r. cbn [parse_object_loop].
    destruct (at_eos _); [auto |].
    destruct (Ascii.eqb _ "}"); [auto |].
    destruct (if negb first then _ else _) as [err2 p2].
    destruct (negb (is_none err2)); [auto |].
    destruct (parse_string p2) as [err3 p3].
    destruct (negb (is_none err3)); [auto |].
    destruct (find_and_skip p3 ":") as [err4 p4].
    destruct (negb (is_none err4)); [auto |].
    destruct (parse_element fuel p4) as [[err5 p5]|] eqn:Hval;
      [| discriminate].
    rewrite (IHe _ _ Hval).
    destruct (negb (is_none err5)); [auto |]. apply IHol.
  - intros p r. cbn [parse_array].
    destruct (_ || _); [auto |].
    destruct (init_token _ _) as [[tok p1]|]; [| auto].
    destruct (parse_array_loop fuel true _) as [[err p4]|] eqn:Hloop;
      [| discriminate].
    rewrite (IHal _ _ _ Hloop). auto.
  - intros first p r. cbn [parse_array_loop].
    destruct (at_eos _); [auto |].
    destruct (Ascii.eqb _ "]"); [auto |].
    destruct (if negb first then _ else _) as [err2 p2].
    destruct (negb (is_none err2)); [auto |].
    destruct (parse_element fuel p2) as [[err3 p3]|] eqn:Hval;
      [| discriminate].
    rewrite (IHe _ _ Hval).
    destruct (negb (is_none err3)); [auto |]. apply IHal.
Qed.

Lemma parse_element_fuel_le (fuel fuel' : nat) (p : parser) r :
  (fuel <= fuel')%nat -> parse_element fuel p = Some r ->
  parse_element fuel' p = Some r.
Proof.
  induction 1 as [| fuel' _ IH]; [auto |].
  intros H. apply parse_mutual_fuel_S. auto.
Qed.


(* ===================================================================== *)
(** * A number without exponent digits *)

Lemma digits_loop_run (ds : list ascii) : forall n seen p pre rest,
  p_str p = pre ++ ds ++ rest ->
  p_str_pos p = Z.of_nat (length pre) ->
  p_str_len p = Z.of_nat (length (pre ++ ds ++ rest)) ->
  (remaining p <= n)%nat ->
  forallb is_digit ds = true -> no_digit_first rest = true ->
  digits_loop n seen p
  = (seen || match ds with [] => false | _ => true end,
     set_pos p (Z.of_nat (length pre + length ds))).
Proof.
  induction ds as [|d ds IH]; intros n seen p pre rest Hstr Hpos Hlen Hn Hds
    Hrest.
  - cbn [app length] in *. rewrite Nat.add_0_r, orb_false_r, <- Hpos.
    rewrite set_pos_same.
    destruct n as [|n]; [reflexivity |]. cbn [digits_loop].
    destruct (at_eos p) eqn:Heos; [reflexivity |].
    destruct rest as [|c rest].
    + apply at_eos_false in Heos. rewrite length_app in Hlen.
      cbn [length] in Hlen. lia.
    + rewrite (peek_char_app p pre rest c) by assumption.
      cbn in Hrest. apply negb_true_iff in Hrest.
      unfold is_digit in Hrest. rewrite Hrest. reflexivity.
  - cbn [forallb] in Hds. apply andb_true_iff in Hds. destruct Hds as [Hd Hds].
    assert (Heos : at_eos p = false).
    { apply at_eos_false. rewrite Hpos, Hlen, !length_app. cbn [length]. lia. }
    pose proof (remaining_get_char _ Heos) as Hr.
    destruct n as [|n]; [lia |]. cbn [digits_loop]. rewrite Heos.
    rewrite (peek_char_app p pre (ds ++ rest) d) by assumption.
    unfold is_digit in Hd. rewrite Hd.
    rewrite (IH n true (get_char p) (pre ++ [d]) rest).
    + rewrite orb_true_r. cbn [orb]. f_equal. unfold get_char.
      rewrite set_pos_set_pos. f_equal. rewrite length_app. cbn [length]. lia.
    + cbn. rewrite Hstr, <- app_assoc. reflexivity.
    + cbn. rewrite Hpos, length_app. cbn [length]. lia.
    + cbn. rewrite Hlen, <- app_assoc. reflexivity.
    + lia.
    + exact Hds.
    + exact Hrest.
Qed.

Lemma digits_run (ds : list ascii) (p : parser) pre rest :
  p_str p = pre ++ ds ++ rest ->
  p_str_pos p = Z.of_nat (length pre) ->
  p_str_len p = Z.of_nat (length (pre ++ ds ++ rest)) ->
  forallb is_digit ds = true -> no_digit_first rest = true ->
  digits p
  = (match ds with [] => false | _ => true end,
     set_pos p (Z.of_nat (length pre + length ds))).
Proof.
  intros. unfold digits.
  rewrite (digits_loop_run ds _ false p pre rest); auto.
Qed.

Lemma cursor_at_end (p : parser) before :
  cursor p before [] -> at_eos p = true.
Proof.
  intros (_ & Hpos & Hlen). apply at_eos_true.
  rewrite Hpos, Hlen, app_nil_r. lia.
Qed.

Lemma cursor_next (p : parser) before c after :
  cursor p before (c :: after) ->
  at_eos p = false /\ peek_char p = c
  /\ cursor (get_char p) (before ++ [c]) after.
Proof.
  intros (Hstr & Hpos & Hlen). repeat split.
  - apply at_eos_false. rewrite Hpos, Hlen, length_app. cbn [length]. lia.
  - apply (peek_char_app p before after); assumption.
  - cbn. rewrite Hstr, <- app_assoc. reflexivity.
  - cbn. rewrite Hpos, length_app. cbn [length]. lia.
  - cbn. rewrite Hlen, <- app_assoc. reflexivity.
Qed.

Lemma cursor_update_token (p : parser) before after tok f :
  cursor p before after -> cursor (update_token p tok f) before after.
Proof. intros H. exact H. Qed.

Lemma cursor_init_token (p : parser) before after ty tok p' :
  init_token p ty = Some (tok, p') ->
  cursor p before after -> cursor p' before after.
Proof.
  intros H (Hstr & Hpos & Hlen). apply init_token_count in H.
  destruct H as (_ & _ & _ & Hp & Hl & Hs & _).
  unfold cursor. rewrite Hp, Hl, Hs. auto.
Qed.

(** A digit loop consumes the digits under the cursor. *)
Lemma cursor_digits (p : parser) before ds after :
  cursor p before (ds ++ after) ->
  forallb is_digit ds = true -> no_digit_first after = true ->
  exists p',
    digits p = (match ds with [] => false | _ => true end, p')
    /\ cursor p' (before ++ ds) after.
Proof.
  intros (Hstr & Hpos & Hlen) Hds Hafter.
  eexists. split; [apply (digits_run ds p before after); assumption |].
  repeat split; cbn.
  - rewrite Hstr, app_assoc. reflexivity.
  - rewrite length_app. reflexivity.
  - rewrite Hlen, app_assoc. reflexivity.
Qed.


(* ===================================================================== *)
(** * Two inputs that agree up to an offset *)

(** ** One iteration of the loops *)

Lemma digits_loop_unfold (p : parser) (seen : bool) :
  digits_loop (remaining p) seen p
  = if at_eos p then (seen, p)
    else if is_digit (peek_char p) then
      digits_loop (remaining (get_char p)) true (get_char p)
    else (seen, p).
Proof.
  destruct (at_eos p) eqn:Heos.
  - apply remaining_zero_at_eos in Heos. rewrite Heos. reflexivity.
  - rewrite (remaining_get_char _ Heos). cbn [digits_loop]. rewrite Heos.
    reflexivity.
Qed.

Lemma parse_string_loop_unfold (p : parser) :
  parse_string_loop (remaining p) p
  = if at_eos p then (MU_JSON_ERR_NONE, p)
    else if Ascii.eqb (peek_char p) ch_backslash then
      if at_eos (get_char p) then (MU_JSON_ERR_INCOMPLETE, get_char p)
      else if is_simple_escape (peek_char (get_char p)) then
        parse_string_loop (remaining (get_char (get_char p)))
                          (get_char (get_char p))
      else if Ascii.eqb (peek_char (get_char p)) "u" then
        match hex_digits 4 (get_char (get_char p)) with
        | None => (MU_JSON_ERR_BAD_FORMAT, get_char (get_char p))
        | Some p2 => parse_string_loop (remaining p2) p2
        end
      else (MU_JSON_ERR_BAD_FORMAT, get_char p)
    else if high_bit (peek_char p) then (MU_JSON_ERR_NO_MULTIBYTE, p)
    else if code (peek_char p) <? 32 then (MU_JSON_ERR_BAD_FORMAT, p)
    else if Ascii.eqb (peek_char p) ch_quote then (MU_JSON_ERR_NONE, p)
    else parse_string_loop (remaining (get_char p)) (get_char p).
Proof.
  destruct (at_eos p) eqn:Heos.
  - apply remaining_zero_at_eos in Heos. rewrite Heos. reflexivity.
  - pose proof (remaining_get_char _ Heos) as Hr. rewrite Hr.
    cbn [parse_string_loop]. rewrite Heos.
    destruct (Ascii.eqb (peek_char p) ch_backslash).
    + destruct (at_eos (get_char p)) eqn:Heos1; [reflexivity |].
      pose proof (remaining_get_char _ Heos1) as Hr1.
      destruct (is_simple_escape _);
        [apply parse_string_loop_enough; lia |].
      destruct (Ascii.eqb _ "u"); [| reflexivity].
      destruct (hex_digits 4 _) as [p2|] eqn:Hhex; [| reflexivity].
      apply hex_digits_remaining in Hhex.
      apply parse_string_loop_enough; lia.
    + destruct (high_bit _); [reflexivity |].
      destruct (code _ <? 32); [reflexivity |].
      destruct (Ascii.eqb _ ch_quote); reflexivity.
Qed.

Lemma cut_kind_eq_dec (k1 k2 : cut_kind) : {k1 = k2} + {k1 <> k2}.
Proof. decide equality. Qed.

(** ** Bytes *)

Ltac ascii_cases c := destruct c as [[] [] [] [] [] [] [] []].

(** What the byte of the first input at the offset is not. *)
Lemma tail_head_plain (k : cut_kind) (ch : ascii) :
  tail_head k ch = true ->
  is_space ch = false /\ high_bit ch = false /\ (code ch <? 32) = false
  /\ forall x, In x (list_ascii_of_string ",:.eE+-{truefalsn")
               \/ x = ch_backslash ->
               Ascii.eqb ch x = false.
Proof.
  intros H.
  assert (Hb : is_space ch || high_bit ch || (code ch <? 32)
               || existsb (Ascii.eqb ch)
                    (ch_backslash
                     :: list_ascii_of_string ",:.eE+-{truefalsn") = false).
  { destruct k; ascii_cases ch; vm_compute in H; try discriminate H;
      reflexivity. }
  apply orb_false_elim in Hb. destruct Hb as [Hb Hx].
  apply orb_false_elim in Hb. destruct Hb as [Hb Hc].
  apply orb_false_elim in Hb. destruct Hb as [Hs Hh].
  repeat split; try assumption.
  intros x Hin.
  assert (Hin' : In x (ch_backslash
                       :: list_ascii_of_string ",:.eE+-{truefalsn"))
    by (destruct Hin as [Hin | ->]; [right; exact Hin | left; reflexivity]).
  destruct (Ascii.eqb ch x) eqn:Heq; [| reflexivity].
  assert (Hex : existsb (Ascii.eqb ch)
                  (ch_backslash
                   :: list_ascii_of_string ",:.eE+-{truefalsn") = true)
    by (apply existsb_exists; exists x; auto).
  congruence.
Qed.

(** What the byte of the first input at the offset tells of the case. *)
Lemma tail_head_kind (k : cut_kind) (ch : ascii) :
  tail_head k ch = true ->
  (is_digit ch = true -> k = in_exponent)
  /\ (is_hex ch = true -> k = in_exponent)
  /\ (is_number_prefix ch = true -> k = in_exponent)
  /\ (Ascii.eqb ch ch_quote = true -> k = in_string)
  /\ (is_simple_escape ch = true -> k = in_string)
  /\ (Ascii.eqb ch "[" = true -> k = at_element)
  /\ (is_closer ch = true -> k = in_container).
Proof.
  intros H.
  destruct k; ascii_cases ch; vm_compute in H; try discriminate H;
    repeat split; intros H'; vm_compute in H';
    try discriminate H'; reflexivity.
Qed.

Lemma marker_or_sign_plain (ch : ascii) :
  is_exponent_marker ch || is_sign ch = true ->
  is_digit ch = false /\ is_separator ch = false
  /\ Ascii.eqb ch "." = false.
Proof.
  intros H. ascii_cases ch; vm_compute in H; try discriminate H;
    repeat split.
Qed.

Lemma marker_not_sign (ch : ascii) :
  is_exponent_marker ch = true -> is_sign ch = false.
Proof.
  intros H. ascii_cases ch; vm_compute in H; try discriminate H;
    reflexivity.
Qed.

Lemma no_exponent_digit_plain (before ch : ascii) :
  no_exponent_digit before ch = true ->
  is_digit ch = false /\ (is_sign before = false -> is_sign ch = false).
Proof.
  unfold no_exponent_digit. intros H. apply andb_true_iff in H.
  destruct H as [Hd Hg]. apply negb_true_iff in Hd.
  split; [exact Hd |]. intros Hb. rewrite Hb, orb_false_r in Hg.
  apply negb_true_iff in Hg. exact Hg.
Qed.

Lemma high_bit_plain (ch : ascii) :
  high_bit ch = true ->
  is_digit ch = false /\ is_sign ch = false /\ is_space ch = false
  /\ is_exponent_marker ch = false /\ Ascii.eqb ch "." = false
  /\ Ascii.eqb ch "0" = false /\ Ascii.eqb ch ch_backslash = false.
Proof.
  intros H. unfold is_sign, is_exponent_marker.
  rewrite (high_bit_not_digit _ H), (high_bit_not_space _ H).
  rewrite !(high_bit_eqb ch) by (assumption || reflexivity).
  repeat split.
Qed.

Section Variation.

Variables (k : cut_kind) (c : Z) (s : list ascii) (len : Z)
          (s' : list ascii) (len' : Z).
Hypothesis Hv : varied k c s len s' len'.

(** ** The two states *)

Lemma before_not_eos (p : parser) : before_cut c s len p -> at_eos p = false.
Proof.
  intros (_ & Hl & Hp & _). apply at_eos_false.
  pose proof (varied_cut _ _ _ _ _ _ Hv). lia.
Qed.

(** Before the offset the two inputs show the same byte. *)
Lemma before_same (p : parser) :
  before_cut c s len p -> p_str_pos p < c ->
  at_eos (on_input s' len' p) = false /\ peek_char (on_input s' len' p)
      = peek_char p.
Proof.
  intros (Hs & Hl & Hp & _) Hlt. split.
  - apply at_eos_false. cbn.
    pose proof (varied_other _ _ _ _ _ _ Hv) as Ho.
    destruct k; cbn in Ho; lia.
  - unfold peek_char. cbn [p_str p_str_pos on_input]. rewrite Hs.
    apply (varied_same _ _ _ _ _ _ Hv). lia.
Qed.

(** At the offset the first input shows the byte of the case. *)
Lemma at_cut_head (p : parser) :
  before_cut c s len p -> p_str_pos p = c -> tail_head k (peek_char p) = true.
Proof.
  intros (Hs & _) Hc. unfold peek_char. rewrite Hs, Hc.
  apply (varied_head _ _ _ _ _ _ Hv).
Qed.

(** At the offset the second input ends, or shows a byte that is no
    digit. *)
Lemma at_cut_other (p : parser) :
  p_str_pos p = c ->
  at_eos (on_input s' len' p) = true
  \/ (at_eos (on_input s' len' p) = false
      /\ is_digit (peek_char (on_input s' len' p)) = false
      /\ (is_sign (byte_of s (c - 1)) = false ->
          is_sign (peek_char (on_input s' len' p)) = false)
      /\ (k <> in_exponent -> high_bit (peek_char (on_input s' len' p))
          = true)).
Proof.
  intros Hc. pose proof (varied_other _ _ _ _ _ _ Hv) as Ho.
  unfold peek_char, at_eos. cbn [p_str p_str_pos p_str_len on_input].
  rewrite Hc. fold (byte_of s' c).
  destruct k eqn:Hk; cbn in Ho.
  - left. apply Z.leb_le. lia.
  - destruct Ho as [-> | [Hlt Hx]]; [left; apply Z.leb_le; lia |].
    right. apply no_exponent_digit_plain in Hx.
    destruct Hx as (Hd & Hg).
    rewrite (varied_same _ _ _ _ _ _ Hv) in Hg.
    + split; [apply Z.leb_gt; lia |].
      split; [exact Hd |]. split; [exact Hg |].
      intros H. congruence.
    + pose proof (varied_marker _ _ _ _ _ _ Hv eq_refl) as Hm.
      destruct Hm as [[? _] | (? & _)]; lia.
  - destruct Ho as [Hlt Hx]. right.
    pose proof (high_bit_plain _ Hx) as (Hd & Hg & Hsp & _).
    split; [apply Z.leb_gt; lia |].
    split; [exact Hd |]. split; [intros _; exact Hg |].
    intros _. exact Hx.
  - destruct Ho as [Hlt Hx]. right.
    pose proof (high_bit_plain _ Hx) as (Hd & Hg & Hsp & _).
    split; [apply Z.leb_gt; lia |].
    split; [exact Hd |]. split; [intros _; exact Hg |].
    intros _. exact Hx.
Qed.

(** Outside the exponent case it shows no whitespace. *)
Lemma at_cut_other_space (p : parser) :
  p_str_pos p = c -> k <> in_exponent ->
  at_eos (on_input s' len' p) = true
      \/ is_space (peek_char (on_input s' len' p)) = false.
Proof.
  intros Hc Hk.
  destruct (at_cut_other p Hc) as [Heos | (_ & _ & _ & Hhigh)];
    [left; exact Heos | right].
  apply (high_bit_plain _ (Hhigh Hk)).
Qed.

Lemma before_get_char (p : parser) :
  before_cut c s len p -> p_str_pos p < c -> before_cut c s len (get_char p).
Proof.
  intros (Hs & Hl & Hp & Hc) Hlt. repeat split; cbn; try assumption; lia.
Qed.

Lemma before_init_token (p : parser) ty tok p1 :
  init_token p ty = Some (tok, p1) -> before_cut c s len p
      -> before_cut c s len p1.
Proof.
  intros H (Hs & Hl & Hp & Hc). apply init_token_count in H.
  destruct H as (_ & _ & Hcount & Hpos & Hlen & Hstr & _).
  unfold before_cut. rewrite Hpos, Hlen, Hstr, Hcount.
  repeat split; try assumption; lia.
Qed.

Lemma init_token_other (p : parser) ty tok p1 :
  init_token p ty = Some (tok, p1) ->
  init_token (on_input s' len' p) ty = Some (tok, on_input s' len' p1).
Proof.
  unfold init_token, alloc_token. cbn [p_max_tokens p_token_count on_input].
  destruct (p_max_tokens p <=? p_token_count p); [discriminate |].
  intros [= <- <-]. reflexivity.
Qed.

(** In the exponent case the byte before the offset is the marker or a
    sign. *)
Lemma before_marker :
  k = in_exponent ->
  1 <= c
  /\ is_digit (byte_of s (c - 1)) = false
  /\ is_separator (byte_of s (c - 1)) = false
  /\ Ascii.eqb (byte_of s (c - 1)) "." = false.
Proof.
  intros Hk. destruct (varied_marker _ _ _ _ _ _ Hv Hk)
      as [[Hc Hm] | (Hc & _ & Hg)].
  - split; [exact Hc |]. apply marker_or_sign_plain. rewrite Hm. reflexivity.
  - split; [lia |]. apply marker_or_sign_plain. rewrite Hg.
    apply orb_true_r.
Qed.

(** The byte that was read last. *)
Lemma peek_before_get_char (p : parser) :
  0 <= p_str_pos p ->
  byte_of (p_str (get_char p)) (p_str_pos (get_char p) - 1) = peek_char p.
Proof.
  intros Hp. cbn. unfold peek_char, byte_of.
  replace (p_str_pos p + 1 - 1) with (p_str_pos p) by lia. reflexivity.
Qed.

(** In the exponent case no digit is read up to the offset. *)
Lemma digit_before_cut (p : parser) :
  before_cut c s len p -> k = in_exponent -> p_str_pos p < c ->
  is_digit (peek_char p) = true -> p_str_pos p + 1 < c.
Proof.
  intros (Hs & _ & Hp & _) Hk Hlt Hd.
  destruct (before_marker Hk) as (_ & Hnd & _).
  destruct (Z.eq_dec (p_str_pos p + 1) c) as [Heq |]; [| lia].
  exfalso. unfold peek_char in Hd. rewrite Hs in Hd.
  replace (c - 1) with (p_str_pos p) in Hnd by lia.
  unfold byte_of in Hnd. congruence.
Qed.

(** ** Whitespace *)

Lemma skip_whitespace_vary_n (n : nat) : forall p,
  before_cut c s len p -> c - p_str_pos p <= Z.of_nat n ->
  (k = in_exponent -> p_str_pos p < c) ->
  skip_whitespace (on_input s' len' p) = on_input s' len' (skip_whitespace p)
  /\ before_cut c s len (skip_whitespace p)
  /\ (element_start p -> element_start (skip_whitespace p))
  /\ (k = in_exponent -> p_str_pos (skip_whitespace p) < c).
Proof.
  induction n as [|n IH]; intros p Hb Hn Hk.
  - (* at the offset *)
    assert (Hc : p_str_pos p = c) by (destruct Hb as (_ & _ & ? & _); lia).
    pose proof (tail_head_plain _ _ (at_cut_head p Hb Hc)) as (Hsp & _).
    rewrite (skip_whitespace_stop p) by auto.
    split; [| auto].
    apply skip_whitespace_stop. apply (at_cut_other_space p Hc).
    intros Hke. specialize (Hk Hke). lia.
  - destruct (Z.eq_dec (p_str_pos p) c) as [Hc | Hne].
    { apply (IH p Hb); [lia | exact Hk]. }
    assert (Hlt : p_str_pos p < c) by (destruct Hb as (_ & _ & ? & _); lia).
    destruct (before_same p Hb Hlt) as [Heos' Hpeek'].
    pose proof (before_not_eos p Hb) as Heos.
    destruct (is_space (peek_char p)) eqn:Hsp.
    + rewrite (skip_whitespace_step p Heos Hsp).
      rewrite (skip_whitespace_step (on_input s' len' p) Heos') by congruence.
      destruct (IH (get_char p) (before_get_char p Hb Hlt))
        as (H1 & H2 & H3 & H4).
      { cbn. lia. }
      { intros Hke. destruct (before_marker Hke) as (_ & _ & Hsep & _).
        destruct (Z.eq_dec (p_str_pos p + 1) c) as [Heq |]; [| cbn; lia].
        exfalso. destruct Hb as (Hs & _).
        unfold peek_char in Hsp. rewrite Hs in Hsp.
        replace (c - 1) with (p_str_pos p) in Hsep by lia.
        unfold byte_of, is_separator in Hsep. rewrite Hsp in Hsep.
        discriminate. }
      split; [exact H1 |]. split; [exact H2 |]. split; [| exact H4].
      intros _. apply H3. right.
      rewrite peek_before_get_char by (destruct Hb as (_ & _ & ? & _); lia).
      unfold is_separator. rewrite Hsp. reflexivity.
    + rewrite (skip_whitespace_stop p) by auto.
      split; [| auto].
      apply skip_whitespace_stop. right. congruence.
Qed.

Lemma skip_whitespace_vary (p : parser) :
  before_cut c s len p -> (k = in_exponent -> p_str_pos p < c) ->
  skip_whitespace (on_input s' len' p) = on_input s' len' (skip_whitespace p)
  /\ before_cut c s len (skip_whitespace p)
  /\ (element_start p -> element_start (skip_whitespace p))
  /\ (k = in_exponent -> p_str_pos (skip_whitespace p) < c).
Proof.
  intros Hb Hk. apply (skip_whitespace_vary_n (Z.to_nat (c - p_str_pos p))).
  - exact Hb.
  - lia.
  - exact Hk.
Qed.

(** At the offset whitespace is at its end. *)
Lemma skip_whitespace_at_cut (p : parser) :
  before_cut c s len p -> p_str_pos p = c -> skip_whitespace p = p.
Proof.
  intros Hb Hc. apply skip_whitespace_stop. right.
  apply (tail_head_plain _ _ (at_cut_head p Hb Hc)).
Qed.

(** In the exponent case no element starts at the offset. *)
Lemma element_start_before (p : parser) :
  before_cut c s len p -> element_start p -> k = in_exponent -> p_str_pos p < c.
Proof.
  intros (Hs & _ & Hp & _) Hstart Hk.
  destruct (before_marker Hk) as (Hc1 & _ & Hsep & _).
  destruct (Z.eq_dec (p_str_pos p) c) as [Hc | Hne]; [| lia].
  exfalso. destruct Hstart as [H0 | Hstart]; [lia |].
  rewrite Hs, Hc in Hstart. congruence.
Qed.

(** ** Digits *)

Lemma digits_loop_vary_n (n : nat) : forall p seen seen' p',
  before_cut c s len p -> c - p_str_pos p <= Z.of_nat n ->
  (k = in_exponent -> p_str_pos p < c) ->
  digits_loop (remaining p) seen p = (seen', p') ->
  digits_loop (remaining (on_input s' len' p)) seen (on_input s' len' p)
      = (seen', on_input s' len' p')
  /\ before_cut c s len p' /\ (k = in_exponent -> p_str_pos p' < c).
Proof.
  induction n as [|n IH]; intros p seen seen' p' Hb Hn Hk.
  - assert (Hc : p_str_pos p = c) by (destruct Hb as (_ & _ & ? & _); lia).
    pose proof (at_cut_head p Hb Hc) as Hhead.
    assert (Hnd : is_digit (peek_char p) = false).
    { destruct (is_digit (peek_char p)) eqn:Hd; [| reflexivity].
      pose proof (tail_head_kind _ _ Hhead) as (Kd & _).
      specialize (Hk (Kd Hd)). lia. }
    rewrite digits_loop_unfold, (before_not_eos p Hb), Hnd.
    intros [= <- <-]. split; [| auto].
    rewrite digits_loop_unfold.
    destruct (at_cut_other p Hc) as [-> | (-> & -> & _)]; reflexivity.
  - destruct (Z.eq_dec (p_str_pos p) c) as [Hc | Hne].
    { apply (IH p seen seen' p' Hb); [lia | exact Hk]. }
    assert (Hlt : p_str_pos p < c) by (destruct Hb as (_ & _ & ? & _); lia).
    destruct (before_same p Hb Hlt) as [Heos' Hpeek'].
    rewrite digits_loop_unfold, (before_not_eos p Hb).
    rewrite (digits_loop_unfold (on_input s' len' p)), Heos', Hpeek'.
    destruct (is_digit (peek_char p)) eqn:Hd.
    + apply (IH (get_char p) true seen' p' (before_get_char p Hb Hlt)).
      * cbn. lia.
      * intros Hke. cbn. pose proof (digit_before_cut p Hb Hke Hlt Hd). lia.
    + intros [= <- <-]. auto.
Qed.

Lemma digits_vary (p : parser) seen' p' :
  before_cut c s len p -> (k = in_exponent -> p_str_pos p < c) ->
  digits p = (seen', p') ->
  digits (on_input s' len' p) = (seen', on_input s' len' p')
  /\ before_cut c s len p' /\ (k = in_exponent -> p_str_pos p' < c).
Proof.
  intros Hb Hk. unfold digits.
  apply (digits_loop_vary_n (Z.to_nat (c - p_str_pos p))); [exact Hb | lia |
    exact Hk].
Qed.

(** At the offset the second input has no digit. *)
Lemma digits_other_at_cut (p : parser) :
  p_str_pos p = c -> digits (on_input s' len' p) = (false, on_input s' len' p).
Proof.
  intros Hc. unfold digits. rewrite digits_loop_unfold.
  destruct (at_cut_other p Hc) as [-> | (-> & -> & _)]; reflexivity.
Qed.

(** ** Strings *)

Lemma hex_digits_vary (n : nat) : forall p p',
  before_cut c s len p -> hex_digits n p = Some p' ->
  (p_str_pos p' <= c /\ before_cut c s len p'
   /\ hex_digits n (on_input s' len' p) = Some (on_input s' len' p'))
  \/ c < p_str_pos p'.
Proof.
  induction n as [|n IH]; intros p p' Hb; cbn [hex_digits].
  - intros [= <-]. left.
    split; [destruct Hb as (_ & _ & ? & _); lia |].
    split; [exact Hb | reflexivity].
  - rewrite (before_not_eos p Hb). cbn [orb].
    destruct (is_hex (peek_char p)) eqn:Hhex; cbn [negb]; [| discriminate].
    intros H.
    destruct (Z.eq_dec (p_str_pos p) c) as [Hc | Hne].
    { right. apply hex_digits_psteps, psteps_pos in H. cbn in H. lia. }
    assert (Hlt : p_str_pos p < c) by (destruct Hb as (_ & _ & ? & _); lia).
    destruct (before_same p Hb Hlt) as [-> ->]. rewrite Hhex. cbn [orb negb].
    apply (IH (get_char p) p' (before_get_char p Hb Hlt) H).
Qed.

(** Beyond the offset the first input holds closing brackets only, and a
    string does not end there. *)
Lemma parse_string_loop_in_tail (n : nat) : forall p p',
  p_str p = s -> p_str_len p = len -> c < p_str_pos p ->
  (remaining p <= n)%nat ->
  parse_string_loop (remaining p) p = (MU_JSON_ERR_NONE, p') ->
  at_eos p' = true.
Proof.
  induction n as [|n IH]; intros p p' Hs Hl Hp Hn.
  - rewrite parse_string_loop_unfold.
    assert (Heos : at_eos p = true) by (apply remaining_zero_at_eos; lia).
    rewrite Heos. intros [= <-]. exact Heos.
  - rewrite parse_string_loop_unfold.
    destruct (at_eos p) eqn:Heos; [intros [= <-]; exact Heos |].
    assert (Hcl : is_closer (peek_char p) = true).
    { unfold peek_char. rewrite Hs.
      apply (varied_closers _ _ _ _ _ _ Hv). apply at_eos_false in Heos. lia. }
    pose proof (closer_is_plain _ Hcl)
      as (_ & _ & _ & _ & Hhb & Hct & _ & Heqb).
    rewrite (Heqb ch_backslash), Hhb, Hct, (Heqb ch_quote) by auto.
    pose proof (remaining_get_char _ Heos).
    apply IH; cbn; try assumption; try lia.
Qed.

Lemma parse_string_loop_tail (p p' : parser) :
  p_str p = s -> p_str_len p = len -> c < p_str_pos p ->
  parse_string_loop (remaining p) p = (MU_JSON_ERR_NONE, p') ->
  at_eos p' = true.
Proof.
  intros Hs Hl Hp. apply (parse_string_loop_in_tail (remaining p)); auto.
Qed.

(** The loop of [parse_string], started before the offset and left at a
    double quote. *)
Lemma parse_string_loop_vary_n (n : nat) : forall p p',
  before_cut c s len p -> c - p_str_pos p <= Z.of_nat n ->
  parse_string_loop (remaining p) p = (MU_JSON_ERR_NONE, p') ->
  at_eos p' = false ->
  (p_str_pos p' < c /\ before_cut c s len p'
   /\ parse_string_loop (remaining (on_input s' len' p)) (on_input s' len' p)
      = (MU_JSON_ERR_NONE, on_input s' len' p'))
  \/ (k = in_string /\ p_str_pos p' = c
      /\ exists q, parse_string_loop (remaining (on_input s' len' p))
          (on_input s' len' p)
                   = (MU_JSON_ERR_NO_MULTIBYTE, q)).
Proof.
  induction n as [n IH] using lt_wf_ind. intros p p' Hb Hn.
  pose proof Hb as (Hs & Hl & Hp & Hcount).
  pose proof (before_not_eos p Hb) as Heos.
  destruct (Z.eq_dec (p_str_pos p) c) as [Hc | Hne].
  - (* at the offset *)
    pose proof (at_cut_head p Hb Hc) as Hhead.
    pose proof (tail_head_plain _ _ Hhead) as (_ & Hhb & Hct & Heqb).
    rewrite parse_string_loop_unfold, Heos, (Heqb ch_backslash), Hhb, Hct
      by auto.
    destruct (Ascii.eqb (peek_char p) ch_quote) eqn:Hq.
    + intros [= <-] _. right.
      pose proof (tail_head_kind _ _ Hhead) as (_ & _ & _ & Kq & _).
      assert (Hk : k = in_string) by (apply Kq; exact Hq).
      split; [exact Hk |]. split; [exact Hc |].
      destruct (at_cut_other p Hc) as [Heos' | (Heos' & _ & _ & Hhigh)].
      * exfalso. pose proof (varied_other _ _ _ _ _ _ Hv) as Ho.
        rewrite Hk in Ho. cbn in Ho. apply at_eos_true in Heos'.
        cbn in Heos'. lia.
      * specialize (Hhigh ltac:(congruence)).
        exists (on_input s' len' p). rewrite parse_string_loop_unfold, Heos'.
        pose proof (high_bit_plain _ Hhigh) as (_ & _ & _ & _ & _ & _ & ->).
        rewrite Hhigh. reflexivity.
    + intros H Heos'. exfalso.
      apply parse_string_loop_tail in H; cbn; try assumption; [| lia].
      congruence.
  - assert (Hlt : p_str_pos p < c) by lia.
    destruct (before_same p Hb Hlt) as [Heoso Hpeeko].
    pose proof (before_get_char p Hb Hlt) as Hb1.
    rewrite parse_string_loop_unfold, Heos.
    rewrite (parse_string_loop_unfold (on_input s' len' p)), Heoso, Hpeeko.
    assert (Hstep : forall q, before_cut c s len q
        -> p_str_pos p < p_str_pos q ->
              parse_string_loop (remaining q) q = (MU_JSON_ERR_NONE, p') ->
              at_eos p' = false ->
              (p_str_pos p' < c /\ before_cut c s len p'
               /\ parse_string_loop (remaining (on_input s' len' q))
                   (on_input s' len' q)
                  = (MU_JSON_ERR_NONE, on_input s' len' p'))
              \/ (k = in_string /\ p_str_pos p' = c
                  /\ exists q', parse_string_loop (remaining
                      (on_input s' len' q))
                                  (on_input s' len' q)
                                = (MU_JSON_ERR_NO_MULTIBYTE, q'))).
    { intros q Hbq Hlq. apply (IH (Z.to_nat
        (c - p_str_pos q))); [| exact Hbq |];
        lia. }
    destruct (Ascii.eqb (peek_char p) ch_backslash).
    + rewrite (before_not_eos _ Hb1).
      destruct (Z.eq_dec (p_str_pos (get_char p)) c) as [Hc1 | Hne1].
      { (* the escaped byte is at the offset *)
        pose proof (at_cut_head _ Hb1 Hc1) as Hhead.
        pose proof (tail_head_plain _ _ Hhead) as (_ & _ & _ & Heqb).
        destruct (is_simple_escape (peek_char (get_char p))).
        - intros H Heos'. exfalso.
          apply parse_string_loop_tail in H; cbn; try assumption;
            [congruence |].
          cbn in Hc1. lia.
        - rewrite (Heqb "u"%char) by (left; cbn; tauto). discriminate. }
      assert (Hlt1 : p_str_pos (get_char p) < c)
        by (destruct Hb1 as (_ & _ & ? & _); lia).
      destruct (before_same _ Hb1 Hlt1) as [Heoso1 Hpeeko1].
      change (get_char (on_input s' len' p))
          with (on_input s' len' (get_char p)).
      rewrite Heoso1, Hpeeko1.
      pose proof (before_get_char _ Hb1 Hlt1) as Hb2.
      destruct (is_simple_escape (peek_char (get_char p))).
      * intros H Heos'. apply (Hstep _ Hb2); [cbn; lia | exact H | exact Heos'].
      * destruct (Ascii.eqb (peek_char (get_char p)) "u"); [| discriminate].
        destruct (hex_digits 4 (get_char (get_char p))) as [p2|] eqn:Hhex;
          [| discriminate].
        pose proof (hex_digits_psteps _ _ _ Hhex) as Hsteps.
        pose proof (psteps_pos _ _ Hsteps) as Hpos2. cbn in Hpos2.
        pose proof (psteps_pframe _ _ Hsteps) as Hfr.
        destruct (hex_digits_vary _ _ _ Hb2 Hhex)
          as [(Hle & Hb2' & Hhexo) | Hgt].
        -- change (get_char (on_input s' len' (get_char p)))
             with (on_input s' len' (get_char (get_char p))).
           rewrite Hhexo. intros H Heos'.
           apply (Hstep _ Hb2'); [lia | exact H | exact Heos'].
        -- intros H Heos'. exfalso.
           apply parse_string_loop_tail in H; [congruence | | | exact Hgt].
           ++ rewrite (frame_str _ _ Hfr). exact Hs.
           ++ rewrite (frame_len _ _ Hfr). exact Hl.
    + destruct (high_bit (peek_char p)); [discriminate |].
      destruct (code (peek_char p) <? 32); [discriminate |].
      destruct (Ascii.eqb (peek_char p) ch_quote).
      * intros [= <-] _. left. auto.
      * intros H Heos'. apply (Hstep _ Hb1); [cbn; lia | exact H | exact Heos'].
Qed.


(** A string that starts at the offset does not end. *)
Lemma parse_string_at_cut (p : parser) :
  before_cut c s len p -> p_str_pos p = c
      -> fst (parse_string p) <> MU_JSON_ERR_NONE.
Proof.
  intros Hb Hc. pose proof Hb as (Hs & Hl & Hp & _).
  unfold parse_string. rewrite (before_not_eos p Hb). cbn [orb].
  destruct (Ascii.eqb (peek_char p) ch_quote); cbn [negb]; [| discriminate].
  destruct (init_token p MU_JSON_TOKEN_TYPE_STRING) as [[tok p1]|] eqn:Hinit;
    [| discriminate].
  pose proof (init_token_count _ _ _ _ Hinit)
    as (_ & _ & _ & Hpos1 & Hlen1 & Hstr1 & _).
  destruct (parse_string_loop _ _) as [err p3] eqn:Hloop.
  destruct (is_none err) eqn:Hnone; cbn [negb];
    [| cbn [fst]; apply is_none_false; exact Hnone].
  apply is_none_true in Hnone. subst err.
  apply parse_string_loop_tail in Hloop; cbn; try congruence; [| lia].
  rewrite Hloop. discriminate.
Qed.

Lemma parse_string_vary (p p' : parser) :
  before_cut c s len p -> parse_string p = (MU_JSON_ERR_NONE, p') ->
  (p_str_pos p' <= c /\ before_cut c s len p'
   /\ parse_string (on_input s' len' p)
       = (MU_JSON_ERR_NONE, on_input s' len' p'))
  \/ (k = in_string /\ c < p_str_pos p'
      /\ exists q, parse_string (on_input s' len' p)
          = (MU_JSON_ERR_NO_MULTIBYTE, q)).
Proof.
  intros Hb H. pose proof Hb as (Hs & Hl & Hp & Hcount).
  destruct (Z.eq_dec (p_str_pos p) c) as [Hc | Hne].
  { pose proof (parse_string_at_cut p Hb Hc) as Hcut. rewrite H in Hcut.
    contradiction. }
  assert (Hlt : p_str_pos p < c) by lia.
  apply parse_string_success in H.
  destruct H as (tok & p1 & p3 & _ & Hq & Hinit & Hloop & Heos3 & Hq3 & ->).
  destruct (before_same p Hb Hlt) as [Heoso Hpeeko].
  pose proof (before_init_token _ _ _ _ Hinit Hb) as Hb1.
  pose proof (init_token_count _ _ _ _ Hinit) as (_ & _ & _ & Hpos1 & _).
  assert (Hb2 : before_cut c s len (get_char p1))
    by (apply before_get_char; [exact Hb1 | lia]).
  unfold parse_string. rewrite Heoso, Hpeeko, Hq.
  change (Ascii.eqb ch_quote ch_quote) with true. cbn [orb negb].
  rewrite (init_token_other _ _ _ _ Hinit).
  change (get_char (on_input s' len' p1)) with (on_input s' len' (get_char p1)).
  destruct (parse_string_loop_vary_n (Z.to_nat (c - p_str_pos (get_char p1)))
              (get_char p1) p3 Hb2 ltac:(lia) Hloop Heos3)
    as [(Hlt3 & Hb3 & Hloopo) | (Hk & Hc3 & q & Hloopo)].
  - left. rewrite Hloopo. cbn [is_none negb].
    destruct (before_same p3 Hb3 Hlt3) as [-> ->]. rewrite Hq3.
    change (Ascii.eqb ch_quote ch_quote) with true. cbn [negb].
    split; [cbn; lia |].
    split; [| reflexivity].
    destruct Hb3 as (? & ? & ? & ?). repeat split; cbn; try assumption; lia.
  - right. rewrite Hloopo. cbn [is_none negb].
    split; [exact Hk |]. split; [cbn; lia | eauto].
Qed.

(** ** Literals *)

Lemma match_literal_vary (literal : list ascii) : forall p p',
  (forall x, In x literal -> In x (list_ascii_of_string "truefalsn")) ->
  before_cut c s len p -> match_literal literal p = (MU_JSON_ERR_NONE, p') ->
  before_cut c s len p' /\ match_literal literal (on_input s' len' p)
      = (MU_JSON_ERR_NONE, on_input s' len' p').
Proof.
  induction literal as [|x rest IH]; intros p p' Hlit Hb;
    cbn [match_literal].
  - intros [= <-]. auto.
  - rewrite (before_not_eos p Hb).
    destruct (Ascii.eqb (peek_char p) x) eqn:Hpeek; cbn [negb];
      [| discriminate].
    destruct (Z.eq_dec (p_str_pos p) c) as [Hc | Hne].
    { exfalso.
      pose proof (tail_head_plain _ _ (at_cut_head p Hb Hc))
        as (_ & _ & _ & Heqb).
      rewrite (Heqb x) in Hpeek; [discriminate |].
      left. specialize (Hlit x ltac:(left; reflexivity)).
      cbn in Hlit |- *. tauto. }
    assert (Hlt : p_str_pos p < c)
      by (destruct Hb as (_ & _ & ? & _); lia).
    destruct (before_same p Hb Hlt) as [-> ->]. rewrite Hpeek. cbn [negb].
    apply IH; [| apply before_get_char; assumption].
    intros y Hy. apply Hlit. right. exact Hy.
Qed.

Lemma parse_literal_vary (p p' : parser) literal ty :
  (forall x, In x literal -> In x (list_ascii_of_string "truefalsn")) ->
  before_cut c s len p -> p_str_pos p < c ->
  parse_literal p literal ty = (MU_JSON_ERR_NONE, p') ->
  p_str_pos p' <= c /\ before_cut c s len p'
  /\ parse_literal (on_input s' len' p) literal ty
      = (MU_JSON_ERR_NONE, on_input s' len' p').
Proof.
  intros Hlit Hb Hlt. unfold parse_literal.
  rewrite (before_not_eos p Hb).
  destruct (before_same p Hb Hlt) as [-> _].
  destruct (init_token p ty) as [[tok p1]|] eqn:Hinit; [| discriminate].
  rewrite (init_token_other _ _ _ _ Hinit).
  pose proof (before_init_token _ _ _ _ Hinit Hb) as Hb1.
  destruct (match_literal literal p1) as [err p2] eqn:Hmatch.
  destruct (is_none err) eqn:Hnone; cbn [negb];
    [| intros [= -> _]; discriminate].
  apply is_none_true in Hnone. subst err.
  destruct (match_literal_vary _ _ _ Hlit Hb1 Hmatch) as [Hb2 ->].
  cbn [is_none negb]. intros [= <-].
  destruct Hb2 as (? & ? & ? & ?).
  split; [cbn; lia |]. split; [| reflexivity].
  repeat split; cbn; try assumption; lia.
Qed.

(** ** Delimiters *)

(** No delimiter stands at the offset. *)
Lemma find_and_skip_at_cut (p : parser) (delimiter : ascii) :
  delimiter = ","%char \/ delimiter = ":"%char ->
  before_cut c s len p -> p_str_pos p = c ->
  fst (find_and_skip p delimiter) <> MU_JSON_ERR_NONE.
Proof.
  intros Hd Hb Hc. unfold find_and_skip.
  rewrite (skip_whitespace_at_cut p Hb Hc), (before_not_eos p Hb).
  pose proof (tail_head_plain _ _ (at_cut_head p Hb Hc))
    as (_ & _ & _ & Heqb).
  rewrite (Heqb delimiter) by (left; destruct Hd as [-> | ->]; cbn; tauto).
  discriminate.
Qed.

Lemma find_and_skip_vary (p p' : parser) (delimiter : ascii) :
  delimiter = ","%char \/ delimiter = ":"%char ->
  before_cut c s len p -> find_and_skip p delimiter = (MU_JSON_ERR_NONE, p') ->
  before_cut c s len p' /\ element_start p'
  /\ (p_str_pos p' < c \/ c < len' ->
      find_and_skip (on_input s' len' p) delimiter
          = (MU_JSON_ERR_NONE, on_input s' len' p')).
Proof.
  intros Hd Hb H.
  assert (Hlt0 : p_str_pos p < c).
  { destruct (Z.eq_dec (p_str_pos p) c) as [Hc | Hne];
      [| destruct Hb as (_ & _ & ? & _); lia].
    exfalso. apply (find_and_skip_at_cut p delimiter Hd Hb Hc).
    rewrite H. reflexivity. }
  revert H. unfold find_and_skip.
  destruct (skip_whitespace_vary p Hb ltac:(intros _; exact Hlt0))
    as (Hs1 & Hb1 & _). rewrite Hs1.
  set (p1 := skip_whitespace p) in *.
  rewrite (before_not_eos _ Hb1).
  destruct (Ascii.eqb (peek_char p1) delimiter) eqn:Hpeek; cbn [negb];
    [| discriminate].
  destruct (Z.eq_dec (p_str_pos p1) c) as [Hc | Hne].
  { exfalso.
    pose proof (tail_head_plain _ _ (at_cut_head p1 Hb1 Hc))
      as (_ & _ & _ & Heqb).
    rewrite (Heqb delimiter) in Hpeek; [discriminate |].
    left. destruct Hd as [-> | ->]; cbn; tauto. }
  assert (Hlt : p_str_pos p1 < c)
    by (destruct Hb1 as (_ & _ & ? & _); lia).
  destruct (before_same p1 Hb1 Hlt) as [-> ->]. rewrite Hpeek. cbn [negb].
  pose proof (before_get_char p1 Hb1 Hlt) as Hbg.
  change (get_char (on_input s' len' p1)) with (on_input s' len' (get_char p1)).
  assert (Hsep : is_separator (peek_char p1) = true).
  { apply Ascii.eqb_eq in Hpeek. rewrite Hpeek. unfold is_separator.
    destruct Hd as [-> | ->]; reflexivity. }
  assert (Hkg : k = in_exponent -> p_str_pos (get_char p1) < c).
  { intros Hke. destruct (before_marker Hke) as (_ & _ & Hnsep & _).
    destruct (Z.eq_dec (p_str_pos p1 + 1) c) as [Heq |]; [| cbn; lia].
    exfalso. destruct Hb1 as (Hs & _).
    unfold peek_char in Hsep. rewrite Hs in Hsep.
    replace (c - 1) with (p_str_pos p1) in Hnsep by lia.
    unfold byte_of in Hnsep. congruence. }
  destruct (skip_whitespace_vary _ Hbg Hkg) as (Hs2 & Hb2 & Hstart & _).
  rewrite Hs2.
  set (p2 := skip_whitespace (get_char p1)) in *.
  rewrite (before_not_eos _ Hb2). intros [= <-].
  split; [exact Hb2 |]. split.
  - apply Hstart. right.
    rewrite peek_before_get_char by (destruct Hb1 as (_ & _ & ? & _); lia).
    exact Hsep.
  - intros Hcase.
    assert (Heos : at_eos (on_input s' len' p2) = false).
    { apply at_eos_false. cbn. destruct Hb2 as (_ & _ & ? & _).
      pose proof (varied_other _ _ _ _ _ _ Hv) as Ho.
      destruct Hcase; [destruct k; cbn in Ho; lia | lia]. }
    rewrite Heos. reflexivity.
Qed.

(** ** Numbers *)

(** Outside the exponent case the first input has no digit at the
    offset. *)
Lemma digits_at_cut (p : parser) :
  before_cut c s len p -> p_str_pos p = c -> k <> in_exponent -> digits p
      = (false, p).
Proof.
  intros Hb Hc Hk. unfold digits.
  rewrite digits_loop_unfold, (before_not_eos p Hb).
  pose proof (tail_head_kind _ _ (at_cut_head p Hb Hc)) as (Kd & _).
  destruct (is_digit (peek_char p)); [| reflexivity].
  exfalso. apply Hk, Kd. reflexivity.
Qed.

(** No number starts at the offset. *)
Lemma number_before_cut (p : parser) :
  before_cut c s len p -> element_start p -> is_number_prefix (peek_char p)
      = true ->
  p_str_pos p < c.
Proof.
  intros Hb Hstart Hprefix. pose proof Hb as (Hs & _ & Hp & _).
  destruct (Z.eq_dec (p_str_pos p) c) as [Hc | Hne]; [| lia].
  exfalso.
  pose proof (tail_head_kind _ _ (at_cut_head p Hb Hc)) as (_ & _ & Kn & _).
  destruct (before_marker (Kn Hprefix)) as (Hc1 & _ & Hsep & _).
  destruct Hstart as [H0 | Hstart]; [lia |].
  rewrite Hs, Hc in Hstart. congruence.
Qed.

(** The minus sign of a number does not stand right before the offset. *)
Lemma sign_before_cut (p : parser) (hi : bool) (p3 : parser) :
  before_cut c s len p -> element_start p -> p_str_pos p < c ->
  Ascii.eqb (peek_char p) "-" = true ->
  digits (if Ascii.eqb (peek_char (get_char p)) "0"
          then get_char (get_char p) else get_char p) = (hi, p3) ->
  xorb (Ascii.eqb (peek_char (get_char p)) "0") hi = true ->
  p_str_pos p + 1 < c.
Proof.
  intros Hb Hstart Hlt Hminus Hint Hxor. pose proof Hb as (Hs & _ & Hp & _).
  destruct (Z.eq_dec (p_str_pos p + 1) c) as [Hc | Hne]; [| lia].
  exfalso.
  pose proof (before_get_char p Hb Hlt) as Hb1.
  assert (Hc1 : p_str_pos (get_char p) = c) by (cbn; lia).
  pose proof (at_cut_head _ Hb1 Hc1) as Hhead.
  pose proof (tail_head_kind _ _ Hhead) as (Kd & _).
  destruct (cut_kind_eq_dec k in_exponent) as [Hk | Hk].
  - (* the sign stands after the marker, where no element starts *)
    apply Ascii.eqb_eq in Hminus.
    assert (Hbyte : byte_of s (c - 1) = "-"%char).
    { rewrite <- Hminus. unfold peek_char, byte_of. rewrite Hs.
      f_equal. f_equal. lia. }
    destruct (varied_marker _ _ _ _ _ _ Hv Hk) as [[_ Hm] | (Hc2 & Hm & _)].
    + rewrite Hbyte in Hm. discriminate.
    + destruct Hstart as [H0 | Hstart]; [lia |].
      rewrite Hs in Hstart.
      replace (p_str_pos p - 1) with (c - 2) in Hstart by lia.
      assert (Hplain : is_exponent_marker (byte_of s (c - 2))
                       || is_sign (byte_of s (c - 2)) = true)
        by (rewrite Hm; reflexivity).
      apply marker_or_sign_plain in Hplain. destruct Hplain as (_ & Hsep & _).
      congruence.
  - (* the byte at the offset is no digit *)
    assert (Hnd : is_digit (peek_char (get_char p)) = false).
    { destruct (is_digit (peek_char (get_char p))) eqn:Hd; [| reflexivity].
      exfalso. apply Hk, Kd. reflexivity. }
    assert (Hz : Ascii.eqb (peek_char (get_char p)) "0" = false).
    { destruct (Ascii.eqb_spec (peek_char (get_char p)) "0") as [Hz |];
        [| reflexivity].
      rewrite Hz in Hnd. discriminate. }
    rewrite Hz in Hint, Hxor.
    rewrite (digits_at_cut _ Hb1 Hc1 Hk) in Hint. injection Hint as <- _.
    discriminate.
Qed.

(** A byte of the second input at the offset is no point, no marker and
    no zero, outside the exponent case. *)
Lemma at_cut_other_plain (p : parser) :
  p_str_pos p = c -> k <> in_exponent ->
  negb (at_eos (on_input s' len' p))
      && Ascii.eqb (peek_char (on_input s' len' p)) "." = false
  /\ negb (at_eos (on_input s' len' p))
     && (Ascii.eqb (peek_char (on_input s' len' p)) "e"
         || Ascii.eqb (peek_char (on_input s' len' p)) "E") = false.
Proof.
  intros Hc Hk.
  destruct (at_cut_other p Hc) as [-> | (-> & _ & _ & Hhigh)];
    [split; reflexivity |].
  pose proof (high_bit_plain _ (Hhigh Hk)) as (_ & _ & _ & Hm & -> & _).
  unfold is_exponent_marker in Hm. rewrite Hm. split; reflexivity.
Qed.

Lemma at_cut_other_no_zero (p : parser) :
  p_str_pos p = c ->
  negb (at_eos (on_input s' len' p))
      && Ascii.eqb (peek_char (on_input s' len' p)) "0" = false.
Proof.
  intros Hc.
  destruct (at_cut_other p Hc) as [-> | (-> & Hd & _)]; [reflexivity |].
  destruct (Ascii.eqb_spec (peek_char (on_input s' len' p)) "0")
      as [Hz |]; [| reflexivity].
  rewrite Hz in Hd. discriminate.
Qed.

Lemma at_cut_other_no_sign (p : parser) :
  p_str_pos p = c -> is_exponent_marker (byte_of s (c - 1)) = true ->
  negb (at_eos (on_input s' len' p))
  && (Ascii.eqb (peek_char (on_input s' len' p)) "+"
      || Ascii.eqb (peek_char (on_input s' len' p)) "-")
  = false.
Proof.
  intros Hc Hm.
  destruct (at_cut_other p Hc) as [-> | (-> & _ & Hg & _)]; [reflexivity |].
  specialize (Hg (marker_not_sign _ Hm)).
  unfold is_sign in Hg. rewrite Hg. reflexivity.
Qed.

(** The exponent of a number whose marker has been read. *)
Lemma exponent_vary (p8 p10 : parser) tok :
  before_cut c s len p8 -> is_exponent_marker (byte_of s (p_str_pos p8 - 1))
      = true ->
  digits (if negb (at_eos p8)
             && (Ascii.eqb (peek_char p8) "+" || Ascii.eqb (peek_char p8) "-")
          then get_char p8 else p8) = (true, p10) ->
  (p_str_pos p10 <= c /\ before_cut c s len p10
   /\ (let p9 :=
         if negb (at_eos (on_input s' len' p8))
            && (Ascii.eqb (peek_char (on_input s' len' p8)) "+"
                || Ascii.eqb (peek_char (on_input s' len' p8)) "-")
         then get_char (on_input s' len' p8) else on_input s' len' p8 in
       let '(has_exponent_digits, q10) := digits p9 in
       if negb has_exponent_digits then (MU_JSON_ERR_BAD_FORMAT, q10)
       else (MU_JSON_ERR_NONE, finalize_token q10 tok))
      = (MU_JSON_ERR_NONE, on_input s' len' (finalize_token p10 tok)))
  \/ (k = in_exponent /\ c < p_str_pos p10
      /\ exists q,
           (let p9 :=
              if negb (at_eos (on_input s' len' p8))
                 && (Ascii.eqb (peek_char (on_input s' len' p8)) "+"
                     || Ascii.eqb (peek_char (on_input s' len' p8)) "-")
              then get_char (on_input s' len' p8) else on_input s' len' p8 in
            let '(has_exponent_digits, q10) := digits p9 in
            if negb has_exponent_digits then (MU_JSON_ERR_BAD_FORMAT, q10)
            else (MU_JSON_ERR_NONE, finalize_token q10 tok))
           = (MU_JSON_ERR_BAD_FORMAT, q)).
Proof.
  intros Hb8 Hm8 Hexp. pose proof Hb8 as (Hs & Hl & Hp & Hcount).
  rewrite (before_not_eos _ Hb8) in Hexp. cbn [negb andb] in Hexp.
  cbn zeta.
  (* the digits of the exponent start at the offset *)
  assert (Hcross : forall p9, before_cut c s len p9 -> p_str_pos p9 = c ->
            digits p9 = (true, p10) ->
            k = in_exponent /\ c < p_str_pos p10
            /\ (let '(has_exponent_digits, q10) := digits
                (on_input s' len' p9) in
                if negb has_exponent_digits then (MU_JSON_ERR_BAD_FORMAT, q10)
                else (MU_JSON_ERR_NONE, finalize_token q10 tok))
               = (MU_JSON_ERR_BAD_FORMAT, on_input s' len' p9)).
  { intros p9 Hb9 Hc9 Hd.
    destruct (cut_kind_eq_dec k in_exponent) as [Hk | Hk].
    - split; [exact Hk |].
      split; [apply digits_seen in Hd; lia |].
      rewrite (digits_other_at_cut p9 Hc9). reflexivity.
    - rewrite (digits_at_cut p9 Hb9 Hc9 Hk) in Hd. discriminate. }
  (* they start before it *)
  assert (Hsame : forall p9, before_cut c s len p9 -> p_str_pos p9 < c ->
            digits p9 = (true, p10) ->
            p_str_pos p10 <= c /\ before_cut c s len p10
            /\ (let '(has_exponent_digits, q10) := digits
                (on_input s' len' p9) in
                if negb has_exponent_digits then (MU_JSON_ERR_BAD_FORMAT, q10)
                else (MU_JSON_ERR_NONE, finalize_token q10 tok))
               = (MU_JSON_ERR_NONE, on_input s' len' (finalize_token p10 tok))).
  { intros p9 Hb9 Hlt9 Hd.
    destruct (digits_vary p9 true p10 Hb9 ltac:(intros; exact Hlt9) Hd)
      as (Hdo & Hb10 & _).
    rewrite Hdo. cbn [negb].
    split; [destruct Hb10 as (_ & _ & ? & _); lia |].
    split; [exact Hb10 | reflexivity]. }
  destruct (Z.eq_dec (p_str_pos p8) c) as [Hc8 | Hne8].
  - (* the marker is the last byte before the offset *)
    pose proof (tail_head_plain _ _ (at_cut_head _ Hb8 Hc8))
      as (_ & _ & _ & Heqb).
    rewrite (Heqb "+"%char), (Heqb "-"%char) in Hexp by (left; cbn; tauto).
    cbn [orb] in Hexp.
    rewrite Hc8 in Hm8. rewrite (at_cut_other_no_sign p8 Hc8 Hm8).
    destruct (Hcross p8 Hb8 Hc8 Hexp) as (Hk & Hgt & Ho).
    right. split; [exact Hk |]. split; [exact Hgt |]. eauto.
  - assert (Hlt8 : p_str_pos p8 < c) by lia.
    destruct (before_same p8 Hb8 Hlt8) as [Heoso Hpeeko].
    rewrite Heoso, Hpeeko. cbn [negb andb].
    destruct (Ascii.eqb (peek_char p8) "+" || Ascii.eqb (peek_char p8) "-").
    + pose proof (before_get_char p8 Hb8 Hlt8) as Hb9.
      change (get_char (on_input s' len' p8))
          with (on_input s' len' (get_char p8)).
      destruct (Z.eq_dec (p_str_pos (get_char p8)) c) as [Hc9 | Hne9].
      * destruct (Hcross _ Hb9 Hc9 Hexp) as (Hk & Hgt & Ho).
        right. split; [exact Hk |]. split; [exact Hgt |]. eauto.
      * left. apply Hsame; [exact Hb9 | | exact Hexp].
        destruct Hb9 as (_ & _ & ? & _). lia.
    + left. apply Hsame; assumption.
Qed.

Lemma parse_number_vary (p p' : parser) :
  before_cut c s len p -> element_start p -> parse_number p
      = (MU_JSON_ERR_NONE, p') ->
  (p_str_pos p' <= c /\ before_cut c s len p'
   /\ parse_number (on_input s' len' p)
       = (MU_JSON_ERR_NONE, on_input s' len' p'))
  \/ (k = in_exponent /\ c < p_str_pos p'
      /\ exists q, parse_number (on_input s' len' p)
          = (MU_JSON_ERR_BAD_FORMAT, q)).
Proof.
  intros Hb Hstart H. apply parse_number_success in H.
  destruct H as (tok & p0 & hi & p3 & p6 & _ & Hprefix & Hinit & H).
  cbn zeta in H.
  destruct H as (Heos1 & Hzz & Hint & Hxor & Hfrac & Hexp).
  pose proof (number_before_cut p Hb Hstart Hprefix) as Hlt.
  destruct (before_same p Hb Hlt) as [Heoso Hpeeko].
  pose proof (before_init_token _ _ _ _ Hinit Hb) as Hb0.
  pose proof (init_token_count _ _ _ _ Hinit)
    as (_ & _ & _ & Hpos0 & _ & Hstr0 & _).
  pose proof (init_token_at_eos _ _ _ _ Hinit) as [_ Hpeek0].
  assert (Hlt0 : p_str_pos p0 < c) by lia.
  assert (Hstart0 : element_start p0).
  { unfold element_start. rewrite Hpos0, Hstr0. exact Hstart. }
  destruct (before_same p0 Hb0 Hlt0) as [Heoso0 Hpeeko0].
  unfold parse_number. rewrite Heoso, Hpeeko, Hprefix. cbn [orb negb].
  rewrite (init_token_other _ _ _ _ Hinit), Hpeeko0.
  (* the sign *)
  set (p1 := if Ascii.eqb (peek_char p0) "-" then get_char p0 else p0) in *.
  assert (Hlt1 : p_str_pos p1 < c).
  { subst p1. destruct (Ascii.eqb
      (peek_char p0) "-") eqn:Hminus; [| exact Hlt0].
    pose proof (sign_before_cut p0 hi p3 Hb0 Hstart0 Hlt0 Hminus Hint Hxor).
    cbn. lia. }
  assert (Hb1 : before_cut c s len p1).
  { subst p1. destruct (Ascii.eqb (peek_char p0) "-"); [| exact Hb0].
    apply before_get_char; assumption. }
  replace (if Ascii.eqb (peek_char p0) "-"
      then get_char (on_input s' len' p0) else on_input s' len' p0)
    with (on_input s' len' p1)
    by (subst p1; destruct (Ascii.eqb (peek_char p0) "-"); reflexivity).
  destruct (before_same p1 Hb1 Hlt1) as [Heoso1 Hpeeko1].
  rewrite Heoso1, Hpeeko1. cbn [negb andb].
  (* the leading zero *)
  set (zero := Ascii.eqb (peek_char p1) "0") in *.
  set (p2 := if zero then get_char p1 else p1) in *.
  assert (Hb2 : before_cut c s len p2).
  { subst p2. destruct zero; [| exact Hb1].
    apply before_get_char; assumption. }
  replace (if zero then get_char (on_input s' len' p1)
      else on_input s' len' p1) with (on_input s' len' p2)
    by (subst p2; destruct zero; reflexivity).
  assert (Hk2 : k = in_exponent -> p_str_pos p2 < c).
  { intros Hk. subst p2. destruct zero eqn:Hz; [| exact Hlt1].
    assert (Hd : is_digit (peek_char p1) = true).
    { subst zero. apply Ascii.eqb_eq in Hz. rewrite Hz. reflexivity. }
    pose proof (digit_before_cut p1 Hb1 Hk Hlt1 Hd). cbn. lia. }
  assert (Hzzo : zero && negb (at_eos (on_input s' len' p2))
                 && Ascii.eqb (peek_char (on_input s' len' p2)) "0" = false).
  { destruct zero eqn:Hz; [| reflexivity]. cbn [andb].
    destruct (Z.eq_dec (p_str_pos p2) c) as [Hc2 | Hne2].
    - apply (at_cut_other_no_zero p2 Hc2).
    - assert (Hlt2 : p_str_pos p2 < c)
        by (destruct Hb2 as (_ & _ & ? & _); lia).
      destruct (before_same p2 Hb2 Hlt2) as [-> ->].
      rewrite (before_not_eos _ Hb2) in Hzz. exact Hzz. }
  rewrite Hzzo.
  (* the integer part *)
  destruct (digits_vary p2 hi p3 Hb2 Hk2 Hint) as (Hinto & Hb3 & Hk3).
  rewrite Hinto.
  assert (Hboth : zero && hi
      = false) by (destruct zero, hi; auto; discriminate).
  assert (Hneither : negb zero && negb hi = false)
    by (destruct zero, hi; auto; discriminate).
  rewrite Hboth, Hneither.
  (* the fraction *)
  assert (Hfraco :
    (if negb (at_eos (on_input s' len' p3))
        && Ascii.eqb (peek_char (on_input s' len' p3)) "."
     then
       let '(has_fractional_part, p5) :=
         digits (get_char
                   (update_token (on_input s' len' p3) tok
                      (fun t => set_token_type t MU_JSON_TOKEN_TYPE_NUMBER)))
       in
       if negb has_fractional_part then (MU_JSON_ERR_BAD_FORMAT, p5)
       else (MU_JSON_ERR_NONE, p5)
     else (MU_JSON_ERR_NONE, on_input s' len' p3))
    = (MU_JSON_ERR_NONE, on_input s' len' p6)
    /\ before_cut c s len p6 /\ (k = in_exponent -> p_str_pos p6 < c)).
  { destruct Hfrac as [[Hno ->] | (Heos3 & Hdot & Hfrac)].
    - split; [| auto].
      destruct (Z.eq_dec (p_str_pos p3) c) as [Hc3 | Hne3].
      + assert (Hk : k <> in_exponent) by (intros Hk; specialize (Hk3 Hk); lia).
        destruct (at_cut_other_plain p3 Hc3 Hk) as [-> _]. reflexivity.
      + assert (Hlt3 : p_str_pos p3 < c)
          by (destruct Hb3 as (_ & _ & ? & _); lia).
        destruct (before_same p3 Hb3 Hlt3) as [-> ->].
        rewrite (before_not_eos _ Hb3) in Hno. rewrite Hno. reflexivity.
    - assert (Hlt3 : p_str_pos p3 < c).
      { destruct (Z.eq_dec (p_str_pos p3) c) as [Hc3 | Hne3];
          [| destruct Hb3 as (_ & _ & ? & _); lia].
        exfalso.
        pose proof (tail_head_plain _ _ (at_cut_head _ Hb3 Hc3))
          as (_ & _ & _ & Heqb).
        specialize (Heqb "."%char ltac:(left; cbn; tauto)).
        rewrite Hdot in Heqb. discriminate. }
      destruct (before_same p3 Hb3 Hlt3) as [-> ->]. rewrite Hdot.
      cbn [negb andb]. change (Ascii.eqb "." ".") with true. cbn iota.
      set (p4 := update_token p3 tok
                   (fun t => set_token_type t MU_JSON_TOKEN_TYPE_NUMBER))
        in *.
      assert (Hb4 : before_cut c s len p4) by exact Hb3.
      assert (Hb5 : before_cut c s len (get_char p4))
        by (apply before_get_char; [exact Hb4 | exact Hlt3]).
      assert (Hk5 : k = in_exponent -> p_str_pos (get_char p4) < c).
      { intros Hk. destruct (before_marker Hk) as (_ & _ & _ & Hnodot).
        destruct (Z.eq_dec (p_str_pos p3 + 1) c) as [Heq |]; [| cbn; lia].
        exfalso. destruct Hb3 as (Hs3 & _).
        unfold peek_char in Hdot. rewrite Hs3 in Hdot.
        replace (c - 1) with (p_str_pos p3) in Hnodot by lia.
        unfold byte_of in Hnodot. rewrite Hdot in Hnodot. discriminate. }
      destruct (digits_vary _ _ _ Hb5 Hk5 Hfrac) as (Hfraco & Hb6 & Hk6).
      change (get_char (update_token (on_input s' len' p3) tok
                (fun t => set_token_type t MU_JSON_TOKEN_TYPE_NUMBER)))
        with (on_input s' len' (get_char p4)).
      rewrite Hfraco. auto. }
  destruct Hfraco as (Hfraco & Hb6 & Hk6). rewrite Hfraco.
  cbn [is_none negb].
  (* the exponent *)
  destruct Hexp as [[Hno ->] | (Heos6 & He & Hexp)].
  - left.
    split; [destruct Hb6 as (_ & _ & ? & _); cbn; lia |].
    split; [exact Hb6 |].
    destruct (Z.eq_dec (p_str_pos p6) c) as [Hc6 | Hne6].
    + assert (Hk : k <> in_exponent) by (intros Hk; specialize (Hk6 Hk); lia).
      destruct (at_cut_other_plain p6 Hc6 Hk) as [_ ->]. reflexivity.
    + assert (Hlt6 : p_str_pos p6 < c)
        by (destruct Hb6 as (_ & _ & ? & _); lia).
      destruct (before_same p6 Hb6 Hlt6) as [-> ->].
      rewrite (before_not_eos _ Hb6) in Hno. rewrite Hno. reflexivity.
  - cbn zeta in Hexp. destruct Hexp as (p10 & Hexp & ->).
    assert (Hlt6 : p_str_pos p6 < c).
    { destruct (Z.eq_dec (p_str_pos p6) c) as [Hc6 | Hne6];
        [| destruct Hb6 as (_ & _ & ? & _); lia].
      exfalso.
      pose proof (tail_head_plain _ _ (at_cut_head _ Hb6 Hc6))
        as (_ & _ & _ & Heqb).
      rewrite (Heqb "e"%char), (Heqb "E"%char) in He by (left; cbn; tauto).
      discriminate. }
    destruct (before_same p6 Hb6 Hlt6) as [-> ->]. rewrite He.
    cbn [negb andb].
    set (p8 := get_char (update_token p6 tok
                 (fun t => set_token_type t MU_JSON_TOKEN_TYPE_NUMBER))) in *.
    assert (Hb8 : before_cut c s len p8)
      by (apply (before_get_char
                   (update_token p6 tok
                      (fun t => set_token_type t MU_JSON_TOKEN_TYPE_NUMBER)));
          [exact Hb6 | exact Hlt6]).
    change (get_char (update_token (on_input s' len' p6) tok
              (fun t => set_token_type t MU_JSON_TOKEN_TYPE_NUMBER)))
      with (on_input s' len' p8).
    assert (Hm8 : is_exponent_marker (byte_of s (p_str_pos p8 - 1)) = true).
    { destruct Hb6 as (Hs6 & _ & Hp6 & _). rewrite <- Hs6.
      change (p_str p6) with (p_str p8). subst p8.
      rewrite (peek_before_get_char
                 (update_token p6 tok
                    (fun t => set_token_type t MU_JSON_TOKEN_TYPE_NUMBER)))
        by (cbn; lia).
      exact He. }
    destruct (exponent_vary p8 p10 tok Hb8 Hm8 Hexp)
      as [(Hle & Hb10 & Ho) | (Hk & Hgt & q & Ho)].
    + left. split; [exact Hle |].
      split; [exact Hb10 |]. exact Ho.
    + right. split; [exact Hk |]. split; [exact Hgt |]. exists q. exact Ho.
Qed.

(** ** Elements *)

Lemma cut_code_not_none : is_none (cut_code k) = false.
Proof. destruct k; reflexivity. Qed.

(** A later state of the parse that is not beyond the offset. *)
Lemma before_frame (p p' : parser) :
  before_cut c s len p -> psteps p p' -> p_str_pos p' <= c
      -> before_cut c s len p'.
Proof.
  intros (Hs & Hl & Hp & Hcount) Hsteps Hle.
  apply psteps_pframe in Hsteps.
  destruct Hsteps as [Hfs Hfl _ Hfp _ Hfc _].
  unfold before_cut. rewrite Hfs, Hfl.
  repeat split; try assumption; lia.
Qed.

(** Outside the case of the opening bracket no element starts at the
    offset. *)
Lemma parse_element_at_cut (fuel : nat) (p p' : parser) :
  before_cut c s len p -> element_start p -> p_str_pos (skip_whitespace p)
      = c ->
  k <> at_element ->
  parse_element fuel p <> Some (MU_JSON_ERR_NONE, p').
Proof.
  intros Hb0 Hstart0 Hc Hk. destruct fuel as [|fuel]; [discriminate |].
  cbn [parse_element].
  destruct (skip_whitespace_vary _ Hb0 (element_start_before p Hb0 Hstart0))
    as (_ & Hb & Hstart & _).
  specialize (Hstart Hstart0). clear Hb0 Hstart0.
  set (p1 := skip_whitespace p) in *.
  rewrite (before_not_eos p1 Hb).
  pose proof (at_cut_head p1 Hb Hc) as Hhead.
  pose proof (tail_head_plain _ _ Hhead) as (_ & Hhigh & _ & Heqb).
  pose proof (tail_head_kind _ _ Hhead) as (_ & _ & Kn & _ & _ & Ka & _).
  destruct (Ascii.eqb (peek_char p1) ch_quote).
  { intros [= H]. pose proof (parse_string_at_cut p1 Hb Hc) as Hcut.
    rewrite H in Hcut. contradiction. }
  destruct (is_digit (peek_char p1) || Ascii.eqb (peek_char p1) "-")
    eqn:Hnum.
  { exfalso.
    assert (Hprefix : is_number_prefix (peek_char p1) = true).
    { unfold is_number_prefix. unfold is_digit in Hnum.
      rewrite orb_comm. exact Hnum. }
    pose proof (number_before_cut p1 Hb Hstart Hprefix). lia. }
  rewrite (Heqb "t"%char), (Heqb "f"%char), (Heqb "n"%char),
    (Heqb "{"%char) by (left; cbn; tauto).
  destruct (Ascii.eqb (peek_char p1) "[") eqn:Hopen;
    [exfalso; apply Hk, Ka; reflexivity |].
  rewrite Hhigh. discriminate.
Qed.

(** A container that succeeds has consumed its brackets. *)
Lemma container_advances (fuel : nat) (p p' : parser) :
  0 <= p_token_count p ->
  parse_object fuel p = Some (MU_JSON_ERR_NONE, p')
  \/ parse_array fuel p = Some (MU_JSON_ERR_NONE, p') ->
  p_str_pos p + 1 < p_str_pos p'.
Proof.
  intros Hcount H. destruct fuel as [|fuel]; [destruct H; discriminate |].
  pose proof (parse_mutual_psteps fuel) as (_ & _ & Hol & _ & Hal).
  destruct H as [H | H]; cbn [parse_object parse_array] in H.
  - destruct (at_eos p || _); [discriminate |].
    destruct (init_token p _) as [[tok p1]|] eqn:Hinit; [| discriminate].
    pose proof (init_token_count _ _ _ _ Hinit)
      as (_ & _ & Hcount1 & Hpos1 & _).
    destruct (parse_object_loop _ _ _) as [[err p4]|] eqn:Hloop;
      [| discriminate].
    apply Hol in Hloop; [| cbn; lia].
    apply psteps_pos in Hloop. cbn in Hloop.
    destruct (is_none err) eqn:Hnone; cbn [negb] in H;
      [| injection H as -> _; discriminate].
    destruct (at_eos p4); [discriminate |].
    destruct (Ascii.eqb (peek_char p4) "}"); cbn [negb] in H;
      [| discriminate].
    injection H as <-. cbn. lia.
  - destruct (at_eos p || _); [discriminate |].
    destruct (init_token p _) as [[tok p1]|] eqn:Hinit; [| discriminate].
    pose proof (init_token_count _ _ _ _ Hinit)
      as (_ & _ & Hcount1 & Hpos1 & _).
    destruct (parse_array_loop _ _ _) as [[err p4]|] eqn:Hloop;
      [| discriminate].
    apply Hal in Hloop; [| cbn; lia].
    apply psteps_pos in Hloop. cbn in Hloop.
    destruct (is_none err) eqn:Hnone; cbn [negb] in H;
      [| injection H as -> _; discriminate].
    destruct (at_eos p4); [discriminate |].
    destruct (Ascii.eqb (peek_char p4) "]"); cbn [negb] in H;
      [| discriminate].
    injection H as <-. cbn. lia.
Qed.

(** The end of a container, after its loop. *)
Lemma container_close_vary (closer : ascii) (tok : nat) (p3 : parser)
    (long other : option (mu_json_err_t * parser)) :
  is_closer closer = true -> before_cut c s len p3 ->
  (forall e p4, long = Some (e, p4) -> psteps p3 p4) ->
  cut_outcome k c s' len' long other ->
  cut_outcome k c s' len'
    (match long with
     | None => None
     | Some (err, p4) =>
         if negb (is_none err) then Some (err, p4)
         else if at_eos p4 then Some (MU_JSON_ERR_INCOMPLETE, p4)
         else if negb (Ascii.eqb (peek_char p4) closer) then
           Some (MU_JSON_ERR_INTERNAL, p4)
         else
           let p5 := get_char p4 in
           let p6 := set_level p5 (p_level p5 - 1) in
           Some (MU_JSON_ERR_NONE, finalize_token p6 tok)
     end)
    (match other with
     | None => None
     | Some (err, p4) =>
         if negb (is_none err) then Some (err, p4)
         else if at_eos p4 then Some (MU_JSON_ERR_INCOMPLETE, p4)
         else if negb (Ascii.eqb (peek_char p4) closer) then
           Some (MU_JSON_ERR_INTERNAL, p4)
         else
           let p5 := get_char p4 in
           let p6 := set_level p5 (p_level p5 - 1) in
           Some (MU_JSON_ERR_NONE, finalize_token p6 tok)
     end).
Proof.
  intros Hcl Hb3 Hsteps Hout p' H.
  destruct long as [[err p4]|]; [| discriminate].
  destruct (is_none err) eqn:Hnone; cbn [negb] in H;
    [| injection H as -> _; discriminate].
  apply is_none_true in Hnone. subst err.
  specialize (Hsteps _ _ eq_refl).
  destruct (at_eos p4) eqn:Heos4; [discriminate |].
  destruct (Ascii.eqb (peek_char p4) closer) eqn:Hpeek4; cbn [negb] in H;
    [| discriminate].
  cbn zeta in H. injection H as <-.
  destruct (Hout p4 eq_refl) as [[Hle ->] | (Hgt & q & ->)].
  - pose proof (before_frame _ _ Hb3 Hsteps Hle) as Hb4.
    cbn [is_none negb].
    destruct (Z.eq_dec (p_str_pos p4) c) as [Hc4 | Hne4].
    + (* the closing bracket is the byte at the offset *)
      right. split; [cbn; lia |].
      pose proof (tail_head_kind _ _ (at_cut_head p4 Hb4 Hc4))
        as (_ & _ & _ & _ & _ & _ & Kc).
      apply Ascii.eqb_eq in Hpeek4. rewrite Hpeek4 in Kc.
      specialize (Kc Hcl).
      pose proof (varied_other _ _ _ _ _ _ Hv) as Ho.
      rewrite Kc in Ho. cbn in Ho.
      assert (Heos : at_eos (on_input s' len' p4) = true)
        by (apply at_eos_true; cbn; lia).
      rewrite Heos, Kc. eauto.
    + left. assert (Hlt4 : p_str_pos p4 < c) by lia.
      destruct (before_same p4 Hb4 Hlt4) as [-> ->]. rewrite Hpeek4.
      cbn [negb]. split; [cbn; lia | reflexivity].
  - right. rewrite cut_code_not_none. cbn [negb].
    split; [cbn; lia | eauto].
Qed.

(** A member of an object, from its key on, and the rest of the loop. *)
Lemma object_member_vary (fuel : nat) (p2 : parser) :
  (forall p, before_cut c s len p -> element_start p ->
     cut_outcome k c s' len' (parse_element fuel p)
       (parse_element fuel (on_input s' len' p))) ->
  (forall p, before_cut c s len p ->
     cut_outcome k c s' len' (parse_object_loop fuel false p)
       (parse_object_loop fuel false (on_input s' len' p))) ->
  before_cut c s len p2 ->
  cut_outcome k c s' len'
    (let '(err, p3) := parse_string p2 in
     if negb (is_none err) then Some (err, p3)
     else
       let '(err, p4) := find_and_skip p3 ":" in
       if negb (is_none err) then Some (err, p4)
       else
         match parse_element fuel p4 with
         | None => None
         | Some (err, p5) =>
             if negb (is_none err) then Some (err, p5)
             else parse_object_loop fuel false p5
         end)
    (let '(err, p3) := parse_string (on_input s' len' p2) in
     if negb (is_none err) then Some (err, p3)
     else
       let '(err, p4) := find_and_skip p3 ":" in
       if negb (is_none err) then Some (err, p4)
       else
         match parse_element fuel p4 with
         | None => None
         | Some (err, p5) =>
             if negb (is_none err) then Some (err, p5)
             else parse_object_loop fuel false p5
         end).
Proof.
  intros IHe IHol Hb2 p' H.
  pose proof (parse_mutual_psteps fuel) as (Pe & _ & Pol & _).
  destruct (parse_string p2) as [e3 p3] eqn:Hstr.
  destruct (is_none e3) eqn:Hn3; cbn [negb] in H;
    [| injection H as -> _; discriminate].
  apply is_none_true in Hn3. subst e3.
  destruct (find_and_skip p3 ":") as [e4 p4] eqn:Hfs.
  destruct (is_none e4) eqn:Hn4; cbn [negb] in H;
    [| injection H as -> _; discriminate].
  apply is_none_true in Hn4. subst e4.
  destruct (parse_element fuel p4) as [[e5 p5]|] eqn:He; [| discriminate].
  destruct (is_none e5) eqn:Hn5; cbn [negb] in H;
    [| injection H as -> _; discriminate].
  apply is_none_true in Hn5. subst e5.
  pose proof Hb2 as (_ & _ & _ & Hcount2).
  pose proof (parse_string_psteps _ _ _ Hstr) as S23.
  pose proof (find_and_skip_psteps _ _ _ _ Hfs) as S34.
  pose proof (psteps_count _ _ S23 Hcount2) as Hcount3.
  pose proof (psteps_count _ _ S34 Hcount3) as Hcount4.
  pose proof (Pe _ _ _ Hcount4 He) as S45.
  pose proof (psteps_count _ _ S45 Hcount4) as Hcount5.
  pose proof (Pol _ _ _ _ Hcount5 H) as S5.
  apply psteps_pos in S34, S45, S5.
  destruct (parse_string_vary p2 p3 Hb2 Hstr)
    as [(Hle3 & Hb3 & ->) | (Hk & Hgt & q & ->)];
    cbn [is_none negb];
    [| right; rewrite Hk; split; [lia | eauto]].
  destruct (find_and_skip_vary p3 p4 ":" ltac:(right; reflexivity) Hb3 Hfs)
    as (Hb4 & Hstart4 & Hsame).
  assert (Ho : find_and_skip (on_input s' len' p3) ":"
      = (MU_JSON_ERR_NONE, on_input s' len' p4)).
  { apply Hsame.
    destruct (Z.eq_dec (p_str_pos p4) c) as [Hc4 | Hne4];
      [| left; destruct Hb4 as (_ & _ & ? & _); lia].
    right.
    destruct (cut_kind_eq_dec k at_element) as [Hk | Hk].
    - pose proof (varied_other _ _ _ _ _ _ Hv) as Hother.
      rewrite Hk in Hother. apply Hother.
    - exfalso. apply (parse_element_at_cut fuel p4 p5 Hb4 Hstart4);
        [| exact Hk | exact He].
      rewrite (skip_whitespace_at_cut p4 Hb4 Hc4). exact Hc4. }
  rewrite Ho. cbn [is_none negb].
  destruct (IHe p4 Hb4 Hstart4 p5 He) as [[Hle5 ->] | (Hgt5 & q & ->)].
  - cbn [is_none negb]. apply IHol; [| exact H].
    apply (before_frame p4); [exact Hb4 | | exact Hle5].
    apply (Pe _ _ _ Hcount4 He).
  - right. rewrite cut_code_not_none. cbn [negb].
    split; [lia | eauto].
Qed.

(** An element of an array, and the rest of the loop. *)
Lemma array_member_vary (fuel : nat) (p2 : parser) :
  (forall p, before_cut c s len p -> element_start p ->
     cut_outcome k c s' len' (parse_element fuel p)
       (parse_element fuel (on_input s' len' p))) ->
  (forall p, before_cut c s len p ->
     cut_outcome k c s' len' (parse_array_loop fuel false p)
       (parse_array_loop fuel false (on_input s' len' p))) ->
  before_cut c s len p2 -> element_start p2 ->
  cut_outcome k c s' len'
    (match parse_element fuel p2 with
     | None => None
     | Some (err, p3) =>
         if negb (is_none err) then Some (err, p3)
         else parse_array_loop fuel false p3
     end)
    (match parse_element fuel (on_input s' len' p2) with
     | None => None
     | Some (err, p3) =>
         if negb (is_none err) then Some (err, p3)
         else parse_array_loop fuel false p3
     end).
Proof.
  intros IHe IHal Hb2 Hstart2 p' H.
  pose proof (parse_mutual_psteps fuel) as (Pe & _ & _ & _ & Pal).
  destruct (parse_element fuel p2) as [[e3 p3]|] eqn:He; [| discriminate].
  destruct (is_none e3) eqn:Hn3; cbn [negb] in H;
    [| injection H as -> _; discriminate].
  apply is_none_true in Hn3. subst e3.
  pose proof Hb2 as (_ & _ & _ & Hcount2).
  pose proof (Pe _ _ _ Hcount2 He) as S23.
  pose proof (psteps_count _ _ S23 Hcount2) as Hcount3.
  pose proof (Pal _ _ _ _ Hcount3 H) as S3.
  apply psteps_pos in S3.
  destruct (IHe p2 Hb2 Hstart2 p3 He) as [[Hle3 ->] | (Hgt3 & q & ->)].
  - cbn [is_none negb]. apply IHal; [| exact H].
    apply (before_frame p2); assumption.
  - right. rewrite cut_code_not_none. cbn [negb].
    split; [lia | eauto].
Qed.

(** In the case of the closing bracket the second input ends at the
    offset. *)
Lemma closer_at_cut (p : parser) :
  before_cut c s len p -> p_str_pos p = c -> is_closer (peek_char p) = true ->
  at_eos (on_input s' len' p) = true.
Proof.
  intros Hb Hc Hcl.
  pose proof (tail_head_kind _ _ (at_cut_head p Hb Hc))
    as (_ & _ & _ & _ & _ & _ & Kc).
  specialize (Kc Hcl).
  pose proof (varied_other _ _ _ _ _ _ Hv) as Ho.
  rewrite Kc in Ho. cbn in Ho.
  apply at_eos_true. cbn. lia.
Qed.

(** The head of a container. *)
Lemma container_open_vary (p : parser) ty tok p1 :
  before_cut c s len p -> p_str_pos p < c -> init_token p ty = Some (tok, p1) ->
  is_separator (peek_char p) = true ->
  before_cut c s len (get_char (set_level p1 (p_level p1 + 1)))
  /\ element_start (get_char (set_level p1 (p_level p1 + 1))).
Proof.
  intros Hb Hlt Hinit Hsep.
  pose proof (before_init_token _ _ _ _ Hinit Hb) as (Hs1 & Hl1 & Hp1 & Hc1).
  pose proof (init_token_count _ _ _ _ Hinit)
    as (_ & _ & _ & Hpos1 & _ & Hstr1 & _).
  split.
  - repeat split; cbn; try assumption; lia.
  - right. cbn. unfold byte_of.
    replace (p_str_pos p1 + 1 - 1) with (p_str_pos p) by lia.
    rewrite Hstr1. exact Hsep.
Qed.

(** At the offset a loop ends, or fails. *)
Lemma object_loop_at_cut (fuel : nat) first (p p' : parser) :
  before_cut c s len p -> p_str_pos p = c ->
  parse_object_loop fuel first p = Some (MU_JSON_ERR_NONE, p') ->
  k = in_container.
Proof.
  intros Hb Hc H. destruct fuel as [|fuel]; [discriminate |].
  cbn [parse_object_loop] in H.
  rewrite (skip_whitespace_at_cut p Hb Hc), (before_not_eos p Hb) in H.
  pose proof (tail_head_kind _ _ (at_cut_head p Hb Hc))
    as (_ & _ & _ & _ & _ & _ & Kc).
  destruct (Ascii.eqb (peek_char p) "}") eqn:Hclose.
  { apply Kc. apply Ascii.eqb_eq in Hclose. rewrite Hclose. reflexivity. }
  exfalso. destruct first; cbn [negb] in H.
  - cbn [is_none negb] in H.
    pose proof (parse_string_at_cut p Hb Hc) as Hcut.
    destruct (parse_string p) as [e p3]. cbn [fst] in Hcut.
    destruct (is_none e) eqn:Hn; cbn [negb] in H;
      [apply is_none_true in Hn; contradiction
      | injection H as -> _; discriminate].
  - pose proof (find_and_skip_at_cut p "," ltac:(left; reflexivity) Hb Hc)
      as Hcut.
    destruct (find_and_skip p ",") as [e p2]. cbn [fst] in Hcut.
    destruct (is_none e) eqn:Hn; cbn [negb] in H;
      [apply is_none_true in Hn; contradiction
      | injection H as -> _; discriminate].
Qed.

Lemma array_loop_at_cut (fuel : nat) first (p p' : parser) :
  before_cut c s len p -> p_str_pos p = c -> (first = true
      -> element_start p) ->
  parse_array_loop fuel first p = Some (MU_JSON_ERR_NONE, p') ->
  k = in_container \/ k = at_element.
Proof.
  intros Hb Hc Hstart H. destruct fuel as [|fuel]; [discriminate |].
  cbn [parse_array_loop] in H.
  rewrite (skip_whitespace_at_cut p Hb Hc), (before_not_eos p Hb) in H.
  pose proof (tail_head_kind _ _ (at_cut_head p Hb Hc))
    as (_ & _ & _ & _ & _ & _ & Kc).
  destruct (Ascii.eqb (peek_char p) "]") eqn:Hclose.
  { left. apply Kc. apply Ascii.eqb_eq in Hclose. rewrite Hclose.
    reflexivity. }
  destruct (cut_kind_eq_dec k at_element) as [Hk | Hk]; [right; exact Hk |].
  exfalso. destruct first; cbn [negb] in H.
  - cbn [is_none negb] in H.
    destruct (parse_element fuel p) as [[e p3]|] eqn:He; [| discriminate].
    destruct (is_none e) eqn:Hn; cbn [negb] in H;
      [| injection H as -> _; discriminate].
    apply is_none_true in Hn. subst e. revert He.
    apply parse_element_at_cut; auto.
    rewrite (skip_whitespace_at_cut p Hb Hc). exact Hc.
  - pose proof (find_and_skip_at_cut p "," ltac:(left; reflexivity) Hb Hc)
      as Hcut.
    destruct (find_and_skip p ",") as [e p2]. cbn [fst] in Hcut.
    destruct (is_none e) eqn:Hn; cbn [negb] in H;
      [apply is_none_true in Hn; contradiction
      | injection H as -> _; discriminate].
Qed.

Lemma parse_mutual_vary (fuel : nat) :
  (forall p, before_cut c s len p -> element_start p ->
     cut_outcome k c s' len' (parse_element fuel p)
       (parse_element fuel (on_input s' len' p)))
  /\ (forall p, before_cut c s len p -> p_str_pos p < c ->
        cut_outcome k c s' len' (parse_object fuel p)
          (parse_object fuel (on_input s' len' p)))
  /\ (forall first p, before_cut c s len p ->
        cut_outcome k c s' len' (parse_object_loop fuel first p)
          (parse_object_loop fuel first (on_input s' len' p)))
  /\ (forall p, before_cut c s len p -> p_str_pos p < c ->
        cut_outcome k c s' len' (parse_array fuel p)
          (parse_array fuel (on_input s' len' p)))
  /\ (forall first p, before_cut c s len p -> (first = true
      -> element_start p) ->
        cut_outcome k c s' len' (parse_array_loop fuel first p)
          (parse_array_loop fuel first (on_input s' len' p))).
Proof.
  induction fuel as [|fuel (IHe & IHo & IHol & IHa & IHal)];
    [repeat split; intros; intros ? ?; discriminate |].
  pose proof (parse_mutual_psteps fuel) as (Pe & Po & Pol & Pa & Pal).
  repeat split.
  - (* parse_element *)
    intros p Hb Hstart.
    destruct (skip_whitespace_vary p Hb (element_start_before p Hb Hstart))
      as (Hs1 & Hb1 & Hstart1 & _).
    specialize (Hstart1 Hstart).
    destruct (Z.eq_dec (p_str_pos (skip_whitespace p)) c) as [Hc1 | Hne1].
    + (* the element starts at the offset *)
      intros p' H.
      destruct (cut_kind_eq_dec k at_element) as [Hk | Hk];
        [| exfalso; revert H; apply parse_element_at_cut; assumption].
      right. split.
      * cbn [parse_element] in H.
        set (p1 := skip_whitespace p) in *.
        rewrite (before_not_eos _ Hb1) in H.
        pose proof (at_cut_head p1 Hb1 Hc1) as Hhead.
        pose proof (tail_head_plain _ _ Hhead) as (_ & _ & _ & Heqb).
        pose proof (tail_head_kind _ _ Hhead) as (Kd & _ & _ & Kq & _).
        destruct (Ascii.eqb (peek_char p1) ch_quote);
          [specialize (Kq eq_refl); congruence |].
        destruct (is_digit (peek_char p1));
          [specialize (Kd eq_refl); congruence |].
        rewrite (Heqb "-"%char), (Heqb "t"%char), (Heqb "f"%char),
          (Heqb "n"%char), (Heqb "{"%char) in H by (left; cbn; tauto).
        cbn [orb] in H. rewrite Hk in Hhead. cbn [tail_head] in Hhead.
        rewrite Hhead in H.
        assert (Hadv : p_str_pos p1 + 1 < p_str_pos p').
        { apply (container_advances fuel);
            [destruct Hb1 as (_ & _ & _ & ?); assumption | right; exact H]. }
        lia.
      * exists (skip_whitespace
          (on_input s' len' p)). rewrite Hk. cbn [cut_code].
        pose proof (varied_other _ _ _ _ _ _ Hv) as Ho.
        rewrite Hk in Ho. destruct Ho as [Hlt Hhigh].
        apply parse_element_high_bit; rewrite Hs1.
        -- apply at_eos_false. cbn. lia.
        -- unfold peek_char. cbn [on_input p_str p_str_pos].
           rewrite Hc1. exact Hhigh.
    + cbn [parse_element]. rewrite Hs1.
      set (p1 := skip_whitespace p) in *.
      assert (Hlt1 : p_str_pos p1 < c)
        by (destruct Hb1 as (_ & _ & ? & _); lia).
      rewrite (before_not_eos _ Hb1).
      destruct (before_same p1 Hb1 Hlt1) as [-> ->].
      destruct (Ascii.eqb (peek_char p1) ch_quote).
      { intros p' [= H].
        destruct (parse_string_vary p1 p' Hb1 H)
          as [(Hle & _ & ->) | (Hk & Hgt & q & ->)];
          [left; auto | right; rewrite Hk; split; eauto]. }
      destruct (is_digit (peek_char p1) || Ascii.eqb (peek_char p1) "-").
      { intros p' [= H].
        destruct (parse_number_vary p1 p' Hb1 Hstart1 H)
          as [(Hle & _ & ->) | (Hk & Hgt & q & ->)];
          [left; auto | right; rewrite Hk; split; eauto]. }
      destruct (Ascii.eqb (peek_char p1) "t").
      { intros p' [= H].
        destruct (parse_literal_vary p1 p' (list_ascii_of_string "true")
                    MU_JSON_TOKEN_TYPE_TRUE
                    ltac:(intros x Hx; cbn in Hx |- *; tauto) Hb1 Hlt1 H)
          as (Hle & _ & ->).
        left; auto. }
      destruct (Ascii.eqb (peek_char p1) "f").
      { intros p' [= H].
        destruct (parse_literal_vary p1 p' (list_ascii_of_string "false")
                    MU_JSON_TOKEN_TYPE_FALSE
                    ltac:(intros x Hx; cbn in Hx |- *; tauto) Hb1 Hlt1 H)
          as (Hle & _ & ->).
        left; auto. }
      destruct (Ascii.eqb (peek_char p1) "n").
      { intros p' [= H].
        destruct (parse_literal_vary p1 p' (list_ascii_of_string "null")
                    MU_JSON_TOKEN_TYPE_NULL
                    ltac:(intros x Hx; cbn in Hx |- *; tauto) Hb1 Hlt1 H)
          as (Hle & _ & ->).
        left; auto. }
      destruct (Ascii.eqb (peek_char p1) "{"); [apply IHo; assumption |].
      destruct (Ascii.eqb (peek_char p1) "["); [apply IHa; assumption |].
      destruct (high_bit (peek_char p1)); intros p' H; discriminate H.
  - (* parse_object *)
    intros p Hb Hlt. cbn [parse_object].
    rewrite (before_not_eos _ Hb).
    destruct (before_same p Hb Hlt) as [-> ->].
    destruct (Ascii.eqb (peek_char p) "{") eqn:Hopen; cbn [negb orb];
      [| intros p' H; discriminate H].
    destruct (init_token p MU_JSON_TOKEN_TYPE_OBJECT) as [[tok p1]|]
      eqn:Hinit; [| intros p' H; discriminate H].
    rewrite (init_token_other _ _ _ _ Hinit).
    assert (Hsep : is_separator (peek_char p) = true).
    { apply Ascii.eqb_eq in Hopen. rewrite Hopen. reflexivity. }
    destruct (container_open_vary p _ tok p1 Hb Hlt Hinit Hsep)
      as [Hb3 Hstart3].
    apply (container_close_vary "}" tok
             (get_char (set_level p1 (p_level p1 + 1)))
             (parse_object_loop fuel true
                (get_char (set_level p1 (p_level p1 + 1))))
             (parse_object_loop fuel true
                (on_input s' len' (get_char (set_level p1 (p_level p1 + 1)))))).
    + reflexivity.
    + exact Hb3.
    + intros e p4 Hloop. apply (Pol _ _ _ _) in Hloop; [exact Hloop |].
      destruct Hb3 as (_ & _ & _ & ?). assumption.
    + apply IHol. exact Hb3.
  - (* parse_object_loop *)
    intros first p Hb p' H.
    assert (Hke : k = in_exponent -> p_str_pos p < c).
    { intros Hke.
      destruct (Z.eq_dec (p_str_pos p) c) as [Hc | Hne];
        [| destruct Hb as (_ & _ & ? & _); lia].
      pose proof (object_loop_at_cut _ _ _ _ Hb Hc H). congruence. }
    revert p' H. cbn [parse_object_loop].
    destruct (skip_whitespace_vary p Hb Hke) as (Hs1 & Hb1 & _). rewrite Hs1.
    set (p1 := skip_whitespace p) in *.
    rewrite (before_not_eos _ Hb1).
    destruct (Z.eq_dec (p_str_pos p1) c) as [Hc1 | Hne1].
    + destruct (Ascii.eqb (peek_char p1) "}") eqn:Hclose.
      * intros p' [= <-]. left. split; [lia |].
        rewrite (closer_at_cut p1 Hb1 Hc1); [reflexivity |].
        apply Ascii.eqb_eq in Hclose. rewrite Hclose. reflexivity.
      * intros p' H. exfalso. destruct first; cbn [negb] in H.
        -- cbn [is_none negb] in H.
           pose proof (parse_string_at_cut p1 Hb1 Hc1) as Hcut.
           destruct (parse_string p1) as [e p3]. cbn [fst] in Hcut.
           destruct (is_none e) eqn:Hn; cbn [negb] in H;
             [apply is_none_true in Hn; contradiction
             | injection H as -> _; discriminate].
        -- pose proof (find_and_skip_at_cut p1 ","
                         ltac:(left; reflexivity) Hb1 Hc1) as Hcut.
           destruct (find_and_skip p1 ",") as [e p2]. cbn [fst] in Hcut.
           destruct (is_none e) eqn:Hn; cbn [negb] in H;
             [apply is_none_true in Hn; contradiction
             | injection H as -> _; discriminate].
    + assert (Hlt1 : p_str_pos p1 < c)
        by (destruct Hb1 as (_ & _ & ? & _); lia).
      destruct (before_same p1 Hb1 Hlt1) as [-> ->].
      destruct (Ascii.eqb (peek_char p1) "}");
        [intros p' [= <-]; left; split; [lia | reflexivity] |].
      destruct first; cbn [negb].
      * cbn [is_none negb].
        apply (object_member_vary fuel p1); auto.
      * intros p' H.
        destruct (find_and_skip p1 ",") as [e2 p2] eqn:Hfs.
        destruct (is_none e2) eqn:Hn2; cbn [negb] in H;
          [| injection H as -> _; discriminate].
        apply is_none_true in Hn2. subst e2.
        destruct (find_and_skip_vary p1 p2 "," ltac:(left; reflexivity)
                    Hb1 Hfs) as (Hb2 & Hstart2 & Hsame).
        assert (Ho : find_and_skip (on_input s' len' p1) ","
                     = (MU_JSON_ERR_NONE, on_input s' len' p2)).
        { apply Hsame.
          destruct (Z.eq_dec (p_str_pos p2) c) as [Hc2 | Hne2];
            [| left; destruct Hb2 as (_ & _ & ? & _); lia].
          exfalso.
          pose proof (parse_string_at_cut p2 Hb2 Hc2) as Hcut.
          destruct (parse_string p2) as [e p3]. cbn [fst] in Hcut.
          destruct (is_none e) eqn:Hn; cbn [negb] in H;
            [apply is_none_true in Hn; contradiction
            | injection H as -> _; discriminate]. }
        rewrite Ho. cbn [is_none negb]. revert p' H.
        apply (object_member_vary fuel p2); auto.
  - (* parse_array *)
    intros p Hb Hlt. cbn [parse_array].
    rewrite (before_not_eos _ Hb).
    destruct (before_same p Hb Hlt) as [-> ->].
    destruct (Ascii.eqb (peek_char p) "[") eqn:Hopen; cbn [negb orb];
      [| intros p' H; discriminate H].
    destruct (init_token p MU_JSON_TOKEN_TYPE_ARRAY) as [[tok p1]|]
      eqn:Hinit; [| intros p' H; discriminate H].
    rewrite (init_token_other _ _ _ _ Hinit).
    assert (Hsep : is_separator (peek_char p) = true).
    { apply Ascii.eqb_eq in Hopen. rewrite Hopen. reflexivity. }
    destruct (container_open_vary p _ tok p1 Hb Hlt Hinit Hsep)
      as [Hb3 Hstart3].
    apply (container_close_vary "]" tok
             (get_char (set_level p1 (p_level p1 + 1)))
             (parse_array_loop fuel true
                (get_char (set_level p1 (p_level p1 + 1))))
             (parse_array_loop fuel true
                (on_input s' len' (get_char (set_level p1 (p_level p1 + 1)))))).
    + reflexivity.
    + exact Hb3.
    + intros e p4 Hloop. apply (Pal _ _ _ _) in Hloop; [exact Hloop |].
      destruct Hb3 as (_ & _ & _ & ?). assumption.
    + apply IHal; [exact Hb3 | intros _; exact Hstart3].
  - (* parse_array_loop *)
    intros first p Hb Hstart p' H.
    assert (Hke : k = in_exponent -> p_str_pos p < c).
    { intros Hke.
      destruct (Z.eq_dec (p_str_pos p) c) as [Hc | Hne];
        [| destruct Hb as (_ & _ & ? & _); lia].
      destruct (array_loop_at_cut _ _ _ _ Hb Hc Hstart H); congruence. }
    revert p' H. cbn [parse_array_loop].
    destruct (skip_whitespace_vary p Hb Hke) as (Hs1 & Hb1 & Hstart1 & _).
    rewrite Hs1.
    set (p1 := skip_whitespace p) in *.
    rewrite (before_not_eos _ Hb1).
    assert (IHal' : forall p, before_cut c s len p ->
              cut_outcome k c s' len' (parse_array_loop fuel false p)
                (parse_array_loop fuel false (on_input s' len' p)))
      by (intros q Hq; apply IHal; [exact Hq | discriminate]).
    destruct (Z.eq_dec (p_str_pos p1) c) as [Hc1 | Hne1].
    + destruct (Ascii.eqb (peek_char p1) "]") eqn:Hclose.
      * intros p' [= <-]. left. split; [lia |].
        rewrite (closer_at_cut p1 Hb1 Hc1); [reflexivity |].
        apply Ascii.eqb_eq in Hclose. rewrite Hclose. reflexivity.
      * destruct first; cbn [negb].
        -- cbn [is_none negb].
           specialize (Hstart1 (Hstart eq_refl)).
           destruct (cut_kind_eq_dec k at_element) as [Hk | Hk].
           ++ pose proof (varied_other _ _ _ _ _ _ Hv) as Ho.
              rewrite Hk in Ho. destruct Ho as [Hlt Hhigh].
              assert (Heos : at_eos (on_input s' len' p1) = false)
                by (apply at_eos_false; cbn; lia).
              assert (Hpeek : high_bit (peek_char (on_input s' len' p1))
                  = true).
              { unfold peek_char. cbn [on_input p_str p_str_pos].
                rewrite Hc1. exact Hhigh. }
              rewrite Heos, (high_bit_eqb _ "]" Hpeek) by reflexivity.
              apply (array_member_vary fuel p1); auto.
           ++ intros p' H. exfalso.
              destruct (parse_element fuel p1) as [[e p3]|] eqn:He;
                [| discriminate].
              destruct (is_none e) eqn:Hn; cbn [negb] in H;
                [| injection H as -> _; discriminate].
              apply is_none_true in Hn. subst e. revert He.
              apply parse_element_at_cut; try assumption.
              rewrite (skip_whitespace_at_cut p1 Hb1 Hc1). exact Hc1.
        -- intros p' H. exfalso.
           pose proof (find_and_skip_at_cut p1 ","
                         ltac:(left; reflexivity) Hb1 Hc1) as Hcut.
           destruct (find_and_skip p1 ",") as [e p2]. cbn [fst] in Hcut.
           destruct (is_none e) eqn:Hn; cbn [negb] in H;
             [apply is_none_true in Hn; contradiction
             | injection H as -> _; discriminate].
    + assert (Hlt1 : p_str_pos p1 < c)
        by (destruct Hb1 as (_ & _ & ? & _); lia).
      destruct (before_same p1 Hb1 Hlt1) as [-> ->].
      destruct (Ascii.eqb (peek_char p1) "]");
        [intros p' [= <-]; left; split; [lia | reflexivity] |].
      destruct first; cbn [negb].
      * cbn [is_none negb].
        apply (array_member_vary fuel p1); auto.
      * intros p' H.
        destruct (find_and_skip p1 ",") as [e2 p2] eqn:Hfs.
        destruct (is_none e2) eqn:Hn2; cbn [negb] in H;
          [| injection H as -> _; discriminate].
        apply is_none_true in Hn2. subst e2.
        destruct (find_and_skip_vary p1 p2 "," ltac:(left; reflexivity)
                    Hb1 Hfs) as (Hb2 & Hstart2 & Hsame).
        assert (Ho : find_and_skip (on_input s' len' p1) ","
                     = (MU_JSON_ERR_NONE, on_input s' len' p2)).
        { apply Hsame.
          destruct (Z.eq_dec (p_str_pos p2) c) as [Hc2 | Hne2];
            [| left; destruct Hb2 as (_ & _ & ? & _); lia].
          right.
          destruct (cut_kind_eq_dec k at_element) as [Hk | Hk].
          - pose proof (varied_other _ _ _ _ _ _ Hv) as Hother.
            rewrite Hk in Hother. apply Hother.
          - exfalso.
            destruct (parse_element fuel p2) as [[e p3]|] eqn:He;
              [| discriminate].
            destruct (is_none e) eqn:Hn; cbn [negb] in H;
              [| injection H as -> _; discriminate].
            apply is_none_true in Hn. subst e. revert He.
            apply parse_element_at_cut; try assumption.
            rewrite (skip_whitespace_at_cut p2 Hb2 Hc2). exact Hc2. }
        rewrite Ho. cbn [is_none negb]. revert p' H.
        apply (array_member_vary fuel p2); auto.
Qed.

End Variation.

(** ** The parse of the second input *)

Lemma parse_varied k c s len s' len' tokens cap n toks :
  varied k c s len s' len' ->
  parse_json (Some s) len (Some tokens) cap = Returned n toks -> 0 < n ->
  returns (parse_json (Some s') len' (Some tokens) cap)
          (err_value (cut_code k)).
Proof.
  intros Hv H Hn.
  destruct (parse_json_success _ _ _ _ _ _ H Hn)
    as (s0 & tokens0 & p0 & p1 & [= <-] & [= <-] & Hreset & Hparse & Heos
        & _ & _).
  pose proof (varied_cut _ _ _ _ _ _ Hv) as Hcut.
  assert (Hcap : 0 < cap <= Z.of_nat (length tokens)).
  { unfold parse_json in H.
    destruct (len =? 0); [injection H as <- _; cbn in Hn; lia |].
    destruct (Z.eqb_spec cap 0); [injection H as <- _; cbn in Hn; lia |].
    unfold parser_reset, memset_tokens in Hreset. cbn in Hreset.
    destruct (Z.leb_spec 0 cap); [| discriminate].
    destruct (Z.leb_spec cap (Z.of_nat (length tokens))); [| discriminate].
    lia. }
  rewrite parser_reset_initial in Hreset by exact Hcap.
  injection Hreset as <-.
  set (p0 := initial_parser s len tokens cap) in *.
  assert (Hb0 : before_cut c s len p0) by (repeat split; cbn; lia).
  assert (Hstart0 : element_start p0) by (left; reflexivity).
  assert (Hcount0 : 0 <= p_token_count p0) by (cbn; lia).
  destruct (parse_mutual_psteps (parse_fuel len)) as (Psteps & _).
  pose proof (Psteps _ _ _ Hcount0 Hparse) as Hsteps.
  destruct (parse_mutual_vary k c s len s' len' Hv (parse_fuel len))
    as (Hcase & _).
  destruct (Hcase p0 Hb0 Hstart0 p1 Hparse)
    as [[Hle _] | (Hgt & q & Hother)].
  { (* the element stopped at the offset or before it: the byte at the
       offset is stray *)
    exfalso.
    pose proof (before_frame c s len p0 p1 Hb0 Hsteps Hle) as Hb1.
    destruct (Z.eq_dec (p_str_pos p1) c) as [Hc1 | Hne1].
    - rewrite (skip_whitespace_at_cut k c s len s' len' Hv p1 Hb1 Hc1)
        in Heos.
      rewrite (before_not_eos k c s len s' len' Hv p1 Hb1) in Heos.
      discriminate.
    - destruct (skip_whitespace_vary k c s len s' len' Hv p1 Hb1
                  ltac:(intros _; lia)) as (_ & Hb2 & _).
      rewrite (before_not_eos k c s len s' len' Hv _ Hb2) in Heos.
      discriminate. }
  change (on_input s' len' p0) with (initial_parser s' len' tokens cap)
    in Hother.
  assert (Hlen' : 0 < len').
  { pose proof (varied_other _ _ _ _ _ _ Hv) as Ho.
    assert (Hc0 : k <> at_element -> 0 < c).
    { intros Hk. destruct (Z.eq_dec c 0) as [Hc0 |]; [| lia].
      exfalso.
      apply (parse_element_at_cut k c s len s' len' Hv (parse_fuel len)
               p0 p1 Hb0 Hstart0); [| exact Hk | exact Hparse].
      rewrite (skip_whitespace_at_cut k c s len s' len' Hv p0 Hb0);
        cbn; lia. }
    destruct k; cbn in Ho.
    - specialize (Hc0 ltac:(discriminate)). lia.
    - specialize (Hc0 ltac:(discriminate)). lia.
    - lia.
    - lia. }
  destruct (parse_mutual_fuel (parse_fuel len')) as (Htotal & _).
  destruct (Htotal (initial_parser s' len' tokens cap)) as [r Hr].
  { cbn. lia. }
  { unfold remaining, parse_fuel. cbn. lia. }
  pose proof (parse_element_fuel_le _ (Nat.max (parse_fuel len)
                                               (parse_fuel len'))
                _ _ (Nat.le_max_r _ _) Hr) as Hr'.
  pose proof (parse_element_fuel_le _ (Nat.max (parse_fuel len)
                                               (parse_fuel len'))
                _ _ (Nat.le_max_l _ _) Hother) as Hother'.
  rewrite Hother' in Hr'. injection Hr' as <-.
  eapply parse_json_error; [lia | exact Hcap | exact Hr |].
  destruct k; discriminate.
Qed.

(** ** Inputs as lists of bytes *)

Lemma forallb_lookup {A : Type} (f : A -> bool) (l : list A) :
  forallb f l = true -> forall i x, l !! i = Some x -> f x = true.
Proof.
  induction l as [|y l IH]; intros H i x Hx; [destruct i; discriminate |].
  cbn in H. apply andb_true_iff in H. destruct H as [Hy Hl].
  destruct i as [|i]; cbn in Hx.
  - injection Hx as <-. exact Hy.
  - exact (IH Hl i x Hx).
Qed.

Lemma byte_of_app (a : list ascii) (x : ascii) (t : list ascii) :
  byte_of (a ++ x :: t) (Z.of_nat (length a)) = x.
Proof.
  unfold byte_of. rewrite Nat2Z.id.
  rewrite lookup_app_r by lia. rewrite Nat.sub_diag. reflexivity.
Qed.

Lemma byte_of_app_l (a t : list ascii) (i : Z) :
  0 <= i < Z.of_nat (length a) -> byte_of (a ++ t) i = byte_of a i.
Proof.
  intros Hi. unfold byte_of. rewrite lookup_app_l by lia. reflexivity.
Qed.

Lemma byte_of_last (a : list ascii) :
  a <> [] ->
  byte_of a (Z.of_nat (length a) - 1) = default NUL (last a).
Proof.
  intros Ha. destruct (exists_last Ha) as (a' & x & ->).
  rewrite last_snoc, length_app. cbn [length].
  replace (Z.of_nat (length a' + 1) - 1) with (Z.of_nat (length a')) by lia.
  apply byte_of_app.
Qed.

Lemma ends_in_exponent_marker (a t : list ascii) :
  ends_in_exponent a = true ->
  a <> [] /\ after_marker (a ++ t) (Z.of_nat (length a)).
Proof.
  unfold ends_in_exponent. intros H.
  destruct (reverse a) as [|x before] eqn:Hrev; [discriminate |].
  assert (Ha : a = reverse before ++ [x]).
  { rewrite <- (reverse_involutive a), Hrev, reverse_cons. reflexivity. }
  split; [rewrite Ha; intros Hnil; apply app_eq_nil in Hnil;
          destruct Hnil; discriminate |].
  assert (Hx : byte_of (a ++ t) (Z.of_nat (length a) - 1) = x).
  { rewrite Ha, <- app_assoc, length_app. cbn [length app].
    replace (Z.of_nat (length (reverse before) + 1) - 1)
      with (Z.of_nat (length (reverse before))) by lia.
    apply byte_of_app. }
  apply orb_true_iff in H. destruct H as [Hm | H].
  - left. rewrite Hx. split; [rewrite Ha, length_app; cbn; lia | exact Hm].
  - apply andb_true_iff in H. destruct H as [Hg Hm].
    destruct before as [|y before']; [discriminate |].
    right. rewrite Hx.
    assert (Hy : byte_of (a ++ t) (Z.of_nat (length a) - 2) = y).
    { rewrite Ha, reverse_cons, <- !app_assoc, !length_app.
      cbn [length app].
      replace (Z.of_nat (length (reverse before') + (1 + 1)) - 2)
        with (Z.of_nat (length (reverse before'))) by lia.
      apply byte_of_app. }
    rewrite Hy.
    split; [rewrite Ha, reverse_cons, !length_app; cbn; lia |].
    split; [exact Hm | exact Hg].
Qed.

Lemma varied_app k (a : list ascii) (h : ascii) (cs rest : list ascii) :
  tail_head k h = true -> forallb is_closer cs = true ->
  goes_on k a rest = true ->
  varied k (Z.of_nat (length a))
         (a ++ h :: cs) (Z.of_nat (length (a ++ h :: cs)))
         (a ++ rest) (Z.of_nat (length (a ++ rest))).
Proof.
  intros Hh Hcs Hrest. split.
  - rewrite length_app. cbn [length]. lia.
  - rewrite byte_of_app. exact Hh.
  - intros i Hi. rewrite length_app in Hi. cbn [length] in Hi.
    unfold byte_of.
    rewrite lookup_app_r by lia.
    replace (Z.to_nat i - length a)%nat
      with (S (Z.to_nat i - length a - 1)) by lia.
    cbn [lookup list_lookup].
    destruct (cs !! (Z.to_nat i - length a - 1)%nat) as [x|] eqn:Hx.
    + cbn. exact (forallb_lookup _ _ Hcs _ _ Hx).
    + apply lookup_ge_None in Hx. lia.
  - intros i Hi. rewrite !byte_of_app_l by lia. reflexivity.
  - destruct k; cbn in Hrest |- *.
    + destruct rest; [| discriminate]. rewrite app_nil_r. reflexivity.
    + apply andb_true_iff in Hrest. destruct Hrest as [Ha Hrest].
      destruct (ends_in_exponent_marker a [] Ha) as [Hne _].
      destruct rest as [|x rest]; [left; rewrite app_nil_r; reflexivity |].
      right. split; [rewrite length_app; cbn [length]; lia |].
      rewrite byte_of_app.
      rewrite byte_of_app_l
        by (destruct a; [contradiction | cbn [length]; lia]).
      rewrite (byte_of_last a Hne). exact Hrest.
    + destruct rest as [|x rest]; [discriminate |].
      split; [rewrite length_app; cbn [length]; lia |].
      rewrite byte_of_app. exact Hrest.
    + destruct rest as [|x rest]; [discriminate |].
      split; [rewrite length_app; cbn [length]; lia |].
      rewrite byte_of_app. exact Hrest.
  - intros ->. cbn in Hrest. apply andb_true_iff in Hrest.
    destruct Hrest as [Ha _].
    apply (ends_in_exponent_marker a (h :: cs) Ha).
Qed.

(** If an input parses that holds, after the bytes [a], one byte and then
    closing brackets only, then the parse of an input that goes on in
    another way after [a] returns the code of the case. *)
Lemma parse_varied_app k (a : list ascii) (h : ascii) (cs rest : list ascii)
    tokens cap n toks :
  tail_head k h = true -> forallb is_closer cs = true ->
  goes_on k a rest = true ->
  parse_json (Some (a ++ h :: cs)) (Z.of_nat (length (a ++ h :: cs)))
             (Some tokens) cap = Returned n toks ->
  0 < n ->
  returns (parse_json (Some (a ++ rest)) (Z.of_nat (length (a ++ rest)))
                      (Some tokens) cap)
          (err_value (cut_code k)).
Proof.
  intros Hh Hcs Hrest H Hn.
  exact (parse_varied _ _ _ _ _ _ tokens cap n toks
           (varied_app k a h cs rest Hh Hcs Hrest) H Hn).
Qed.

(** * C3: inputs that end too early *)

(** C3, as the code has it.  (1) When an input that parses successfully
    ends with one or more closing brackets, the input without these
    brackets, which ends inside the objects and arrays that they close,
    returns [MU_JSON_ERR_INCOMPLETE].  (2) When the bytes [a] end with the
    exponent marker of a number, or with the marker and a sign, and [a]
    parses successfully once a digit and closing brackets are appended,
    then [a] alone returns [MU_JSON_ERR_BAD_FORMAT], and so does [a]
    followed by bytes of which the first is no digit (and, right after the
    marker, no sign). *)
Theorem unterminated_container_and_exponent :
  (forall a closer closers tokens max_tokens n toks,
     is_closer closer = true -> forallb is_closer closers = true ->
     mu_json_parse_buffer (Some (a ++ closer :: closers))
       (Z.of_nat (length (a ++ closer :: closers))) (Some tokens) max_tokens
     = Returned n toks ->
     0 < n ->
     returns (mu_json_parse_buffer (Some a) (Z.of_nat (length a))
                (Some tokens) max_tokens)
             (err_value MU_JSON_ERR_INCOMPLETE))
  /\ (forall a digit closers rest tokens max_tokens n toks,
        ends_in_exponent a = true -> is_digit digit = true ->
        forallb is_closer closers = true ->
        mu_json_parse_buffer (Some (a ++ digit :: closers))
          (Z.of_nat (length (a ++ digit :: closers))) (Some tokens)
          max_tokens
        = Returned n toks ->
        0 < n ->
        no_exponent_digits a rest = true ->
        returns (mu_json_parse_buffer (Some (a ++ rest))
                   (Z.of_nat (length (a ++ rest))) (Some tokens) max_tokens)
                (err_value MU_JSON_ERR_BAD_FORMAT)).
Proof.
  split.
  - intros a closer closers tokens max_tokens n toks Hc Hcs H Hn.
    pose proof (parse_varied_app in_container a closer closers [] tokens
                  max_tokens n toks Hc Hcs eq_refl H Hn) as Hcut.
    rewrite app_nil_r in Hcut. exact Hcut.
  - intros a digit closers rest tokens max_tokens n toks Ha Hd Hcs H Hn
      Hrest.
    apply (parse_varied_app in_exponent a digit closers rest tokens
             max_tokens n toks Hd Hcs); [| exact H | exact Hn].
    cbn [goes_on]. rewrite Ha, Hrest. reflexivity.
Qed.

Lemma unterminated_container_and_exponent_witness :
  returns (mu_json_parse_buffer (Some (text "{'a':[1, [2")) 11
                                (fresh_store 6) 6)
          (err_value MU_JSON_ERR_INCOMPLETE)
  /\ returns (mu_json_parse_buffer (Some (text "[1, -1.5e+]")) 11
                                   (fresh_store 3) 3)
             (err_value MU_JSON_ERR_BAD_FORMAT)
  /\ returns (mu_json_parse_buffer (Some (text " 1e")) 3 (fresh_store 1) 1)
             (err_value MU_JSON_ERR_BAD_FORMAT).
Proof.
  split; [| split].
  - eapply (proj1 unterminated_container_and_exponent
             (text "{'a':[1, [2") "]"%char (text "]}")
             (replicate 6 zero_token) 6);
      [reflexivity | reflexivity | vm_compute; reflexivity | lia].
  - eapply (proj2 unterminated_container_and_exponent
             (text "[1, -1.5e+") "0"%char (text "]") (text "]")
             (replicate 3 zero_token) 3);
      [reflexivity | reflexivity | reflexivity | vm_compute; reflexivity
      | lia | reflexivity].
  - eapply (proj2 unterminated_container_and_exponent
             (text " 1e") "0"%char [] []
             (replicate 1 zero_token) 1);
      [reflexivity | reflexivity | reflexivity | vm_compute; reflexivity
      | lia | reflexivity].
Defined.

(** C3, as the claim words it, fails: an input that ends right after the
    exponent marker is rejected as badly formed, and so is an array that
    ends right after a comma; an object with a comma before its closing
    brace is rejected as an internal error. *)
Lemma exponent_at_end_bad_format :
  returns (mu_json_parse_str (Some (text "1e")) (fresh_store 3) 3)
          (err_value MU_JSON_ERR_BAD_FORMAT)
  /\ ~ returns (mu_json_parse_str (Some (text "1e")) (fresh_store 3) 3)
               (err_value MU_JSON_ERR_INCOMPLETE)
  /\ returns (mu_json_parse_str (Some (text "[1,")) (fresh_store 3) 3)
             (err_value MU_JSON_ERR_BAD_FORMAT)
  /\ ~ returns (mu_json_parse_str (Some (text "[1,")) (fresh_store 3) 3)
               (err_value MU_JSON_ERR_INCOMPLETE)
  /\ returns (mu_json_parse_str (Some (text "{'a':1,}")) (fresh_store 3) 3)
             (err_value MU_JSON_ERR_INTERNAL)
  /\ ~ returns (mu_json_parse_str (Some (text "{'a':1,}")) (fresh_store 3) 3)
               (err_value MU_JSON_ERR_BAD_FORMAT).
Proof.
  split; [| split; [| split; [| split; [| split]]]].
  - eexists. vm_compute. reflexivity.
  - intros [tokens H]. vm_compute in H. discriminate.
  - eexists. vm_compute. reflexivity.
  - intros [tokens H]. vm_compute in H. discriminate.
  - eexists. vm_compute. reflexivity.
  - intros [tokens H]. vm_compute in H. discriminate.
Qed.

(** * C6: bytes with the high bit set *)






(** ** The emitter: frames stay in bounds, output only grows *)

Lemma fold_emit_char_state (l : list ascii) : forall ls m c w,
  fold_left emit_char l (mk_jems ls m c w) = mk_jems ls m c (w ++ l).
Proof.
  induction l as [|a l IH]; intros ls m c w; cbn [fold_left].
  - rewrite app_nil_r. reflexivity.
  - rewrite emit_char_state, IH, <- app_assoc. reflexivity.
Qed.

Lemma fold_emit_quoted_byte_state (l : list ascii) : forall ls m c w,
  fold_left emit_quoted_byte l (mk_jems ls m c w)
  = mk_jems ls m c (w ++ concat (map quoted_byte l)).
Proof.
  induction l as [|a l IH]; intros ls m c w; cbn [fold_left map concat].
  - rewrite app_nil_r. reflexivity.
  - rewrite emit_quoted_byte_state, IH, <- app_assoc. reflexivity.
Qed.

Lemma mu_jems_string_state ls m c w (s : list ascii) :
  mu_jems_string (mk_jems ls m c w) s
  = mk_jems
      (alter (fun l => mk_level (size_t_wrap (item_count l + 1)) (is_object l))
             (Z.to_nat c) ls)
      m c
      (w ++ punctuation (default zero_level (ls !! Z.to_nat c))
         ++ [ch_quote] ++ quoted_string s ++ [ch_quote]).
Proof.
  unfold mu_jems_string.
  rewrite commify_state, emit_char_state, emit_quoted_string_state,
    emit_char_state.
  f_equal. rewrite <- !app_assoc. reflexivity.
Qed.

Lemma mu_jems_bytes_state ls m c w (bytes : list ascii) (len : nat) :
  mu_jems_bytes (mk_jems ls m c w) bytes len
  = mk_jems
      (alter (fun l => mk_level (size_t_wrap (item_count l + 1)) (is_object l))
             (Z.to_nat c) ls)
      m c
      (w ++ punctuation (default zero_level (ls !! Z.to_nat c))
         ++ [ch_quote] ++ concat (map quoted_byte (take len bytes))
         ++ [ch_quote]).
Proof.
  unfold mu_jems_bytes, emit_quoted_bytes.
  rewrite commify_state, emit_char_state, fold_emit_quoted_byte_state,
    emit_char_state.
  f_equal. rewrite <- !app_assoc. reflexivity.
Qed.

(** A value that is written by [emit_string] after [commify]. *)
Lemma emit_value_state ls m c w (buf : list ascii) :
  emit_string (commify (mk_jems ls m c w)) buf
  = mk_jems
      (alter (fun l => mk_level (size_t_wrap (item_count l + 1)) (is_object l))
             (Z.to_nat c) ls)
      m c
      (w ++ punctuation (default zero_level (ls !! Z.to_nat c))
         ++ c_string buf).
Proof.
  rewrite commify_state, emit_string_state, <- app_assoc. reflexivity.
Qed.

Lemma mu_jems_literal_state ls m c w (literal : list ascii) (n : nat) :
  mu_jems_literal (mk_jems ls m c w) literal n
  = mk_jems
      (alter (fun l => mk_level (size_t_wrap (item_count l + 1)) (is_object l))
             (Z.to_nat c) ls)
      m c
      (w ++ punctuation (default zero_level (ls !! Z.to_nat c))
         ++ take n literal).
Proof.
  unfold mu_jems_literal.
  rewrite commify_state, fold_emit_char_state, <- app_assoc. reflexivity.
Qed.

(** ** The emitter: every emission applies the punctuation rule *)

Lemma push_level_keeps (jems : mu_jems_t) (b : bool) :
  0 <= curr_level jems ->
  levels (push_level jems b) !! Z.to_nat (curr_level jems)
  = levels jems !! Z.to_nat (curr_level jems)
  /\ written (push_level jems b) = written jems.
Proof.
  intros Hc. unfold push_level.
  destruct (curr_level jems <? size_t_wrap (max_level jems - 1));
    [| split; reflexivity].
  split; [| reflexivity].
  cbn [set_level_ref set_curr_level levels curr_level].
  rewrite !list_lookup_alter_ne by lia. reflexivity.
Qed.

(** C7.  On a state whose current frame is [frame], [commify] passes to the
    writer [:] when the frame is an object with an odd, positive
    [item_count], [,] when the frame is an object with an even, positive
    [item_count] or is a root or array frame with a positive [item_count],
    and nothing when [item_count] is 0; it then adds one to the frame's
    [item_count] (a [size_t]: the sum is taken modulo [2 ^ SIZE_BITS], so it
    is [item_count + 1] for every count below [SIZE_MAX]) and changes
    neither the frame's kind, nor any other frame, nor the depth.  Every
    call that emits a value (the two opening calls and the nine calls that
    write a scalar) does just that before anything else: what it writes
    starts with the punctuation owed, and it leaves the frame that was
    current with one item more.  Every call that emits a key and a value
    is the emission of the key as a string followed by the emission of the
    value, so the rule is applied once for the key and once for the
    value. *)
Theorem commify_punctuation_rule (jems : mu_jems_t) (frame : mu_jems_level_t) :
  levels jems !! Z.to_nat (curr_level jems) = Some frame ->
  let count := item_count frame in
  let owed :=
    if count <=? 0 then []
    else if is_object frame then
      if Z.odd count then [":"%char] else [","%char]
    else [","%char] in
  let frame' := mk_level (size_t_wrap (count + 1)) (is_object frame) in
  let jems' := commify jems in
  (written jems' = written jems ++ owed
   /\ levels jems' !! Z.to_nat (curr_level jems) = Some frame'
   /\ (0 <= count < 2 ^ SIZE_BITS - 1 ->
       item_count (level_ref jems') = count + 1)
   /\ (forall i : nat, i <> Z.to_nat (curr_level jems) ->
       levels jems' !! i = levels jems !! i)
   /\ curr_level jems' = curr_level jems
   /\ max_level jems' = max_level jems)
  /\ (forall c : jems_call, emits_value c = true -> 0 <= curr_level jems ->
        (exists payload,
           written (run_call jems c) = written jems ++ owed ++ payload)
        /\ levels (run_call jems c) !! Z.to_nat (curr_level jems)
           = Some frame')
  /\ (forall (c : jems_call) key value,
        key_and_value c = Some (key, value) ->
        emits_value value = true
        /\ run_call jems c = run_call (run_call jems (call_string key)) value).
Proof.
  intros Hframe count owed frame' jems'.
  assert (Href : level_ref jems = frame).
  { unfold level_ref. rewrite Hframe. reflexivity. }
  assert (Hlook : levels jems' !! Z.to_nat (curr_level jems) = Some frame').
  { subst jems'. rewrite levels_commify, list_lookup_alter_eq, Hframe.
    reflexivity. }
  assert (Hw : written jems' = written jems ++ owed).
  { subst jems'. rewrite written_commify, Href. reflexivity. }
  split; [| split].
  - split; [exact Hw |]. split; [exact Hlook |].
    split; [| split; [| split]].
    + intros Hrange. unfold level_ref.
      subst jems'. rewrite curr_level_commify, Hlook. cbn.
      unfold size_t_wrap. apply Z.mod_small. lia.
    + intros i Hi. subst jems'. rewrite levels_commify.
      apply list_lookup_alter_ne. congruence.
    + apply curr_level_commify.
    + apply max_level_commify.
  - intros c Hc Hcurr.
    assert (Hopen : forall ch b,
      (exists payload,
         written (push_level (emit_char (commify jems) ch) b)
         = written jems ++ owed ++ payload)
      /\ levels (push_level (emit_char (commify jems) ch) b)
           !! Z.to_nat (curr_level jems) = Some frame').
    { intros ch b.
      destruct (push_level_keeps (emit_char (commify jems) ch) b) as [Hl Hwr].
      { cbn [curr_level emit_char]. rewrite curr_level_commify.
        exact Hcurr. }
      cbn [curr_level emit_char] in Hl. rewrite curr_level_commify in Hl.
      rewrite Hl, Hwr. cbn [levels written emit_char].
      fold jems'. rewrite Hw, <- app_assoc. eauto. }
    assert (Hvalue : forall buf,
      (exists payload,
         written (emit_string (commify jems) buf)
         = written jems ++ owed ++ payload)
      /\ levels (emit_string (commify jems) buf)
           !! Z.to_nat (curr_level jems) = Some frame').
    { intros buf. fold jems'. clearbody jems'.
      destruct jems' as [ls' m' c' w']. rewrite emit_string_state.
      cbn [written levels] in *. rewrite Hw, <- app_assoc. eauto. }
    destruct c; try discriminate Hc; cbn [run_call].
    + apply Hopen.
    + apply Hopen.
    + apply Hvalue.
    + apply Hvalue.
    + unfold mu_jems_string. fold jems'. clearbody jems'.
      destruct jems' as [ls' m' c' w'].
      rewrite emit_char_state, emit_quoted_string_state, emit_char_state.
      cbn [written levels] in *. rewrite Hw, <- !app_assoc. eauto.
    + unfold mu_jems_bytes, emit_quoted_bytes. fold jems'. clearbody jems'.
      destruct jems' as [ls' m' c' w'].
      rewrite emit_char_state, fold_emit_quoted_byte_state, emit_char_state.
      cbn [written levels] in *. rewrite Hw, <- !app_assoc. eauto.
    + apply Hvalue.
    + apply Hvalue.
    + apply Hvalue.
    + apply Hvalue.
    + unfold mu_jems_literal. fold jems'. clearbody jems'.
      destruct jems' as [ls' m' c' w']. rewrite fold_emit_char_state.
      cbn [written levels] in *. rewrite Hw, <- app_assoc. eauto.
  - intros c key value Hkv.
    destruct c; try discriminate Hkv; injection Hkv as <- <-;
      split; reflexivity.
Qed.

Lemma commify_punctuation_rule_witness :
  let jems := mk_jems [mk_level 0 false; mk_level 3 true] 4 1 [] in
  (written (commify jems) = [":"%char]
   /\ levels (commify jems) !! 1%nat = Some (mk_level 4 true))
  /\ (exists payload, written (mu_jems_null jems) = [":"%char] ++ payload)
  /\ levels (mu_jems_true jems) !! 1%nat = Some (mk_level 4 true).
Proof.
  intros jems.
  destruct (commify_punctuation_rule jems (mk_level 3 true) eq_refl)
    as ((Hw & Hl & _) & Hcall & _).
  split; [split; [exact Hw | exact Hl] |].
  split.
  - apply (Hcall call_null eq_refl). cbn. lia.
  - apply (Hcall call_true eq_refl). cbn. lia.
Defined.

Lemma jems_extends_refl (jems : mu_jems_t) : jems_extends jems jems.
Proof.
  split; [reflexivity | split; [reflexivity | split; [| tauto]]].
  exists []. rewrite app_nil_r. reflexivity.
Qed.

Lemma jems_extends_trans (a b c : mu_jems_t) :
  jems_extends a b -> jems_extends b c -> jems_extends a c.
Proof.
  intros (Hm & Hl & (o1 & Hw) & Hb) (Hm' & Hl' & (o2 & Hw') & Hb').
  split; [congruence | split; [congruence | split; [| tauto]]].
  exists (o1 ++ o2). rewrite Hw', Hw, app_assoc. reflexivity.
Qed.

(** A state that differs in the contents of the frames and in the output
    only. *)
Lemma jems_extends_payload ls m c w (f : mu_jems_level_t -> mu_jems_level_t)
    (i : nat) (out : list ascii) :
  jems_extends (mk_jems ls m c w) (mk_jems (alter f i ls) m c (w ++ out)).
Proof.
  unfold jems_extends, level_in_bounds. cbn. rewrite length_alter.
  split; [reflexivity | split; [reflexivity | split; [| tauto]]].
  exists out. reflexivity.
Qed.

Lemma commify_extends (jems : mu_jems_t) : jems_extends jems (commify jems).
Proof. destruct jems. rewrite commify_state. apply jems_extends_payload. Qed.

Lemma output_extends ls m c w (out : list ascii) :
  jems_extends (mk_jems ls m c w) (mk_jems ls m c (w ++ out)).
Proof.
  unfold jems_extends, level_in_bounds. cbn.
  split; [reflexivity | split; [reflexivity | split; [| tauto]]].
  exists out. reflexivity.
Qed.

Lemma emit_char_extends (jems : mu_jems_t) ch :
  jems_extends jems (emit_char jems ch).
Proof. destruct jems. rewrite emit_char_state. apply output_extends. Qed.

Lemma push_level_extends (jems : mu_jems_t) (b : bool) :
  jems_extends jems (push_level jems b).
Proof.
  unfold push_level.
  destruct (Z.ltb_spec (curr_level jems) (size_t_wrap (max_level jems - 1)))
    as [Hlt |]; [| apply jems_extends_refl].
  unfold jems_extends, level_in_bounds, set_level_ref, set_curr_level. cbn.
  rewrite !length_alter.
  split; [reflexivity | split; [reflexivity | split]].
  - exists []. rewrite app_nil_r. reflexivity.
  - intros (Hm & Hlen & Hc).
    unfold size_t_wrap in Hlt. rewrite Z.mod_small in Hlt by lia. lia.
Qed.

Lemma pop_level_extends (jems : mu_jems_t) : jems_extends jems (pop_level jems).
Proof.
  unfold pop_level.
  destruct (Z.ltb_spec 0 (curr_level jems)); [| apply jems_extends_refl].
  unfold jems_extends, level_in_bounds, set_curr_level. cbn.
  split; [reflexivity | split; [reflexivity | split; [| lia]]].
  exists []. rewrite app_nil_r. reflexivity.
Qed.

Lemma mu_jems_reset_extends (jems : mu_jems_t) :
  jems_extends jems (mu_jems_reset jems).
Proof.
  unfold jems_extends, level_in_bounds, mu_jems_reset, set_level_ref,
    set_curr_level. cbn. rewrite !length_alter.
  split; [reflexivity | split; [reflexivity | split; [| lia]]].
  exists []. rewrite app_nil_r. reflexivity.
Qed.

Lemma mu_jems_string_extends (jems : mu_jems_t) s :
  jems_extends jems (mu_jems_string jems s).
Proof.
  destruct jems. rewrite mu_jems_string_state. apply jems_extends_payload.
Qed.

Lemma emit_value_extends (jems : mu_jems_t) buf :
  jems_extends jems (emit_string (commify jems) buf).
Proof.
  destruct jems. rewrite emit_value_state. apply jems_extends_payload.
Qed.

Lemma mu_jems_bytes_extends (jems : mu_jems_t) bytes len :
  jems_extends jems (mu_jems_bytes jems bytes len).
Proof.
  destruct jems. rewrite mu_jems_bytes_state. apply jems_extends_payload.
Qed.

Lemma mu_jems_literal_extends (jems : mu_jems_t) literal n :
  jems_extends jems (mu_jems_literal jems literal n).
Proof.
  destruct jems. rewrite mu_jems_literal_state. apply jems_extends_payload.
Qed.

Lemma open_extends (jems : mu_jems_t) ch (b : bool) :
  jems_extends jems (push_level (emit_char (commify jems) ch) b).
Proof.
  eapply jems_extends_trans; [apply commify_extends |].
  eapply jems_extends_trans; [apply emit_char_extends |].
  apply push_level_extends.
Qed.

Lemma close_extends (jems : mu_jems_t) ch :
  jems_extends jems (pop_level (emit_char jems ch)).
Proof.
  eapply jems_extends_trans; [apply emit_char_extends |].
  apply pop_level_extends.
Qed.

Ltac value_extends :=
  first
    [ apply mu_jems_reset_extends
    | apply open_extends
    | apply close_extends
    | apply emit_value_extends
    | apply mu_jems_string_extends
    | apply mu_jems_bytes_extends
    | apply mu_jems_literal_extends ].

Lemma run_call_extends (jems : mu_jems_t) (c : jems_call) :
  jems_extends jems (run_call jems c).
Proof.
  destruct c; cbn [run_call];
    unfold mu_jems_key_object_open, mu_jems_key_array_open,
      mu_jems_key_number, mu_jems_key_integer, mu_jems_key_string,
      mu_jems_key_bytes, mu_jems_key_bool, mu_jems_key_true,
      mu_jems_key_false, mu_jems_key_null, mu_jems_key_literal,
      mu_jems_object_open, mu_jems_object_close, mu_jems_array_open,
      mu_jems_array_close, mu_jems_number, mu_jems_integer, mu_jems_bool,
      mu_jems_true, mu_jems_false, mu_jems_null;
    first
      [ solve [value_extends]
      | solve [eapply jems_extends_trans;
               [apply mu_jems_string_extends | value_extends]] ].
Qed.

(** X1: whatever calls are made on an emitter, in any order, its capacity
    and the length of its frame array do not change, the bytes already
    passed to the writer stay as they are (the output only grows), and a
    current level inside the frame array stays inside it: no call makes the
    emitter use a frame outside the caller's array. *)
Theorem emitter_calls_stay_in_bounds (calls : list jems_call) :
  forall jems, jems_extends jems (run_calls jems calls).
Proof.
  unfold run_calls.
  induction calls as [|c calls IH]; intros jems; cbn [fold_left].
  - apply jems_extends_refl.
  - eapply jems_extends_trans; [apply run_call_extends | apply IH].
Qed.

Lemma emitter_calls_stay_in_bounds_witness :
  level_in_bounds
    (run_calls (mk_jems (replicate 2 zero_level) 2 0 [])
               [call_array_open; call_key_object_open (text "k");
                call_integer 7; call_object_close; call_array_close;
                call_array_close]).
Proof.
  destruct (emitter_calls_stay_in_bounds
              [call_array_open; call_key_object_open (text "k");
               call_integer 7; call_object_close; call_array_close;
               call_array_close]
              (mk_jems (replicate 2 zero_level) 2 0 []))
    as (_ & _ & _ & H).
  apply H. unfold level_in_bounds, SIZE_BITS. cbn. lia.
Defined.

(** ** The emitter: what strings and byte arrays are written as *)






Lemma c_string_no_nul (s : list ascii) :
  forallb (fun c => negb (Ascii.eqb c NUL)) s = true -> c_string s = s.
Proof.
  induction s as [|c s IH]; [reflexivity |].
  cbn. intros H. apply andb_true_iff in H. destruct H as [Hc Hs].
  apply negb_true_iff in Hc. rewrite Hc, IH by assumption. reflexivity.
Qed.



(** ** The emitter: nesting and key:value pairs *)

(** X4: an object or array that is opened and closed at once writes
    the punctuation owed and the two brackets.  With a frame to spare the
    emitter is back at the level it started from; at the deepest frame the
    opening call does not go down, the closing call still goes up, and the
    pair leaves the emitter one level above where it started (unless it
    started at level 0). *)
Theorem open_close_pair (jems : mu_jems_t) :
  level_in_bounds jems ->
  let obj := mu_jems_object_close (mu_jems_object_open jems) in
  let arr := mu_jems_array_close (mu_jems_array_open jems) in
  written obj = written jems ++ punctuation (level_ref jems) ++ text "{}"
  /\ written arr = written jems ++ punctuation (level_ref jems) ++ text "[]"
  /\ (curr_level jems + 1 < max_level jems ->
      curr_level obj = curr_level jems /\ curr_level arr = curr_level jems)
  /\ (curr_level jems + 1 = max_level jems ->
      curr_level obj = Z.max 0 (curr_level jems - 1)
      /\ curr_level arr = Z.max 0 (curr_level jems - 1)).
Proof.
  destruct jems as [ls m c w]. unfold level_in_bounds. cbn [max_level
    curr_level levels]. intros (Hm & Hlen & Hc).
  unfold mu_jems_object_close, mu_jems_object_open, mu_jems_array_close,
    mu_jems_array_open, level_ref. cbn [curr_level levels written].
  rewrite !commify_state, !emit_char_state.
  destruct (Z.lt_ge_cases (c + 1) m) as [Hroom | Hfull].
  - rewrite !push_level_room by lia.
    rewrite !emit_char_state, !pop_level_state. cbn [written curr_level].
    destruct (Z.ltb_spec 0 (c + 1)); [| lia].
    rewrite <- !app_assoc.
    repeat split; try reflexivity; try lia.
  - rewrite !push_level_full by lia.
    rewrite !emit_char_state, !pop_level_state. cbn [written curr_level].
    rewrite <- !app_assoc.
    repeat split; try reflexivity; try lia;
      destruct (Z.ltb_spec 0 c); lia.
Qed.

Lemma open_close_pair_witness :
  let jems := mk_jems (replicate 2 zero_level) 2 1 [] in
  curr_level (mu_jems_object_close (mu_jems_object_open jems)) = Z.max 0 (1 - 1).
Proof.
  intros jems.
  apply (open_close_pair jems); [| reflexivity].
  unfold level_in_bounds, SIZE_BITS. cbn. lia.
Defined.

(** X5: in an object frame that holds an even number of items (no
    key is waiting for its value), [mu_jems_key_string] writes a comma
    unless the pair is the first, the key in quotes, a colon and the value
    in quotes, both escaped, and leaves the frame with two items more. *)
Theorem key_string_pair (jems : mu_jems_t) (frame : mu_jems_level_t)
    (key string : list ascii) :
  levels jems !! Z.to_nat (curr_level jems) = Some frame ->
  is_object frame = true -> Z.even (item_count frame) = true ->
  0 <= item_count frame < 2 ^ SIZE_BITS - 2 ->
  let jems' := mu_jems_key_string jems key string in
  written jems'
  = written jems
    ++ (if item_count frame =? 0 then [] else [","%char])
    ++ [ch_quote] ++ quoted_string key ++ [ch_quote; ":"%char; ch_quote]
    ++ quoted_string string ++ [ch_quote]
  /\ levels jems' !! Z.to_nat (curr_level jems)
     = Some (mk_level (item_count frame + 2) true)
  /\ curr_level jems' = curr_level jems
  /\ max_level jems' = max_level jems.
Proof.
  destruct jems as [ls m c w]. cbn [levels curr_level written max_level].
  intros Hframe Hobj Heven Hcount. unfold mu_jems_key_string.
  rewrite !mu_jems_string_state. cbn [levels curr_level written max_level].
  rewrite list_lookup_alter_eq, Hframe.
  cbn [fmap option_fmap option_map default from_option item_count is_object].
  unfold id. rewrite Hobj.
  assert (Hw1 : size_t_wrap (item_count frame + 1) = item_count frame + 1)
    by (unfold size_t_wrap; apply Z.mod_small; lia).
  assert (Hw2 : size_t_wrap (item_count frame + 1 + 1) = item_count frame + 2).
  { unfold size_t_wrap. rewrite Z.mod_small by lia. lia. }
  split; [| split; [| split; reflexivity]].
  - unfold punctuation. cbn [item_count is_object]. rewrite Hobj, Hw1.
    destruct (Z.leb_spec (item_count frame + 1) 0); [lia |].
    replace (item_count frame + 1) with (Z.succ (item_count frame)) by lia.
    rewrite Z.odd_succ, Heven.
    destruct (Z.leb_spec (item_count frame) 0);
      destruct (Z.eqb_spec (item_count frame) 0); try lia.
    + rewrite <- !app_assoc. reflexivity.
    + rewrite <- Z.negb_even, Heven. cbn [negb].
      rewrite <- !app_assoc. reflexivity.
  - rewrite list_alter_alter_eq, list_lookup_alter_eq, Hframe.
    cbn. rewrite Hobj, Hw1, Hw2. reflexivity.
Qed.

Lemma key_string_pair_witness :
  written (mu_jems_key_string (mk_jems [mk_level 2 true] 1 0 [])
                              (text "k") (text "v"))
  = text ",'k':'v'".
Proof.
  apply (key_string_pair (mk_jems [mk_level 2 true] 1 0 [])
           (mk_level 2 true) (text "k") (text "v"));
    try reflexivity.
  unfold SIZE_BITS. cbn. lia.
Defined.

(** ** The parser: what a call returns *)

Lemma parse_string_loop_code (n : nat) : forall p,
  element_code (fst (parse_string_loop n p)) = true.
Proof.
  induction n as [|n IH]; intros p; cbn [parse_string_loop]; [reflexivity |].
  destruct (at_eos p); [reflexivity |].
  destruct (Ascii.eqb (peek_char p) ch_backslash).
  - destruct (at_eos (get_char p)); [reflexivity |].
    destruct (is_simple_escape (peek_char (get_char p))); [apply IH |].
    destruct (Ascii.eqb (peek_char (get_char p)) "u"); [| reflexivity].
    destruct (hex_digits 4 (get_char (get_char p))); [apply IH | reflexivity].
  - destruct (high_bit (peek_char p)); [reflexivity |].
    destruct (code (peek_char p) <? 32); [reflexivity |].
    destruct (Ascii.eqb (peek_char p) ch_quote); [reflexivity | apply IH].
Qed.

Lemma parse_string_code (p : parser) :
  element_code (fst (parse_string p)) = true.
Proof.
  unfold parse_string.
  destruct (at_eos p || negb (Ascii.eqb (peek_char p) ch_quote));
    [reflexivity |].
  destruct (init_token p MU_JSON_TOKEN_TYPE_STRING) as [[tok p1]|];
    [| reflexivity].
  pose proof (parse_string_loop_code (remaining (get_char p1)) (get_char p1))
    as Hloop.
  destruct (parse_string_loop _ _) as [err p3]. cbn [fst] in Hloop.
  destruct (is_none err) eqn:Herr; cbn [negb]; [| exact Hloop].
  destruct (at_eos p3); [reflexivity |].
  destruct (Ascii.eqb (peek_char p3) ch_quote); reflexivity.
Qed.

Lemma parse_number_code (p : parser) :
  element_code (fst (parse_number p)) = true.
Proof.
  unfold parse_number.
  repeat first
    [ reflexivity
    | match goal with
      | |- context [match init_token ?a ?b with _ => _ end] =>
          destruct (init_token a b) as [[? ?]|]
      | |- context [let '(_, _) := digits ?a in _] =>
          destruct (digits a) as [? ?]
      | |- context [if ?c then _ else _] => destruct c
      end; cbn [fst is_none negb] ].
Qed.

Lemma match_literal_code (literal : list ascii) : forall p,
  element_code (fst (match_literal literal p)) = true.
Proof.
  induction literal as [|c rest IH]; intros p; cbn; [reflexivity |].
  destruct (at_eos p); [reflexivity |].
  destruct (Ascii.eqb (peek_char p) c); cbn; [apply IH | reflexivity].
Qed.

Lemma parse_literal_code (p : parser) literal ty :
  element_code (fst (parse_literal p literal ty)) = true.
Proof.
  unfold parse_literal. destruct (at_eos p); [reflexivity |].
  destruct (init_token p ty) as [[tok p1]|]; [| reflexivity].
  pose proof (match_literal_code literal p1) as H.
  destruct (match_literal literal p1) as [err p2]. cbn [fst] in H.
  destruct (is_none err); cbn [negb]; [reflexivity | exact H].
Qed.

Lemma find_and_skip_code (p : parser) delimiter :
  element_code (fst (find_and_skip p delimiter)) = true.
Proof.
  unfold find_and_skip.
  destruct (at_eos (skip_whitespace p)); [reflexivity |].
  destruct (negb _); [reflexivity |].
  destruct (at_eos _); reflexivity.
Qed.

Ltac code_of H :=
  match type of H with
  | element_code (fst ?x) = true =>
      let e := fresh "err" in
      let q := fresh "q" in
      destruct x as [e q]; cbn [fst] in H
  end.

Lemma parse_mutual_code (fuel : nat) :
  (forall p e p', parse_element fuel p = Some (e, p') -> element_code e = true)
  /\ (forall p e p', parse_object fuel p = Some (e, p') ->
        element_code e = true)
  /\ (forall first p e p', parse_object_loop fuel first p = Some (e, p') ->
        element_code e = true)
  /\ (forall p e p', parse_array fuel p = Some (e, p') ->
        element_code e = true)
  /\ (forall first p e p', parse_array_loop fuel first p = Some (e, p') ->
        element_code e = true).
Proof.
  induction fuel as [|fuel (IHe & IHo & IHol & IHa & IHal)];
    [repeat split; intros; discriminate |].
  repeat split.
  - (* parse_element *)
    intros p e p'. cbn [parse_element].
    set (q := skip_whitespace p).
    pose proof (parse_string_code q) as Hs.
    pose proof (parse_number_code q) as Hn.
    pose proof (parse_literal_code q (list_ascii_of_string "true")
                  MU_JSON_TOKEN_TYPE_TRUE) as Ht.
    pose proof (parse_literal_code q (list_ascii_of_string "false")
                  MU_JSON_TOKEN_TYPE_FALSE) as Hf.
    pose proof (parse_literal_code q (list_ascii_of_string "null")
                  MU_JSON_TOKEN_TYPE_NULL) as Hnl.
    destruct (at_eos q); [intros [= <- <-]; reflexivity |].
    destruct (Ascii.eqb (peek_char q) ch_quote);
      [intros [= H]; apply (f_equal fst) in H; cbn [fst] in H; subst e;
       exact Hs |].
    destruct (is_digit (peek_char q) || Ascii.eqb (peek_char q) "-");
      [intros [= H]; apply (f_equal fst) in H; cbn [fst] in H; subst e;
       exact Hn |].
    destruct (Ascii.eqb (peek_char q) "t");
      [intros [= H]; apply (f_equal fst) in H; cbn [fst] in H; subst e;
       exact Ht |].
    destruct (Ascii.eqb (peek_char q) "f");
      [intros [= H]; apply (f_equal fst) in H; cbn [fst] in H; subst e;
       exact Hf |].
    destruct (Ascii.eqb (peek_char q) "n");
      [intros [= H]; apply (f_equal fst) in H; cbn [fst] in H; subst e;
       exact Hnl |].
    destruct (Ascii.eqb (peek_char q) "{"); [apply IHo |].
    destruct (Ascii.eqb (peek_char q) "["); [apply IHa |].
    destruct (high_bit (peek_char q)); intros [= <- <-]; reflexivity.
  - (* parse_object *)
    intros p e p'. cbn [parse_object].
    destruct (at_eos p || negb (Ascii.eqb (peek_char p) "{"));
      [intros [= <- <-]; reflexivity |].
    destruct (init_token p MU_JSON_TOKEN_TYPE_OBJECT) as [[tok p1]|];
      [| intros [= <- <-]; reflexivity].
    destruct (parse_object_loop fuel true _) as [[err p4]|] eqn:Hloop;
      [| discriminate].
    apply IHol in Hloop.
    destruct (is_none err); cbn [negb]; [| intros [= <- <-]; exact Hloop].
    destruct (at_eos p4); [intros [= <- <-]; reflexivity |].
    destruct (negb _); intros [= <- <-]; reflexivity.
  - (* parse_object_loop *)
    intros first p e p'. cbn [parse_object_loop].
    set (p1 := skip_whitespace p).
    destruct (at_eos p1); [intros [= <- <-]; reflexivity |].
    destruct (Ascii.eqb (peek_char p1) "}"); [intros [= <- <-]; reflexivity |].
    assert (Hsep : exists err p2,
      (if negb first then find_and_skip p1 ","
       else (MU_JSON_ERR_NONE, p1)) = (err, p2) /\ element_code err = true).
    { destruct first; cbn [negb].
      - eexists _, _. split; reflexivity.
      - pose proof (find_and_skip_code p1 ",") as H. code_of H.
        eexists _, _. split; [reflexivity | exact H]. }
    destruct Hsep as (err & p2 & -> & Herr).
    destruct (is_none err); cbn [negb]; [| intros [= <- <-]; exact Herr].
    pose proof (parse_string_code p2) as Hs. code_of Hs.
    destruct (is_none err0); cbn [negb]; [| intros [= <- <-]; exact Hs].
    pose proof (find_and_skip_code q ":") as Hc. code_of Hc.
    destruct (is_none err1); cbn [negb]; [| intros [= <- <-]; exact Hc].
    destruct (parse_element fuel q0) as [[err2 p5]|] eqn:Hel; [| discriminate].
    apply IHe in Hel.
    destruct (is_none err2); cbn [negb]; [| intros [= <- <-]; exact Hel].
    apply IHol.
  - (* parse_array *)
    intros p e p'. cbn [parse_array].
    destruct (at_eos p || negb (Ascii.eqb (peek_char p) "["));
      [intros [= <- <-]; reflexivity |].
    destruct (init_token p MU_JSON_TOKEN_TYPE_ARRAY) as [[tok p1]|];
      [| intros [= <- <-]; reflexivity].
    destruct (parse_array_loop fuel true _) as [[err p4]|] eqn:Hloop;
      [| discriminate].
    apply IHal in Hloop.
    destruct (is_none err); cbn [negb]; [| intros [= <- <-]; exact Hloop].
    destruct (at_eos p4); [intros [= <- <-]; reflexivity |].
    destruct (negb _); intros [= <- <-]; reflexivity.
  - (* parse_array_loop *)
    intros first p e p'. cbn [parse_array_loop].
    set (p1 := skip_whitespace p).
    destruct (at_eos p1); [intros [= <- <-]; reflexivity |].
    destruct (Ascii.eqb (peek_char p1) "]"); [intros [= <- <-]; reflexivity |].
    assert (Hsep : exists err p2,
      (if negb first then find_and_skip p1 ","
       else (MU_JSON_ERR_NONE, p1)) = (err, p2) /\ element_code err = true).
    { destruct first; cbn [negb].
      - eexists _, _. split; reflexivity.
      - pose proof (find_and_skip_code p1 ",") as H. code_of H.
        eexists _, _. split; [reflexivity | exact H]. }
    destruct Hsep as (err & p2 & -> & Herr).
    destruct (is_none err); cbn [negb]; [| intros [= <- <-]; exact Herr].
    destruct (parse_element fuel p2) as [[err2 p3]|] eqn:Hel; [| discriminate].
    apply IHe in Hel.
    destruct (is_none err2); cbn [negb]; [| intros [= <- <-]; exact Hel].
    apply IHal.
Qed.

(** X6: a call of the parser on a buffer of [len > 0] bytes with a
    token store of [max_tokens > 0] tokens always returns.  The value is
    the number of tokens, between 1 and [max_tokens], or one of seven
    error codes; [MU_JSON_ERR_NONE] (0), [MU_JSON_ERR_BAD_ARGUMENT] and
    [MU_JSON_ERR_TOO_DEEP] are never returned.  The store keeps its
    length. *)
Theorem parse_returns_count_or_code (s : list ascii) (len : Z)
    (tokens : list mu_json_token_t) (cap : Z) :
  0 < len <= Z.of_nat (length s) -> 0 < cap <= Z.of_nat (length tokens) ->
  exists v toks,
    mu_json_parse_buffer (Some s) len (Some tokens) cap = Returned v toks
    /\ length toks = length tokens
    /\ (1 <= v <= cap
        \/ exists e, v = err_value e
             /\ In e [MU_JSON_ERR_BAD_FORMAT; MU_JSON_ERR_INCOMPLETE;
                      MU_JSON_ERR_NO_ENTITIES; MU_JSON_ERR_STRAY_INPUT;
                      MU_JSON_ERR_NOT_ENOUGH_TOKENS; MU_JSON_ERR_NO_MULTIBYTE;
                      MU_JSON_ERR_INTERNAL]).
Proof.
  intros Hlen Hcap. unfold mu_json_parse_buffer, parse_json.
  destruct (Z.eqb_spec len 0); [lia |].
  destruct (Z.eqb_spec cap 0); [lia |].
  destruct (parser_reset _) as [p0|] eqn:Hreset.
  2: { rewrite parser_reset_initial in Hreset by assumption. discriminate. }
  destruct (parser_reset_inv _ _ Hreset) as (Hinv0 & _ & Hl0 & Hpos0 & Hmax0 & Hc0).
  cbn [p_str_len p_max_tokens] in Hl0, Hmax0.
  assert (Hlen0 : length (p_token_store p0) = length tokens).
  { rewrite parser_reset_initial in Hreset by assumption.
    injection Hreset as <-. cbn [p_token_store initial_parser].
    rewrite length_app, length_replicate, length_drop. lia. }
  destruct (parse_mutual_fuel (parse_fuel len)) as (Hfuel & _).
  destruct (Hfuel p0) as [[err p1] Hparse]; [lia | |].
  { unfold remaining, parse_fuel. rewrite Hl0, Hpos0. lia. }
  rewrite Hparse.
  destruct (parse_mutual_psteps (parse_fuel len)) as (Hsteps & _).
  assert (Hst : psteps p0 p1) by (eapply Hsteps; [lia | exact Hparse]).
  pose proof (psteps_pframe _ _ Hst) as Hframe.
  pose proof (psteps_inv _ _ Hst Hinv0) as Hinv1.
  destruct (parse_mutual_code (parse_fuel len)) as (Hcode & _).
  pose proof (Hcode _ _ _ Hparse) as Herr.
  assert (Hlen1 : length (p_token_store p1) = length tokens)
    by (rewrite (frame_length _ _ Hframe); exact Hlen0).
  destruct (is_none err) eqn:Hnone; cbn [negb].
  2: { eexists _, _. split; [reflexivity |]. split; [exact Hlen1 |].
       right. exists err. split; [reflexivity |].
       destruct err; try discriminate; cbn; tauto. }
  destruct (Z.eqb_spec (p_token_count p1) 0) as [Hzero | Hpos].
  { eexists _, _. split; [reflexivity |]. split; [exact Hlen1 |].
    right. exists MU_JSON_ERR_NO_ENTITIES. cbn. tauto. }
  destruct (at_eos (skip_whitespace p1)); cbn [negb].
  - eexists _, _. split; [reflexivity |].
    cbn [p_token_store p_token_count update_token set_store].
    rewrite length_alter, skip_whitespace_store, skip_whitespace_count.
    split; [exact Hlen1 |]. left.
    pose proof (inv_count _ Hinv1) as Hc1.
    rewrite (frame_max _ _ Hframe), Hmax0 in Hc1. lia.
  - eexists _, _. split; [reflexivity |].
    rewrite skip_whitespace_store. split; [exact Hlen1 |].
    right. exists MU_JSON_ERR_STRAY_INPUT. cbn. tauto.
Qed.

Lemma parse_returns_count_or_code_witness :
  exists v toks,
    mu_json_parse_buffer (Some (text "[1")) 2 (fresh_store 3) 3
    = Returned v toks
    /\ length toks = 3%nat
    /\ (1 <= v <= 3
        \/ exists e, v = err_value e
             /\ In e [MU_JSON_ERR_BAD_FORMAT; MU_JSON_ERR_INCOMPLETE;
                      MU_JSON_ERR_NO_ENTITIES; MU_JSON_ERR_STRAY_INPUT;
                      MU_JSON_ERR_NOT_ENOUGH_TOKENS; MU_JSON_ERR_NO_MULTIBYTE;
                      MU_JSON_ERR_INTERNAL]).
Proof.
  apply (parse_returns_count_or_code (text "[1") 2 (replicate 3 zero_token) 3);
    cbn; lia.
Defined.

(** ** The parser on inputs of a known shape *)

Lemma cursor_set_pos (p : parser) before mid after :
  cursor p before (mid ++ after) ->
  cursor (set_pos p (Z.of_nat (length before + length mid)))
         (before ++ mid) after.
Proof.
  intros (Hstr & Hpos & Hlen). repeat split; cbn.
  - rewrite Hstr, app_assoc. reflexivity.
  - rewrite length_app. reflexivity.
  - rewrite Hlen, app_assoc. reflexivity.
Qed.

Lemma cursor_skip_whitespace (ws : list ascii) : forall p before after,
  cursor p before (ws ++ after) -> forallb is_space ws = true ->
  match after with [] => True | c :: _ => is_space c = false end ->
  skip_whitespace p = set_pos p (Z.of_nat (length before + length ws)).
Proof.
  induction ws as [|w ws IH]; intros p before after Hcur Hws Hafter.
  - cbn [app length] in *. rewrite Nat.add_0_r.
    destruct Hcur as (Hstr & Hpos & Hlen) eqn:Hc.
    rewrite <- Hpos, set_pos_same. apply skip_whitespace_stop.
    destruct after as [|c after].
    + left. apply (cursor_at_end p before). exact (conj Hstr (conj Hpos Hlen)).
    + right.
      destruct (cursor_next p before c after (conj Hstr (conj Hpos Hlen)))
        as (_ & -> & _).
      exact Hafter.
  - cbn [forallb] in Hws. apply andb_true_iff in Hws. destruct Hws as [Hw Hws].
    cbn [app] in Hcur.
    destruct (cursor_next _ _ _ _ Hcur) as (Heos & Hpeek & Hnext).
    rewrite skip_whitespace_step by (rewrite ?Hpeek; assumption).
    rewrite (IH (get_char p) (before ++ [w]) after Hnext Hws Hafter).
    unfold get_char. rewrite set_pos_set_pos, length_app. cbn [length].
    f_equal. lia.
Qed.

(** X7: an input that holds nothing but whitespace (spaces, tabs, line
    feeds, carriage returns) is answered with [MU_JSON_ERR_NO_ENTITIES]. *)
Theorem blank_input_no_entities (ws : list ascii)
    (tokens : list mu_json_token_t) (cap : Z) :
  forallb is_space ws = true -> ws <> [] ->
  0 < cap <= Z.of_nat (length tokens) ->
  returns (mu_json_parse_buffer (Some ws) (Z.of_nat (length ws))
                                (Some tokens) cap)
          (err_value MU_JSON_ERR_NO_ENTITIES).
Proof.
  intros Hws Hne Hcap. unfold mu_json_parse_buffer, parse_json.
  set (len := Z.of_nat (length ws)).
  assert (Hlen : 0 < len) by (subst len; destruct ws; [contradiction | cbn; lia]).
  destruct (Z.eqb_spec len 0); [lia |].
  destruct (Z.eqb_spec cap 0); [lia |].
  rewrite parser_reset_initial by assumption.
  destruct (parse_fuel_S len) as [fuel ->]. cbn [parse_element].
  set (p0 := initial_parser ws len tokens cap).
  assert (Hcur : cursor p0 [] (ws ++ [])).
  { rewrite app_nil_r. repeat split. }
  rewrite (cursor_skip_whitespace ws p0 [] [] Hcur Hws I).
  apply cursor_set_pos in Hcur. rewrite (cursor_at_end _ _ Hcur).
  cbn. eexists. reflexivity.
Qed.

Lemma blank_input_no_entities_witness :
  returns (mu_json_parse_buffer (Some [" "; "009"; "010"; "013"]%char) 4
                                (fresh_store 1) 1)
          (err_value MU_JSON_ERR_NO_ENTITIES).
Proof.
  apply (blank_input_no_entities [" "; "009"; "010"; "013"]%char
           (replicate 1 zero_token) 1).
  - reflexivity.
  - discriminate.
  - cbn. lia.
Defined.

(** ** What the emitter writes, the parser reads *)

Lemma quoted_byte_cases (b : ascii) :
  (quoted_byte b = [b] /\ is_ordinary b = true)
  \/ (quoted_byte b = [ch_backslash; b] /\ is_simple_escape b = true)
  \/ (exists h1 h2,
        quoted_byte b = [ch_backslash; "u"; "0"; "0"; h1; h2]%char
        /\ is_hex h1 = true /\ is_hex h2 = true).
Proof.
  destruct b as [[] [] [] [] [] [] [] []];
    first
      [ left; split; vm_compute; reflexivity
      | right; left; split; vm_compute; reflexivity
      | right; right; eexists _, _;
        split; [vm_compute; reflexivity | split; vm_compute; reflexivity] ].
Qed.

(** One step of the loop of [parse_string] over an ordinary character. *)
Lemma parse_string_loop_step (n : nat) (p : parser) before c after :
  cursor p before (c :: after) -> is_ordinary c = true ->
  parse_string_loop (S n) p = parse_string_loop n (get_char p).
Proof.
  intros Hcur Hc. destruct (cursor_next _ _ _ _ Hcur) as (Heos & Hpeek & _).
  cbn [parse_string_loop]. rewrite Heos, Hpeek.
  unfold is_ordinary in Hc.
  destruct (Ascii.eqb c ch_backslash); [discriminate |].
  destruct (high_bit c); [discriminate |].
  destruct (code c <? 32); [discriminate |].
  destruct (Ascii.eqb c ch_quote); [discriminate | reflexivity].
Qed.

(** The loop of [parse_string] over an escaped byte sequence that is
    followed by the closing quote. *)
Lemma parse_string_loop_quoted (l : list ascii) : forall n p before after,
  cursor p before (concat (map quoted_byte l) ++ ch_quote :: after) ->
  (length (concat (map quoted_byte l)) < n)%nat ->
  parse_string_loop n p
  = (MU_JSON_ERR_NONE,
     set_pos p (Z.of_nat (length before
                          + length (concat (map quoted_byte l))))).
Proof.
  induction l as [|b l IH]; intros n p before after Hcur Hn.
  - cbn [map concat app length] in *. rewrite Nat.add_0_r.
    destruct Hcur as (Hstr & Hpos & Hlen) eqn:Hc. rewrite <- Hpos, set_pos_same.
    destruct (cursor_next p before _ _ (conj Hstr (conj Hpos Hlen)))
      as (Heos & Hpeek & _).
    destruct n as [|n]; [lia |]. cbn [parse_string_loop].
    rewrite Heos, Hpeek. reflexivity.
  - cbn [map concat] in *. rewrite length_app in *.
    rewrite <- app_assoc in Hcur.
    destruct (quoted_byte_cases b)
      as [[Hq Hord] | [[Hq Hesc] | (h1 & h2 & Hq & Hh1 & Hh2)]];
      rewrite Hq in *; cbn [app length] in *.
    + (* an ordinary character *)
      destruct n as [|n]; [lia |].
      rewrite (parse_string_loop_step n p before b _ Hcur Hord).
      destruct (cursor_next _ _ _ _ Hcur) as (_ & _ & Hnext).
      rewrite (IH n (get_char p) (before ++ [b]) after Hnext) by lia.
      unfold get_char. rewrite set_pos_set_pos, length_app. cbn [length].
      do 2 f_equal. lia.
    + (* a backslash and a quote or a backslash *)
      destruct n as [|n]; [lia |].
      destruct (cursor_next _ _ _ _ Hcur) as (Heos & Hpeek & Hnext).
      destruct (cursor_next _ _ _ _ Hnext) as (Heos1 & Hpeek1 & Hnext1).
      cbn [parse_string_loop]. rewrite Heos, Hpeek.
      change (Ascii.eqb ch_backslash ch_backslash) with true. cbn iota.
      rewrite Heos1, Hpeek1, Hesc.
      rewrite (IH n (get_char (get_char p)) ((before ++ [ch_backslash]) ++ [b])
                 after Hnext1) by lia.
      unfold get_char. rewrite !set_pos_set_pos, !length_app. cbn [length].
      do 2 f_equal. lia.
    + (* a [\u00xx] escape *)
      destruct n as [|n]; [lia |].
      destruct (cursor_next _ _ _ _ Hcur) as (Heos & Hpeek & Hc1).
      destruct (cursor_next _ _ _ _ Hc1) as (Heos1 & Hpeek1 & Hc2).
      destruct (cursor_next _ _ _ _ Hc2) as (Heos2 & Hpeek2 & Hc3).
      destruct (cursor_next _ _ _ _ Hc3) as (Heos3 & Hpeek3 & Hc4).
      destruct (cursor_next _ _ _ _ Hc4) as (Heos4 & Hpeek4 & Hc5).
      destruct (cursor_next _ _ _ _ Hc5) as (Heos5 & Hpeek5 & Hc6).
      cbn [parse_string_loop]. rewrite Heos, Hpeek.
      change (Ascii.eqb ch_backslash ch_backslash) with true. cbn iota.
      rewrite Heos1, Hpeek1. cbn [is_simple_escape Ascii.eqb orb].
      change (is_simple_escape "u") with false.
      change (Ascii.eqb "u" "u") with true. cbn iota.
      cbn [hex_digits].
      rewrite Heos2, Hpeek2, Heos3, Hpeek3, Heos4, Hpeek4, Heos5, Hpeek5.
      rewrite Hh1, Hh2. cbn [is_hex orb negb].
      change (is_hex "0") with true. cbn [orb negb].
      rewrite (IH n _ _ after Hc6) by lia.
      unfold get_char. rewrite !set_pos_set_pos, !length_app. cbn [length].
      do 2 f_equal. lia.
Qed.

Lemma cursor_store (p : parser) st before after :
  cursor p before after -> cursor (set_store p st) before after.
Proof. intros H. exact H. Qed.

Lemma parse_string_quoted (l : list ascii) (p : parser) before after tok p0 :
  cursor p before (ch_quote :: concat (map quoted_byte l) ++ ch_quote :: after)
  ->
  init_token p MU_JSON_TOKEN_TYPE_STRING = Some (tok, p0) ->
  parse_string p
  = (MU_JSON_ERR_NONE,
     finalize_token
       (set_pos p0 (Z.of_nat (length before
                              + length (concat (map quoted_byte l)) + 2)))
       tok).
Proof.
  intros Hcur Hinit.
  destruct (cursor_next _ _ _ _ Hcur) as (Heos & Hpeek & _).
  unfold parse_string. rewrite Heos, Hpeek, Hinit.
  change (Ascii.eqb ch_quote ch_quote) with true. cbn [negb orb].
  pose proof (cursor_init_token _ _ _ _ _ _ Hinit Hcur) as Hcur0.
  destruct (cursor_next _ _ _ _ Hcur0) as (_ & _ & Hcur1).
  rewrite (parse_string_loop_quoted l _ (get_char p0) (before ++ [ch_quote])
             after Hcur1).
  2: { destruct Hcur1 as (_ & Hpos & Hlen). unfold remaining.
       rewrite Hlen, Hpos, !length_app. cbn [length]. lia. }
  cbn [is_none negb].
  apply cursor_set_pos in Hcur1.
  destruct (cursor_next _ _ _ _ Hcur1) as (-> & -> & _).
  change (Ascii.eqb ch_quote ch_quote) with true. cbn [negb].
  unfold get_char. cbn [p_str_pos set_pos]. rewrite !set_pos_set_pos.
  do 3 f_equal. rewrite length_app. cbn [length]. lia.
Qed.

Lemma fresh_string_written (l0 : mu_jems_level_t) ls m (string : list ascii) :
  written (mu_jems_string (mu_jems_init (l0 :: ls) m) string)
  = ch_quote :: quoted_string string ++ [ch_quote].
Proof. rewrite mu_jems_init_state, mu_jems_string_state. reflexivity. Qed.

(** X8: what [mu_jems_string] writes on a fresh emitter, for any
    string, is accepted by the parser as one token: a string token that
    starts at offset 0, is as long as the output (within the 16 bits of the
    length field), lies at depth 0 and is the last token. *)
Theorem emitted_string_parses (l0 : mu_jems_level_t)
    (ls : list mu_jems_level_t) (m : Z) (string : list ascii)
    (tokens : list mu_json_token_t) (cap : Z) :
  0 < cap <= Z.of_nat (length tokens) ->
  let out := written (mu_jems_string (mu_jems_init (l0 :: ls) m) string) in
  exists toks,
    mu_json_parse_buffer (Some out) (Z.of_nat (length out)) (Some tokens) cap
    = Returned 1 toks
    /\ toks !! 0%nat
       = Some (mk_token (Some 0) (Z.of_nat (length out) mod 2 ^ 16)
                        MU_JSON_TOKEN_TYPE_STRING 0 true).
Proof.
  intros Hcap. cbv zeta. rewrite fresh_string_written.
  unfold quoted_string. set (body := concat (map quoted_byte (c_string string))).
  set (out := ch_quote :: body ++ [ch_quote]).
  unfold mu_json_parse_buffer, parse_json.
  set (len := Z.of_nat (length out)).
  assert (Hlen : len = Z.of_nat (length body) + 2).
  { subst len out. cbn [length]. rewrite length_app. cbn [length]. lia. }
  destruct (Z.eqb_spec len 0); [lia |].
  destruct (Z.eqb_spec cap 0); [lia |].
  rewrite parser_reset_initial by assumption.
  destruct (parse_fuel_S len) as [fuel ->]. cbn [parse_element].
  set (p0 := initial_parser out len tokens cap).
  assert (Hcur : cursor p0 [] (ch_quote :: body ++ [ch_quote]))
    by (repeat split).
  destruct (cursor_next _ _ _ _ Hcur) as (Heos & Hpeek & _).
  rewrite skip_whitespace_stop by (right; rewrite Hpeek; reflexivity).
  rewrite Heos, Hpeek. change (Ascii.eqb ch_quote ch_quote) with true.
  cbn iota.
  destruct (init_token p0 MU_JSON_TOKEN_TYPE_STRING) as [[tok p1]|] eqn:Hinit.
  2: { unfold init_token, alloc_token in Hinit. cbn in Hinit.
       destruct (Z.leb_spec cap 0); [lia | discriminate]. }
  rewrite (parse_string_quoted (c_string string) p0 [] [] tok p1 Hcur Hinit).
  fold body. cbn [is_none negb length Nat.add].
  pose proof (init_token_count _ _ _ _ Hinit)
    as (_ & Htok & Hcount & Hpos1 & Hlen1 & Hstr1 & _).
  pose proof (init_token_store _ _ _ _ Hinit) as Hstore.
  cbn [p_token_count p_str_pos p_str_len p_str p0 initial_parser p_token_store
       p_level] in Htok, Hcount, Hpos1, Hlen1, Hstr1, Hstore.
  subst tok. cbn [Z.to_nat] in *.
  set (p2 := finalize_token _ _).
  assert (Hc2 : p_token_count p2 = 1) by (cbn; lia).
  assert (Heos2 : at_eos p2 = true).
  { apply at_eos_true. cbn. rewrite Hlen1. lia. }
  rewrite Hc2. cbn [Z.eqb].
  rewrite skip_whitespace_stop by (left; exact Heos2).
  rewrite Heos2, Hc2. cbn [negb]. change (Z.to_nat (1 - 1)) with 0%nat.
  eexists. split; [apply f_equal2; [exact Hc2 | reflexivity] |].
  subst p2. cbn [p_token_store update_token finalize_token set_store set_pos
                 ref_char p_str_pos].
  rewrite Hstore, !list_lookup_alter_eq.
  rewrite lookup_app_l
    by (rewrite length_replicate; lia).
  rewrite lookup_replicate_2 by lia.
  unfold set_token_is_last, set_token_string_length. cbn.
  rewrite Hlen. do 3 f_equal. lia.
Qed.

Lemma emitted_string_parses_witness :
  let out :=
    written (mu_jems_string (mu_jems_init [zero_level] 1)
                            (text "a'\b" ++ ["007"%char])) in
  exists toks,
    mu_json_parse_buffer (Some out) (Z.of_nat (length out)) (fresh_store 1) 1
    = Returned 1 toks
    /\ toks !! 0%nat
       = Some (mk_token (Some 0) (Z.of_nat (length out) mod 2 ^ 16)
                        MU_JSON_TOKEN_TYPE_STRING 0 true).
Proof.
  apply (emitted_string_parses zero_level [] 1
           (text "a'\b" ++ ["007"%char]) (replicate 1 zero_token) 1).
  cbn. lia.
Defined.

(** ** The shape of the token store after a successful parse *)

Lemma csteps_refl tok (p : parser) : csteps tok p p.
Proof. apply rtc_refl. Qed.

Lemma csteps_trans tok (p q r : parser) :
  csteps tok p q -> csteps tok q r -> csteps tok p r.
Proof. apply rtc_trans. Qed.

Lemma csteps_get_char tok (p : parser) :
  at_eos p = false -> csteps tok p (get_char p).
Proof. intros H. apply rtc_once. constructor. exact H. Qed.

Lemma csteps_set_number tok (p : parser) :
  csteps tok p
    (update_token p tok (fun t => set_token_type t MU_JSON_TOKEN_TYPE_NUMBER)).
Proof. apply rtc_once. constructor. discriminate. Qed.

Lemma csteps_finalize tok (p : parser) : csteps tok p (finalize_token p tok).
Proof. apply rtc_once. constructor. Qed.

Lemma hex_digits_csteps tok (k : nat) : forall p p',
  hex_digits k p = Some p' -> csteps tok p p'.
Proof.
  induction k as [|k IH]; intros p p'; cbn.
  - intros [= <-]. apply csteps_refl.
  - destruct (at_eos p) eqn:Heos; cbn; [discriminate |].
    destruct (is_hex (peek_char p)); cbn; [| discriminate].
    intros H. eapply csteps_trans; [apply csteps_get_char; exact Heos |].
    apply IH. exact H.
Qed.

Lemma parse_string_loop_csteps tok (n : nat) : forall p p',
  parse_string_loop n p = (MU_JSON_ERR_NONE, p') -> csteps tok p p'.
Proof.
  induction n as [|n IH]; intros p p'; cbn [parse_string_loop].
  - intros [= <-]. apply csteps_refl.
  - destruct (at_eos p) eqn:Heos; [intros [= <-]; apply csteps_refl |].
    pose proof (csteps_get_char tok p Heos) as H1.
    destruct (Ascii.eqb (peek_char p) ch_backslash).
    + destruct (at_eos (get_char p)) eqn:Heos1; [discriminate |].
      pose proof (csteps_get_char tok _ Heos1) as H2.
      destruct (is_simple_escape (peek_char (get_char p))).
      * intros H. apply IH in H.
        eapply csteps_trans; [exact H1 |].
        eapply csteps_trans; [exact H2 | exact H].
      * destruct (Ascii.eqb (peek_char (get_char p)) "u"); [| discriminate].
        destruct (hex_digits 4 (get_char (get_char p))) as [p2|] eqn:Hhex;
          [| discriminate].
        intros H. apply IH in H. apply (hex_digits_csteps tok) in Hhex.
        eapply csteps_trans; [exact H1 |].
        eapply csteps_trans; [exact H2 |].
        eapply csteps_trans; [exact Hhex | exact H].
    + destruct (high_bit (peek_char p)); [discriminate |].
      destruct (code (peek_char p) <? 32); [discriminate |].
      destruct (Ascii.eqb (peek_char p) ch_quote);
        [intros [= <-]; apply csteps_refl |].
      intros H. apply IH in H. eapply csteps_trans; eassumption.
Qed.

Lemma digits_loop_csteps tok (n : nat) : forall seen p seen' p',
  digits_loop n seen p = (seen', p') -> csteps tok p p'.
Proof.
  induction n as [|n IH]; intros seen p seen' p'; cbn.
  - intros [= <- <-]. apply csteps_refl.
  - destruct (at_eos p) eqn:Heos; [intros [= <- <-]; apply csteps_refl |].
    destruct ((code "0" <=? code (peek_char p))
              && (code (peek_char p) <=? code "9"));
      [| intros [= <- <-]; apply csteps_refl].
    intros H. apply IH in H.
    eapply csteps_trans; [apply csteps_get_char; exact Heos | exact H].
Qed.

Lemma digits_csteps tok (p : parser) seen p' :
  digits p = (seen, p') -> csteps tok p p'.
Proof. apply digits_loop_csteps. Qed.

Lemma match_literal_csteps tok (literal : list ascii) : forall p p',
  match_literal literal p = (MU_JSON_ERR_NONE, p') -> csteps tok p p'.
Proof.
  induction literal as [|c rest IH]; intros p p'; cbn.
  - intros [= <-]. apply csteps_refl.
  - destruct (at_eos p) eqn:Heos; [discriminate |].
    destruct (Ascii.eqb (peek_char p) c); cbn; [| discriminate].
    intros H. apply IH in H.
    eapply csteps_trans; [apply csteps_get_char; exact Heos | exact H].
Qed.

Lemma touched_refl tok (p : parser) : touched tok p p.
Proof.
  constructor; try reflexivity; try lia.
  intros t Ht. exists t. repeat split; auto; lia.
Qed.

Lemma touched_trans tok (p q r : parser) :
  touched tok p q -> touched tok q r -> touched tok p r.
Proof.
  intros [Hs Hl Hm Hc Hv Hp Ho Ht] [Hs' Hl' Hm' Hc' Hv' Hp' Ho' Ht'].
  constructor; try congruence; try lia.
  - intros i Hi. rewrite Ho', Ho by assumption. reflexivity.
  - intros t Hlook. destruct (Ht t Hlook)
      as (t1 & Hlook1 & Hstr1 & Hlev1 & Hlast1 & Hty1 & Hlen1).
    destruct (Ht' t1 Hlook1)
      as (t2 & Hlook2 & Hstr2 & Hlev2 & Hlast2 & Hty2 & Hlen2).
    exists t2.
    split; [exact Hlook2 |]. split; [congruence |]. split; [congruence |].
    split; [congruence |]. split; [auto |].
    intros o Hso H0 Hend. destruct (Hlen1 o Hso H0 Hend) as [H1 H1'].
    apply (Hlen2 o); [congruence | exact H1 | exact H1'].
Qed.

Lemma cstep_touched tok (p q : parser) : cstep tok p q -> touched tok p q.
Proof.
  intros [p0 Heos | p0 ty Hty | p0].
  - apply at_eos_false in Heos.
    constructor; cbn; try reflexivity; try lia.
    intros t Ht. exists t.
    split; [exact Ht |]. split; [reflexivity |]. split; [reflexivity |].
    split; [reflexivity |]. split; [auto |]. intros o _ H0 Hend. lia.
  - constructor; cbn; try reflexivity; try lia.
    + intros i Hi. apply list_lookup_alter_ne. congruence.
    + intros t Ht. rewrite list_lookup_alter_eq, Ht. cbn.
      eexists. split; [reflexivity |]. cbn.
      split; [reflexivity |]. split; [reflexivity |]. split; [reflexivity |].
      split; [intros _; exact Hty |]. intros o _ H0 Hend. lia.
  - constructor; cbn; try reflexivity; try lia.
    + intros i Hi. apply list_lookup_alter_ne. congruence.
    + intros t Ht. rewrite list_lookup_alter_eq, Ht. cbn.
      eexists. split; [reflexivity |]. cbn.
      split; [reflexivity |]. split; [reflexivity |]. split; [reflexivity |].
      split; [auto |].
      intros o Hso H0 Hend. rewrite Hso. cbn. unfold ref_char.
      assert (Hnn : 0 <= p_str_pos p0 - o) by lia.
      pose proof (Z.mod_le (p_str_pos p0 - o) (2 ^ 16) Hnn ltac:(lia)).
      pose proof (Z.mod_pos_bound (p_str_pos p0 - o) (2 ^ 16) ltac:(lia)).
      lia.
Qed.

Lemma csteps_touched tok (p q : parser) : csteps tok p q -> touched tok p q.
Proof.
  induction 1 as [| p q r Hpq _ IH]; [apply touched_refl |].
  eapply touched_trans; [apply cstep_touched; exact Hpq | exact IH].
Qed.

(** A scalar that succeeds draws its token first and works on it alone. *)
Lemma parse_string_scalar (p p' : parser) :
  parse_string p = (MU_JSON_ERR_NONE, p') ->
  exists tok p0,
    init_token p MU_JSON_TOKEN_TYPE_STRING = Some (tok, p0)
    /\ csteps tok p0 p'.
Proof.
  intros H. apply parse_string_success in H.
  destruct H as (tok & p1 & p3 & Heos & _ & Hinit & Hloop & Heos3 & _ & ->).
  exists tok, p1. split; [exact Hinit |].
  pose proof (init_token_at_eos _ _ _ _ Hinit) as [Heos1 _].
  rewrite Heos in Heos1.
  eapply csteps_trans; [apply csteps_get_char; exact Heos1 |].
  eapply csteps_trans; [exact (parse_string_loop_csteps tok _ _ _ Hloop) |].
  eapply csteps_trans; [apply csteps_get_char; exact Heos3 |].
  apply csteps_finalize.
Qed.

Lemma parse_literal_scalar (p p' : parser) literal ty :
  parse_literal p literal ty = (MU_JSON_ERR_NONE, p') ->
  exists tok p0, init_token p ty = Some (tok, p0) /\ csteps tok p0 p'.
Proof.
  unfold parse_literal. destruct (at_eos p); [discriminate |].
  destruct (init_token p ty) as [[tok p1]|]; [| discriminate].
  destruct (match_literal literal p1) as [err p2] eqn:Hlit.
  destruct err; cbn [is_none negb]; try discriminate.
  intros [= <-]. exists tok, p1. split; [reflexivity |].
  eapply csteps_trans; [exact (match_literal_csteps tok _ _ _ Hlit) |].
  apply csteps_finalize.
Qed.

Lemma parse_number_scalar (p p' : parser) :
  parse_number p = (MU_JSON_ERR_NONE, p') ->
  exists tok p0,
    init_token p MU_JSON_TOKEN_TYPE_INTEGER = Some (tok, p0)
    /\ csteps tok p0 p'.
Proof.
  intros H. apply parse_number_success in H.
  destruct H as (tok & p0 & hi & p3 & p6 & Heos & _ & Hinit & H).
  cbn zeta in H.
  destruct H as (Heos1 & _ & Hint & _ & Hfrac & Hexp).
  exists tok, p0. split; [exact Hinit |].
  pose proof (init_token_at_eos _ _ _ _ Hinit) as [Heos0 _].
  rewrite Heos in Heos0.
  set (p1 := if Ascii.eqb (peek_char p0) "-" then get_char p0 else p0) in *.
  set (p2 := if Ascii.eqb (peek_char p1) "0" then get_char p1 else p1) in *.
  assert (H1 : csteps tok p0 p1).
  { subst p1. destruct (Ascii.eqb (peek_char p0) "-");
      [apply csteps_get_char; exact Heos0 | apply csteps_refl]. }
  assert (H2 : csteps tok p1 p2).
  { subst p2. destruct (Ascii.eqb (peek_char p1) "0");
      [apply csteps_get_char; exact Heos1 | apply csteps_refl]. }
  apply (digits_csteps tok) in Hint.
  assert (H3 : csteps tok p0 p3).
  { eapply csteps_trans; [exact H1 |].
    eapply csteps_trans; [exact H2 | exact Hint]. }
  assert (H6 : csteps tok p0 p6).
  { destruct Hfrac as [[_ ->] | (Heos3 & _ & Hd)]; [exact H3 |].
    apply (digits_csteps tok) in Hd.
    eapply csteps_trans; [exact H3 |].
    eapply csteps_trans; [apply csteps_set_number |].
    eapply csteps_trans; [apply csteps_get_char; exact Heos3 | exact Hd]. }
  destruct Hexp as [[_ ->] | (Heos6 & _ & Hrest)].
  - eapply csteps_trans; [exact H6 | apply csteps_finalize].
  - cbn zeta in Hrest. destruct Hrest as (p10 & Hd & ->).
    apply (digits_csteps tok) in Hd.
    eapply csteps_trans; [exact H6 |].
    eapply csteps_trans; [apply csteps_set_number |].
    eapply csteps_trans; [apply csteps_get_char; exact Heos6 |].
    eapply csteps_trans; [| eapply csteps_trans;
                             [exact Hd | apply csteps_finalize]].
    match goal with
    | |- csteps _ ?a (if ?c then _ else _) => destruct c eqn:Hc
    end; [| apply csteps_refl].
    apply csteps_get_char. apply andb_true_iff in Hc. destruct Hc as [Hc _].
    apply negb_true_iff in Hc. exact Hc.
Qed.

Lemma scalar_built (p p0 p' : parser) ty tok :
  init_token p ty = Some (tok, p0) -> csteps tok p0 p' ->
  ty <> MU_JSON_TOKEN_TYPE_UNKNOWN -> p_str_pos p < p_str_pos p' ->
  0 <= p_token_count p -> fresh p -> level_fits p ->
  built p p' /\ one_root p p'.
Proof.
  intros Hinit Hsteps Hty Hpos Hc Hfresh Hfits.
  pose proof (init_token_count _ _ _ _ Hinit)
    as (Hlt & Htok & Hcount & Hpos0 & _ & _ & Hlevel0 & Hmax0).
  pose proof (init_token_store _ _ _ _ Hinit) as Hstore.
  assert (Htokc : Z.of_nat tok = p_token_count p) by lia.
  assert (Hzero : p_token_store p !! tok = Some zero_token)
    by (apply Hfresh; lia).
  assert (Ht0 : p_token_store p0 !! tok
                = Some (mk_token (Some (p_str_pos p)) 0 ty
                                 (p_level p mod 2 ^ 11) false)).
  { rewrite Hstore, list_lookup_alter_eq, Hzero. reflexivity. }
  destruct (csteps_touched _ _ _ Hsteps) as [_ _ Hm' Hc' Hv' Hp' Ho' Ht'].
  destruct (Ht' _ Ht0) as (t' & Hlook & Hstr & Hlev & Hlast & Htype & Hlen).
  cbn [str level is_last type str_len] in Hstr, Hlev, Hlast, Htype, Hlen.
  destruct (Hlen (p_str_pos p) eq_refl ltac:(lia) ltac:(lia)) as [Hlen0 Hend].
  unfold level_fits in Hfits. rewrite Z.mod_small in Hlev by lia.
  split; [constructor |].
  - congruence.
  - congruence.
  - lia.
  - lia.
  - intros i Hi. assert (i <> tok) by lia.
    rewrite Ho', Hstore by assumption. apply list_lookup_alter_ne. congruence.
  - intros i Hi. assert (i = tok) by lia. subst i.
    exists t'. split; [exact Hlook |].
    exists (p_str_pos p). repeat split; auto; lia.
  - intros _. rewrite <- Htokc, Nat2Z.id. unfold token_at. rewrite Hlook.
    exact Hlev.
  - intros i Hi1 Hi2. lia.
  - intros i Hi. lia.
Qed.

(** A call that only moves the read position forward. *)
Lemma set_pos_built (p : parser) (k : Z) :
  p_str_pos p <= k -> built p (set_pos p k).
Proof.
  intros Hk. constructor; cbn; try reflexivity; lia.
Qed.

Lemma skip_whitespace_built (p : parser) : built p (skip_whitespace p).
Proof.
  rewrite skip_whitespace_set_pos. apply set_pos_built.
  apply psteps_pos, skip_whitespace_psteps.
Qed.

Lemma built_token_at (p q : parser) (i : nat) :
  built p q ->
  Z.of_nat i < p_token_count p \/ p_token_count q <= Z.of_nat i ->
  token_at (p_token_store q) i = token_at (p_token_store p) i.
Proof.
  intros H Hi. unfold token_at. rewrite (built_frame _ _ H) by exact Hi.
  reflexivity.
Qed.

Lemma token_within_weaken lo hi depth lo' hi' depth' t :
  token_within lo hi depth t -> lo' <= lo -> hi <= hi' -> depth' <= depth ->
  token_within lo' hi' depth' t.
Proof.
  intros (o & Hs & Ho & Hl & He & Hty & Hlv & Hlast) H1 H2 H3.
  exists o. repeat split; auto; lia.
Qed.

Lemma built_level_ge (p q : parser) (i : nat) :
  built p q -> p_token_count p <= Z.of_nat i < p_token_count q ->
  p_level p <= level (token_at (p_token_store q) i)
  /\ p_str_pos p <= start (p_token_store q) i < p_str_pos q.
Proof.
  intros H Hi. destruct (built_tokens _ _ H i Hi) as (t & Hlook & Hw).
  destruct Hw as (o & Hs & Ho & _ & _ & _ & Hlv & _).
  unfold start, token_at. rewrite Hlook. cbn. rewrite Hs. cbn. lia.
Qed.

Lemma built_trans (p q r : parser) :
  0 <= p_token_count p -> built p q -> built q r -> built p r.
Proof.
  intros Hc0 Hpq Hqr.
  pose proof (built_level _ _ Hpq) as Hl1.
  pose proof (built_pos _ _ Hpq) as Hp1.
  pose proof (built_count _ _ Hpq) as Hc1.
  pose proof (built_level _ _ Hqr) as Hl2.
  pose proof (built_pos _ _ Hqr) as Hp2.
  pose proof (built_count _ _ Hqr) as Hc2.
  pose proof (built_max _ _ Hpq) as Hm1.
  pose proof (built_max _ _ Hqr) as Hm2.
  constructor.
  - congruence.
  - congruence.
  - lia.
  - lia.
  - intros i Hi.
    rewrite (built_frame _ _ Hqr) by lia. apply (built_frame _ _ Hpq). lia.
  - intros i Hi.
    destruct (Z.lt_ge_cases (Z.of_nat i) (p_token_count q)) as [Hlt | Hge].
    + destruct (built_tokens _ _ Hpq i ltac:(lia)) as (t & Hlook & Hw).
      exists t. split.
      * rewrite (built_frame _ _ Hqr) by lia. exact Hlook.
      * eapply token_within_weaken; [exact Hw | lia | lia | lia].
    + destruct (built_tokens _ _ Hqr i ltac:(lia)) as (t & Hlook & Hw).
      exists t. split; [exact Hlook |].
      eapply token_within_weaken; [exact Hw | lia | lia | lia].
  - intros Hlt.
    destruct (Z.lt_ge_cases (p_token_count p) (p_token_count q)) as [Hn | He].
    + rewrite (built_token_at q r) by (try assumption; lia).
      apply (built_first _ _ Hpq Hn).
    + assert (Heq : p_token_count q = p_token_count p) by lia.
      rewrite <- Heq, <- Hl1. apply (built_first _ _ Hqr). lia.
  - intros i Hi1 Hi2.
    destruct (Z.lt_ge_cases (Z.of_nat i + 1) (p_token_count q)) as [Hlt | Hge].
    + rewrite !(built_token_at q r) by (try assumption; lia).
      unfold start. rewrite !(built_token_at q r) by (try assumption; lia).
      apply (built_adjacent _ _ Hpq i); lia.
    + destruct (Z.lt_ge_cases (Z.of_nat i) (p_token_count q)) as [Hlt | Hge'].
      * (* the last token of the first call, the first of the second *)
        assert (Hsi : S i = Z.to_nat (p_token_count q)) by lia.
        pose proof (built_first _ _ Hqr ltac:(lia)) as Hfirst.
        rewrite <- Hsi in Hfirst.
        destruct (built_level_ge q r (S i) Hqr ltac:(lia)) as [_ Hstart].
        destruct (built_level_ge p q i Hpq ltac:(lia)) as [Hlev Hstart'].
        unfold start in *.
        rewrite (built_token_at q r i) by (try assumption; lia).
        lia.
      * apply (built_adjacent _ _ Hqr i); lia.
Qed.

Lemma ready_built (p q : parser) : ready p -> built p q -> ready q.
Proof.
  intros (Hc & Hfresh & Hfits) H. split; [| split].
  - pose proof (built_count _ _ H). lia.
  - intros i Hi. rewrite (built_max _ _ H) in Hi.
    rewrite (built_frame _ _ H) by lia.
    apply Hfresh. pose proof (built_count _ _ H). lia.
  - unfold level_fits. rewrite (built_level _ _ H). exact Hfits.
Qed.

Lemma find_and_skip_built (p p' : parser) delimiter :
  find_and_skip p delimiter = (MU_JSON_ERR_NONE, p') -> built p p'.
Proof.
  intros H. pose proof (find_and_skip_psteps _ _ _ _ H) as Hsteps.
  apply psteps_pos in Hsteps.
  unfold find_and_skip in H.
  destruct (at_eos (skip_whitespace p)); [discriminate |].
  destruct (negb _); [discriminate |].
  destruct (at_eos _); [discriminate |].
  injection H as <-.
  rewrite skip_whitespace_set_pos. unfold get_char.
  rewrite (skip_whitespace_set_pos p), !set_pos_set_pos.
  apply set_pos_built.
  rewrite skip_whitespace_set_pos in Hsteps. unfold get_char in Hsteps.
  rewrite (skip_whitespace_set_pos p), !set_pos_set_pos in Hsteps.
  exact Hsteps.
Qed.

(** The depth of a token that is drawn does not change any more. *)
Lemma pstep_level_frame (q r : parser) (i : nat) :
  pstep q r -> Z.of_nat i < p_token_count q ->
  level (token_at (p_token_store r) i) = level (token_at (p_token_store q) i).
Proof.
  intros [p H | p ty tok p' H | p tok f H | p l H] Hi.
  - reflexivity.
  - pose proof (init_token_count _ _ _ _ H) as (_ & -> & _).
    rewrite (init_token_store _ _ _ _ H), token_at_alter.
    destruct (decide (Z.to_nat (p_token_count p) = i)); [lia | reflexivity].
  - cbn. rewrite token_at_alter.
    destruct (decide (tok = i)) as [-> |]; [| reflexivity].
    unfold token_at. destruct (p_token_store p !! i); [apply H | reflexivity].
  - reflexivity.
Qed.

Lemma psteps_level_frame (q r : parser) (i : nat) :
  psteps q r -> Z.of_nat i < p_token_count q ->
  level (token_at (p_token_store r) i) = level (token_at (p_token_store q) i).
Proof.
  induction 1 as [| p q r Hpq _ IH]; [reflexivity |].
  intros Hi. rewrite IH.
  - apply pstep_level_frame; assumption.
  - apply pstep_pframe in Hpq. destruct Hpq. lia.
Qed.

Lemma shallow_back (q r : parser) : psteps q r -> shallow r -> shallow q.
Proof.
  intros Hsteps Hr i Hi.
  rewrite <- (psteps_level_frame q r i Hsteps Hi).
  apply Hr. apply psteps_pframe in Hsteps. destruct Hsteps. lia.
Qed.

(** A container: its token is drawn, its members are parsed one level
    down, and the token is closed once the closing bracket is consumed. *)
Lemma container_built (p p1 p4 : parser) ty tok :
  init_token p ty = Some (tok, p1) -> ty <> MU_JSON_TOKEN_TYPE_UNKNOWN ->
  ready p ->
  built (get_char (set_level p1 (p_level p1 + 1))) p4 ->
  let p' := finalize_token
              (set_level (get_char p4) (p_level (get_char p4) - 1)) tok in
  built p p' /\ one_root p p'.
Proof.
  intros Hinit Hty (Hc & Hfresh & Hfits) B p'.
  pose proof (init_token_count _ _ _ _ Hinit)
    as (Hlt & Htok & Hcount & Hpos1 & _ & _ & Hlevel1 & Hmax1).
  pose proof (init_token_store _ _ _ _ Hinit) as Hstore.
  assert (Htokc : Z.of_nat tok = p_token_count p) by lia.
  assert (Hzero : p_token_store p !! tok = Some zero_token)
    by (apply Hfresh; lia).
  unfold level_fits in Hfits.
  set (p3 := get_char (set_level p1 (p_level p1 + 1))) in *.
  assert (Hc3 : p_token_count p3 = p_token_count p + 1) by exact Hcount.
  assert (Hpos3 : p_str_pos p3 = p_str_pos p + 1) by (cbn; lia).
  assert (Hlev3 : p_level p3 = p_level p + 1) by (cbn; lia).
  assert (Hst3 : p_token_store p3 = p_token_store p1) by reflexivity.
  pose proof (built_level _ _ B) as Hl4.
  pose proof (built_max _ _ B) as Hm4.
  pose proof (built_pos _ _ B) as Hp4.
  pose proof (built_count _ _ B) as Hc4.
  assert (Ht4 : p_token_store p4 !! tok
                = Some (mk_token (Some (p_str_pos p)) 0 ty (p_level p) false)).
  { rewrite (built_frame _ _ B) by lia.
    rewrite Hst3, Hstore, list_lookup_alter_eq, Hzero. cbn.
    rewrite Z.mod_small by lia. reflexivity. }
  set (len := (p_str_pos p4 + 1 - p_str_pos p) mod 2 ^ 16).
  assert (Hlen : 0 <= len <= p_str_pos p4 + 1 - p_str_pos p).
  { subst len.
    pose proof (Z.mod_pos_bound (p_str_pos p4 + 1 - p_str_pos p) (2 ^ 16)
                  ltac:(lia)).
    pose proof (Z.mod_le (p_str_pos p4 + 1 - p_str_pos p) (2 ^ 16)
                  ltac:(lia) ltac:(lia)).
    lia. }
  assert (Ht' : p_token_store p' !! tok
                = Some (mk_token (Some (p_str_pos p)) len ty (p_level p)
                                 false)).
  { subst p'. cbn [p_token_store finalize_token update_token set_store].
    rewrite list_lookup_alter_eq. cbn [p_token_store set_level get_char set_pos].
    rewrite Ht4. reflexivity. }
  assert (Hother : forall i : nat, i <> tok ->
            p_token_store p' !! i = p_token_store p4 !! i).
  { intros i Hi. subst p'. cbn. apply list_lookup_alter_ne. congruence. }
  assert (Hother_at : forall i : nat, i <> tok ->
            token_at (p_token_store p') i = token_at (p_token_store p4) i).
  { intros i Hi. unfold token_at. rewrite Hother by exact Hi. reflexivity. }
  assert (Hat' : token_at (p_token_store p') tok
                 = mk_token (Some (p_str_pos p)) len ty (p_level p) false).
  { unfold token_at. rewrite Ht'. reflexivity. }
  assert (Hc' : p_token_count p' = p_token_count p4) by reflexivity.
  assert (Hpos' : p_str_pos p' = p_str_pos p4 + 1) by reflexivity.
  assert (Hmax3 : p_max_tokens p3 = p_max_tokens p) by exact Hmax1.
  split; [constructor |].
  - cbn. lia.
  - cbn. congruence.
  - lia.
  - lia.
  - intros i Hi. rewrite Hother by lia.
    rewrite (built_frame _ _ B) by lia.
    rewrite Hst3, Hstore. apply list_lookup_alter_ne. lia.
  - intros i Hi.
    destruct (decide (i = tok)) as [-> | Hne].
    + eexists. split; [exact Ht' |].
      exists (p_str_pos p). cbn [str str_len type level is_last].
      repeat split; auto; lia.
    + destruct (built_tokens _ _ B i ltac:(lia)) as (t & Hlook & Hw).
      exists t. split; [rewrite Hother by exact Hne; exact Hlook |].
      eapply token_within_weaken; [exact Hw | lia | lia | lia].
  - intros _. rewrite <- Htokc, Nat2Z.id, Hat'. reflexivity.
  - intros i Hi1 Hi2.
    destruct (decide (i = tok)) as [-> | Hne].
    + assert (Hsi : S tok = Z.to_nat (p_token_count p3)) by lia.
      pose proof (built_first _ _ B ltac:(lia)) as Hfirst.
      rewrite <- Hsi in Hfirst.
      destruct (built_level_ge p3 p4 (S tok) B ltac:(lia)) as [_ Hstart].
      unfold start in *. rewrite Hat', (Hother_at (S tok)) by lia.
      cbn [level str default from_option id]. lia.
    + unfold start. rewrite !Hother_at by lia.
      apply (built_adjacent _ _ B i); lia.
  - intros i Hi. rewrite Hother_at by lia.
    destruct (built_level_ge p3 p4 i B ltac:(lia)) as [Hlev _]. lia.
Qed.

Lemma container_ready (p p1 p4 : parser) ty tok :
  init_token p ty = Some (tok, p1) -> ready p ->
  at_eos p4 = false ->
  psteps (get_char (set_level p1 (p_level p1 + 1))) p4 ->
  shallow (finalize_token
             (set_level (get_char p4) (p_level (get_char p4) - 1)) tok) ->
  ready (get_char (set_level p1 (p_level p1 + 1))) /\ shallow p4.
Proof.
  intros Hinit (Hc & Hfresh & Hfits) Heos4 Hsteps Hshallow.
  pose proof (init_token_count _ _ _ _ Hinit)
    as (Hlt & Htok & Hcount & Hpos1 & _ & _ & Hlevel1 & Hmax1).
  pose proof (init_token_store _ _ _ _ Hinit) as Hstore.
  assert (Hzero : p_token_store p !! tok = Some zero_token)
    by (apply Hfresh; lia).
  unfold level_fits in Hfits.
  set (p3 := get_char (set_level p1 (p_level p1 + 1))) in *.
  assert (Hc3 : p_token_count p3 = p_token_count p + 1) by exact Hcount.
  pose proof (psteps_pframe _ _ Hsteps) as Hframe.
  pose proof (frame_count _ _ Hframe) as Hc4.
  assert (Hclose : psteps p4
            (finalize_token
               (set_level (get_char p4) (p_level (get_char p4) - 1)) tok)).
  { apply container_close_psteps; [lia | exact Heos4 | apply psteps_refl]. }
  pose proof (shallow_back _ _ Hclose Hshallow) as Hsh4.
  split; [| exact Hsh4].
  assert (Hlev : level (token_at (p_token_store p4) tok) = p_level p).
  { rewrite (psteps_level_frame p3 p4 tok Hsteps) by lia.
    unfold token_at. change (p_token_store p3) with (p_token_store p1).
    rewrite Hstore, list_lookup_alter_eq, Hzero. cbn.
    apply Z.mod_small. lia. }
  pose proof (Hsh4 tok ltac:(lia)) as Hbound. rewrite Hlev in Hbound.
  split; [lia | split].
  - intros i Hi. change (p_token_store p3) with (p_token_store p1).
    rewrite Hstore, list_lookup_alter_ne by lia.
    apply Hfresh. change (p_max_tokens p3) with (p_max_tokens p1) in Hi. lia.
  - unfold level_fits. change (p_level p3) with (p_level p1 + 1). lia.
Qed.

Lemma one_root_after (p q r : parser) :
  built p q -> p_token_count q = p_token_count p ->
  one_root q r -> one_root p r.
Proof.
  intros B Hc H i Hi. rewrite <- (built_level _ _ B). apply H. lia.
Qed.

Ltac succeeded H :=
  match type of H with
  | context [is_none ?e] =>
      let Hn := fresh "Hnone" in
      destruct (is_none e) eqn:Hn; cbn [negb] in H;
      [| injection H as H _; rewrite H in Hn; discriminate Hn];
      apply is_none_true in Hn; subst e
  end.

Lemma built_refl (p : parser) : built p p.
Proof. rewrite <- (set_pos_same p) at 2. apply set_pos_built. lia. Qed.

Lemma scalar_element (p1 p0 p' : parser) ty tok :
  init_token p1 ty = Some (tok, p0) -> csteps tok p0 p' ->
  ty <> MU_JSON_TOKEN_TYPE_UNKNOWN -> p_str_pos p1 < p_str_pos p' ->
  ready p1 -> built p1 p' /\ one_root p1 p'.
Proof.
  intros Hinit Hsteps Hty Hpos (Hc & Hfresh & Hfits).
  exact (scalar_built p1 p0 p' ty tok Hinit Hsteps Hty Hpos Hc Hfresh Hfits).
Qed.

Lemma separator_built (first : bool) (p1 p2 : parser) :
  (if negb first then find_and_skip p1 ","
   else (MU_JSON_ERR_NONE, p1)) = (MU_JSON_ERR_NONE, p2) ->
  built p1 p2.
Proof.
  destruct first; cbn [negb].
  - intros [= <-]. apply built_refl.
  - apply find_and_skip_built.
Qed.

Lemma parse_mutual_built (fuel : nat) :
  (forall p p', parse_element fuel p = Some (MU_JSON_ERR_NONE, p') ->
     ready p -> shallow p' -> built p p' /\ one_root p p')
  /\ (forall p p', parse_object fuel p = Some (MU_JSON_ERR_NONE, p') ->
        ready p -> shallow p' -> built p p' /\ one_root p p')
  /\ (forall first p p',
        parse_object_loop fuel first p = Some (MU_JSON_ERR_NONE, p') ->
        ready p -> shallow p' -> built p p')
  /\ (forall p p', parse_array fuel p = Some (MU_JSON_ERR_NONE, p') ->
        ready p -> shallow p' -> built p p' /\ one_root p p')
  /\ (forall first p p',
        parse_array_loop fuel first p = Some (MU_JSON_ERR_NONE, p') ->
        ready p -> shallow p' -> built p p').
Proof.
  induction fuel as [|fuel (IHe & IHo & IHol & IHa & IHal)];
    [repeat split; intros; discriminate |].
  destruct (parse_mutual_psteps fuel) as (Pe & Po & Pol & Pa & Pal).
  split; [| split; [| split; [| split]]].
  - (* parse_element *)
    intros p p' H Hready Hsh. cbn [parse_element] in H.
    pose proof (skip_whitespace_built p) as Bws.
    pose proof (skip_whitespace_count p) as Hcws.
    pose proof (ready_built _ _ Hready Bws) as Hready1.
    pose proof Hready as (Hc & _ & _).
    set (p1 := skip_whitespace p) in *.
    assert (Hfin : built p1 p' /\ one_root p1 p' ->
                   built p p' /\ one_root p p').
    { intros [B R]. split; [exact (built_trans _ _ _ Hc Bws B) |].
      exact (one_root_after _ _ _ Bws Hcws R). }
    destruct (at_eos p1).
    { injection H as <-. split; [exact Bws |]. intros i Hi. lia. }
    destruct (Ascii.eqb (peek_char p1) ch_quote).
    { injection H as H. apply Hfin.
      destruct (parse_string_scalar _ _ H) as (tok & p0 & Hinit & Hsteps).
      apply (scalar_element p1 p0 p' _ tok Hinit Hsteps);
        [discriminate | exact (parse_string_consumes _ _ H) | exact Hready1]. }
    destruct (is_digit (peek_char p1) || Ascii.eqb (peek_char p1) "-").
    { injection H as H. apply Hfin.
      destruct (parse_number_scalar _ _ H) as (tok & p0 & Hinit & Hsteps).
      apply (scalar_element p1 p0 p' _ tok Hinit Hsteps);
        [discriminate | exact (parse_number_consumes _ _ H) | exact Hready1]. }
    destruct (Ascii.eqb (peek_char p1) "t").
    { injection H as H. apply Hfin.
      destruct (parse_literal_scalar _ _ _ _ H) as (tok & p0 & Hinit & Hsteps).
      apply (scalar_element p1 p0 p' _ tok Hinit Hsteps);
        [discriminate
        | eapply parse_literal_consumes; [| exact H]; discriminate
        | exact Hready1]. }
    destruct (Ascii.eqb (peek_char p1) "f").
    { injection H as H. apply Hfin.
      destruct (parse_literal_scalar _ _ _ _ H) as (tok & p0 & Hinit & Hsteps).
      apply (scalar_element p1 p0 p' _ tok Hinit Hsteps);
        [discriminate
        | eapply parse_literal_consumes; [| exact H]; discriminate
        | exact Hready1]. }
    destruct (Ascii.eqb (peek_char p1) "n").
    { injection H as H. apply Hfin.
      destruct (parse_literal_scalar _ _ _ _ H) as (tok & p0 & Hinit & Hsteps).
      apply (scalar_element p1 p0 p' _ tok Hinit Hsteps);
        [discriminate
        | eapply parse_literal_consumes; [| exact H]; discriminate
        | exact Hready1]. }
    destruct (Ascii.eqb (peek_char p1) "{").
    { apply Hfin. exact (IHo p1 p' H Hready1 Hsh). }
    destruct (Ascii.eqb (peek_char p1) "[").
    { apply Hfin. exact (IHa p1 p' H Hready1 Hsh). }
    destruct (high_bit (peek_char p1)); discriminate.
  - (* parse_object *)
    intros p p' H Hready Hsh. cbn [parse_object] in H.
    destruct (at_eos p) eqn:Heos; cbn [orb] in H; [discriminate |].
    destruct (Ascii.eqb (peek_char p) "{"); cbn [negb] in H; [| discriminate].
    destruct (init_token p MU_JSON_TOKEN_TYPE_OBJECT) as [[tok p1]|] eqn:Hinit;
      [| discriminate].
    destruct (parse_object_loop fuel true _) as [[err p4]|] eqn:Hloop;
      [| discriminate].
    succeeded H.
    destruct (at_eos p4) eqn:Heos4; [discriminate |].
    destruct (Ascii.eqb (peek_char p4) "}"); cbn [negb] in H; [| discriminate].
    injection H as <-.
    pose proof Hready as (Hc & _ & _).
    pose proof (init_token_count _ _ _ _ Hinit) as (_ & _ & Hcount & _).
    assert (Hsteps : psteps (get_char (set_level p1 (p_level p1 + 1))) p4).
    { eapply Pol; [| exact Hloop]. cbn. lia. }
    destruct (container_ready p p1 p4 _ tok Hinit Hready Heos4 Hsteps Hsh)
      as [Hready3 Hsh4].
    pose proof (IHol true _ _ Hloop Hready3 Hsh4) as B.
    exact (container_built p p1 p4 _ tok Hinit ltac:(discriminate) Hready B).
  - (* parse_object_loop *)
    intros first p p' H Hready Hsh. cbn [parse_object_loop] in H.
    pose proof (skip_whitespace_built p) as Bws.
    pose proof (ready_built _ _ Hready Bws) as Hready1.
    pose proof Hready as (Hc & _ & _).
    set (p1 := skip_whitespace p) in *.
    destruct (at_eos p1); [injection H as <-; exact Bws |].
    destruct (Ascii.eqb (peek_char p1) "}"); [injection H as <-; exact Bws |].
    match type of H with
    | context [if negb first then ?a else ?b] =>
        destruct (if negb first then a else b) as [err2 p2] eqn:Hsep
    end.
    succeeded H. apply separator_built in Hsep.
    pose proof (ready_built _ _ Hready1 Hsep) as Hready2.
    destruct (parse_string p2) as [err3 p3] eqn:Hkey. succeeded H.
    assert (B23 : built p2 p3).
    { destruct (parse_string_scalar _ _ Hkey) as (tok & p0 & Hinit & Hsteps).
      apply (scalar_element p2 p0 p3 _ tok Hinit Hsteps);
        [discriminate | exact (parse_string_consumes _ _ Hkey)
        | exact Hready2]. }
    pose proof (ready_built _ _ Hready2 B23) as Hready3.
    destruct (find_and_skip p3 ":") as [err4 p4] eqn:Hcolon. succeeded H.
    apply find_and_skip_built in Hcolon.
    pose proof (ready_built _ _ Hready3 Hcolon) as Hready4.
    destruct (parse_element fuel p4) as [[err5 p5]|] eqn:Hval;
      [| discriminate].
    succeeded H.
    pose proof Hready4 as (Hc4 & _ & _).
    pose proof (Pe _ _ _ Hc4 Hval) as Hs45.
    pose proof (psteps_count _ _ Hs45 Hc4) as Hc5.
    pose proof (Pol _ _ _ _ Hc5 H) as Hs5.
    pose proof (shallow_back _ _ Hs5 Hsh) as Hsh5.
    destruct (IHe p4 p5 Hval Hready4 Hsh5) as [B45 _].
    pose proof (ready_built _ _ Hready4 B45) as Hready5.
    pose proof (IHol false p5 p' H Hready5 Hsh) as B5.
    pose proof Hready1 as (Hc1 & _ & _).
    pose proof Hready2 as (Hc2 & _ & _).
    pose proof Hready3 as (Hc3 & _ & _).
    apply (built_trans _ _ _ Hc Bws).
    apply (built_trans _ _ _ Hc1 Hsep).
    apply (built_trans _ _ _ Hc2 B23).
    apply (built_trans _ _ _ Hc3 Hcolon).
    apply (built_trans _ _ _ Hc4 B45). exact B5.
  - (* parse_array *)
    intros p p' H Hready Hsh. cbn [parse_array] in H.
    destruct (at_eos p) eqn:Heos; cbn [orb] in H; [discriminate |].
    destruct (Ascii.eqb (peek_char p) "["); cbn [negb] in H; [| discriminate].
    destruct (init_token p MU_JSON_TOKEN_TYPE_ARRAY) as [[tok p1]|] eqn:Hinit;
      [| discriminate].
    destruct (parse_array_loop fuel true _) as [[err p4]|] eqn:Hloop;
      [| discriminate].
    succeeded H.
    destruct (at_eos p4) eqn:Heos4; [discriminate |].
    destruct (Ascii.eqb (peek_char p4) "]"); cbn [negb] in H; [| discriminate].
    injection H as <-.
    pose proof Hready as (Hc & _ & _).
    pose proof (init_token_count _ _ _ _ Hinit) as (_ & _ & Hcount & _).
    assert (Hsteps : psteps (get_char (set_level p1 (p_level p1 + 1))) p4).
    { eapply Pal; [| exact Hloop]. cbn. lia. }
    destruct (container_ready p p1 p4 _ tok Hinit Hready Heos4 Hsteps Hsh)
      as [Hready3 Hsh4].
    pose proof (IHal true _ _ Hloop Hready3 Hsh4) as B.
    exact (container_built p p1 p4 _ tok Hinit ltac:(discriminate) Hready B).
  - (* parse_array_loop *)
    intros first p p' H Hready Hsh. cbn [parse_array_loop] in H.
    pose proof (skip_whitespace_built p) as Bws.
    pose proof (ready_built _ _ Hready Bws) as Hready1.
    pose proof Hready as (Hc & _ & _).
    set (p1 := skip_whitespace p) in *.
    destruct (at_eos p1); [injection H as <-; exact Bws |].
    destruct (Ascii.eqb (peek_char p1) "]"); [injection H as <-; exact Bws |].
    match type of H with
    | context [if negb first then ?a else ?b] =>
        destruct (if negb first then a else b) as [err2 p2] eqn:Hsep
    end.
    succeeded H. apply separator_built in Hsep.
    pose proof (ready_built _ _ Hready1 Hsep) as Hready2.
    destruct (parse_element fuel p2) as [[err3 p3]|] eqn:Hval;
      [| discriminate].
    succeeded H.
    pose proof Hready2 as (Hc2 & _ & _).
    pose proof (Pe _ _ _ Hc2 Hval) as Hs23.
    pose proof (psteps_count _ _ Hs23 Hc2) as Hc3.
    pose proof (Pal _ _ _ _ Hc3 H) as Hs3.
    pose proof (shallow_back _ _ Hs3 Hsh) as Hsh3.
    destruct (IHe p2 p3 Hval Hready2 Hsh3) as [B23 _].
    pose proof (ready_built _ _ Hready2 B23) as Hready3.
    pose proof (IHal false p3 p' H Hready3 Hsh) as B3.
    pose proof Hready1 as (Hc1 & _ & _).
    apply (built_trans _ _ _ Hc Bws).
    apply (built_trans _ _ _ Hc1 Hsep).
    apply (built_trans _ _ _ Hc2 B23). exact B3.
Qed.

Lemma token_at_mark_last (st : list mu_json_token_t) (k i : nat) :
  level (token_at (alter (fun t => set_token_is_last t true) k st) i)
  = level (token_at st i)
  /\ str (token_at (alter (fun t => set_token_is_last t true) k st) i)
     = str (token_at st i).
Proof.
  rewrite token_at_alter. destruct (decide (k = i)) as [-> |]; [| auto].
  unfold token_at. destruct (st !! i); auto.
Qed.

(** A successful parse, as a call of [parse_element] in the state that
    [parser_reset] leaves. *)
Lemma parse_success_built (s : list ascii) len tokens cap n toks :
  mu_json_parse_buffer (Some s) len (Some tokens) cap = Returned n toks ->
  0 < n -> 0 < len -> below_depth_limit n toks ->
  exists p1,
    built (initial_parser s len tokens cap) p1
    /\ one_root (initial_parser s len tokens cap) p1
    /\ n = p_token_count p1 /\ n <= cap /\ p_str_pos p1 <= len
    /\ 0 < cap <= Z.of_nat (length tokens)
    /\ toks = alter (fun t => set_token_is_last t true) (Z.to_nat (n - 1))
                    (p_token_store p1).
Proof.
  unfold mu_json_parse_buffer. intros H Hn Hlen Hdepth.
  destruct (parse_json_success _ _ _ _ _ _ H Hn)
    as (s' & tokens' & p0 & p1 & [= <-] & [= <-] & Hreset & Hparse & _
        & -> & ->).
  assert (Hcap : 0 < cap <= Z.of_nat (length tokens)).
  { unfold parse_json in H. destruct (Z.eqb_spec len 0); [lia |].
    destruct (Z.eqb_spec cap 0) as [-> |].
    { injection H as H _. cbn in H. lia. }
    unfold parser_reset, memset_tokens in Hreset. cbn in Hreset.
    destruct (Z.leb_spec 0 cap); cbn in Hreset; [| discriminate].
    destruct (Z.leb_spec cap (Z.of_nat (length tokens))); [lia | discriminate]. }
  destruct (parser_reset_inv _ _ Hreset) as (Hinv0 & _).
  rewrite parser_reset_initial in Hreset by exact Hcap.
  injection Hreset as <-.
  set (p0 := initial_parser s len tokens cap) in *.
  assert (Hready : ready p0).
  { split; [cbn; lia | split].
    - intros i Hi. cbn in Hi |- *.
      rewrite lookup_app_l by (rewrite length_replicate; lia).
      apply lookup_replicate_2. lia.
    - unfold level_fits. cbn. lia. }
  assert (Hsteps : psteps p0 p1).
  { destruct (parse_mutual_psteps (parse_fuel len)) as (He & _).
    eapply He; [cbn; lia | exact Hparse]. }
  assert (Hsh : shallow p1).
  { intros i Hi. specialize (Hdepth i Hi).
    destruct (token_at_mark_last (p_token_store p1)
                (Z.to_nat (p_token_count p1 - 1)) i) as [Hl _].
    rewrite Hl in Hdepth. exact Hdepth. }
  destruct (parse_mutual_built (parse_fuel len)) as (Be & _).
  destruct (Be p0 p1 Hparse Hready Hsh) as [B R].
  exists p1. split; [exact B |]. split; [exact R |].
  split; [reflexivity |].
  pose proof (inv_count _ (psteps_inv _ _ Hsteps Hinv0)) as Hc1.
  apply psteps_pframe in Hsteps.
  rewrite (frame_max _ _ Hsteps) in Hc1.
  split; [exact (proj2 Hc1) |].
  split; [| split; [exact Hcap | reflexivity]].
  apply (frame_pos_len _ _ Hsteps). cbn. lia.
Qed.

Lemma parse_success_extents (s : list ascii) (len : Z)
    (tokens : list mu_json_token_t) (cap n : Z)
    (toks : list mu_json_token_t) :
  mu_json_parse_buffer (Some s) len (Some tokens) cap = Returned n toks ->
  0 < n -> 0 < len -> below_depth_limit n toks ->
  (forall i : nat, Z.of_nat i < n ->
     exists t o, toks !! i = Some t /\ str t = Some o
       /\ 0 <= o < len /\ 0 <= str_len t /\ o + str_len t <= len
       /\ type t <> MU_JSON_TOKEN_TYPE_UNKNOWN)
  /\ (forall i : nat, Z.of_nat i + 1 < n -> start toks i < start toks (S i))
  /\ (forall i : nat, n <= Z.of_nat i < cap -> toks !! i = Some zero_token)
  /\ (forall i : nat, cap <= Z.of_nat i -> toks !! i = tokens !! i).
Proof.
  intros H Hn Hlen Hdepth.
  destruct (parse_success_built _ _ _ _ _ _ H Hn Hlen Hdepth)
    as (p1 & B & _ & -> & Hc1 & Hpos & Hcap & ->).
  set (p0 := initial_parser s len tokens cap) in *.
  split; [| split; [| split]].
  - intros i Hi.
    destruct (built_tokens _ _ B i) as (t & Hlook & Hw); [cbn; lia |].
    destruct Hw as (o & Hs & Ho & Hl & He & Hty & _ & _).
    cbn [p_str_pos p0 initial_parser] in Ho.
    destruct (decide (Z.to_nat (p_token_count p1 - 1) = i)) as [Heq | Hne];
      [rewrite Heq, list_lookup_alter_eq, Hlook
      | rewrite list_lookup_alter_ne, Hlook by exact Hne];
      cbn; eexists _, o; (split; [reflexivity |]); cbn;
      repeat split; auto; lia.
  - intros i Hi.
    destruct (built_adjacent _ _ B i) as [_ Hst]; [cbn; lia | lia |].
    unfold start in *.
    destruct (token_at_mark_last (p_token_store p1)
                (Z.to_nat (p_token_count p1 - 1)) i) as [_ ->].
    destruct (token_at_mark_last (p_token_store p1)
                (Z.to_nat (p_token_count p1 - 1)) (S i)) as [_ ->].
    exact Hst.
  - intros i Hi. rewrite list_lookup_alter_ne by lia.
    rewrite (built_frame _ _ B) by lia. cbn.
    rewrite lookup_app_l by (rewrite length_replicate; lia).
    apply lookup_replicate_2. lia.
  - intros i Hi. rewrite list_lookup_alter_ne by lia.
    rewrite (built_frame _ _ B) by lia. cbn.
    rewrite lookup_app_r by (rewrite length_replicate; lia).
    rewrite length_replicate, lookup_drop. f_equal. lia.
Qed.

(** X9: after a successful parse whose nesting stayed below the
    depth limit, each of the [n] tokens has a known type and refers to a
    part of the input: it starts inside the buffer and ends inside it.
    The tokens are in the order of their first bytes.  The rest of the
    store is untouched beyond [max_tokens] and zero from [n] to
    [max_tokens]. *)
Theorem parsed_tokens_lie_in_input (s : list ascii) (len : Z)
    (tokens : list mu_json_token_t) (cap n : Z)
    (toks : list mu_json_token_t) :
  mu_json_parse_buffer (Some s) len (Some tokens) cap = Returned n toks ->
  0 < n -> 0 < len -> below_depth_limit n toks ->
  (forall i : nat, Z.of_nat i < n ->
     exists t o, toks !! i = Some t /\ str t = Some o
       /\ 0 <= o < len /\ 0 <= str_len t /\ o + str_len t <= len
       /\ type t <> MU_JSON_TOKEN_TYPE_UNKNOWN)
  /\ (forall i : nat, Z.of_nat i + 1 < n -> start toks i < start toks (S i))
  /\ (forall i : nat, n <= Z.of_nat i < cap -> toks !! i = Some zero_token)
  /\ (forall i : nat, cap <= Z.of_nat i -> toks !! i = tokens !! i).
Proof.
  intros H Hn Hlen Hdepth.
  exact (parse_success_extents s len tokens cap n toks
           H Hn Hlen Hdepth).
Qed.

Lemma tokens_of_1_2_below_depth_limit : below_depth_limit 3 tokens_of_1_2.
Proof.
  intros i Hi. destruct i as [|[|[|i]]]; [reflexivity .. | lia].
Qed.

Lemma parsed_tokens_lie_in_input_witness :
  start tokens_of_1_2 1 < start tokens_of_1_2 2.
Proof.
  destruct (parsed_tokens_lie_in_input (text "[1, 2]") 6
              (replicate 4 zero_token) 4 3 tokens_of_1_2)
    as (_ & H & _).
  - vm_compute. reflexivity.
  - lia.
  - lia.
  - exact tokens_of_1_2_below_depth_limit.
  - apply (H 1%nat). lia.
Defined.

Lemma parse_success_depth_first (s : list ascii) (len : Z)
    (tokens : list mu_json_token_t) (cap n : Z)
    (toks : list mu_json_token_t) :
  mu_json_parse_buffer (Some s) len (Some tokens) cap = Returned n toks ->
  0 < n -> 0 < len -> below_depth_limit n toks -> depth_first n toks.
Proof.
  intros H Hn Hlen Hdepth.
  destruct (parse_success_built _ _ _ _ _ _ H Hn Hlen Hdepth)
    as (p1 & B & R & -> & Hc1 & Hpos & Hcap & ->).
  set (k := Z.to_nat (p_token_count p1 - 1)).
  split; [| split].
  - destruct (token_at_mark_last (p_token_store p1) k 0) as [-> _].
    apply (built_first _ _ B). exact Hn.
  - intros i Hi.
    destruct (token_at_mark_last (p_token_store p1) k i) as [-> _].
    apply (R i). cbn. lia.
  - intros i Hi.
    destruct (token_at_mark_last (p_token_store p1) k i) as [-> _].
    destruct (token_at_mark_last (p_token_store p1) k (S i)) as [-> _].
    apply (built_adjacent _ _ B i); [cbn; lia | lia].
Qed.

(** X10: after a successful parse whose nesting stayed below the depth
    limit, the tokens are laid out depth first: the first token is at
    depth 0 and is the only one there, and from one token to the next the
    depth goes up by one at most. *)
Theorem parsed_tokens_depth_first (s : list ascii) (len : Z)
    (tokens : list mu_json_token_t) (cap n : Z)
    (toks : list mu_json_token_t) :
  mu_json_parse_buffer (Some s) len (Some tokens) cap = Returned n toks ->
  0 < n -> 0 < len -> below_depth_limit n toks ->
  level (token_at toks 0) = 0
  /\ (forall i : nat, 0 < Z.of_nat i < n -> 0 < level (token_at toks i))
  /\ (forall i : nat, Z.of_nat i + 1 < n ->
        level (token_at toks (S i)) <= level (token_at toks i) + 1).
Proof.
  intros H Hn Hlen Hdepth.
  exact (parse_success_depth_first s len tokens cap n toks H Hn Hlen Hdepth).
Qed.

Lemma parsed_tokens_depth_first_witness :
  level (token_at tokens_of_1_2 0) = 0.
Proof.
  apply (parsed_tokens_depth_first (text "[1, 2]") 6
           (replicate 4 zero_token) 4 3 tokens_of_1_2).
  - vm_compute. reflexivity.
  - lia.
  - lia.
  - exact tokens_of_1_2_below_depth_limit.
Defined.

(** ** Navigation in the token store of a successful parse *)

Lemma deref_of_nat (toks : list mu_json_token_t) (i : nat) :
  deref toks (Z.of_nat i) = token_at toks i.
Proof.
  unfold deref. destruct (Z.ltb_spec (Z.of_nat i) 0); [lia |].
  rewrite Nat2Z.id. reflexivity.
Qed.

Lemma find_root_loop_first (toks : list mu_json_token_t) (i : nat) :
  forall fuel : nat, (i < fuel)%nat ->
  level (token_at toks 0) = 0 ->
  (forall j : nat, (0 < j <= i)%nat -> 0 < level (token_at toks j)) ->
  find_root_loop fuel toks (Z.of_nat i) = Some 0.
Proof.
  induction i as [|i IH]; intros fuel Hfuel H0 Hpos;
    (destruct fuel as [|fuel]; [lia |]); cbn [find_root_loop];
    unfold token_is_first; rewrite deref_of_nat.
  - rewrite H0. reflexivity.
  - destruct (Z.eqb_spec (level (token_at toks (S i))) 0) as [Hz |].
    + specialize (Hpos (S i) ltac:(lia)). lia.
    + replace (Z.of_nat (S i) - 1) with (Z.of_nat i) by lia.
      apply IH; [lia | exact H0 |]. intros j Hj. apply Hpos. lia.
Qed.

(** X11: in the token store of a successful parse whose nesting stayed
    below the depth limit, [mu_json_find_root_token] leads from every
    token to the first token of the store. *)
Theorem find_root_is_first_token (s : list ascii) (len : Z)
    (tokens : list mu_json_token_t) (cap n : Z)
    (toks : list mu_json_token_t) (t : Z) :
  mu_json_parse_buffer (Some s) len (Some tokens) cap = Returned n toks ->
  0 < n -> 0 < len -> below_depth_limit n toks -> 0 <= t < n ->
  mu_json_find_root_token toks (Some t) = Some 0.
Proof.
  intros H Hn Hlen Hdepth Ht.
  destruct (parse_success_depth_first _ _ _ _ _ _ H Hn Hlen Hdepth)
    as (H0 & Hpos & _).
  unfold mu_json_find_root_token.
  rewrite <- (Z2Nat.id t) at 2 by lia.
  apply find_root_loop_first; [lia | exact H0 |].
  intros j Hj. apply Hpos. lia.
Qed.

Lemma find_root_is_first_token_witness :
  mu_json_find_root_token tokens_of_1_2 (Some 2) = Some 0.
Proof.
  apply (find_root_is_first_token (text "[1, 2]") 6
           (replicate 4 zero_token) 4 3 tokens_of_1_2 2).
  - vm_compute. reflexivity.
  - lia.
  - lia.
  - exact tokens_of_1_2_below_depth_limit.
  - lia.
Defined.

Lemma find_parent_loop_up (toks : list mu_json_token_t) (target : Z)
    (t : nat) :
  level (token_at toks 0) = 0 -> 0 <= target ->
  (forall j : nat, (j < t)%nat ->
     level (token_at toks (S j)) <= level (token_at toks j) + 1) ->
  forall (c fuel : nat), (c < fuel)%nat -> (c < t)%nat ->
    (forall k : nat, (c < k <= t)%nat -> target < level (token_at toks k)) ->
    exists u : nat,
      find_parent_loop fuel toks target (Z.of_nat c) = Some (Z.of_nat u)
      /\ (u <= c)%nat /\ level (token_at toks u) = target
      /\ (forall k : nat, (u < k <= t)%nat ->
            target < level (token_at toks k)).
Proof.
  intros H0 Htarget Hadj.
  induction c as [|c IH]; intros fuel Hfuel Hc Hinv;
    (destruct fuel as [|fuel]; [lia |]); cbn [find_parent_loop];
    rewrite deref_of_nat.
  - destruct (Z.ltb_spec target (level (token_at toks 0))); [lia |].
    exists 0%nat. split; [reflexivity |]. split; [lia |].
    split; [| exact Hinv].
    pose proof (Hinv 1%nat ltac:(lia)). pose proof (Hadj 0%nat ltac:(lia)).
    lia.
  - destruct (Z.ltb_spec target (level (token_at toks (S c)))) as [Hlt | Hge].
    + unfold mu_json_find_prev_token, token_is_first. rewrite deref_of_nat.
      destruct (Z.eqb_spec (level (token_at toks (S c))) 0); [lia |].
      replace (Z.of_nat (S c) - 1) with (Z.of_nat c) by lia.
      destruct (IH fuel ltac:(lia) ltac:(lia)) as (u & Hres & Hu & Hlu & Hk).
      { intros k Hk. destruct (decide (k = S c)) as [-> |]; [exact Hlt |].
        apply Hinv. lia. }
      exists u. split; [exact Hres |]. split; [lia |]. split; assumption.
    + exists (S c). split; [reflexivity |]. split; [lia |].
      split; [| exact Hinv].
      pose proof (Hinv (S (S c)) ltac:(lia)).
      pose proof (Hadj (S c) ltac:(lia)). lia.
Qed.

(** X12: in the token store of a successful parse whose nesting
    stayed below the depth limit, every token but the first has a parent:
    [mu_json_find_parent_token] returns a token before it that is exactly
    one level up, and every token between the two is at the depth of the
    token or deeper. *)
Theorem find_parent_is_one_level_up (s : list ascii) (len : Z)
    (tokens : list mu_json_token_t) (cap n : Z)
    (toks : list mu_json_token_t) (t : Z) :
  mu_json_parse_buffer (Some s) len (Some tokens) cap = Returned n toks ->
  0 < n -> 0 < len -> below_depth_limit n toks -> 0 < t < n ->
  exists u,
    mu_json_find_parent_token toks (Some t) = Some u
    /\ 0 <= u < t
    /\ level (deref toks u) = level (deref toks t) - 1
    /\ (forall k, u < k < t -> level (deref toks t) <= level (deref toks k)).
Proof.
  intros H Hn Hlen Hdepth Ht.
  destruct (parse_success_depth_first _ _ _ _ _ _ H Hn Hlen Hdepth)
    as (H0 & Hpos & Hadj).
  set (i := Z.to_nat t).
  assert (Hi : t = Z.of_nat i) by lia.
  pose proof (Hpos i ltac:(lia)) as Hlt.
  unfold mu_json_find_parent_token, token_is_first.
  rewrite Hi, deref_of_nat.
  destruct (Z.eqb_spec (level (token_at toks i)) 0); [lia |].
  replace (Z.to_nat (Z.of_nat i + 1)) with (S i) by lia.
  cbn [find_parent_loop]. rewrite deref_of_nat.
  destruct (Z.ltb_spec (level (token_at toks i) - 1) (level (token_at toks i)));
    [| lia].
  unfold mu_json_find_prev_token, token_is_first. rewrite deref_of_nat.
  destruct (Z.eqb_spec (level (token_at toks i)) 0); [lia |].
  destruct i as [|c]; [lia |].
  replace (Z.of_nat (S c) - 1) with (Z.of_nat c) by lia.
  destruct (find_parent_loop_up toks (level (token_at toks (S c)) - 1) (S c)
              H0 ltac:(lia)) with (c := c) (fuel := S c)
    as (u & Hres & Hu & Hlu & Hk).
  - intros j Hj. apply Hadj. lia.
  - lia.
  - lia.
  - intros k Hk. assert (k = S c) by lia. subst k. lia.
  - exists (Z.of_nat u). split; [exact Hres |]. split; [lia |].
    rewrite deref_of_nat. split; [exact Hlu |].
    intros k Hku. rewrite <- (Z2Nat.id k) by lia. rewrite deref_of_nat.
    specialize (Hk (Z.to_nat k) ltac:(lia)). lia.
Qed.

Lemma find_parent_is_one_level_up_witness :
  exists u,
    mu_json_find_parent_token tokens_of_1_2 (Some 2) = Some u
    /\ 0 <= u < 2
    /\ level (deref tokens_of_1_2 u) = level (deref tokens_of_1_2 2) - 1
    /\ (forall k, u < k < 2 ->
          level (deref tokens_of_1_2 2) <= level (deref tokens_of_1_2 k)).
Proof.
  apply (find_parent_is_one_level_up (text "[1, 2]") 6
           (replicate 4 zero_token) 4 3 tokens_of_1_2 2).
  - vm_compute. reflexivity.
  - lia.
  - lia.
  - exact tokens_of_1_2_below_depth_limit.
  - lia.
Defined.

(** ** Siblings *)

Lemma next_sibling_loop_found (toks : list mu_json_token_t) (target : Z) :
  forall (n : nat) (c u : Z),
    find_sibling_loop n toks mu_json_find_next_token target c = Some u ->
    c < u /\ level (deref toks u) = target
    /\ (forall k, c < k < u -> target < level (deref toks k))
    /\ (forall k, c <= k < u -> token_is_last toks k = false).
Proof.
  induction n as [|n IH]; intros c u; cbn [find_sibling_loop];
    [discriminate |].
  unfold mu_json_find_next_token.
  destruct (token_is_last toks c) eqn:Hlast; [discriminate |].
  destruct (Z.eqb_spec (level (deref toks (c + 1))) target) as [Heq | Hne].
  - intros [= <-]. split; [lia |]. split; [exact Heq |].
    split; intros k Hk; [lia |]. replace k with c by lia. exact Hlast.
  - destruct (Z.ltb_spec (level (deref toks (c + 1))) target) as [Hlt | Hge];
      [discriminate |].
    intros H. destruct (IH _ _ H) as (Hu & Hl & Hbetween & Hnl).
    split; [lia |]. split; [exact Hl |]. split; intros k Hk.
    + destruct (Z.eq_dec k (c + 1)) as [-> |]; [lia | apply Hbetween; lia].
    + destruct (Z.eq_dec k c) as [-> |]; [exact Hlast | apply Hnl; lia].
Qed.

Lemma prev_sibling_loop_found (toks : list mu_json_token_t) (target : Z) :
  forall (n : nat) (c u : Z),
    find_sibling_loop n toks mu_json_find_prev_token target c = Some u ->
    u < c /\ level (deref toks u) = target
    /\ (forall k, u < k < c -> target < level (deref toks k))
    /\ (forall k, u < k <= c -> token_is_first toks k = false).
Proof.
  induction n as [|n IH]; intros c u; cbn [find_sibling_loop];
    [discriminate |].
  unfold mu_json_find_prev_token.
  destruct (token_is_first toks c) eqn:Hfirst; [discriminate |].
  destruct (Z.eqb_spec (level (deref toks (c - 1))) target) as [Heq | Hne].
  - intros [= <-]. split; [lia |]. split; [exact Heq |].
    split; intros k Hk; [lia |]. replace k with c by lia. exact Hfirst.
  - destruct (Z.ltb_spec (level (deref toks (c - 1))) target) as [Hlt | Hge];
      [discriminate |].
    intros H. destruct (IH _ _ H) as (Hu & Hl & Hbetween & Hnf).
    split; [lia |]. split; [exact Hl |]. split; intros k Hk.
    + destruct (Z.eq_dec k (c - 1)) as [-> |]; [lia | apply Hbetween; lia].
    + destruct (Z.eq_dec k c) as [-> |]; [exact Hfirst | apply Hnf; lia].
Qed.

Lemma next_sibling_loop_reach (toks : list mu_json_token_t) (target : Z) :
  forall (d fuel : nat) (c t : Z),
    (d < fuel)%nat -> t = c + 1 + Z.of_nat d ->
    level (deref toks t) = target ->
    (forall k, c < k < t -> target < level (deref toks k)) ->
    (forall k, c <= k < t -> token_is_last toks k = false) ->
    find_sibling_loop fuel toks mu_json_find_next_token target c = Some t.
Proof.
  induction d as [|d IH]; intros fuel c t Hfuel Ht Hl Hbetween Hnl;
    (destruct fuel as [|fuel]; [lia |]); cbn [find_sibling_loop];
    unfold mu_json_find_next_token; rewrite (Hnl c) by lia.
  - replace (c + 1) with t by lia. rewrite Hl, Z.eqb_refl. reflexivity.
  - pose proof (Hbetween (c + 1) ltac:(lia)) as Hdeep.
    destruct (Z.eqb_spec (level (deref toks (c + 1))) target); [lia |].
    destruct (Z.ltb_spec (level (deref toks (c + 1))) target); [lia |].
    apply (IH fuel (c + 1) t); try assumption; try lia.
    + intros k Hk. apply Hbetween. lia.
    + intros k Hk. apply Hnl. lia.
Qed.

Lemma prev_sibling_loop_reach (toks : list mu_json_token_t) (target : Z) :
  forall (d fuel : nat) (c t : Z),
    (d < fuel)%nat -> c = t + 1 + Z.of_nat d ->
    level (deref toks t) = target ->
    (forall k, t < k < c -> target < level (deref toks k)) ->
    (forall k, t < k <= c -> token_is_first toks k = false) ->
    find_sibling_loop fuel toks mu_json_find_prev_token target c = Some t.
Proof.
  induction d as [|d IH]; intros fuel c t Hfuel Ht Hl Hbetween Hnf;
    (destruct fuel as [|fuel]; [lia |]); cbn [find_sibling_loop];
    unfold mu_json_find_prev_token; rewrite (Hnf c) by lia.
  - replace (c - 1) with t by lia. rewrite Hl, Z.eqb_refl. reflexivity.
  - pose proof (Hbetween (c - 1) ltac:(lia)) as Hdeep.
    destruct (Z.eqb_spec (level (deref toks (c - 1))) target); [lia |].
    destruct (Z.ltb_spec (level (deref toks (c - 1))) target); [lia |].
    apply (IH fuel (c - 1) t); try assumption; try lia.
    + intros k Hk. apply Hbetween. lia.
    + intros k Hk. apply Hnf. lia.
Qed.

(** A token at a depth other than 0 is a token of the store. *)
Lemma deref_in_store (toks : list mu_json_token_t) (t : Z) :
  level (deref toks t) <> 0 -> 0 <= t < Z.of_nat (length toks).
Proof.
  unfold deref, token_at. destruct (Z.ltb_spec t 0); [cbn; congruence |].
  destruct (toks !! Z.to_nat t) eqn:Hlook; [| cbn; congruence].
  intros _. apply lookup_lt_Some in Hlook. lia.
Qed.

Lemma parsed_not_last (n : Z) (toks : list mu_json_token_t) (k : Z) :
  root_and_last n toks -> 0 <= k < n - 1 -> token_is_last toks k = false.
Proof.
  intros (_ & _ & Hnl) Hk. unfold token_is_last, deref, token_at.
  destruct (Z.ltb_spec k 0); [lia |].
  destruct (toks !! Z.to_nat k) as [tk|] eqn:Hlook; [| reflexivity].
  cbn. apply (Hnl (Z.to_nat k) tk); [lia | lia | exact Hlook].
Qed.

Lemma parsed_last (n : Z) (toks : list mu_json_token_t) :
  0 < n -> root_and_last n toks -> token_is_last toks (n - 1) = true.
Proof.
  intros Hn (_ & (last & Hlook & Hlast) & _).
  unfold token_is_last, deref, token_at.
  destruct (Z.ltb_spec (n - 1) 0); [lia |]. rewrite Hlook. exact Hlast.
Qed.

(** X13: in the token store of a successful parse, a token that
    [mu_json_find_next_sibling_token] returns for [t] comes after [t] in
    the store, is at the depth of [t], and is separated from [t] by deeper
    tokens only; [mu_json_find_prev_sibling_token] leads back from it to
    [t].  The same holds with the two functions exchanged. *)
Theorem sibling_round_trips (s : list ascii) (len : Z)
    (tokens : list mu_json_token_t) (cap n : Z)
    (toks : list mu_json_token_t) (t u : Z) :
  mu_json_parse_buffer (Some s) len (Some tokens) cap = Returned n toks ->
  0 < n -> 0 <= t < n ->
  (mu_json_find_next_sibling_token toks (Some t) = Some u ->
     t < u < n /\ level (deref toks u) = level (deref toks t)
     /\ (forall k, t < k < u -> level (deref toks t) < level (deref toks k))
     /\ mu_json_find_prev_sibling_token toks (Some u) = Some t)
  /\ (mu_json_find_prev_sibling_token toks (Some t) = Some u ->
        0 < u < t /\ level (deref toks u) = level (deref toks t)
        /\ (forall k, u < k < t ->
              level (deref toks t) < level (deref toks k))
        /\ mu_json_find_next_sibling_token toks (Some u) = Some t).
Proof.
  unfold mu_json_parse_buffer. intros H Hn Ht.
  pose proof (parse_success_root_and_last _ _ _ _ _ _ H Hn) as Hrl.
  pose proof (parse_success_level_nonneg _ _ _ _ _ _ t H Hn Ht) as Hnonneg.
  unfold mu_json_find_next_sibling_token, mu_json_find_prev_sibling_token,
    find_sibling.
  split.
  - unfold token_is_first at 1.
    destruct (Z.eqb_spec (level (deref toks t)) 0) as [| Hlt];
      [discriminate |].
    intros Hnext.
    destruct (next_sibling_loop_found _ _ _ _ _ Hnext)
      as (Htu & Hlu & Hbetween & Hnl).
    assert (Hun : u < n).
    { destruct (Z.lt_ge_cases u n) as [| Hge]; [assumption |].
      pose proof (parsed_last n toks Hn Hrl) as Hlast.
      rewrite (Hnl (n - 1)) in Hlast by lia. discriminate. }
    split; [lia |]. split; [exact Hlu |]. split; [exact Hbetween |].
    unfold token_is_first. rewrite Hlu.
    destruct (Z.eqb_spec (level (deref toks t)) 0); [contradiction |].
    assert (Hu_in : 0 <= u < Z.of_nat (length toks))
      by (apply deref_in_store; lia).
    apply (prev_sibling_loop_reach toks _ (Z.to_nat (u - t - 1)));
      [lia | lia | reflexivity | exact Hbetween |].
    intros k Hk. unfold token_is_first.
    destruct (Z.eqb_spec (level (deref toks k)) 0) as [Hz |]; [| reflexivity].
    destruct (Z.eq_dec k u) as [-> |]; [lia |].
    specialize (Hbetween k ltac:(lia)). lia.
  - unfold token_is_first at 1.
    destruct (Z.eqb_spec (level (deref toks t)) 0) as [| Hlt];
      [discriminate |].
    intros Hprev.
    destruct (prev_sibling_loop_found _ _ _ _ _ Hprev)
      as (Hut & Hlu & Hbetween & Hnf).
    assert (Hu_in : 0 <= u < Z.of_nat (length toks))
      by (apply deref_in_store; lia).
    assert (Hu0 : u <> 0).
    { intros ->. destruct Hrl as ((root & Hroot & Hl0) & _).
      change (deref toks 0) with (token_at toks 0) in Hlu.
      unfold token_at in Hlu. rewrite Hroot in Hlu. cbn in Hlu. lia. }
    split; [lia |]. split; [exact Hlu |]. split; [exact Hbetween |].
    unfold token_is_first. rewrite Hlu.
    destruct (Z.eqb_spec (level (deref toks t)) 0); [contradiction |].
    assert (Ht_in : 0 <= t < Z.of_nat (length toks))
      by (apply deref_in_store; lia).
    apply (next_sibling_loop_reach toks _ (Z.to_nat (t - u - 1)));
      [lia | lia | reflexivity | exact Hbetween |].
    intros k Hk. apply (parsed_not_last n toks k Hrl). lia.
Qed.

Lemma sibling_round_trips_witness :
  mu_json_find_prev_sibling_token tokens_of_1_2 (Some 2) = Some 1.
Proof.
  destruct (sibling_round_trips (text "[1, 2]") 6 (replicate 4 zero_token)
              4 3 tokens_of_1_2 1 2) as [Hnext _].
  - vm_compute. reflexivity.
  - lia.
  - lia.
  - apply Hnext. reflexivity.
Defined.

(** X14: in the token store of a successful parse of [n] tokens
    whose nesting stayed below the depth limit, [mu_json_token_is_first]
    holds of the first token only and [mu_json_token_is_last] of the last
    one only; the type of every token is known and its length is not
    negative, which tells the tokens from the answers that the accessors
    give for [NULL]. *)
Theorem first_and_last_marks (s : list ascii) (len : Z)
    (tokens : list mu_json_token_t) (cap n : Z)
    (toks : list mu_json_token_t) (t : Z) :
  mu_json_parse_buffer (Some s) len (Some tokens) cap = Returned n toks ->
  0 < n -> 0 < len -> below_depth_limit n toks -> 0 <= t < n ->
  (mu_json_token_is_first toks (Some t) = true <-> t = 0)
  /\ (mu_json_token_is_last toks (Some t) = true <-> t = n - 1)
  /\ mu_json_token_type toks (Some t) <> mu_json_token_type toks None
  /\ mu_json_token_string_length toks (Some t)
     <> mu_json_token_string_length toks None
  /\ mu_json_token_string toks (Some t) <> mu_json_token_string toks None.
Proof.
  intros H Hn Hlen Hdepth Ht.
  destruct (parse_success_depth_first _ _ _ _ _ _ H Hn Hlen Hdepth)
    as (H0 & Hpos & _).
  pose proof (parse_success_root_and_last _ _ _ _ _ _ H Hn) as Hrl.
  destruct (parse_success_extents _ _ _ _ _ _ H Hn Hlen Hdepth)
    as (Hext & _).
  cbn [mu_json_token_is_first mu_json_token_is_last mu_json_token_type
       mu_json_token_string_length mu_json_token_string].
  assert (Hi : t = Z.of_nat (Z.to_nat t)) by lia.
  split; [| split].
  - unfold token_is_first. split.
    + intros Hf. apply Z.eqb_eq in Hf.
      destruct (Z.eq_dec t 0) as [| Hne]; [assumption |].
      rewrite Hi, deref_of_nat in Hf.
      specialize (Hpos (Z.to_nat t) ltac:(lia)). lia.
    + intros ->. apply Z.eqb_eq. exact H0.
  - split.
    + intros Hl. destruct (Z.eq_dec t (n - 1)) as [| Hne]; [assumption |].
      rewrite (parsed_not_last n toks t Hrl) in Hl by lia. discriminate.
    + intros ->. apply (parsed_last n toks Hn Hrl).
  - destruct (Hext (Z.to_nat t) ltac:(lia))
      as (tk & o & Hlook & Hs & _ & Hl & _ & Hty).
    rewrite Hi, deref_of_nat. unfold token_at. rewrite Hlook. cbn.
    rewrite Hs. split; [exact Hty |]. split; [lia | discriminate].
Qed.

Lemma first_and_last_marks_witness :
  mu_json_token_is_last tokens_of_1_2 (Some 2) = true <-> 2 = 3 - 1.
Proof.
  apply (first_and_last_marks (text "[1, 2]") 6 (replicate 4 zero_token)
           4 3 tokens_of_1_2 2).
  - vm_compute. reflexivity.
  - lia.
  - lia.
  - exact tokens_of_1_2_below_depth_limit.
  - lia.
Defined.

(** X15: for every [int] but the least, whose negation overflows,
    [mu_json_error_name] returns a name: a different name for each error
    code and [MU_JSON_ERR_UNKNOWN] for none of them, the name of
    [MU_JSON_ERR_NONE] for every value that is not negative (such as a
    token count), and [MU_JSON_ERR_UNKNOWN] for every value below the last
    error code.  For the least [int] the call is undefined. *)
Theorem error_names_are_distinct :
  (forall e1 e2 : mu_json_err_t,
     mu_json_error_name (err_value e1) = mu_json_error_name (err_value e2) ->
     e1 = e2)
  /\ (forall e : mu_json_err_t,
        exists name, mu_json_error_name (err_value e) = Some name
                     /\ name <> "MU_JSON_ERR_UNKNOWN"%string)
  /\ (forall v : Z, 0 <= v ->
        mu_json_error_name v = Some "MU_JSON_ERR_NONE"%string)
  /\ (forall v : Z, INT_MIN < v < err_value MU_JSON_ERR_INTERNAL ->
        mu_json_error_name v = Some "MU_JSON_ERR_UNKNOWN"%string)
  /\ mu_json_error_name INT_MIN = None.
Proof.
  split; [| split; [| split; [| split]]].
  - intros e1 e2. destruct e1, e2; vm_compute; congruence.
  - intros e. destruct e; eexists; (split; [vm_compute; reflexivity |]);
      discriminate.
  - intros v Hv. unfold mu_json_error_name, INT_MIN.
    destruct (Z.eqb_spec v (- 2 ^ 31)); [lia |].
    destruct (Z.ltb_spec (- v) 0); [reflexivity |].
    assert (v = 0) by lia. subst v. reflexivity.
  - intros v Hv. cbn in Hv. unfold mu_json_error_name.
    destruct (Z.eqb_spec v INT_MIN); [lia |].
    destruct (Z.ltb_spec (- v) 0); [lia |].
    destruct (Z.leb_spec (Z.of_nat (length s_error_names)) (- v));
      [reflexivity |].
    cbn in *. lia.
  - reflexivity.
Qed.

Lemma error_names_are_distinct_witness :
  mu_json_error_name 5 = Some "MU_JSON_ERR_NONE"%string
  /\ mu_json_error_name (-10) = Some "MU_JSON_ERR_UNKNOWN"%string.
Proof.
  destruct error_names_are_distinct as (_ & _ & Hpos & Hlow & _).
  split; [apply Hpos; lia | apply Hlow; unfold INT_MIN; cbn; lia].
Defined.

(** ** Integers: what [mu_jems_integer] writes *)

Lemma to_uint_normal (p : positive) :
  Decimal.unorm (Pos.to_uint p) = Pos.to_uint p.
Proof.
  rewrite <- (DecimalPos.Unsigned.to_of (Pos.to_uint p)).
  rewrite DecimalPos.Unsigned.of_to. reflexivity.
Qed.

Lemma to_uint_head_nonzero (p : positive) :
  head_nonzero (Pos.to_uint p) = true.
Proof.
  pose proof (to_uint_normal p) as Hn.
  pose proof (DecimalPos.Unsigned.to_uint_nonnil p) as Hnil.
  pose proof (DecimalPos.Unsigned.to_uint_nonzero p) as Hz.
  destruct (Pos.to_uint p) as [|d| | | | | | | | |]; try reflexivity.
  - contradiction.
  - exfalso. rewrite DecimalFacts.unorm_D0 in Hn.
    destruct d as [|d| | | | | | | | |]; try (cbn in Hn; discriminate).
    + apply Hz. reflexivity.
    + pose proof (DecimalFacts.nb_digits_unorm (Decimal.D0 d)
                    ltac:(discriminate)) as Hle.
      rewrite Hn in Hle. cbn in Hle. lia.
Qed.

(** A numeral of [k] digits that starts with a digit other than 0 is at
    least [10 ^ (k - 1)]. *)
Lemma of_uint_lower_bound (d : Decimal.uint) :
  head_nonzero d = true ->
  (10 ^ N.pred (DecimalPos.Unsigned.usize d) <= Pos.of_uint d)%N.
Proof.
  intros Hd. rewrite DecimalPos.Unsigned.of_uint_alt.
  destruct d as [|d|d|d|d|d|d|d|d|d|d]; try discriminate;
    unfold Decimal.rev; cbn [Decimal.revapp];
    rewrite DecimalPos.Unsigned.of_lu_revapp;
    cbn [DecimalPos.Unsigned.usize DecimalPos.Unsigned.of_lu];
    rewrite N.pred_succ; nia.
Qed.

Lemma to_uint_usize (p : positive) :
  (N.pos p < 10 ^ 19)%N ->
  (DecimalPos.Unsigned.usize (Pos.to_uint p) <= 19)%N.
Proof.
  intros Hp.
  pose proof (of_uint_lower_bound _ (to_uint_head_nonzero p)) as Hlow.
  rewrite DecimalPos.Unsigned.of_to in Hlow.
  destruct (N.le_gt_cases (DecimalPos.Unsigned.usize (Pos.to_uint p)) 19)
    as [| Hgt]; [assumption |].
  exfalso.
  assert (Hpow : (10 ^ 19 <= 10 ^ N.pred (DecimalPos.Unsigned.usize
                                            (Pos.to_uint p)))%N).
  { apply N.pow_le_mono_r; lia. }
  lia.
Qed.

(** The characters of a numeral are digits, one for each of its digits. *)
Lemma string_of_uint_digits (d : Decimal.uint) :
  forallb is_digit (list_ascii_of_string (NilEmpty.string_of_uint d)) = true
  /\ length (list_ascii_of_string (NilEmpty.string_of_uint d))
     = N.to_nat (DecimalPos.Unsigned.usize d).
Proof.
  induction d as [|d [IH1 IH2]|d [IH1 IH2]|d [IH1 IH2]|d [IH1 IH2]
                  |d [IH1 IH2]|d [IH1 IH2]|d [IH1 IH2]|d [IH1 IH2]
                  |d [IH1 IH2]|d [IH1 IH2]];
    cbn [NilEmpty.string_of_uint list_ascii_of_string forallb length
         DecimalPos.Unsigned.usize];
    [split; reflexivity | ..];
    (split; [rewrite IH1; reflexivity | rewrite IH2; lia]).
Qed.

Lemma string_of_uint_int_part (d : Decimal.uint) :
  head_nonzero d = true ->
  int_part_ok (list_ascii_of_string (NilEmpty.string_of_uint d)) = true.
Proof.
  intros Hd. destruct (string_of_uint_digits d) as [Hdig _].
  destruct d; try discriminate;
    cbn [NilEmpty.string_of_uint list_ascii_of_string forallb] in Hdig |- *;
    cbn [int_part_ok]; apply andb_true_iff in Hdig; destruct Hdig as [_ ->];
    reflexivity.
Qed.

Lemma digits_no_nul (l : list ascii) :
  forallb is_digit l = true ->
  forallb (fun c => negb (Ascii.eqb c NUL)) l = true.
Proof.
  induction l as [|c l IH]; [reflexivity |]. cbn [forallb].
  intros H. apply andb_true_iff in H. destruct H as [Hc Hl].
  rewrite IH by exact Hl.
  destruct (Ascii.eqb_spec c NUL) as [-> |]; [discriminate | reflexivity].
Qed.

(** The shape of [%d] output for a 64-bit value: an optional minus sign
    and at most 19 digits without a leading zero. *)
Lemma format_d_shape (i : Z) :
  INT64_MIN <= i < 2 ^ 63 ->
  exists sign ds,
    format_d i = sign ++ ds
    /\ sign_ok sign = true /\ int_part_ok ds = true
    /\ forallb is_digit ds = true
    /\ (length (sign ++ ds) <= 20)%nat.
Proof.
  intros Hi. unfold format_d, INT64_MIN in *.
  destruct i as [|p|p]; cbn [Z.to_int NilZero.string_of_int].
  - exists [], ["0"%char]. repeat split; reflexivity || (cbn; lia).
  - pose proof (to_uint_head_nonzero p) as Hhead.
    destruct (string_of_uint_digits (Pos.to_uint p)) as [Hdig Hlen].
    pose proof (to_uint_usize p ltac:(lia)) as Hsize.
    exists [], (list_ascii_of_string
                  (NilEmpty.string_of_uint (Pos.to_uint p))).
    unfold NilZero.string_of_uint.
    destruct (Pos.to_uint p) eqn:Hd; try discriminate;
      (split; [reflexivity |]); (split; [reflexivity |]);
      (split; [apply string_of_uint_int_part; exact Hhead |]);
      (split; [exact Hdig |]); cbn [app]; lia.
  - pose proof (to_uint_head_nonzero p) as Hhead.
    destruct (string_of_uint_digits (Pos.to_uint p)) as [Hdig Hlen].
    pose proof (to_uint_usize p ltac:(lia)) as Hsize.
    exists ["-"%char], (list_ascii_of_string
                          (NilEmpty.string_of_uint (Pos.to_uint p))).
    unfold NilZero.string_of_uint.
    destruct (Pos.to_uint p) eqn:Hd; try discriminate;
      (split; [reflexivity |]); (split; [reflexivity |]);
      (split; [apply string_of_uint_int_part; exact Hhead |]);
      (split; [exact Hdig |]); cbn [app length]; lia.
Qed.

Lemma to_int64_range (n : Z) : INT64_MIN <= to_int64 n < 2 ^ 63.
Proof.
  unfold to_int64, INT64_MIN.
  pose proof (Z.mod_pos_bound (n + 2 ^ 63) (2 ^ 64) ltac:(lia)). lia.
Qed.

(** [parse_number] on an optional sign and an integer part that reach the
    end of the input. *)
Lemma parse_number_integer (p : parser) (before sign int_part : list ascii)
    tok p0 :
  cursor p before (sign ++ int_part) ->
  init_token p MU_JSON_TOKEN_TYPE_INTEGER = Some (tok, p0) ->
  sign_ok sign = true -> int_part_ok int_part = true ->
  parse_number p
  = (MU_JSON_ERR_NONE,
     finalize_token
       (set_pos p0 (Z.of_nat (length before + length sign + length int_part)))
       tok).
Proof.
  intros Hcur Hinit Hsign Hint.
  destruct int_part as [|d ds]; [discriminate |].
  cbn [int_part_ok] in Hint.
  apply andb_true_iff in Hint. destruct Hint as [Hint Hzero].
  apply andb_true_iff in Hint. destruct Hint as [Hd Hds].
  assert (Hd_nominus : Ascii.eqb d "-" = false).
  { destruct (Ascii.eqb_spec d "-"); [subst; discriminate | reflexivity]. }
  unfold parse_number.
  assert (Hhead : at_eos p = false /\ is_number_prefix (peek_char p) = true).
  { destruct sign as [|c sign].
    - destruct (cursor_next _ _ _ _ Hcur) as (Heos & Hpeek & _).
      rewrite Hpeek. unfold is_number_prefix. unfold is_digit in Hd.
      rewrite Hd, orb_true_r. auto.
    - destruct (cursor_next _ _ _ _ Hcur) as (Heos & Hpeek & _).
      cbn in Hsign. apply andb_true_iff in Hsign. destruct Hsign as [Hc _].
      rewrite Hpeek. unfold is_number_prefix. rewrite Hc. auto. }
  destruct Hhead as [Heos Hprefix]. rewrite Heos, Hprefix, Hinit.
  cbn [orb negb].
  pose proof (cursor_init_token _ _ _ _ _ _ Hinit Hcur) as Hcur0.
  (* the sign *)
  set (p1 := if Ascii.eqb (peek_char p0) "-" then get_char p0 else p0).
  assert (H1 : p1 = set_pos p0 (Z.of_nat (length before + length sign))
               /\ cursor p1 (before ++ sign) (d :: ds)).
  { subst p1. destruct sign as [|c sign].
    - cbn [app] in Hcur0.
      destruct (cursor_next _ _ _ _ Hcur0) as (_ & Hpeek & _).
      rewrite Hpeek, Hd_nominus, app_nil_r. cbn [length]. split; [| exact Hcur0].
      destruct Hcur0 as (_ & Hpos & _).
      rewrite Nat.add_0_r, <- Hpos, set_pos_same. reflexivity.
    - cbn in Hsign. apply andb_true_iff in Hsign. destruct Hsign as [Hc Hnil].
      destruct sign; [| discriminate].
      destruct (cursor_next _ _ _ _ Hcur0) as (_ & Hpeek & Hnext).
      rewrite Hpeek, Hc. split; [| exact Hnext].
      destruct Hcur0 as (_ & Hpos & _). unfold get_char. rewrite Hpos.
      f_equal. cbn [length]. lia. }
  destruct H1 as [Hp1 Hcur1].
  destruct (cursor_next _ _ _ _ Hcur1) as (Heos1 & Hpeek1 & Hnext1).
  rewrite Heos1. cbn [negb andb]. rewrite Hpeek1.
  set (k3 := Z.of_nat (length before + length sign + length (d :: ds))).
  assert (Hend : forall q, p_str_len q = p_str_len p0 ->
                 at_eos (set_pos q k3) = true).
  { intros q Hq. apply at_eos_true. cbn. rewrite Hq.
    destruct Hcur0 as (_ & _ & ->). subst k3.
    rewrite !length_app. lia. }
  (* the integer part *)
  set (p2 := if Ascii.eqb d "0" then get_char p1 else p1).
  assert (H3 : Ascii.eqb d "0" && negb (at_eos p2)
               && Ascii.eqb (peek_char p2) "0" = false
               /\ exists hi, digits p2 = (hi, set_pos p0 k3)
                             /\ xorb (Ascii.eqb d "0") hi = true).
  { subst p2. destruct (Ascii.eqb d "0") eqn:Hd0.
    - cbn [negb orb] in Hzero. destruct ds as [|d' ds]; [| discriminate].
      assert (Hg : get_char p1 = set_pos p0 k3).
      { rewrite Hp1. unfold get_char. cbn [p_str_pos set_pos].
        rewrite set_pos_set_pos. f_equal. subst k3. cbn [length]. lia. }
      rewrite Hg, (Hend p0 eq_refl). split; [reflexivity |].
      exists false. split; [| reflexivity].
      unfold digits, remaining. pose proof (Hend p0 eq_refl) as He.
      apply at_eos_true in He.
      replace (Z.to_nat (p_str_len (set_pos p0 k3)
                         - p_str_pos (set_pos p0 k3))) with 0%nat by lia.
      reflexivity.
    - split; [reflexivity |]. exists true. split; [| reflexivity].
      destruct Hcur1 as (Hstr1 & Hpos1 & Hlen1).
      rewrite (digits_run (d :: ds) p1 (before ++ sign) []);
        [| rewrite Hstr1, app_nil_r; reflexivity | exact Hpos1
         | rewrite Hlen1, app_nil_r; reflexivity
         | cbn [forallb]; rewrite Hd, Hds; reflexivity | reflexivity].
      rewrite Hp1, set_pos_set_pos. do 2 f_equal. subst k3.
      rewrite length_app. lia. }
  destruct H3 as (-> & hi & -> & Hxor).
  replace (Ascii.eqb d "0" && hi) with false
    by (destruct (Ascii.eqb d "0"), hi; auto; discriminate).
  replace (negb (Ascii.eqb d "0") && negb hi) with false
    by (destruct (Ascii.eqb d "0"), hi; auto; discriminate).
  rewrite (Hend p0 eq_refl). cbn [negb andb is_none].
  rewrite (Hend p0 eq_refl). cbn [negb andb]. reflexivity.
Qed.

Lemma number_first_byte (sign int_part : list ascii) :
  sign_ok sign = true -> int_part_ok int_part = true ->
  exists c rest,
    sign ++ int_part = c :: rest
    /\ is_digit c || Ascii.eqb c "-" = true
    /\ is_space c = false /\ Ascii.eqb c ch_quote = false.
Proof.
  intros Hsign Hint.
  assert (Hfirst : exists c rest, sign ++ int_part = c :: rest
                     /\ is_digit c || Ascii.eqb c "-" = true).
  { destruct sign as [|c sign].
    - destruct int_part as [|d ds]; [discriminate |].
      cbn in Hint. apply andb_true_iff in Hint. destruct Hint as [Hint _].
      apply andb_true_iff in Hint. destruct Hint as [Hd _].
      exists d, ds. split; [reflexivity |].
      unfold is_digit in *. rewrite Hd. reflexivity.
    - cbn in Hsign. apply andb_true_iff in Hsign. destruct Hsign as [Hc _].
      exists c, (sign ++ int_part).
      split; [reflexivity |]. rewrite Hc. apply orb_true_r. }
  destruct Hfirst as (c & rest & Heq & Hc).
  exists c, rest. split; [exact Heq |]. split; [exact Hc |].
  apply orb_true_iff in Hc. destruct Hc as [Hc | Hc].
  - destruct c as [[] [] [] [] [] [] [] []];
      try (vm_compute in Hc; discriminate); split; reflexivity.
  - apply Ascii.eqb_eq in Hc. subst c. split; reflexivity.
Qed.

Lemma fresh_integer_written (l0 : mu_jems_level_t) ls m (value : Z) :
  written (mu_jems_integer (mu_jems_init (l0 :: ls) m) value)
  = c_string (snprintf22 (format_d (to_int64 value))).
Proof.
  unfold mu_jems_integer. rewrite mu_jems_init_state, emit_value_state.
  reflexivity.
Qed.

(** X16: [mu_jems_integer] writes the whole decimal form of its
    64-bit argument, at most 20 characters, so that the buffer of 22 bytes
    never cuts it; and what it writes on a fresh emitter is accepted by the
    parser as one token: an integer token that covers the output. *)
Theorem emitted_integer_parses (l0 : mu_jems_level_t)
    (ls : list mu_jems_level_t) (m : Z) (value : Z)
    (tokens : list mu_json_token_t) (cap : Z) :
  0 < cap <= Z.of_nat (length tokens) ->
  let out := written (mu_jems_integer (mu_jems_init (l0 :: ls) m) value) in
  out = format_d (to_int64 value)
  /\ (length out <= 20)%nat
  /\ exists toks,
       mu_json_parse_buffer (Some out) (Z.of_nat (length out))
                            (Some tokens) cap
       = Returned 1 toks
       /\ toks !! 0%nat
          = Some (mk_token (Some 0) (Z.of_nat (length out))
                           MU_JSON_TOKEN_TYPE_INTEGER 0 true).
Proof.
  intros Hcap. cbv zeta. rewrite fresh_integer_written.
  destruct (format_d_shape _ (to_int64_range value))
    as (sign & ds & Hfmt & Hsign & Hint & Hdig & Hlen20).
  assert (Hout : c_string (snprintf22 (format_d (to_int64 value)))
                 = sign ++ ds).
  { rewrite Hfmt. unfold snprintf22. rewrite take_ge by lia.
    apply c_string_no_nul. rewrite forallb_app, (digits_no_nul ds Hdig).
    destruct sign as [|c sign]; [reflexivity |].
    cbn in Hsign. apply andb_true_iff in Hsign. destruct Hsign as [Hc Hnil].
    destruct sign; [| discriminate]. apply Ascii.eqb_eq in Hc. subst c.
    reflexivity. }
  rewrite Hout. split; [symmetry; exact Hfmt |]. split; [exact Hlen20 |].
  set (out := sign ++ ds) in *.
  unfold mu_json_parse_buffer, parse_json.
  set (len := Z.of_nat (length out)).
  destruct (number_first_byte sign ds Hsign Hint)
    as (c & rest & Hc & Hnum & Hnospace & Hnoquote).
  fold out in Hc.
  assert (Hlen : 0 < len <= 20).
  { subst len. rewrite Hc. rewrite Hc in Hlen20. cbn [length] in *. lia. }
  destruct (Z.eqb_spec len 0); [lia |].
  destruct (Z.eqb_spec cap 0); [lia |].
  rewrite parser_reset_initial by assumption.
  destruct (parse_fuel_S len) as [fuel ->]. cbn [parse_element].
  set (p0 := initial_parser out len tokens cap).
  assert (Hcur : cursor p0 [] (sign ++ ds)) by (repeat split).
  assert (Hcur' : cursor p0 [] (c :: rest)) by (rewrite <- Hc; exact Hcur).
  destruct (cursor_next _ _ _ _ Hcur') as (Heos & Hpeek & _).
  rewrite skip_whitespace_stop by (right; rewrite Hpeek; exact Hnospace).
  rewrite Heos, Hpeek, Hnoquote, Hnum.
  destruct (init_token p0 MU_JSON_TOKEN_TYPE_INTEGER) as [[tok p1]|] eqn:Hinit.
  2: { unfold init_token, alloc_token in Hinit. cbn in Hinit.
       destruct (Z.leb_spec cap 0); [lia | discriminate]. }
  rewrite (parse_number_integer p0 [] sign ds tok p1 Hcur Hinit Hsign Hint).
  cbn [is_none negb length Nat.add].
  pose proof (init_token_count _ _ _ _ Hinit)
    as (_ & Htok & Hcount & Hpos1 & Hlen1 & Hstr1 & _).
  pose proof (init_token_store _ _ _ _ Hinit) as Hstore.
  cbn [p_token_count p_str_pos p_str_len p_str p0 initial_parser p_token_store
       p_level] in Htok, Hcount, Hpos1, Hlen1, Hstr1, Hstore.
  subst tok. cbn [Z.to_nat] in *.
  set (p2 := finalize_token _ _).
  assert (Hc2 : p_token_count p2 = 1) by (cbn; lia).
  assert (Heos2 : at_eos p2 = true).
  { apply at_eos_true. cbn. rewrite Hlen1. subst len out.
    rewrite length_app. lia. }
  rewrite Hc2. cbn [Z.eqb].
  rewrite skip_whitespace_stop by (left; exact Heos2).
  rewrite Heos2, Hc2. cbn [negb]. change (Z.to_nat (1 - 1)) with 0%nat.
  eexists. split; [apply f_equal2; [exact Hc2 | reflexivity] |].
  subst p2. cbn [p_token_store update_token finalize_token set_store set_pos
                 ref_char p_str_pos].
  rewrite Hstore, !list_lookup_alter_eq.
  rewrite lookup_app_l by (rewrite length_replicate; lia).
  rewrite lookup_replicate_2 by lia.
  unfold set_token_is_last, set_token_string_length. cbn.
  do 2 f_equal. subst len out. rewrite length_app in *.
  rewrite Z.sub_0_r, Z.mod_small by lia. lia.
Qed.

Lemma emitted_integer_parses_witness :
  let out := written (mu_jems_integer (mu_jems_init [zero_level] 1)
                                      (-9223372036854775808)) in
  out = format_d (to_int64 (-9223372036854775808))
  /\ (length out <= 20)%nat
  /\ exists toks,
       mu_json_parse_buffer (Some out) (Z.of_nat (length out))
                            (fresh_store 1) 1
       = Returned 1 toks
       /\ toks !! 0%nat
          = Some (mk_token (Some 0) (Z.of_nat (length out))
                           MU_JSON_TOKEN_TYPE_INTEGER 0 true).
Proof.
  apply (emitted_integer_parses zero_level [] 1 (-9223372036854775808)
           (replicate 1 zero_token) 1).
  cbn. lia.
Defined.

(** ** A store with a token for each byte of the input is enough *)

Lemma alloc_fails (p : parser) ty :
  init_token p ty = None -> p_max_tokens p <= p_token_count p.
Proof.
  unfold init_token, alloc_token.
  destruct (Z.leb_spec (p_max_tokens p) (p_token_count p));
    [auto | discriminate].
Qed.

Lemma parse_string_loop_no_alloc (n : nat) : forall p,
  fst (parse_string_loop n p) <> MU_JSON_ERR_NOT_ENOUGH_TOKENS.
Proof.
  induction n as [|n IH]; intros p; cbn [parse_string_loop];
    [discriminate |].
  destruct (at_eos p); [discriminate |].
  destruct (Ascii.eqb (peek_char p) ch_backslash).
  - destruct (at_eos (get_char p)); [discriminate |].
    destruct (is_simple_escape (peek_char (get_char p))); [apply IH |].
    destruct (Ascii.eqb (peek_char (get_char p)) "u"); [| discriminate].
    destruct (hex_digits 4 (get_char (get_char p))); [apply IH | discriminate].
  - destruct (high_bit (peek_char p)); [discriminate |].
    destruct (code (peek_char p) <? 32); [discriminate |].
    destruct (Ascii.eqb (peek_char p) ch_quote); [discriminate | apply IH].
Qed.

Lemma match_literal_no_alloc (literal : list ascii) : forall p,
  fst (match_literal literal p) <> MU_JSON_ERR_NOT_ENOUGH_TOKENS.
Proof.
  induction literal as [|c rest IH]; intros p; cbn; [discriminate |].
  destruct (at_eos p); [discriminate |].
  destruct (Ascii.eqb (peek_char p) c); cbn; [apply IH | discriminate].
Qed.

(** A scalar reports a full store only where it draws its token, with a
    byte of the input under the read position. *)
Lemma parse_string_alloc (p p' : parser) :
  parse_string p = (MU_JSON_ERR_NOT_ENOUGH_TOKENS, p') ->
  at_eos p = false /\ p_max_tokens p <= p_token_count p.
Proof.
  unfold parse_string.
  destruct (at_eos p); cbn [orb]; [discriminate |].
  destruct (Ascii.eqb (peek_char p) ch_quote); cbn [negb]; [| discriminate].
  destruct (init_token p MU_JSON_TOKEN_TYPE_STRING) as [[tok p1]|] eqn:Hinit.
  2: { intros _. split; [reflexivity | exact (alloc_fails _ _ Hinit)]. }
  pose proof (parse_string_loop_no_alloc (remaining (get_char p1))
                (get_char p1)) as Hloop.
  destruct (parse_string_loop _ _) as [err p3]. cbn [fst] in Hloop.
  destruct (is_none err) eqn:Hnone; cbn [negb]; [| congruence].
  destruct (at_eos p3); [discriminate |].
  destruct (Ascii.eqb (peek_char p3) ch_quote); discriminate.
Qed.

Lemma parse_literal_alloc (p p' : parser) literal ty :
  parse_literal p literal ty = (MU_JSON_ERR_NOT_ENOUGH_TOKENS, p') ->
  at_eos p = false /\ p_max_tokens p <= p_token_count p.
Proof.
  unfold parse_literal. destruct (at_eos p); [discriminate |].
  destruct (init_token p ty) as [[tok p1]|] eqn:Hinit.
  2: { intros _. split; [reflexivity | exact (alloc_fails _ _ Hinit)]. }
  pose proof (match_literal_no_alloc literal p1) as Hlit.
  destruct (match_literal literal p1) as [err p2]. cbn [fst] in Hlit.
  destruct (is_none err); cbn [negb]; [discriminate | congruence].
Qed.

Lemma parse_number_alloc (p p' : parser) :
  parse_number p = (MU_JSON_ERR_NOT_ENOUGH_TOKENS, p') ->
  at_eos p = false /\ p_max_tokens p <= p_token_count p.
Proof.
  unfold parse_number.
  destruct (at_eos p); cbn [orb]; [discriminate |].
  destruct (is_number_prefix (peek_char p)); cbn [negb]; [| discriminate].
  destruct (init_token p MU_JSON_TOKEN_TYPE_INTEGER) as [[tok p0]|] eqn:Hinit.
  2: { intros _. split; [reflexivity | exact (alloc_fails _ _ Hinit)]. }
  intros H. exfalso. revert H.
  repeat first
    [ discriminate
    | match goal with
      | |- context [let '(_, _) := digits ?a in _] =>
          destruct (digits a) as [? ?]
      | |- context [if ?c then _ else _] => destruct c
      end; cbn [fst is_none negb] ].
Qed.

Lemma find_and_skip_no_alloc (p : parser) delimiter :
  fst (find_and_skip p delimiter) <> MU_JSON_ERR_NOT_ENOUGH_TOKENS.
Proof.
  unfold find_and_skip.
  destruct (at_eos (skip_whitespace p)); [discriminate |].
  destruct (negb _); [discriminate |].
  destruct (at_eos _); discriminate.
Qed.

(** A scalar that succeeds has drawn one token and consumed a byte. *)
Lemma scalar_count (p p0 p' : parser) ty tok :
  init_token p ty = Some (tok, p0) -> csteps tok p0 p' ->
  p_token_count p' = p_token_count p + 1.
Proof.
  intros Hinit Hsteps.
  pose proof (init_token_count _ _ _ _ Hinit) as (_ & _ & Hcount & _).
  rewrite (touched_count _ _ _ (csteps_touched _ _ _ Hsteps)). exact Hcount.
Qed.

Lemma budget_error (p p' : parser) (e : mu_json_err_t) :
  e <> MU_JSON_ERR_NONE -> e <> MU_JSON_ERR_NOT_ENOUGH_TOKENS ->
  within_budget p e p'.
Proof. intros H1 H2. split; intros H; contradiction. Qed.

Lemma budget_frame (p q p' : parser) (e : mu_json_err_t) :
  psteps p q -> within_budget q e p' -> within_budget p e p'.
Proof.
  intros Hsteps [H1 H2]. apply psteps_pframe in Hsteps.
  split; [exact H1 |]. intros He.
  rewrite <- (frame_max _ _ Hsteps), <- (frame_len _ _ Hsteps). exact (H2 He).
Qed.

Lemma budget_full (p : parser) ty :
  at_eos p = false -> p_token_count p <= p_str_pos p ->
  init_token p ty = None ->
  within_budget p MU_JSON_ERR_NOT_ENOUGH_TOKENS p.
Proof.
  intros Heos Hb Hinit. apply at_eos_false in Heos.
  apply alloc_fails in Hinit. split; [discriminate | lia].
Qed.

Lemma parse_string_budget (p p' : parser) e :
  parse_string p = (e, p') -> p_token_count p <= p_str_pos p ->
  within_budget p e p'.
Proof.
  intros H Hb. split; intros ->.
  - destruct (parse_string_scalar _ _ H) as (tok & p0 & Hinit & Hsteps).
    rewrite (scalar_count _ _ _ _ _ Hinit Hsteps).
    pose proof (parse_string_consumes _ _ H). lia.
  - destruct (parse_string_alloc _ _ H) as [Heos Hfull].
    apply at_eos_false in Heos. lia.
Qed.

Lemma parse_number_budget (p p' : parser) e :
  parse_number p = (e, p') -> p_token_count p <= p_str_pos p ->
  within_budget p e p'.
Proof.
  intros H Hb. split; intros ->.
  - destruct (parse_number_scalar _ _ H) as (tok & p0 & Hinit & Hsteps).
    rewrite (scalar_count _ _ _ _ _ Hinit Hsteps).
    pose proof (parse_number_consumes _ _ H). lia.
  - destruct (parse_number_alloc _ _ H) as [Heos Hfull].
    apply at_eos_false in Heos. lia.
Qed.

Lemma parse_literal_budget (p p' : parser) literal ty e :
  literal <> [] ->
  parse_literal p literal ty = (e, p') -> p_token_count p <= p_str_pos p ->
  within_budget p e p'.
Proof.
  intros Hne H Hb. split; intros ->.
  - destruct (parse_literal_scalar _ _ _ _ H) as (tok & p0 & Hinit & Hsteps).
    rewrite (scalar_count _ _ _ _ _ Hinit Hsteps).
    pose proof (parse_literal_consumes _ _ _ _ Hne H). lia.
  - destruct (parse_literal_alloc _ _ _ _ H) as [Heos Hfull].
    apply at_eos_false in Heos. lia.
Qed.

Lemma find_and_skip_count (p p' : parser) delimiter e :
  find_and_skip p delimiter = (e, p') ->
  p_token_count p' = p_token_count p.
Proof.
  unfold find_and_skip.
  destruct (at_eos (skip_whitespace p));
    [intros [= <- <-]; apply skip_whitespace_count |].
  destruct (negb _); [intros [= <- <-]; apply skip_whitespace_count |].
  destruct (at_eos _); intros [= <- <-];
    rewrite skip_whitespace_count; cbn; apply skip_whitespace_count.
Qed.

(** The separator before a member: the balance is kept, and the store is
    not touched. *)
Lemma separator_budget (first : bool) (p1 p2 : parser) e :
  (if negb first then find_and_skip p1 "," else (MU_JSON_ERR_NONE, p1))
  = (e, p2) ->
  p_token_count p1 <= p_str_pos p1 ->
  psteps p1 p2 /\ p_token_count p2 <= p_str_pos p2
  /\ e <> MU_JSON_ERR_NOT_ENOUGH_TOKENS.
Proof.
  destruct first; cbn [negb].
  - intros [= <- <-] Hb.
    split; [apply psteps_refl | split; [exact Hb | discriminate]].
  - intros H Hb. pose proof (find_and_skip_psteps _ _ _ _ H) as Hsteps.
    pose proof (find_and_skip_count _ _ _ _ H) as Hc.
    pose proof (psteps_pos _ _ Hsteps).
    pose proof (find_and_skip_no_alloc p1 ",") as Hne. rewrite H in Hne.
    split; [exact Hsteps | split; [lia | exact Hne]].
Qed.

(** Either the stage failed, and its result is the result of the whole
    function, or it succeeded and the balance holds after it. *)
Ltac stage H W Hb :=
  match type of H with
  | context [is_none ?e] =>
      let Hn := fresh "Hnone" in
      destruct (is_none e) eqn:Hn; cbn [negb] in H;
      [apply is_none_true in Hn; subst e;
       pose proof (proj1 W eq_refl) as Hb
      | injection H as <- <-; exact W]
  end.

Lemma container_budget (p p1 p4 p' : parser) ty tok e err closing :
  0 <= p_token_count p -> p_token_count p <= p_str_pos p ->
  at_eos p = false ->
  init_token p ty = Some (tok, p1) ->
  within_budget (get_char (set_level p1 (p_level p1 + 1))) err p4 ->
  (if negb (is_none err) then Some (err, p4)
   else if at_eos p4 then Some (MU_JSON_ERR_INCOMPLETE, p4)
   else if negb (Ascii.eqb (peek_char p4) closing) then
     Some (MU_JSON_ERR_INTERNAL, p4)
   else
     Some (MU_JSON_ERR_NONE,
           finalize_token
             (set_level (get_char p4) (p_level (get_char p4) - 1)) tok))
  = Some (e, p') ->
  within_budget p e p'.
Proof.
  intros Hc Hb Heos Hinit W H.
  pose proof (container_open_psteps _ _ _ _ Hc Heos Hinit) as Hopen.
  apply (budget_frame _ _ _ _ Hopen) in W.
  stage H W Hb4.
  destruct (at_eos p4); [injection H as <- <-; apply budget_error; discriminate |].
  destruct (Ascii.eqb (peek_char p4) closing); cbn [negb] in H;
    [| injection H as <- <-; apply budget_error; discriminate].
  injection H as <- <-. split; [| discriminate].
  intros _. cbn. lia.
Qed.

Lemma container_ready_budget (p p1 : parser) ty tok :
  0 <= p_token_count p -> p_token_count p <= p_str_pos p ->
  init_token p ty = Some (tok, p1) ->
  0 <= p_token_count (get_char (set_level p1 (p_level p1 + 1)))
  /\ p_token_count (get_char (set_level p1 (p_level p1 + 1)))
     <= p_str_pos (get_char (set_level p1 (p_level p1 + 1))).
Proof.
  intros Hc Hb Hinit.
  pose proof (init_token_count _ _ _ _ Hinit) as (_ & _ & Hcount & Hpos & _).
  cbn. lia.
Qed.

Lemma parse_mutual_budget (fuel : nat) :
  (forall p e p', parse_element fuel p = Some (e, p') ->
     0 <= p_token_count p -> p_token_count p <= p_str_pos p ->
     within_budget p e p')
  /\ (forall p e p', parse_object fuel p = Some (e, p') ->
        0 <= p_token_count p -> p_token_count p <= p_str_pos p ->
        within_budget p e p')
  /\ (forall first p e p', parse_object_loop fuel first p = Some (e, p') ->
        0 <= p_token_count p -> p_token_count p <= p_str_pos p ->
        within_budget p e p')
  /\ (forall p e p', parse_array fuel p = Some (e, p') ->
        0 <= p_token_count p -> p_token_count p <= p_str_pos p ->
        within_budget p e p')
  /\ (forall first p e p', parse_array_loop fuel first p = Some (e, p') ->
        0 <= p_token_count p -> p_token_count p <= p_str_pos p ->
        within_budget p e p').
Proof.
  induction fuel as [|fuel (IHe & IHo & IHol & IHa & IHal)];
    [repeat split; intros; discriminate |].
  destruct (parse_mutual_psteps fuel) as (Pe & Po & Pol & Pa & Pal).
  split; [| split; [| split; [| split]]].
  - (* parse_element *)
    intros p e p' H Hc Hb. cbn [parse_element] in H.
    pose proof (skip_whitespace_psteps p) as Hws.
    pose proof (skip_whitespace_count p) as Hcws.
    pose proof (psteps_pos _ _ Hws) as Hpws.
    set (p1 := skip_whitespace p) in *.
    assert (Hb1 : p_token_count p1 <= p_str_pos p1) by lia.
    assert (Hc1 : 0 <= p_token_count p1) by lia.
    apply (budget_frame _ _ _ _ Hws).
    destruct (at_eos p1).
    { injection H as <- <-. split; [intros _; exact Hb1 | discriminate]. }
    destruct (Ascii.eqb (peek_char p1) ch_quote).
    { injection H as H. exact (parse_string_budget _ _ _ H Hb1). }
    destruct (is_digit (peek_char p1) || Ascii.eqb (peek_char p1) "-").
    { injection H as H. exact (parse_number_budget _ _ _ H Hb1). }
    destruct (Ascii.eqb (peek_char p1) "t").
    { injection H as H.
      eapply parse_literal_budget; [| exact H | exact Hb1]. discriminate. }
    destruct (Ascii.eqb (peek_char p1) "f").
    { injection H as H.
      eapply parse_literal_budget; [| exact H | exact Hb1]. discriminate. }
    destruct (Ascii.eqb (peek_char p1) "n").
    { injection H as H.
      eapply parse_literal_budget; [| exact H | exact Hb1]. discriminate. }
    destruct (Ascii.eqb (peek_char p1) "{").
    { exact (IHo p1 e p' H Hc1 Hb1). }
    destruct (Ascii.eqb (peek_char p1) "[").
    { exact (IHa p1 e p' H Hc1 Hb1). }
    destruct (high_bit (peek_char p1)); injection H as <- <-;
      apply budget_error; discriminate.
  - (* parse_object *)
    intros p e p' H Hc Hb. cbn [parse_object] in H.
    destruct (at_eos p) eqn:Heos; cbn [orb] in H;
      [injection H as <- <-; apply budget_error; discriminate |].
    destruct (Ascii.eqb (peek_char p) "{"); cbn [negb] in H;
      [| injection H as <- <-; apply budget_error; discriminate].
    destruct (init_token p MU_JSON_TOKEN_TYPE_OBJECT) as [[tok p1]|] eqn:Hinit;
      [| injection H as <- <-; exact (budget_full _ _ Heos Hb Hinit)].
    destruct (parse_object_loop fuel true _) as [[err p4]|] eqn:Hloop;
      [| discriminate].
    destruct (container_ready_budget _ _ _ _ Hc Hb Hinit) as [Hc3 Hb3].
    pose proof (IHol true _ _ _ Hloop Hc3 Hb3) as W.
    exact (container_budget _ _ _ _ _ _ _ _ _ Hc Hb Heos Hinit W H).
  - (* parse_object_loop *)
    intros first p e p' H Hc Hb. cbn [parse_object_loop] in H.
    pose proof (skip_whitespace_psteps p) as Hws.
    pose proof (skip_whitespace_count p) as Hcws.
    pose proof (psteps_pos _ _ Hws) as Hpws.
    set (p1 := skip_whitespace p) in *.
    assert (Hb1 : p_token_count p1 <= p_str_pos p1) by lia.
    apply (budget_frame _ _ _ _ Hws).
    destruct (at_eos p1);
      [injection H as <- <-; split; [intros _; exact Hb1 | discriminate] |].
    destruct (Ascii.eqb (peek_char p1) "}");
      [injection H as <- <-; split; [intros _; exact Hb1 | discriminate] |].
    match type of H with
    | context [if negb first then ?a else ?b] =>
        destruct (if negb first then a else b) as [err2 p2] eqn:Hsep
    end.
    destruct (separator_budget _ _ _ _ Hsep Hb1) as (Hs12 & Hb2 & Hne2).
    apply (budget_frame _ _ _ _ Hs12).
    assert (Hc2 : 0 <= p_token_count p2)
      by (apply (psteps_count _ _ Hs12); lia).
    assert (W2 : within_budget p2 err2 p2)
      by (split; [intros _; exact Hb2 | intros Heq; contradiction]).
    stage H W2 Hb2'. clear W2 Hb2'.
    destruct (parse_string p2) as [err3 p3] eqn:Hkey.
    pose proof (parse_string_budget _ _ _ Hkey Hb2) as W3.
    pose proof (parse_string_psteps _ _ _ Hkey) as Hs23.
    pose proof (psteps_count _ _ Hs23 Hc2) as Hc3.
    stage H W3 Hb3.
    apply (budget_frame _ _ _ _ Hs23).
    destruct (find_and_skip p3 ":") as [err4 p4] eqn:Hcolon.
    pose proof (find_and_skip_psteps _ _ _ _ Hcolon) as Hs34.
    pose proof (find_and_skip_count _ _ _ _ Hcolon) as Hcount4.
    pose proof (psteps_pos _ _ Hs34) as Hpos4.
    pose proof (find_and_skip_no_alloc p3 ":") as Hne4.
    rewrite Hcolon in Hne4. cbn [fst] in Hne4.
    assert (W4 : within_budget p3 err4 p4)
      by (split; [intros _; lia | intros Heq; contradiction]).
    stage H W4 Hb4.
    apply (budget_frame _ _ _ _ Hs34).
    assert (Hc4 : 0 <= p_token_count p4) by lia.
    destruct (parse_element fuel p4) as [[err5 p5]|] eqn:Hval;
      [| discriminate].
    pose proof (IHe _ _ _ Hval Hc4 Hb4) as W5.
    pose proof (Pe _ _ _ Hc4 Hval) as Hs45.
    pose proof (psteps_count _ _ Hs45 Hc4) as Hc5.
    stage H W5 Hb5.
    apply (budget_frame _ _ _ _ Hs45).
    exact (IHol false _ _ _ H Hc5 Hb5).
  - (* parse_array *)
    intros p e p' H Hc Hb. cbn [parse_array] in H.
    destruct (at_eos p) eqn:Heos; cbn [orb] in H;
      [injection H as <- <-; apply budget_error; discriminate |].
    destruct (Ascii.eqb (peek_char p) "["); cbn [negb] in H;
      [| injection H as <- <-; apply budget_error; discriminate].
    destruct (init_token p MU_JSON_TOKEN_TYPE_ARRAY) as [[tok p1]|] eqn:Hinit;
      [| injection H as <- <-; exact (budget_full _ _ Heos Hb Hinit)].
    destruct (parse_array_loop fuel true _) as [[err p4]|] eqn:Hloop;
      [| discriminate].
    destruct (container_ready_budget _ _ _ _ Hc Hb Hinit) as [Hc3 Hb3].
    pose proof (IHal true _ _ _ Hloop Hc3 Hb3) as W.
    exact (container_budget _ _ _ _ _ _ _ _ _ Hc Hb Heos Hinit W H).
  - (* parse_array_loop *)
    intros first p e p' H Hc Hb. cbn [parse_array_loop] in H.
    pose proof (skip_whitespace_psteps p) as Hws.
    pose proof (skip_whitespace_count p) as Hcws.
    pose proof (psteps_pos _ _ Hws) as Hpws.
    set (p1 := skip_whitespace p) in *.
    assert (Hb1 : p_token_count p1 <= p_str_pos p1) by lia.
    apply (budget_frame _ _ _ _ Hws).
    destruct (at_eos p1);
      [injection H as <- <-; split; [intros _; exact Hb1 | discriminate] |].
    destruct (Ascii.eqb (peek_char p1) "]");
      [injection H as <- <-; split; [intros _; exact Hb1 | discriminate] |].
    match type of H with
    | context [if negb first then ?a else ?b] =>
        destruct (if negb first then a else b) as [err2 p2] eqn:Hsep
    end.
    destruct (separator_budget _ _ _ _ Hsep Hb1) as (Hs12 & Hb2 & Hne2).
    apply (budget_frame _ _ _ _ Hs12).
    assert (Hc2 : 0 <= p_token_count p2)
      by (apply (psteps_count _ _ Hs12); lia).
    assert (W2 : within_budget p2 err2 p2)
      by (split; [intros _; exact Hb2 | intros Heq; contradiction]).
    stage H W2 Hb2'. clear W2 Hb2'.
    destruct (parse_element fuel p2) as [[err3 p3]|] eqn:Hval;
      [| discriminate].
    pose proof (IHe _ _ _ Hval Hc2 Hb2) as W3.
    pose proof (Pe _ _ _ Hc2 Hval) as Hs23.
    pose proof (psteps_count _ _ Hs23 Hc2) as Hc3.
    stage H W3 Hb3.
    apply (budget_frame _ _ _ _ Hs23).
    exact (IHal false _ _ _ H Hc3 Hb3).
Qed.

(** X17: a parse of [len > 0] bytes never returns more than [len]: each
    token consumes at least one byte of its own.  So a store with a token
    for each byte of the input is enough: with [len <= max_tokens] the
    parser does not return [MU_JSON_ERR_NOT_ENOUGH_TOKENS]. *)
Theorem token_per_byte_suffices (s : list ascii) (len : Z)
    (tokens : list mu_json_token_t) (cap v : Z)
    (toks : list mu_json_token_t) :
  0 < len ->
  mu_json_parse_buffer (Some s) len (Some tokens) cap = Returned v toks ->
  v <= len
  /\ (len <= cap -> v <> err_value MU_JSON_ERR_NOT_ENOUGH_TOKENS).
Proof.
  intros Hlen. unfold mu_json_parse_buffer, parse_json.
  destruct (Z.eqb_spec len 0); [lia |].
  destruct (Z.eqb_spec cap 0);
    [intros [= <- <-]; cbn; split; [lia | discriminate] |].
  destruct (parser_reset _) as [p0|] eqn:Hreset; [| discriminate].
  destruct (parser_reset_inv _ _ Hreset)
    as (_ & _ & Hl0 & Hpos0 & Hmax0 & Hc0).
  cbn [p_str_len p_max_tokens] in Hl0, Hmax0.
  destruct (parse_element _ p0) as [[err p1]|] eqn:Hparse; [| discriminate].
  destruct (parse_mutual_psteps (parse_fuel len)) as (Hsteps & _).
  assert (Hst : psteps p0 p1) by (eapply Hsteps; [lia | exact Hparse]).
  pose proof (psteps_pframe _ _ Hst) as Hframe.
  destruct (parse_mutual_budget (parse_fuel len)) as (Hbudget & _).
  destruct (Hbudget _ _ _ Hparse ltac:(lia) ltac:(lia)) as [Wok Wfull].
  destruct (is_none err) eqn:Hnone; cbn [negb].
  2: { intros [= <- <-]. apply is_none_false in Hnone.
       pose proof (err_value_negative _ Hnone). split; [lia |].
       intros Hcap Heq. apply err_value_inj in Heq. specialize (Wfull Heq).
       lia. }
  apply is_none_true in Hnone. specialize (Wok Hnone).
  destruct (Z.eqb_spec (p_token_count p1) 0) as [Hzero | Hpos].
  { intros [= <- <-]. cbn. split; [lia | discriminate]. }
  destruct (at_eos (skip_whitespace p1)); cbn [negb].
  - intros [= <- <-].
    cbn [p_token_count update_token set_store].
    rewrite skip_whitespace_count.
    pose proof (frame_pos_len _ _ Hframe) as Hpl.
    pose proof (frame_count _ _ Hframe) as Hcount.
    rewrite Hl0, Hpos0 in Hpl. specialize (Hpl ltac:(lia)).
    split; [lia |]. intros _ Heq.
    pose proof (err_value_negative MU_JSON_ERR_NOT_ENOUGH_TOKENS
                  ltac:(discriminate)). lia.
  - intros [= <- <-]. cbn. split; [lia | discriminate].
Qed.

Lemma token_per_byte_suffices_witness :
  3 <= 6 /\ (6 <= 6 -> 3 <> err_value MU_JSON_ERR_NOT_ENOUGH_TOKENS).
Proof.
  apply (token_per_byte_suffices (text "[1, 2]") 6
           (replicate 6 zero_token) 6 3
           (tokens_of_1_2 ++ replicate 2 zero_token)).
  - lia.
  - vm_compute. reflexivity.
Defined.

(** ** The type of a token and its first byte *)

Lemma hex_digits_set_pos (k : nat) : forall p p',
  hex_digits k p = Some p' -> p' = set_pos p (p_str_pos p').
Proof.
  induction k as [|k IH]; intros p p'; cbn [hex_digits].
  - intros [= <-]. symmetry. apply set_pos_same.
  - destruct (at_eos p || negb (is_hex (peek_char p))); [discriminate |].
    intros H. apply IH in H. rewrite H at 1. apply set_pos_set_pos.
Qed.

Lemma parse_string_loop_set_pos (n : nat) : forall p e p',
  parse_string_loop n p = (e, p') -> p' = set_pos p (p_str_pos p').
Proof.
  induction n as [|n IH]; intros p e p'; cbn [parse_string_loop].
  - intros [= <- <-]. symmetry. apply set_pos_same.
  - destruct (at_eos p); [intros [= <- <-]; symmetry; apply set_pos_same |].
    destruct (Ascii.eqb (peek_char p) ch_backslash).
    + destruct (at_eos (get_char p)); [intros [= <- <-]; reflexivity |].
      destruct (is_simple_escape (peek_char (get_char p))).
      { intros H. apply IH in H. rewrite H at 1. reflexivity. }
      destruct (Ascii.eqb (peek_char (get_char p)) "u");
        [| intros [= <- <-]; reflexivity].
      destruct (hex_digits 4 (get_char (get_char p))) as [p2|] eqn:Hhex;
        [| intros [= <- <-]; reflexivity].
      intros H. apply IH in H. apply hex_digits_set_pos in Hhex.
      rewrite H at 1. rewrite Hhex at 1. reflexivity.
    + destruct (high_bit (peek_char p));
        [intros [= <- <-]; symmetry; apply set_pos_same |].
      destruct (code (peek_char p) <? 32);
        [intros [= <- <-]; symmetry; apply set_pos_same |].
      destruct (Ascii.eqb (peek_char p) ch_quote);
        [intros [= <- <-]; symmetry; apply set_pos_same |].
      intros H. apply IH in H. rewrite H at 1. reflexivity.
Qed.

Lemma parse_string_type (p p' : parser) :
  (Z.to_nat (p_token_count p) < length (p_token_store p))%nat ->
  parse_string p = (MU_JSON_ERR_NONE, p') ->
  type (token_at (p_token_store p') (Z.to_nat (p_token_count p)))
  = MU_JSON_TOKEN_TYPE_STRING.
Proof.
  intros Hroom H. apply parse_string_success in H.
  destruct H as (tok & p1 & p3 & _ & _ & Hinit & Hloop & _ & _ & ->).
  pose proof (init_token_count _ _ _ _ Hinit) as (_ & Htok & _).
  rewrite <- Htok in *.
  rewrite type_finalize_token. apply parse_string_loop_set_pos in Hloop.
  rewrite Hloop. cbn [get_char set_pos p_token_store].
  exact (type_init_token _ _ _ _ Hroom Hinit).
Qed.

Lemma parse_literal_type (p p' : parser) literal ty :
  (Z.to_nat (p_token_count p) < length (p_token_store p))%nat ->
  parse_literal p literal ty = (MU_JSON_ERR_NONE, p') ->
  type (token_at (p_token_store p') (Z.to_nat (p_token_count p))) = ty.
Proof.
  intros Hroom. unfold parse_literal.
  destruct (at_eos p); [discriminate |].
  destruct (init_token p ty) as [[tok p1]|] eqn:Hinit; [| discriminate].
  destruct (match_literal literal p1) as [err p2] eqn:Hlit.
  destruct (is_none err) eqn:Hnone; cbn [negb];
    [| intros [= -> _]; discriminate].
  apply is_none_true in Hnone. subst err. intros [= <-].
  pose proof (init_token_count _ _ _ _ Hinit) as (_ & Htok & _).
  rewrite <- Htok in *.
  rewrite type_finalize_token. apply match_literal_success in Hlit.
  rewrite Hlit. cbn [set_pos p_token_store].
  exact (type_init_token _ _ _ _ Hroom Hinit).
Qed.

Lemma parse_number_type (p p' : parser) :
  (Z.to_nat (p_token_count p) < length (p_token_store p))%nat ->
  parse_number p = (MU_JSON_ERR_NONE, p') ->
  type (token_at (p_token_store p') (Z.to_nat (p_token_count p)))
  = MU_JSON_TOKEN_TYPE_INTEGER
  \/ type (token_at (p_token_store p') (Z.to_nat (p_token_count p)))
     = MU_JSON_TOKEN_TYPE_NUMBER.
Proof.
  intros Hroom H. apply parse_number_success in H.
  destruct H as (tok & p0 & hi & p3 & p6 & _ & _ & Hinit & H).
  cbn zeta in H. destruct H as (_ & _ & Hint & _ & Hfrac & Hexp).
  pose proof (init_token_count _ _ _ _ Hinit) as (_ & Htok & _).
  rewrite <- Htok in *.
  assert (Hroom0 : (tok < length (p_token_store p0))%nat).
  { rewrite (init_token_store _ _ _ _ Hinit), length_alter. exact Hroom. }
  pose proof (type_init_token _ _ _ _ Hroom Hinit) as Hty0.
  assert (Hstore3 : p_token_store p3 = p_token_store p0).
  { rewrite (digits_set_pos _ _ _ Hint). cbn [set_pos p_token_store].
    destruct (Ascii.eqb (peek_char _) "0"),
      (Ascii.eqb (peek_char p0) "-"); reflexivity. }
  assert (Hroom6 : (tok < length (p_token_store p6))%nat).
  { destruct Hfrac as [[_ ->] | (_ & _ & Hfrac)]; [congruence |].
    rewrite (digits_set_pos _ _ _ Hfrac). cbn. rewrite length_alter.
    congruence. }
  destruct Hexp as [[_ ->] | (_ & _ & p10 & Hexp & ->)];
    rewrite type_finalize_token.
  - destruct Hfrac as [[_ ->] | (_ & _ & Hfrac)].
    + left. rewrite Hstore3. exact Hty0.
    + right. rewrite (digits_set_pos _ _ _ Hfrac).
      cbn [set_pos get_char p_token_store].
      apply type_set_number. congruence.
  - right. rewrite (digits_set_pos _ _ _ Hexp).
    cbn [set_pos p_token_store].
    match goal with
    | |- context [if ?c then _ else _] => destruct c
    end; cbn [set_pos get_char p_token_store];
      apply type_set_number; exact Hroom6.
Qed.

(** A scalar whose token has a type that its first byte announces. *)
Lemma scalar_typed (p p0 p' : parser) ty ty' tok :
  init_token p ty = Some (tok, p0) -> csteps tok p0 p' ->
  ready p ->
  type (token_at (p_token_store p') tok) = ty' ->
  opens (peek_char p) ty' = true ->
  typed p p'.
Proof.
  intros Hinit Hsteps (Hc & Hfresh & _) Hty Hopen i Hi.
  pose proof (init_token_count _ _ _ _ Hinit)
    as (Hlt & Htok & Hcount & Hpos0 & _ & Hstr0 & _).
  pose proof (init_token_store _ _ _ _ Hinit) as Hstore.
  assert (Hzero : p_token_store p !! tok = Some zero_token)
    by (apply Hfresh; lia).
  assert (Ht0 : p_token_store p0 !! tok
                = Some (mk_token (Some (p_str_pos p)) 0 ty
                                 (p_level p mod 2 ^ 11) false)).
  { rewrite Hstore, list_lookup_alter_eq, Hzero. reflexivity. }
  destruct (csteps_touched _ _ _ Hsteps) as [Hs' _ _ Hc' _ _ _ Ht'].
  destruct (Ht' _ Ht0) as (t' & Hlook & Hstr & _).
  assert (i = tok) by lia. subst i.
  unfold token_at in Hty |- *. rewrite Hlook in Hty |- *. cbn in Hty |- *.
  exists (p_str_pos p). split; [exact Hstr |].
  rewrite Hs', Hstr0, Hty. exact Hopen.
Qed.

Lemma fresh_room (p : parser) :
  0 <= p_token_count p < p_max_tokens p -> fresh p ->
  (Z.to_nat (p_token_count p) < length (p_token_store p))%nat.
Proof.
  intros Hc Hfresh. apply lookup_lt_is_Some. exists zero_token.
  apply Hfresh. lia.
Qed.

Lemma typed_same_count (p p' : parser) :
  p_token_count p' = p_token_count p -> typed p p'.
Proof. intros H i Hi. lia. Qed.

Lemma typed_trans (p q r : parser) :
  typed p q -> built q r -> typed q r -> psteps q r -> typed p r.
Proof.
  intros Hpq B Hqr Hsteps i Hi.
  destruct (Z.lt_ge_cases (Z.of_nat i) (p_token_count q)) as [Hlt | Hge].
  - unfold token_at. rewrite (built_frame _ _ B) by lia.
    rewrite (frame_str _ _ (psteps_pframe _ _ Hsteps)).
    apply Hpq. lia.
  - apply Hqr. lia.
Qed.

(** A container: its own token, then the tokens of its members. *)
Lemma container_typed (p p1 p4 : parser) ty tok :
  init_token p ty = Some (tok, p1) -> ready p ->
  opens (peek_char p) ty = true ->
  built (get_char (set_level p1 (p_level p1 + 1))) p4 ->
  psteps (get_char (set_level p1 (p_level p1 + 1))) p4 ->
  typed (get_char (set_level p1 (p_level p1 + 1))) p4 ->
  typed p (finalize_token
             (set_level (get_char p4) (p_level (get_char p4) - 1)) tok).
Proof.
  intros Hinit (Hc & Hfresh & _) Hopen B Hsteps T i Hi.
  pose proof (init_token_count _ _ _ _ Hinit)
    as (Hlt & Htok & Hcount & Hpos0 & _ & Hstr0 & _).
  pose proof (init_token_store _ _ _ _ Hinit) as Hstore.
  assert (Hzero : p_token_store p !! tok = Some zero_token)
    by (apply Hfresh; lia).
  pose proof (frame_str _ _ (psteps_pframe _ _ Hsteps)) as Hstr4.
  cbn [p_str get_char set_level set_pos] in Hstr4.
  cbn [p_token_count finalize_token update_token set_store set_level
       get_char set_pos] in Hi.
  cbn [p_str p_token_store finalize_token update_token set_store set_level
       get_char set_pos].
  rewrite token_at_alter.
  destruct (decide (tok = i)) as [<- | Hne].
  - rewrite (built_frame _ _ B) by (left; cbn; lia).
    cbn [p_token_store get_char set_level set_pos].
    rewrite Hstore, list_lookup_alter_eq, Hzero. cbn.
    exists (p_str_pos p). split; [reflexivity |].
    rewrite Hstr4, Hstr0. exact Hopen.
  - apply T. cbn. lia.
Qed.

Lemma typed_from (p q p' : parser) :
  p_token_count q = p_token_count p -> typed q p' -> typed p p'.
Proof. intros Hc T i Hi. apply T. lia. Qed.

Lemma separator_count (first : bool) (p1 p2 : parser) e :
  (if negb first then find_and_skip p1 "," else (MU_JSON_ERR_NONE, p1))
  = (e, p2) ->
  p_token_count p2 = p_token_count p1.
Proof.
  destruct first; cbn [negb]; [intros [= <- <-]; reflexivity |].
  apply find_and_skip_count.
Qed.

Lemma parse_string_typed (p p' : parser) :
  parse_string p = (MU_JSON_ERR_NONE, p') -> ready p -> typed p p'.
Proof.
  intros H Hready. pose proof Hready as (Hc & Hfresh & _).
  destruct (parse_string_scalar _ _ H) as (tok & p0 & Hinit & Hsteps).
  pose proof (init_token_count _ _ _ _ Hinit) as (Hlt & Htok & _).
  apply (scalar_typed p p0 p' _ MU_JSON_TOKEN_TYPE_STRING tok Hinit Hsteps
           Hready).
  - rewrite Htok. apply parse_string_type; [| exact H].
    apply fresh_room; [lia | exact Hfresh].
  - apply parse_string_success in H.
    destruct H as (_ & _ & _ & _ & Hq & _). cbn. rewrite Hq.
    apply Ascii.eqb_refl.
Qed.

Lemma parse_number_typed (p p' : parser) :
  parse_number p = (MU_JSON_ERR_NONE, p') -> ready p -> typed p p'.
Proof.
  intros H Hready. pose proof Hready as (Hc & Hfresh & _).
  destruct (parse_number_scalar _ _ H) as (tok & p0 & Hinit & Hsteps).
  pose proof (init_token_count _ _ _ _ Hinit) as (Hlt & Htok & _).
  assert (Hroom : (Z.to_nat (p_token_count p)
                   < length (p_token_store p))%nat)
    by (apply fresh_room; [lia | exact Hfresh]).
  assert (Hprefix : is_number_prefix (peek_char p) = true).
  { apply parse_number_success in H.
    destruct H as (? & ? & ? & ? & ? & _ & Hp & _). exact Hp. }
  destruct (parse_number_type _ _ Hroom H) as [Hty | Hty];
    rewrite <- Htok in Hty;
    exact (scalar_typed p p0 p' _ _ tok Hinit Hsteps Hready Hty Hprefix).
Qed.

Lemma parse_literal_typed (p p' : parser) literal ty :
  parse_literal p literal ty = (MU_JSON_ERR_NONE, p') -> ready p ->
  opens (peek_char p) ty = true -> typed p p'.
Proof.
  intros H Hready Hopen. pose proof Hready as (Hc & Hfresh & _).
  destruct (parse_literal_scalar _ _ _ _ H) as (tok & p0 & Hinit & Hsteps).
  pose proof (init_token_count _ _ _ _ Hinit) as (Hlt & Htok & _).
  apply (scalar_typed p p0 p' _ ty tok Hinit Hsteps Hready); [| exact Hopen].
  rewrite Htok. apply (parse_literal_type _ _ literal); [| exact H].
  apply fresh_room; [lia | exact Hfresh].
Qed.

Lemma parse_mutual_typed (fuel : nat) :
  (forall p p', parse_element fuel p = Some (MU_JSON_ERR_NONE, p') ->
     ready p -> shallow p' -> typed p p')
  /\ (forall p p', parse_object fuel p = Some (MU_JSON_ERR_NONE, p') ->
        ready p -> shallow p' -> typed p p')
  /\ (forall first p p',
        parse_object_loop fuel first p = Some (MU_JSON_ERR_NONE, p') ->
        ready p -> shallow p' -> typed p p')
  /\ (forall p p', parse_array fuel p = Some (MU_JSON_ERR_NONE, p') ->
        ready p -> shallow p' -> typed p p')
  /\ (forall first p p',
        parse_array_loop fuel first p = Some (MU_JSON_ERR_NONE, p') ->
        ready p -> shallow p' -> typed p p').
Proof.
  induction fuel as [|fuel (IHe & IHo & IHol & IHa & IHal)];
    [repeat split; intros; discriminate |].
  destruct (parse_mutual_psteps fuel) as (Pe & Po & Pol & Pa & Pal).
  destruct (parse_mutual_built fuel) as (Be & Bo & Bol & Ba & Bal).
  split; [| split; [| split; [| split]]].
  - (* parse_element *)
    intros p p' H Hready Hsh. cbn [parse_element] in H.
    pose proof (skip_whitespace_built p) as Bws.
    pose proof (skip_whitespace_count p) as Hcws.
    pose proof (ready_built _ _ Hready Bws) as Hready1.
    set (p1 := skip_whitespace p) in *.
    apply (typed_from p p1 p' Hcws).
    destruct (at_eos p1);
      [injection H as <-; apply typed_same_count; reflexivity |].
    destruct (Ascii.eqb (peek_char p1) ch_quote).
    { injection H as H. exact (parse_string_typed _ _ H Hready1). }
    destruct (is_digit (peek_char p1) || Ascii.eqb (peek_char p1) "-").
    { injection H as H. exact (parse_number_typed _ _ H Hready1). }
    destruct (Ascii.eqb (peek_char p1) "t") eqn:Ht.
    { injection H as H. exact (parse_literal_typed _ _ _ _ H Hready1 Ht). }
    destruct (Ascii.eqb (peek_char p1) "f") eqn:Hf.
    { injection H as H. exact (parse_literal_typed _ _ _ _ H Hready1 Hf). }
    destruct (Ascii.eqb (peek_char p1) "n") eqn:Hn.
    { injection H as H. exact (parse_literal_typed _ _ _ _ H Hready1 Hn). }
    destruct (Ascii.eqb (peek_char p1) "{").
    { exact (IHo p1 p' H Hready1 Hsh). }
    destruct (Ascii.eqb (peek_char p1) "[").
    { exact (IHa p1 p' H Hready1 Hsh). }
    destruct (high_bit (peek_char p1)); discriminate.
  - (* parse_object *)
    intros p p' H Hready Hsh. cbn [parse_object] in H.
    destruct (at_eos p) eqn:Heos; cbn [orb] in H; [discriminate |].
    destruct (Ascii.eqb (peek_char p) "{") eqn:Hopen; cbn [negb] in H;
      [| discriminate].
    destruct (init_token p MU_JSON_TOKEN_TYPE_OBJECT) as [[tok p1]|] eqn:Hinit;
      [| discriminate].
    destruct (parse_object_loop fuel true _) as [[err p4]|] eqn:Hloop;
      [| discriminate].
    succeeded H.
    destruct (at_eos p4) eqn:Heos4; [discriminate |].
    destruct (Ascii.eqb (peek_char p4) "}"); cbn [negb] in H; [| discriminate].
    injection H as <-.
    pose proof Hready as (Hc & _ & _).
    pose proof (init_token_count _ _ _ _ Hinit) as (_ & _ & Hcount & _).
    assert (Hsteps : psteps (get_char (set_level p1 (p_level p1 + 1))) p4).
    { eapply Pol; [| exact Hloop]. cbn. lia. }
    destruct (container_ready p p1 p4 _ tok Hinit Hready Heos4 Hsteps Hsh)
      as [Hready3 Hsh4].
    pose proof (Bol true _ _ Hloop Hready3 Hsh4) as B.
    pose proof (IHol true _ _ Hloop Hready3 Hsh4) as T.
    exact (container_typed p p1 p4 _ tok Hinit Hready Hopen B Hsteps T).
  - (* parse_object_loop *)
    intros first p p' H Hready Hsh. cbn [parse_object_loop] in H.
    pose proof (skip_whitespace_built p) as Bws.
    pose proof (skip_whitespace_count p) as Hcws.
    pose proof (ready_built _ _ Hready Bws) as Hready1.
    set (p1 := skip_whitespace p) in *.
    apply (typed_from p p1 p' Hcws).
    destruct (at_eos p1);
      [injection H as <-; apply typed_same_count; reflexivity |].
    destruct (Ascii.eqb (peek_char p1) "}");
      [injection H as <-; apply typed_same_count; reflexivity |].
    match type of H with
    | context [if negb first then ?a else ?b] =>
        destruct (if negb first then a else b) as [err2 p2] eqn:Hsep
    end.
    succeeded H. pose proof (separator_count _ _ _ _ Hsep) as Hc12.
    apply separator_built in Hsep.
    pose proof (ready_built _ _ Hready1 Hsep) as Hready2.
    apply (typed_from p1 p2 p' Hc12).
    destruct (parse_string p2) as [err3 p3] eqn:Hkey. succeeded H.
    pose proof (parse_string_typed _ _ Hkey Hready2) as T23.
    assert (B23 : built p2 p3).
    { destruct (parse_string_scalar _ _ Hkey) as (tok & p0 & Hinit & Hsteps).
      apply (scalar_element p2 p0 p3 _ tok Hinit Hsteps);
        [discriminate | exact (parse_string_consumes _ _ Hkey)
        | exact Hready2]. }
    pose proof (ready_built _ _ Hready2 B23) as Hready3.
    destruct (find_and_skip p3 ":") as [err4 p4] eqn:Hcolon. succeeded H.
    pose proof (find_and_skip_psteps _ _ _ _ Hcolon) as Hs34.
    pose proof (find_and_skip_count _ _ _ _ Hcolon) as Hc34.
    apply find_and_skip_built in Hcolon.
    pose proof (ready_built _ _ Hready3 Hcolon) as Hready4.
    destruct (parse_element fuel p4) as [[err5 p5]|] eqn:Hval;
      [| discriminate].
    succeeded H.
    pose proof Hready4 as (Hc4 & _ & _).
    pose proof (Pe _ _ _ Hc4 Hval) as Hs45.
    pose proof (psteps_count _ _ Hs45 Hc4) as Hc5.
    pose proof (Pol _ _ _ _ Hc5 H) as Hs5.
    pose proof (shallow_back _ _ Hs5 Hsh) as Hsh5.
    destruct (Be p4 p5 Hval Hready4 Hsh5) as [B45 _].
    pose proof (IHe p4 p5 Hval Hready4 Hsh5) as T45.
    pose proof (ready_built _ _ Hready4 B45) as Hready5.
    pose proof (Bol false p5 p' H Hready5 Hsh) as B5.
    pose proof (IHol false p5 p' H Hready5 Hsh) as T5.
    pose proof (typed_trans _ _ _ T23 Hcolon
                  (typed_same_count _ _ Hc34) Hs34) as T24.
    pose proof (typed_trans _ _ _ T24 B45 T45 Hs45) as T25.
    exact (typed_trans _ _ _ T25 B5 T5 Hs5).
  - (* parse_array *)
    intros p p' H Hready Hsh. cbn [parse_array] in H.
    destruct (at_eos p) eqn:Heos; cbn [orb] in H; [discriminate |].
    destruct (Ascii.eqb (peek_char p) "[") eqn:Hopen; cbn [negb] in H;
      [| discriminate].
    destruct (init_token p MU_JSON_TOKEN_TYPE_ARRAY) as [[tok p1]|] eqn:Hinit;
      [| discriminate].
    destruct (parse_array_loop fuel true _) as [[err p4]|] eqn:Hloop;
      [| discriminate].
    succeeded H.
    destruct (at_eos p4) eqn:Heos4; [discriminate |].
    destruct (Ascii.eqb (peek_char p4) "]"); cbn [negb] in H; [| discriminate].
    injection H as <-.
    pose proof Hready as (Hc & _ & _).
    pose proof (init_token_count _ _ _ _ Hinit) as (_ & _ & Hcount & _).
    assert (Hsteps : psteps (get_char (set_level p1 (p_level p1 + 1))) p4).
    { eapply Pal; [| exact Hloop]. cbn. lia. }
    destruct (container_ready p p1 p4 _ tok Hinit Hready Heos4 Hsteps Hsh)
      as [Hready3 Hsh4].
    pose proof (Bal true _ _ Hloop Hready3 Hsh4) as B.
    pose proof (IHal true _ _ Hloop Hready3 Hsh4) as T.
    exact (container_typed p p1 p4 _ tok Hinit Hready Hopen B Hsteps T).
  - (* parse_array_loop *)
    intros first p p' H Hready Hsh. cbn [parse_array_loop] in H.
    pose proof (skip_whitespace_built p) as Bws.
    pose proof (skip_whitespace_count p) as Hcws.
    pose proof (ready_built _ _ Hready Bws) as Hready1.
    set (p1 := skip_whitespace p) in *.
    apply (typed_from p p1 p' Hcws).
    destruct (at_eos p1);
      [injection H as <-; apply typed_same_count; reflexivity |].
    destruct (Ascii.eqb (peek_char p1) "]");
      [injection H as <-; apply typed_same_count; reflexivity |].
    match type of H with
    | context [if negb first then ?a else ?b] =>
        destruct (if negb first then a else b) as [err2 p2] eqn:Hsep
    end.
    succeeded H. pose proof (separator_count _ _ _ _ Hsep) as Hc12.
    apply separator_built in Hsep.
    pose proof (ready_built _ _ Hready1 Hsep) as Hready2.
    apply (typed_from p1 p2 p' Hc12).
    destruct (parse_element fuel p2) as [[err3 p3]|] eqn:Hval;
      [| discriminate].
    succeeded H.
    pose proof Hready2 as (Hc2 & _ & _).
    pose proof (Pe _ _ _ Hc2 Hval) as Hs23.
    pose proof (psteps_count _ _ Hs23 Hc2) as Hc3.
    pose proof (Pal _ _ _ _ Hc3 H) as Hs3.
    pose proof (shallow_back _ _ Hs3 Hsh) as Hsh3.
    destruct (Be p2 p3 Hval Hready2 Hsh3) as [B23 _].
    pose proof (IHe p2 p3 Hval Hready2 Hsh3) as T23.
    pose proof (ready_built _ _ Hready2 B23) as Hready3.
    pose proof (Bal false p3 p' H Hready3 Hsh) as B3.
    pose proof (IHal false p3 p' H Hready3 Hsh) as T3.
    exact (typed_trans _ _ _ T23 B3 T3 Hs3).
Qed.

Lemma parse_success_typed (s : list ascii) len tokens cap n toks :
  mu_json_parse_buffer (Some s) len (Some tokens) cap = Returned n toks ->
  0 < n -> 0 < len -> below_depth_limit n toks ->
  exists p1,
    typed (initial_parser s len tokens cap) p1
    /\ p_str p1 = s /\ n = p_token_count p1
    /\ toks = alter (fun t => set_token_is_last t true) (Z.to_nat (n - 1))
                    (p_token_store p1).
Proof.
  intros H Hn Hlen Hdepth.
  destruct (parse_success_built _ _ _ _ _ _ H Hn Hlen Hdepth)
    as (_ & _ & _ & _ & _ & _ & Hcap & _).
  unfold mu_json_parse_buffer in H.
  destruct (parse_json_success _ _ _ _ _ _ H Hn)
    as (s' & tokens' & p0 & p1 & [= <-] & [= <-] & Hreset & Hparse & _
        & -> & ->).
  rewrite parser_reset_initial in Hreset by exact Hcap.
  injection Hreset as <-.
  set (p0 := initial_parser s len tokens cap) in *.
  assert (Hready : ready p0).
  { split; [cbn; lia | split].
    - intros i Hi. cbn in Hi |- *.
      rewrite lookup_app_l by (rewrite length_replicate; lia).
      apply lookup_replicate_2. lia.
    - unfold level_fits. cbn. lia. }
  assert (Hsteps : psteps p0 p1).
  { destruct (parse_mutual_psteps (parse_fuel len)) as (He & _).
    eapply He; [cbn; lia | exact Hparse]. }
  assert (Hsh : shallow p1).
  { intros i Hi. specialize (Hdepth i Hi).
    destruct (token_at_mark_last (p_token_store p1)
                (Z.to_nat (p_token_count p1 - 1)) i) as [Hl _].
    rewrite Hl in Hdepth. exact Hdepth. }
  destruct (parse_mutual_typed (parse_fuel len)) as (Te & _).
  exists p1. split; [exact (Te p0 p1 Hparse Hready Hsh) |].
  split; [exact (frame_str _ _ (psteps_pframe _ _ Hsteps)) |].
  split; reflexivity.
Qed.

(** X18: after a successful parse whose nesting stayed below the depth
    limit, the type of every token can be read off the byte of the input
    at which the token starts: a string starts at a double quote, an
    object at [{], an array at [[], [true], [false] and [null] at [t], [f]
    and [n], and an integer or a number at a digit or a minus sign. *)
Theorem token_type_follows_first_byte (s : list ascii) (len : Z)
    (tokens : list mu_json_token_t) (cap n : Z)
    (toks : list mu_json_token_t) (i : nat) :
  mu_json_parse_buffer (Some s) len (Some tokens) cap = Returned n toks ->
  0 < n -> 0 < len -> below_depth_limit n toks -> Z.of_nat i < n ->
  exists t o,
    toks !! i = Some t /\ str t = Some o /\ 0 <= o < len
    /\ opens (default NUL (s !! Z.to_nat o)) (type t) = true.
Proof.
  intros H Hn Hlen Hdepth Hi.
  destruct (parse_success_extents _ _ _ _ _ _ H Hn Hlen Hdepth)
    as (Hext & _).
  destruct (Hext i Hi) as (t & o & Hlook & Hstr & Ho & _).
  exists t, o. split; [exact Hlook |]. split; [exact Hstr |].
  split; [exact Ho |].
  destruct (parse_success_typed _ _ _ _ _ _ H Hn Hlen Hdepth)
    as (p1 & T & Hs & -> & ->).
  destruct (T i ltac:(cbn; lia)) as (o' & Hstr' & Hopen).
  rewrite Hs in Hopen.
  rewrite list_lookup_alter in Hlook. unfold token_at in Hstr', Hopen.
  destruct (p_token_store p1 !! i) as [t1|] eqn:Hl1;
    [| destruct (decide _); discriminate].
  cbn in Hstr', Hopen.
  assert (Heq : str t = str t1 /\ type t = type t1).
  { destruct (decide _) as [e |]; [rewrite e in Hlook |];
      rewrite ?Hl1 in Hlook; cbn in Hlook; injection Hlook as <-; auto. }
  destruct Heq as [Hs1 Hty1]. rewrite Hty1.
  rewrite Hs1, Hstr' in Hstr. injection Hstr as <-. exact Hopen.
Qed.

Lemma token_type_follows_first_byte_witness :
  exists t o,
    tokens_of_1_2 !! 2%nat = Some t /\ str t = Some o /\ 0 <= o < 6
    /\ opens (default NUL (text "[1, 2]" !! Z.to_nat o)) (type t) = true.
Proof.
  apply (token_type_follows_first_byte (text "[1, 2]") 6
           (replicate 4 zero_token) 4 3 tokens_of_1_2 2).
  - vm_compute. reflexivity.
  - lia.
  - lia.
  - exact tokens_of_1_2_below_depth_limit.
  - lia.
Defined.
